(** * Table seating: subtour detection, cutting-plane controller, cycle and table extraction, page state

    A shallow embedding of [src/solve_sitting.ts] ([findSubtours],
    [solveSitting]), of [docs/matrix_to_table.mjs] ([extractTableCycle],
    [extractTablesFromMatrix]), of [docs/solve_sitting.mjs] (the one-shot
    [solveSitting]) and of the state handling of [src/main.ts]
    ([handleAddPerson], [handleRemovePerson], [handleClearAll], the
    preference matrix of [triggerSolutionUpdate], [displayTable] up to the
    drawing), followed by the properties of these functions.

    Conventions of the embedding:
    - JavaScript arrays are lists; [a[i]] is the lookup [a !! i] and an
      out-of-range read is [None] (JavaScript's [undefined]);
    - node indices, lengths and loop counters are [nat]; the sentinel [-1] of
      [prevNode] is [None];
    - matrix cells and solver statuses are integers ([Z]); numbers that carry
      preferences, coefficients, bounds and solver values are rationals
      ([Q]): every finite double is a rational; a decimal literal of the
      source is the double nearest to it and the sum [pref[i][j] + EPSILON]
      is rounded to the nearest double as IEEE 754 prescribes
      ([roundToDouble], [number_add]); the other arithmetic whose result
      the code uses is on lengths and indices, where doubles are exact; [NaN]
      and the infinities are left out;
    - a string is the sequence of the bytes of its UTF-8 encoding, so that
      ASCII text is itself and a white-space character beyond ASCII takes
      two or three bytes; text with a surrogate that has no partner is left
      out;
    - [console.log], [console.warn], [console.error] and [console.assert]
      write diagnostics and never change control flow ([console.assert] does
      not throw), so they do not appear except where the source wraps them in
      a [try] block;
    - a function that can [throw] returns a [Completion];
    - a [while] loop is a function with a bound on its rounds, together
      with the fact that the bound used is never reached;
    - the external solver is a field of the [GLPKInstance] record, so that
      every statement about [solveSitting] holds for every solver; a run
      records the problems handed to it;
    - an object used as a map ([result.vars], [preferencesState]) is the
      list of its properties in [for ... in] order;
    - of the page, the three global variables are the state; the document,
      the alerts, the storage and the timer are left out.

    Layout: the embedding; the predicates and the concrete inputs with which
    the properties are stated; the embedding evaluated on concrete inputs;
    facts about each function; the properties C1 to C10; further facts; the
    properties X1 to X26. *)

From Stdlib Require Import QArith Qround Qabs Qpower Lqa Ascii String.
From stdpp Require Import base list strings numbers sorting relations.
From Stdlib Require Import DecimalString DecimalNat.
From Stdlib Require Import Floats.

Local Open Scope list_scope.
Local Open Scope nat_scope.

(** ** Common types *)

(** [type AdjacencyMatrix = number[][]] *)
Definition AdjacencyMatrix := list (list Z).

(** [m[i][j]]; [None] when the row or the column does not exist. *)
Definition cell (m : AdjacencyMatrix) (i j : nat) : option Z :=
  m !! i ≫= λ row, row !! j.

(** [m[i][j] === 1] *)
Definition isOne (m : AdjacencyMatrix) (i j : nat) : Prop := cell m i j = Some 1%Z.

#[global] Instance isOne_dec m i j : Decision (isOne m i j).
Proof. unfold isOne. apply _. Defined.

(** [!visited[k]] is [negb (isVisited visited k)]: an [undefined] flag is falsy. *)
Definition isVisited (visited : list bool) (k : nat) : bool :=
  bool_decide (visited !! k = Some true).

(** ** findSubtours *)

Module FindSubtours.
Section WithMatrix.
Variable adjMatrix : AdjacencyMatrix.

Definition n : nat := length adjMatrix.

(** The inner helper [getNeighbors(node)]. The three [console.assert] calls
    only log; for [n === 1] the helper returns the empty array. *)
Definition getNeighbors (node : nat) : list nat :=
  let neighbors := filter (λ j, isOne adjMatrix node j) (seq 0 n) in
  if bool_decide (3 ≤ n) then
    if bool_decide (length neighbors = 2 ∨ length neighbors = 1) then neighbors else []
  else if bool_decide (n = 2) then
    if bool_decide (length neighbors = 2 ∨ length neighbors = 1) then neighbors else []
  else if bool_decide (n = 1) then []
  else
    if bool_decide (length neighbors = 2 ∨ length neighbors = 1) then neighbors else [].

(** What one pass through the body of [while (!visited[currentNode])]
    decides about the next node. *)
Inductive NextNode :=
| SingleNode              (* [n === 1], no neighbour: [break] *)
| Next (nextNode : nat)
| BadDegree.              (* [currentCycle.length = 0; break] *)

(** [prevNode] starts at [-1], which is no node index: it is [None] here. *)
Definition chooseNext (neighbors : list nat) (prevNode : option nat) : NextNode :=
  if bool_decide (length neighbors = 0 ∧ n = 1) then SingleNode
  else if bool_decide (length neighbors = 1 ∧ n = 2) then
    Next (default 0 (neighbors !! 0))
  else if bool_decide (length neighbors = 2) then
    Next (if bool_decide (neighbors !! 0 = prevNode)
          then default 0 (neighbors !! 1) else default 0 (neighbors !! 0))
  else BadDegree.

(** The [while (!visited[currentNode])] loop started from node [i]. It
    returns the visited flags and [currentCycle] as they are when the loop
    is left; [None] only when [fuel] runs out. *)
Fixpoint traceCycle (fuel : nat) (i : nat) (visited : list bool)
    (currentCycle : list nat) (currentNode : nat) (prevNode : option nat)
    : option (list bool * list nat) :=
  match fuel with
  | 0 => None
  | S fuel' =>
    if isVisited visited currentNode then Some (visited, currentCycle)
    else
      let visited := <[currentNode := true]> visited in
      let currentCycle := currentCycle ++ [currentNode] in
      match chooseNext (getNeighbors currentNode) prevNode with
      | SingleNode => Some (visited, currentCycle)
      | BadDegree => Some (visited, [])
      | Next nextNode =>
        if isVisited visited nextNode then
          if bool_decide (nextNode = i) then Some (visited, currentCycle)
          else Some (visited, [])
        else traceCycle fuel' i visited currentCycle nextNode (Some currentNode)
      end
  end.

(** One pass of [for (let i = 0; i < n; i++)] over the pair
    [(visited, subtours)]. *)
Definition visitNode (fuel : nat) (st : list bool * list (list nat)) (i : nat)
    : option (list bool * list (list nat)) :=
  let '(visited, subtours) := st in
  if isVisited visited i then Some st
  else
    '(visited, currentCycle) ← traceCycle fuel i visited [] i None;
    if bool_decide (0 < length currentCycle) then
      Some (visited, subtours ++ [currentCycle])
    else if negb (isVisited visited i) && bool_decide (0 < n) then
      Some (<[i := true]> visited, subtours)
    else Some (visited, subtours).

Fixpoint visitAll (fuel : nat) (st : list bool * list (list nat)) (indices : list nat)
    : option (list bool * list (list nat)) :=
  match indices with
  | [] => Some st
  | i :: rest => st' ← visitNode fuel st i; visitAll fuel st' rest
  end.

(** The whole function with an explicit bound on the inner loop. The final
    [visited.every] test only logs a warning. *)
Definition findSubtoursFuel (fuel : nat) : option (list (list nat)) :=
  if bool_decide (n = 0) then Some []
  else snd <$> visitAll fuel (replicate n false, []) (seq 0 n).

End WithMatrix.
End FindSubtours.

(** Each pass of the inner loop marks a node that was not marked before, so
    [n + 1] passes are never used up (lemma [findSubtours_fuel] below). *)
Definition findSubtours (adjMatrix : AdjacencyMatrix) : list (list nat) :=
  default [] (FindSubtours.findSubtoursFuel adjMatrix (S (length adjMatrix))).

(** ** The solver boundary ([src/glpk_facade.ts]) *)

(** [interface GLPKVar] *)
Record GLPKVar := { name : string; coef : Q }.

(** [interface GLPKBound]; [type] is one of the instance's constants. *)
Record GLPKBound := { type : Z; ub : Q; lb : Q }.

(** [interface GLPKConstraint] (its fields [name], [vars], [bnds]). *)
Record GLPKConstraint :=
  { constraint_name : string; vars : list GLPKVar; bnds : GLPKBound }.

(** [interface GLPKObjective] (its fields [direction], [name], [vars]). *)
Record GLPKObjective :=
  { direction : Z; objective_name : string; objective_vars : list GLPKVar }.

(** [interface GLPKProblem] (its fields [name], [objective], [subjectTo],
    [binaries]). *)
Record GLPKProblem :=
  { problem_name : string; objective : GLPKObjective;
    subjectTo : list GLPKConstraint; binaries : list string }.

(** [interface GLPKSolveResult]: [result.status] and [result.vars]. The
    record [vars] is kept as the list of its own enumerable properties in
    [for ... in] order. *)
Record GLPKSolveResult := { status : Z; result_vars : list (string * Q) }.

(** [interface GLPKSolverOptions] *)
Record GLPKSolverOptions := { msglev : Z; presol : bool }.

(** What [await glpk.solve(...)] gives: the promise resolves with a result or
    rejects with an error whose message is kept. *)
Inductive SolveReply :=
| Resolved (result : GLPKSolveResult)
| Rejected (errorMessage : string).

(** [interface GLPKInstance]. The solver is an external collaborator and may
    keep state between calls: [solve k problem options] is its reply to call
    number [k] (counted from 0) of one run. *)
Record GLPKInstance :=
  { GLP_MAX : Z; GLP_FX : Z; GLP_UP : Z; GLP_MSG_OFF : Z;
    GLP_UNDEF : Z; GLP_FEAS : Z; GLP_INFEAS : Z; GLP_NOFEAS : Z;
    GLP_OPT : Z; GLP_UNBND : Z;
    solve : nat → GLPKProblem → GLPKSolverOptions → SolveReply }.

(** ** Completions *)

(** A call either completes normally with a value or throws. *)
Inductive Completion (E A : Type) :=
| Normal (value : A)
| Abrupt (error : E).
Arguments Normal {E A} value.
Arguments Abrupt {E A} error.

#[global] Instance Completion_ret {E} : MRet (Completion E) := λ A, Normal.
#[global] Instance Completion_bind {E} : MBind (Completion E) :=
  λ A B f c, match c with Normal a => f a | Abrupt e => Abrupt e end.

(** [console.assert(condition, ...)]: logs when the condition is false and
    returns; it never throws. *)
Definition console_assert (condition : bool) : Completion string unit := Normal ().

(** ** Strings of numbers, and numbers of strings *)

(** [`${k}`] for a non-negative integer. *)
Definition showNat (k : nat) : string := NilEmpty.string_of_uint (Nat.to_uint k).

(** [`${z}`] for an integer. *)
Definition showZ (z : Z) : string := NilEmpty.string_of_int (Z.to_int z).

(** [s.split('_')] *)
Fixpoint splitOn (sep : ascii) (s : string) : list string :=
  match s with
  | EmptyString => [EmptyString]
  | String c rest =>
    if bool_decide (c = sep) then EmptyString :: splitOn sep rest
    else match splitOn sep rest with
         | [] => [String c EmptyString]
         | part :: parts => String c part :: parts
         end
  end.

(** [parts.join('_')] *)
Fixpoint join (sep : string) (parts : list string) : string :=
  match parts with
  | [] => EmptyString
  | [p] => p
  | p :: rest => p +:+ sep +:+ join sep rest
  end.

(** The white space that [parseInt] and [trim] strip is the set of the code
    points of [WhiteSpace] and [LineTerminator]: U+0009 to U+000D and U+0020,
    which are one byte each, and U+00A0, U+1680, U+2000 to U+200A, U+2028,
    U+2029, U+202F, U+205F, U+3000 and U+FEFF, which are two or three
    bytes. *)

(** U+0009 to U+000D, U+0020 *)
Definition isWhiteSpace (c : ascii) : bool :=
  let k := nat_of_ascii c in
  bool_decide (k = 9 ∨ k = 10 ∨ k = 11 ∨ k = 12 ∨ k = 13 ∨ k = 32).

(** U+00A0 is [C2 A0]. *)
Definition isWhiteSpace2 (c1 c2 : ascii) : bool :=
  bool_decide (nat_of_ascii c1 = 194 ∧ nat_of_ascii c2 = 160).

(** U+1680 is [E1 9A 80]; U+2000 to U+200A are [E2 80 80] to [E2 80 8A];
    U+2028, U+2029 and U+202F are [E2 80 A8], [E2 80 A9] and [E2 80 AF];
    U+205F is [E2 81 9F]; U+3000 is [E3 80 80]; U+FEFF is [EF BB BF]. *)
Definition isWhiteSpace3 (c1 c2 c3 : ascii) : bool :=
  let k1 := nat_of_ascii c1 in
  let k2 := nat_of_ascii c2 in
  let k3 := nat_of_ascii c3 in
  bool_decide
    ((k1 = 225 ∧ k2 = 154 ∧ k3 = 128)
     ∨ (k1 = 226 ∧ k2 = 128 ∧ (128 ≤ k3 ≤ 138 ∨ k3 = 168 ∨ k3 = 169 ∨ k3 = 175))
     ∨ (k1 = 226 ∧ k2 = 129 ∧ k3 = 159)
     ∨ (k1 = 227 ∧ k2 = 128 ∧ k3 = 128)
     ∨ (k1 = 239 ∧ k2 = 187 ∧ k3 = 191)).

Definition digitValue (c : ascii) : option Z :=
  let k := nat_of_ascii c in
  if bool_decide (48 ≤ k ∧ k ≤ 57) then Some (Z.of_nat (k - 48)) else None.

(** What follows the white-space character with which [s] starts; [None]
    when [s] does not start with one. *)
Definition afterWhiteSpace (s : string) : option string :=
  match s with
  | String c1 rest1 =>
    if isWhiteSpace c1 then Some rest1
    else match rest1 with
         | String c2 rest2 =>
           if isWhiteSpace2 c1 c2 then Some rest2
           else match rest2 with
                | String c3 rest3 =>
                  if isWhiteSpace3 c1 c2 c3 then Some rest3 else None
                | EmptyString => None
                end
         | EmptyString => None
         end
  | EmptyString => None
  end.

(** [s] without its leading white space ([s.trimStart()]). *)
Fixpoint skipWhiteSpace (s : string) : string :=
  match s with
  | String c1 rest1 =>
    if isWhiteSpace c1 then skipWhiteSpace rest1
    else match rest1 with
         | String c2 rest2 =>
           if isWhiteSpace2 c1 c2 then skipWhiteSpace rest2
           else match rest2 with
                | String c3 rest3 =>
                  if isWhiteSpace3 c1 c2 c3 then skipWhiteSpace rest3 else s
                | EmptyString => s
                end
         | EmptyString => s
         end
  | EmptyString => s
  end.

(** The longest prefix of decimal digits, as a number; [None] when there is
    no digit. *)
Fixpoint leadingDigits (acc : option Z) (s : string) : option Z :=
  match s with
  | EmptyString => acc
  | String c rest =>
    match digitValue c with
    | Some d => leadingDigits (Some (default 0 acc * 10 + d)%Z) rest
    | None => acc
    end
  end.

(** [parseInt(s, 10)]: leading white space, an optional sign, then digits;
    whatever follows the digits is ignored. [None] is [NaN]. An absent
    argument ([parts[2]] of a two-part name) is [NaN] as well. *)
Definition parseInt (s : option string) : option Z :=
  match s with
  | None => None
  | Some s =>
    match skipWhiteSpace s with
    | String "-" rest => Z.opp <$> leadingDigits None rest
    | String "+" rest => leadingDigits None rest
    | rest => leadingDigits None rest
    end
  end.

(** [Math.round]: the nearest integer, ties towards plus infinity. *)
Definition Math_round (q : Q) : Z := Qfloor (q + (1 # 2)).

(** ** Numbers

    A JavaScript number is an IEEE 754 binary64 value. A finite one is a
    rational [m * 2^e] with [|m| < 2^53] and [-1074 <= e <= 971]. An
    arithmetic operation returns the double nearest to the exact result,
    a tie going to the double with the even significand. *)

(** [floor (log2 q)] for [q > 0]: with [a] and [b] the bit lengths of the
    numerator and the denominator less one, [q] is between [2^(a - b - 1)]
    and [2^(a - b + 1)]. *)
Definition floorLog2 (q : Q) : Z :=
  let l := (Z.log2 (Qnum q) - Z.log2 (Zpos (Qden q)))%Z in
  if Qle_bool (2 ^ l) q then l else (l - 1)%Z.

(** The integer nearest to [q], a tie going to the even one. *)
Definition roundHalfEven (q : Q) : Z :=
  let f := Qfloor q in
  match (q - inject_Z f ?= 1 # 2)%Q with
  | Lt => f
  | Gt => (f + 1)%Z
  | Eq => if Z.even f then f else (f + 1)%Z
  end.

(** The double nearest to [q]: the significand has 53 bits, so that the
    last place of a [q] with [2^k <= |q| < 2^(k + 1)] is [2^(k - 52)], and
    no less than [2^(-1074)], the last place of the subnormal numbers. A
    result of [2^1024] or more in absolute value would be an infinity
    instead; the sum [pref[i][j] + EPSILON] of two doubles does not get
    there, the greatest double and a thousandth giving the greatest double
    again. *)
Definition roundToDouble (q : Q) : Q :=
  match Qnum q with
  | Z0 => 0
  | _ =>
    let a := Qabs q in
    let e := Z.max (floorLog2 a - 52) (-1074) in
    let r := (inject_Z (roundHalfEven (a / 2 ^ e)) * 2 ^ e)%Q in
    Qred (if Qle_bool 0 q then r else - r)
  end.

(** [a + b] on numbers *)
Definition number_add (a b : Q) : Q := roundToDouble (a + b).

(** ** solveSitting *)

(** [type PreferenceMatrix = number[][]]. An entry is [Some q] when
    [typeof pref[i][j] === 'number'] and [None] when a value of another type
    ([undefined], [null]) sits there; an index past the end of a row reads
    [undefined] too. *)
Definition PreferenceMatrix := list (list (option Q)).

(** The errors [solveSitting] throws, one constructor for each [throw]. *)
Inductive SolveError :=
| SolverThrew (iteration : nat) (errorMessage : string)
| NoSingleCycle (iteration : nat) (statusText : string)
| SolverFailed (statusText : string) (status : Z)
| InvalidMatrix (iteration : nat) (errorMessage : string)
| NoProgress
| NoCycles (n : nat)
| WrongCycleLength (found : nat) (n : nat)
| BudgetExhausted (maxIterations : nat).

(** The text given to [new Error(...)]. *)
Definition errorMessage (e : SolveError) : string :=
  match e with
  | SolverThrew k msg =>
    "GLPK solver encountered an error during iteration " +:+ showNat k +:+ ": " +:+ msg
  | NoSingleCycle k statusText =>
    "Solver failed after " +:+ showNat k +:+ " iterations. Status: " +:+ statusText
      +:+ ". No single-cycle solution found satisfying all constraints."
  | SolverFailed statusText s =>
    "Solver failed. Status: " +:+ statusText +:+ " (" +:+ showZ s +:+ ")."
  | InvalidMatrix k msg =>
    "Solver returned an invalid matrix (failed assertions) in iteration "
      +:+ showNat k +:+ ". " +:+ msg
  | NoProgress =>
    "Subtour elimination failed to progress. Potential issue with solver or cycle detection."
  | NoCycles n =>
    "Inconsistent state: findSubtours found no cycles for n=" +:+ showNat n +:+ "."
  | WrongCycleLength found n =>
    "Inconsistent state: Found a single cycle of incorrect length " +:+ showNat found
      +:+ ". Expected " +:+ showNat n +:+ "."
  | BudgetExhausted m =>
    "Failed to find a single cycle solution within " +:+ showNat m +:+ " iterations."
  end.

(** How one pass of the iteration loop ends. *)
Inductive Step :=
| Return (varMatrix : AdjacencyMatrix)
| Throw (e : SolveError)
| Continue (currentSubtourConstraints : list GLPKConstraint).

(** What a run of [solveSitting] amounts to: its completion, and the problems
    handed to [glpk.solve], in call order. *)
Record Run :=
  { outcome : Completion SolveError AdjacencyMatrix; calls : list GLPKProblem }.

Module SolveSitting.
Section WithInputs.
Variable glpk : GLPKInstance.
Variable pref : PreferenceMatrix.

(** [const EPSILON = 0.001] *)
Definition EPSILON : Q := roundToDouble (1 # 1000).
Definition n : nat := length pref.
Definition MAX_SUBTOUR_ITERATIONS : nat := n * 2.

Definition getVarName (i j : nat) : string :=
  "x_" +:+ showNat i +:+ "_" +:+ showNat j.

Definition indices : list nat := seq 0 n.

(** [typeof pref[i][j] === 'number' ? pref[i][j] + EPSILON : EPSILON] *)
Definition objectiveCoef (i j : nat) : Q :=
  match pref !! i ≫= λ row, row !! j with
  | Some (Some p) => number_add p EPSILON
  | _ => EPSILON
  end.

Definition baseLpProblem : GLPKProblem :=
  {| problem_name := "TableSitting";
     objective :=
       {| direction := GLP_MAX glpk;
          objective_name := "TotalPreference";
          objective_vars :=
            indices ≫= λ i,
              (λ j, {| name := getVarName i j; coef := objectiveCoef i j |})
                <$> filter (λ j, i ≠ j) indices |};
     subjectTo :=
       (* 1. Degree Constraints (Row Sum = 2) *)
       ((λ i, {| constraint_name := "RowSum_" +:+ showNat i;
                 vars := (λ j, {| name := getVarName i j; coef := 1 |})
                           <$> filter (λ j, i ≠ j) indices;
                 bnds := {| type := GLP_FX glpk; ub := 2; lb := 2 |} |})
          <$> indices)
       (* 2. Symmetry Constraints (x_i_j - x_j_i = 0 for i < j) *)
       ++ (indices ≫= λ i,
             (λ j, {| constraint_name := "Symm_" +:+ showNat i +:+ "_" +:+ showNat j;
                      vars := [ {| name := getVarName i j; coef := 1 |};
                                {| name := getVarName j i; coef := -1 |} ];
                      bnds := {| type := GLP_FX glpk; ub := 0; lb := 0 |} |})
               <$> filter (λ j, i < j) indices);
     binaries :=
       indices ≫= λ i, (λ j, getVarName i j) <$> filter (λ j, i ≠ j) indices |}.

Definition solverOptions : GLPKSolverOptions :=
  {| msglev := GLP_MSG_OFF glpk; presol := true |}.

(** [{ ...baseLpProblem, subjectTo: [...baseLpProblem.subjectTo,
    ...currentSubtourConstraints] }] *)
Definition lpProblemForIter (currentSubtourConstraints : list GLPKConstraint)
    : GLPKProblem :=
  {| problem_name := problem_name baseLpProblem;
     objective := objective baseLpProblem;
     subjectTo := subjectTo baseLpProblem ++ currentSubtourConstraints;
     binaries := binaries baseLpProblem |}.

(** [statusMap[status] || `Unknown (${status})`]: in the object literal a
    later computed key replaces an equal earlier one. *)
Definition statusMap : list (Z * string) :=
  [ (GLP_UNDEF glpk, "Undefined"); (GLP_FEAS glpk, "Feasible");
    (GLP_INFEAS glpk, "Infeasible"); (GLP_NOFEAS glpk, "No Feasible Solution");
    (GLP_OPT glpk, "Optimal"); (GLP_UNBND glpk, "Unbounded") ]%string.

Definition statusText (s : Z) : string :=
  match filter (λ entry, entry.1 = s) (reverse statusMap) with
  | (_, text) :: _ => text
  | [] => "Unknown (" +:+ showZ s +:+ ")"
  end.

(** The body of [for (const varName in result.result.vars)] for one
    property. *)
Definition storeVar (varMatrix : AdjacencyMatrix) (entry : string * Q)
    : AdjacencyMatrix :=
  let '(varName, value) := entry in
  if String.prefix "x_" varName then
    let parts := splitOn "_" varName in
    match parseInt (parts !! 1), parseInt (parts !! 2) with
    | Some i, Some j =>
      if bool_decide (0 ≤ i ∧ i < Z.of_nat n ∧ 0 ≤ j ∧ j < Z.of_nat n)%Z then
        alter (λ row, <[Z.to_nat j := Math_round value]> row) (Z.to_nat i) varMatrix
      else varMatrix
    | _, _ => varMatrix
    end
  else varMatrix.

(** "Construct the Result Matrix" *)
Definition resultMatrix (result : GLPKSolveResult) : AdjacencyMatrix :=
  foldl storeVar (replicate n (replicate n 0%Z)) (result_vars result).

Definition entry (m : AdjacencyMatrix) (i j : nat) : Z := default 0%Z (cell m i j).

(** The [try] block "Verify Constraints on Result Matrix": for each row the
    symmetry and diagonal assertions, [rowSum] accumulated on the way, then
    the degree assertion. *)
Fixpoint verifyColumns (m : AdjacencyMatrix) (i : nat) (js : list nat) (rowSum : Z)
    : Completion string Z :=
  match js with
  | [] => Normal rowSum
  | j :: js =>
    if bool_decide (i ≠ j) then
      _ ← console_assert (bool_decide (entry m i j = entry m j i));
      verifyColumns m i js (rowSum + entry m i j)
    else
      _ ← console_assert (bool_decide (entry m i i = 0%Z));
      verifyColumns m i js rowSum
  end.

Fixpoint verifyRows (m : AdjacencyMatrix) (rows : list nat) : Completion string unit :=
  match rows with
  | [] => Normal ()
  | i :: rows =>
    rowSum ← verifyColumns m i (seq 0 n) 0%Z;
    _ ← console_assert (bool_decide (rowSum = 2%Z));
    verifyRows m rows
  end.

(** [SubtourElim_${iter}_${S.slice(0, 5).join('_')}] and the constraint
    [sum(x_ij for i,j in S, i<j) <= |S| - 1]. *)
Definition eliminationConstraint (iter : nat) (S : list nat) : GLPKConstraint :=
  {| constraint_name :=
       "SubtourElim_" +:+ showNat iter +:+ "_" +:+ join "_" (showNat <$> take 5 S);
     vars := S ≫= λ i,
               (λ j, {| name := getVarName i j; coef := 1 |}) <$> filter (λ j, i < j) S;
     bnds := {| type := GLP_UP glpk;
                ub := inject_Z (Z.of_nat (length S)) - 1; lb := 0 |} |}.

(** The constraints pushed by [for (const S of subtours)]: one for each
    proper subtour. *)
Definition newConstraints (iter : nat) (subtours : list (list nat))
    : list GLPKConstraint :=
  eliminationConstraint iter
    <$> filter (λ S, length S < n ∧ 0 < length S) subtours.

(** The body of the iteration loop for [iter], entered with the constraints
    accumulated so far. *)
Definition iteration (iter : nat) (currentSubtourConstraints : list GLPKConstraint)
    : Step :=
  match solve glpk iter (lpProblemForIter currentSubtourConstraints) solverOptions with
  | Rejected msg => Throw (SolverThrew (iter + 1) msg)
  | Resolved result =>
    let s := status result in
    if bool_decide (s ≠ GLP_OPT glpk ∧ s ≠ GLP_FEAS glpk) then
      if bool_decide (0 < iter ∧ (s = GLP_INFEAS glpk ∨ s = GLP_NOFEAS glpk)) then
        Throw (NoSingleCycle (iter + 1) (statusText s))
      else Throw (SolverFailed (statusText s) s)
    else
      let varMatrix := resultMatrix result in
      match verifyRows varMatrix (seq 0 n) with
      | Abrupt msg => Throw (InvalidMatrix (iter + 1) msg)
      | Normal _ =>
        let subtours := findSubtours varMatrix in
        if bool_decide (length subtours = 1 ∧ length <$> subtours !! 0 = Some n) then
          Return varMatrix
        else if bool_decide (1 < length subtours) then
          let added := newConstraints iter subtours in
          if bool_decide (length added = 0 ∧ 0 < length subtours) then
            if bool_decide (0 < iter) then Throw NoProgress
            else Continue (currentSubtourConstraints ++ added)
          else Continue (currentSubtourConstraints ++ added)
        else if bool_decide (length subtours = 0 ∧ 0 < n) then Throw (NoCycles n)
        else if bool_decide (length subtours = 1
                             ∧ length <$> subtours !! 0 ≠ Some n) then
          Throw (WrongCycleLength (default 0 (length <$> subtours !! 0)) n)
        else Continue currentSubtourConstraints
      end
  end.

(** [for (let iter = 0; iter < MAX_SUBTOUR_ITERATIONS; iter++)] with
    [remaining = MAX_SUBTOUR_ITERATIONS - iter] passes left, and the [throw]
    after the loop. *)
Fixpoint iterations (remaining iter : nat)
    (currentSubtourConstraints : list GLPKConstraint) : Run :=
  match remaining with
  | 0 => {| outcome := Abrupt (BudgetExhausted MAX_SUBTOUR_ITERATIONS); calls := [] |}
  | S remaining =>
    let lpProblem := lpProblemForIter currentSubtourConstraints in
    match iteration iter currentSubtourConstraints with
    | Return varMatrix => {| outcome := Normal varMatrix; calls := [lpProblem] |}
    | Throw e => {| outcome := Abrupt e; calls := [lpProblem] |}
    | Continue constraints =>
      let rest := iterations remaining (S iter) constraints in
      {| outcome := outcome rest; calls := lpProblem :: calls rest |}
    end
  end.

Definition solveSitting : Run :=
  if bool_decide (n = 0) then {| outcome := Normal []; calls := [] |}
  else if bool_decide (n = 1) then {| outcome := Normal [[0%Z]]; calls := [] |}
  else if bool_decide (n = 2) then
    {| outcome := Normal [[0; 1]; [1; 0]]%Z; calls := [] |}
  else iterations MAX_SUBTOUR_ITERATIONS 0 [].

End WithInputs.
End SolveSitting.

Definition solveSitting := SolveSitting.solveSitting.

(** ** extractTableCycle ([docs/matrix_to_table.mjs]) *)

(** The errors [extractTableCycle] throws, one constructor for each [throw]. *)
Inductive ExtractError :=
| InvalidDimensions (n : nat)
| DegreeNotTwo (node degree n : nat)
| NotBackAtStart (n endedAt : nat)
| WrongPath (pathLength uniqueCount n : nat).

Module ExtractTableCycle.
Section WithMatrix.
Variable resultMatrix : AdjacencyMatrix.

Definition n : nat := length resultMatrix.

(** The inner [for (let neighborIdx = 0; ...)] loop. *)
Definition neighborsOf (currentNode : nat) : list nat :=
  filter (λ neighborIdx, isOne resultMatrix currentNode neighborIdx) (seq 0 n).

(** [for (let step = 0; step < n; step++)] with [steps] passes left; it
    gives [path] and [currentNode] as they are after the loop. [prevNode]
    starts at [-1], which is no node index: it is [None] here. *)
Fixpoint walk (steps : nat) (path : list nat) (currentNode : nat)
    (prevNode : option nat) : Completion ExtractError (list nat * nat) :=
  match steps with
  | 0 => Normal (path, currentNode)
  | S steps =>
    let path := path ++ [currentNode] in
    let neighbors := neighborsOf currentNode in
    if bool_decide (length neighbors ≠ 2) then
      Abrupt (DegreeNotTwo currentNode (length neighbors) n)
    else
      let nextNode :=
        if bool_decide (neighbors !! 0 = prevNode)
        then default 0 (neighbors !! 1) else default 0 (neighbors !! 0) in
      walk steps path nextNode (Some currentNode)
  end.

Definition extractTableCycle : Completion ExtractError (list nat) :=
  if bool_decide (n = 0) then Normal []
  else if bool_decide (n = 1) then Normal [0]
  else if bool_decide (n = 2) then Normal [0; 1]
  else if bool_decide (length <$> resultMatrix !! 0 ≠ Some n) then
    Abrupt (InvalidDimensions n)
  else
    '(path, currentNode) ← walk n [] 0 None;
    if bool_decide (currentNode ≠ 0) then Abrupt (NotBackAtStart n currentNode)
    else
      (* [new Set(path).size] *)
      let uniqueCount := length (remove_dups path) in
      if bool_decide (length path ≠ n ∨ uniqueCount ≠ n) then
        Abrupt (WrongPath (length path) uniqueCount n)
      else Normal path.

End WithMatrix.
End ExtractTableCycle.

Definition extractTableCycle := ExtractTableCycle.extractTableCycle.
(** ** extractTablesFromMatrix ([docs/matrix_to_table.mjs]) *)

Module ExtractTablesFromMatrix.
Section WithMatrix.
Variable resultMatrix : AdjacencyMatrix.

Definition n : nat := length resultMatrix.

(** One pass of [for (let neighborIdx = 0; neighborIdx < n; neighborIdx++)]
    on the pair [(visited, queue)]. *)
Definition scanNeighbor (currentIdx : nat) (st : list bool * list nat)
    (neighborIdx : nat) : list bool * list nat :=
  let '(visited, queue) := st in
  if bool_decide (currentIdx ≠ neighborIdx ∧ isOne resultMatrix currentIdx neighborIdx)
  then
    if negb (isVisited visited neighborIdx)
    then (<[neighborIdx := true]> visited, queue ++ [neighborIdx])
    else st
  else st.

(** [while (queue.length > 0)]: [queue.shift()] takes the head. It returns
    the flags and [currentTableIndices] as they are when the queue is empty;
    [None] only when [fuel] runs out. *)
Fixpoint bfs (fuel : nat) (visited : list bool) (queue currentTableIndices : list nat)
    : option (list bool * list nat) :=
  match fuel with
  | 0 => None
  | S fuel' =>
    match queue with
    | [] => Some (visited, currentTableIndices)
    | currentIdx :: queue =>
      let currentTableIndices := currentTableIndices ++ [currentIdx] in
      let '(visited, queue) :=
        foldl (scanNeighbor currentIdx) (visited, queue) (seq 0 n) in
      bfs fuel' visited queue currentTableIndices
    end
  end.

(** One pass of [for (let i = 0; i < n; i++)] over [(visited, tables)].
    [sort((a, b) => a - b)] orders the indices by increasing value. *)
Definition visitTable (fuel : nat) (st : list bool * list (list nat)) (i : nat)
    : option (list bool * list (list nat)) :=
  let '(visited, tables) := st in
  if isVisited visited i then Some st
  else
    '(visited, currentTableIndices) ← bfs fuel (<[i := true]> visited) [i] [];
    if bool_decide (0 < length currentTableIndices)
    then Some (visited, tables ++ [merge_sort le currentTableIndices])
    else Some (visited, tables).

Fixpoint visitTables (fuel : nat) (st : list bool * list (list nat)) (indices : list nat)
    : option (list bool * list (list nat)) :=
  match indices with
  | [] => Some st
  | i :: rest => st' ← visitTable fuel st i; visitTables fuel st' rest
  end.

(** The whole function with an explicit bound on the inner loop. The final
    [visited.every] test only logs. *)
Definition extractTablesFromMatrixFuel (fuel : nat)
    : option (Completion ExtractError (list (list nat))) :=
  if bool_decide (n = 0) then Some (Normal [])
  else if bool_decide (length <$> resultMatrix !! 0 ≠ Some n)
  then Some (Abrupt (InvalidDimensions n))
  else (λ st, Normal st.2) <$> visitTables fuel (replicate n false, []) (seq 0 n).

End WithMatrix.
End ExtractTablesFromMatrix.

(** A node leaves the queue once and enters it at most once, so the inner
    loop makes at most [n] passes for one table. *)
Definition extractTablesFromMatrix (resultMatrix : AdjacencyMatrix)
    : Completion ExtractError (list (list nat)) :=
  default (Normal [])
    (ExtractTablesFromMatrix.extractTablesFromMatrixFuel resultMatrix
       (S (length resultMatrix))).

(** ** The one-shot solver ([docs/solve_sitting.mjs]) *)

(** What [solveSitting] of [docs/solve_sitting.mjs] throws: the error of
    [glpk.solve], which it lets propagate, or its own error for a status
    that is neither optimal nor feasible. *)
Inductive DocsSolveError :=
| DocsSolverThrew (errorMessage : string)
| DocsSolverFailed (n : nat) (statusText : string) (status : Z).

(** The message of the error. *)
Definition docsErrorMessage (e : DocsSolveError) : string :=
  match e with
  | DocsSolverThrew msg => msg
  | DocsSolverFailed n statusText s =>
    "Solver failed for n=" +:+ showNat n +:+ ". Status: " +:+ statusText +:+ " ("
      +:+ showZ s +:+ "). Could not ensure exactly two neighbors per person."
  end.

(** A run of that [solveSitting]: its completion and the problems handed to
    [glpk.solve]. *)
Record DocsRun :=
  { docs_outcome : Completion DocsSolveError AdjacencyMatrix;
    docs_calls : list GLPKProblem }.

Module DocsSolveSitting.
Section WithInputs.
Variable glpk : GLPKInstance.
Variable pref : PreferenceMatrix.

(** [const EPSILON = 0.001] *)
Definition EPSILON : Q := roundToDouble (1 # 1000).
Definition n : nat := length pref.

Definition getVarName (i j : nat) : string :=
  "x_" +:+ showNat i +:+ "_" +:+ showNat j.

Definition indices : list nat := seq 0 n.

(** [typeof pref[i][j] === 'number' ? pref[i][j] + EPSILON : EPSILON] *)
Definition objectiveCoef (i j : nat) : Q :=
  match pref !! i ≫= λ row, row !! j with
  | Some (Some p) => number_add p EPSILON
  | _ => EPSILON
  end.

Definition lpProblem : GLPKProblem :=
  {| problem_name := "TableSitting";
     objective :=
       {| direction := GLP_MAX glpk;
          objective_name := "TotalPreference";
          objective_vars :=
            indices ≫= λ i,
              (λ j, {| name := getVarName i j; coef := objectiveCoef i j |})
                <$> filter (λ j, i ≠ j) indices |};
     subjectTo :=
       (* 1. Row Sum Constraints *)
       ((λ i, {| constraint_name := "RowSum_" +:+ showNat i;
                 vars := (λ j, {| name := getVarName i j; coef := 1 |})
                           <$> filter (λ j, i ≠ j) indices;
                 bnds := {| type := GLP_FX glpk; ub := 2; lb := 2 |} |})
          <$> indices)
       (* 2. Column Sum Constraints *)
       ++ ((λ j, {| constraint_name := "ColSum_" +:+ showNat j;
                    vars := (λ i, {| name := getVarName i j; coef := 1 |})
                              <$> filter (λ i, i ≠ j) indices;
                    bnds := {| type := GLP_FX glpk; ub := 2; lb := 2 |} |})
             <$> indices)
       (* 3. Symmetry Constraints *)
       ++ (indices ≫= λ i,
             (λ j, {| constraint_name := "Symm_" +:+ showNat i +:+ "_" +:+ showNat j;
                      vars := [ {| name := getVarName i j; coef := 1 |};
                                {| name := getVarName j i; coef := -1 |} ];
                      bnds := {| type := GLP_FX glpk; ub := 0; lb := 0 |} |})
               <$> filter (λ j, i < j) indices);
     binaries :=
       indices ≫= λ i, (λ j, getVarName i j) <$> filter (λ j, i ≠ j) indices |}.

Definition options : GLPKSolverOptions :=
  {| msglev := GLP_MSG_OFF glpk; presol := true |}.

(** [statusMap[result.result.status] || 'Unknown'] *)
Definition statusMap : list (Z * string) :=
  [ (GLP_UNDEF glpk, "Undefined"); (GLP_FEAS glpk, "Feasible");
    (GLP_INFEAS glpk, "Infeasible"); (GLP_NOFEAS glpk, "No Feasible Solution");
    (GLP_OPT glpk, "Optimal"); (GLP_UNBND glpk, "Unbounded") ]%string.

Definition statusText (s : Z) : string :=
  match filter (λ entry, entry.1 = s) (reverse statusMap) with
  | (_, text) :: _ => text
  | [] => "Unknown"
  end.

(** The body of [for (const varName in result.result.vars)] for one
    property. *)
Definition storeVar (varMatrix : AdjacencyMatrix) (entry : string * Q)
    : AdjacencyMatrix :=
  let '(varName, value) := entry in
  if String.prefix "x_" varName then
    let parts := splitOn "_" varName in
    match parseInt (parts !! 1), parseInt (parts !! 2) with
    | Some i, Some j =>
      if bool_decide (0 ≤ i ∧ i < Z.of_nat n ∧ 0 ≤ j ∧ j < Z.of_nat n)%Z then
        alter (λ row, <[Z.to_nat j := Math_round value]> row) (Z.to_nat i) varMatrix
      else varMatrix
    | _, _ => varMatrix
    end
  else varMatrix.

(** "Construct the Result Matrix" *)
Definition varMatrix (result : GLPKSolveResult) : AdjacencyMatrix :=
  foldl storeVar (replicate n (replicate n 0%Z)) (result_vars result).

(** [solveSitting(glpk, pref)]: one call of the solver and no search for
    subtours. The assertions on the result matrix at its end are
    [console.assert] calls, which log and go on. *)
Definition solveSitting : DocsRun :=
  if bool_decide (n = 0) then {| docs_outcome := Normal []; docs_calls := [] |}
  else if bool_decide (n = 1) then {| docs_outcome := Normal [[0%Z]]; docs_calls := [] |}
  else if bool_decide (n = 2) then
    {| docs_outcome := Normal [[0; 1]; [1; 0]]%Z; docs_calls := [] |}
  else
    {| docs_outcome :=
         match solve glpk 0 lpProblem options with
         | Rejected msg => Abrupt (DocsSolverThrew msg)
         | Resolved result =>
           let s := status result in
           if bool_decide (s ≠ GLP_OPT glpk ∧ s ≠ GLP_FEAS glpk) then
             Abrupt (DocsSolverFailed n (statusText s) s)
           else Normal (varMatrix result)
         end;
       docs_calls := [lpProblem] |}.

End WithInputs.
End DocsSolveSitting.

(** ** The page script ([src/main.ts]) *)

(** [interface Person]. The ids are the numbers that [nextPersonId++] hands
    out: non-negative integers. *)
Record Person := { id : nat; person_name : string }.

(** The three global variables [people], [nextPersonId] and
    [preferencesState] of the script. [preferencesState] is a
    [Record<string, boolean>]: it is kept as the list of its properties in
    [for ... in] order, each key once. The page itself (the DOM, the alerts,
    the debounced call of [triggerSolutionUpdate]) is not part of the
    state. *)
Record AppState :=
  { people : list Person; nextPersonId : nat;
    preferencesState : list (string * bool) }.

(** The values of the globals when the script starts. *)
Definition initialState : AppState :=
  {| people := []; nextPersonId := 0; preferencesState := [] |}.

(** [key.includes(idString)] *)
Fixpoint includes (searchString : string) (s : string) : bool :=
  String.prefix searchString s
  || match s with
     | EmptyString => false
     | String _ rest => includes searchString rest
     end.

(** [s.trimEnd()]: what is left of [s] once its longest end made of white
    space only is taken away. *)
Fixpoint trimEnd (s : string) : string :=
  match s with
  | EmptyString => EmptyString
  | String c rest =>
    if bool_decide (skipWhiteSpace s = EmptyString) then EmptyString
    else String c (trimEnd rest)
  end.

(** [s.trim()] *)
Definition trim (s : string) : string := trimEnd (skipWhiteSpace s).

(** The keys that [addPreferenceControls] gives to the two checkboxes of
    [personA] towards [personB]. *)
Definition wantKey (personA personB : Person) : string :=
  "pref_want_" +:+ showNat (id personA) +:+ "_" +:+ showNat (id personB).

Definition dislikeKey (personA personB : Person) : string :=
  "pref_dislike_" +:+ showNat (id personA) +:+ "_" +:+ showNat (id personB).

(** [handleAddPerson()], where [value] is the text of the name field. *)
Definition handleAddPerson (value : string) (st : AppState) : AppState :=
  let name := trim value in
  if bool_decide (name = EmptyString) then st
  else if bool_decide (Exists (λ p, person_name p = name) (people st)) then st
  else
    {| people := people st ++ [{| id := nextPersonId st; person_name := name |}];
       nextPersonId := nextPersonId st + 1;
       preferencesState := preferencesState st |}.

(** [people.findIndex((p) => p.id === personIdToRemove)]; [None] is [-1]. *)
Fixpoint findIndex (personIdToRemove : nat) (people : list Person) : option nat :=
  match people with
  | [] => None
  | p :: rest =>
    if bool_decide (id p = personIdToRemove) then Some 0
    else S <$> findIndex personIdToRemove rest
  end.

(** [handleRemovePerson(personIdToRemove)] *)
Definition handleRemovePerson (personIdToRemove : nat) (st : AppState) : AppState :=
  match findIndex personIdToRemove (people st) with
  | None => st
  | Some personIndex =>
    let idString := "_" +:+ showNat personIdToRemove +:+ "_" in
    {| people := delete personIndex (people st);
       nextPersonId := nextPersonId st;
       preferencesState :=
         filter (λ entry, includes idString entry.1 = false) (preferencesState st) |}
  end.

(** [handleClearAll()], where [confirmed] is the answer to the question it
    asks. *)
Definition handleClearAll (confirmed : bool) (st : AppState) : AppState :=
  if confirmed then initialState else st.

(** The part of [triggerSolutionUpdate] that builds the preference matrix
    from the globals. *)
Module TriggerSolutionUpdate.
Section WithState.
Variable st : AppState.

Definition n : nat := length (people st).

(** [personIdToIndex.get(id)]: in [new Map(entries)] a later entry replaces
    an earlier one with the same key; [NaN] and negative numbers are the id
    of nobody. *)
Definition personIdToIndex (key : option Z) : option nat :=
  match key with
  | Some z =>
    if bool_decide (0 ≤ z)%Z then
      foldl (λ found entry, if bool_decide (id entry.2 = Z.to_nat z)
                            then Some entry.1 else found)
        None (imap (λ index p, (index, p)) (people st))
    else None
  | None => None
  end.

Definition PREFERENCE_VALUE_CHECKED : Q := 1.
Definition PREFERENCE_VALUE_DISLIKE : Q := -1.

(** The body of [for (const key in preferencesState)] for one property. *)
Definition storePreference (preferences : PreferenceMatrix) (entry : string * bool)
    : PreferenceMatrix :=
  let '(key, checked) := entry in
  let parts := splitOn "_" key in
  if bool_decide (length parts = 4 ∧ parts !! 0 = Some "pref"%string) then
    match personIdToIndex (parseInt (parts !! 2)),
          personIdToIndex (parseInt (parts !! 3)) with
    | Some indexA, Some indexB =>
      if checked then
        if bool_decide (parts !! 1 = Some "want"%string) then
          alter (λ row, <[indexB := Some PREFERENCE_VALUE_CHECKED]> row) indexA preferences
        else if bool_decide (parts !! 1 = Some "dislike"%string) then
          alter (λ row, <[indexB := Some PREFERENCE_VALUE_DISLIKE]> row) indexA preferences
        else preferences
      else preferences
    | _, _ => preferences
    end
  else preferences.

(** [preferences] as it is handed to [solveSitting]. *)
Definition preferences : PreferenceMatrix :=
  foldl storePreference (replicate n (replicate n (Some 0%Q))) (preferencesState st).

End WithState.
End TriggerSolutionUpdate.

(** [displayTable(tableIndices, people, container)] up to the point where it
    starts to draw: the people it draws around the table, in order, or
    [None] when it returns without drawing. *)
Definition displayTable (tableIndices : list nat) (people : list Person)
    : option (list Person) :=
  if bool_decide (length tableIndices = 0) then None
  else
    let currentTablePeople := omap (λ index, people !! index) tableIndices in
    if bool_decide (length currentTablePeople ≠ length tableIndices) then None
    else Some currentTablePeople.


(** * Definitions used to state the properties *)

(** The number of flags still [false]. *)
Definition unvisited (visited : list bool) : nat :=
  length (filter (λ b, b = false) visited).

(** The neighbours of a node as its matrix row gives them. *)
Definition rowNeighbors (adjMatrix : AdjacencyMatrix) (node : nat) : list nat :=
  filter (λ j, isOne adjMatrix node j) (seq 0 (FindSubtours.n adjMatrix)).

(** The invariant of the outer loop of [findSubtours] on [(visited, subtours)]:
    the cycles collected so far are non-empty, share no node, contain marked
    nodes only and, when [n >= 3], nodes of degree two only. *)
Definition subtoursInv (adjMatrix : AdjacencyMatrix)
    (st : list bool * list (list nat)) : Prop :=
  let n := FindSubtours.n adjMatrix in
  length st.1 = n
  ∧ NoDup (mjoin st.2)
  ∧ (∀ x, x ∈ mjoin st.2 → isVisited st.1 x = true ∧ x < n)
  ∧ (∀ S, S ∈ st.2 → S ≠ [])
  ∧ (3 ≤ n → ∀ x, x ∈ mjoin st.2 → length (rowNeighbors adjMatrix x) = 2).

(** The constraints with which pass [iter + j] of the iteration loop of
    [solveSitting] is entered when pass [iter] is entered with [constraints];
    [None] when an earlier pass returns or throws. *)
Fixpoint advance (glpk : GLPKInstance) (pref : PreferenceMatrix) (j iter : nat)
    (constraints : list GLPKConstraint) : option (list GLPKConstraint) :=
  match j with
  | 0 => Some constraints
  | S j =>
    match SolveSitting.iteration glpk pref iter constraints with
    | Continue constraints' => advance glpk pref j (S iter) constraints'
    | _ => None
    end
  end.

(** ** Concrete solvers and matrices

    Inputs on which the statements below are evaluated. *)

(** An instance with the constants of glpk.js and the given solver. *)
Definition glpkWith (solve : nat → GLPKProblem → GLPKSolverOptions → SolveReply)
    : GLPKInstance :=
  {| GLP_MAX := 2; GLP_FX := 5; GLP_UP := 3; GLP_MSG_OFF := 0;
     GLP_UNDEF := 1; GLP_FEAS := 2; GLP_INFEAS := 3; GLP_NOFEAS := 4;
     GLP_OPT := 5; GLP_UNBND := 6; solve := solve |}.

(** The variable assignment that spells out a matrix: [x_i_j] is [m[i][j]]
    for [i ≠ j]. *)
Definition assignment (m : AdjacencyMatrix) : list (string * Q) :=
  seq 0 (length m) ≫= λ i,
    (λ j, (SolveSitting.getVarName i j, inject_Z (default 0%Z (cell m i j))))
      <$> filter (λ j, i ≠ j) (seq 0 (length m)).

(** A reply with status "optimal" (5 in glpk.js) carrying a matrix. *)
Definition optimal (m : AdjacencyMatrix) : SolveReply :=
  Resolved {| status := 5; result_vars := assignment m |}.

(** A reply with the given status and no variables. *)
Definition rejection (status : Z) : SolveReply :=
  Resolved {| status := status; result_vars := [] |}.

Definition triangle : AdjacencyMatrix := [[0;1;1];[1;0;1];[1;1;0]]%Z.

Definition square : AdjacencyMatrix := [[0;1;0;1];[1;0;1;0];[0;1;0;1];[1;0;1;0]]%Z.

Definition twoTriangles : AdjacencyMatrix :=
  [[0;1;1;0;0;0];[1;0;1;0;0;0];[1;1;0;0;0;0];
   [0;0;0;0;1;1];[0;0;0;1;0;1];[0;0;0;1;1;0]]%Z.

(** Preferences with every entry [v]. *)
Definition uniformPref (n : nat) (v : Q) : PreferenceMatrix :=
  replicate n (replicate n (Some v)).

(** A solver whose first answer is the optimal assignment [twoTriangles]
    (two disjoint 3-cycles) and whose every later answer is [later]. *)
Definition subtoursThen (later : SolveReply)
    : nat → GLPKProblem → GLPKSolverOptions → SolveReply :=
  λ k _ _, if bool_decide (k = 0) then optimal twoTriangles else later.

(** The three conditions that the [try] block of [solveSitting] asserts on
    the result matrix. *)
Definition symmetricMatrix (n : nat) (m : AdjacencyMatrix) : Prop :=
  ∀ i j, i < n → j < n → i ≠ j → SolveSitting.entry m i j = SolveSitting.entry m j i.

Definition zeroDiagonal (n : nat) (m : AdjacencyMatrix) : Prop :=
  ∀ i, i < n → SolveSitting.entry m i i = 0%Z.

(** [rowSum] of row [i]: the sum of its entries off the diagonal. *)
Definition rowSum (n : nat) (m : AdjacencyMatrix) (i : nat) : Z :=
  foldr Z.add 0%Z (SolveSitting.entry m i <$> filter (λ j, i ≠ j) (seq 0 n)).

Definition degreeTwo (n : nat) (m : AdjacencyMatrix) : Prop :=
  ∀ i, i < n → rowSum n m i = 2%Z.

(** A 4-cycle read along the rows that is not symmetric: [m[0][1] = 1] and
    [m[1][0] = 0]. Its diagonal is zero and its rows sum to 2. *)
Definition asymmetric4 : AdjacencyMatrix :=
  [[0;1;1;0];[0;0;1;1];[0;1;0;1];[1;1;0;0]]%Z.

(** The triangle with a 2 on the diagonal. *)
Definition diagonal3 : AdjacencyMatrix := [[2;1;1];[1;0;1];[1;1;0]]%Z.

(** The 4-cycle 0-1-2-3 with a 5 between 0 and 2: symmetric, zero diagonal,
    rows 0 and 2 sum to 7. *)
Definition heavy4 : AdjacencyMatrix := [[0;1;5;1];[1;0;1;0];[5;1;0;1];[1;0;1;0]]%Z.

(** The assignment of every [x_i_j], the diagonal included. *)
Definition fullAssignment (m : AdjacencyMatrix) : list (string * Q) :=
  seq 0 (length m) ≫= λ i,
    (λ j, (SolveSitting.getVarName i j, inject_Z (default 0%Z (cell m i j))))
      <$> seq 0 (length m).

Definition optimalFull (m : AdjacencyMatrix) : SolveReply :=
  Resolved {| status := 5; result_vars := fullAssignment m |}.

(** A triangle next to a node without neighbours. *)
Definition triangleAndIsolated : AdjacencyMatrix :=
  [[0;1;1;0];[1;0;1;0];[1;1;0;0];[0;0;0;0]]%Z.

(** Every row of the preference matrix has [n] entries. *)
Definition squarePref (pref : PreferenceMatrix) : Prop :=
  ∀ row, row ∈ pref → length row = length pref.

(** Three people, three entries in each row; [pref[0][1]] is not a number. *)
Definition holedPref : PreferenceMatrix :=
  [[Some 0; None; Some 1]; [Some 1; Some 0; Some 3]; [Some 2; Some 3; Some 0]]%Q.

(** Three people; row 1 has two entries only, so that [pref[1][2]] is
    missing. *)
Definition raggedPref : PreferenceMatrix :=
  [[Some 0; Some 4; Some 1]; [Some 1; Some 0]; [Some 2; Some 3; Some 0]]%Q.

(** ** Single cycles and seating sequences *)

(** Every row has as many entries as there are rows. *)
Definition squareMatrix (m : AdjacencyMatrix) : Prop :=
  ∀ row, row ∈ m → length row = length m.

(** The entry of [c] at position [z] counted cyclically, so that position
    [length c] is position 0 again and position [-1] is the last one. *)
Definition cyclicAt (c : list nat) (z : Z) : nat :=
  default 0 (c !! Z.to_nat (z `mod` Z.of_nat (length c))).

(** The matrix [m] is the single cycle [c]: [c] lists each of the [n] nodes
    once, and the ones in the row of a node are exactly at the node before
    it and the node after it around [c]. *)
Definition singleCycle (m : AdjacencyMatrix) (c : list nat) : Prop :=
  length c = length m
  ∧ NoDup c
  ∧ (∀ x, x ∈ c → x < length m)
  ∧ ∀ (z : Z) (y : nat), y < length m →
      (isOne m (cyclicAt c z) y ↔ y = cyclicAt c (z - 1) ∨ y = cyclicAt c (z + 1)).

(** A seating sequence for [m]: the [n] nodes once each, node 0 first, each
    entry adjacent to the next one and the last one adjacent to the first. *)
Definition seatingSequence (m : AdjacencyMatrix) (path : list nat) : Prop :=
  let n := length m in
  length path = n
  ∧ NoDup path
  ∧ path !! 0 = Some 0
  ∧ (∀ x, x ∈ path → x < n)
  ∧ ∀ k x y, path !! k = Some x → path !! ((k + 1) `mod` n) = Some y → isOne m x y.

(** In the list [l] every entry that has an entry before it and one after it
    has exactly these two, which differ, as its neighbours in [m]. *)
Fixpoint chain (m : AdjacencyMatrix) (l : list nat) : Prop :=
  match l with
  | [] => True
  | a :: l' =>
    match l' with
    | b :: d :: _ =>
      (a ≠ d ∧ ∀ y, y ∈ ExtractTableCycle.neighborsOf m b ↔ y = a ∨ y = d)
      ∧ chain m l'
    | _ => True
    end
  end.

(** The node to which the loop body of [extractTableCycle] moves from
    [currentNode] when it came from [prevNode]. *)
Definition nextOf (m : AdjacencyMatrix) (currentNode : nat) (prevNode : option nat)
    : nat :=
  if bool_decide (ExtractTableCycle.neighborsOf m currentNode !! 0 = prevNode)
  then default 0 (ExtractTableCycle.neighborsOf m currentNode !! 1)
  else default 0 (ExtractTableCycle.neighborsOf m currentNode !! 0).
(** ** Texts *)

(** The text has no character [c]. *)
Fixpoint lacks (c : ascii) (s : string) : Prop :=
  match s with
  | EmptyString => True
  | String c' rest => c' ≠ c ∧ lacks c rest
  end.

(** Every character of the text is a decimal digit. *)
Fixpoint allDigits (s : string) : Prop :=
  match s with
  | EmptyString => True
  | String c rest => is_Some (digitValue c) ∧ allDigits rest
  end.

(** The text is empty or starts with a character that is no digit. *)
Definition noDigitAhead (s : string) : Prop :=
  match s with
  | EmptyString => True
  | String c _ => digitValue c = None
  end.

(** ** Tables *)

(** [y] is another node than [x] and [m[x][y] === 1]. *)
Definition edge (m : AdjacencyMatrix) (x y : nat) : Prop :=
  x ≠ y ∧ y < length m ∧ isOne m x y.

(** The matrix has a one at [(y, x)] wherever it has a one at [(x, y)]
    off the diagonal. *)
Definition symmetricEdges (m : AdjacencyMatrix) : Prop :=
  ∀ x y, edge m x y → edge m y x.

(** The state of the inner loop of [extractTablesFromMatrix] for the table
    started at [i] when the flags were [visited0]: the nodes taken from the
    queue and those waiting in it are distinct, they are the nodes marked
    since the start, each can be reached from [i], and every neighbour of a
    node taken from the queue is marked. *)
Definition bfsInv (m : AdjacencyMatrix) (visited0 : list bool) (i : nat)
    (visited : list bool) (queue table : list nat) : Prop :=
  length visited = length m
  ∧ NoDup (table ++ queue)
  ∧ (∀ x, isVisited visited x = true ↔ isVisited visited0 x = true ∨ x ∈ table ++ queue)
  ∧ (∀ x, x ∈ table ++ queue →
       x < length m ∧ isVisited visited0 x = false ∧ rtc (edge m) i x)
  ∧ (∀ u v, u ∈ table → edge m u v → isVisited visited v = true).

(** The invariant of the outer loop of [extractTablesFromMatrix] on
    [(visited, tables)] before index [next] is looked at: the tables share
    no node and hold exactly the marked nodes, every index below [next] is
    marked, each table is sorted and starts with the index from which it was
    explored, from which all its members can be reached, tables come in the
    order of their first members, and a neighbour of a member of a table is
    in that table or in an earlier one. *)
Definition tablesInv (m : AdjacencyMatrix) (next : nat)
    (st : list bool * list (list nat)) : Prop :=
  length st.1 = length m
  ∧ NoDup (mjoin st.2)
  ∧ (∀ x, isVisited st.1 x = true ↔ x ∈ mjoin st.2)
  ∧ (∀ x, x < next → x < length m → isVisited st.1 x = true)
  ∧ (∀ T, T ∈ st.2 →
       ∃ i, i < next ∧ head T = Some i ∧ StronglySorted le T
            ∧ ∀ x, x ∈ T → x < length m ∧ rtc (edge m) i x)
  ∧ (∀ k1 k2 T1 T2 i1 i2, k1 < k2 → st.2 !! k1 = Some T1 → st.2 !! k2 = Some T2 →
       head T1 = Some i1 → head T2 = Some i2 → i1 < i2)
  ∧ (∀ k T u v, st.2 !! k = Some T → u ∈ T → edge m u v →
       ∃ k' T', k' ≤ k ∧ st.2 !! k' = Some T' ∧ v ∈ T').

(** A cycle that the search of [findSubtours] can follow without meeting
    anything else: [S] lists at least three different nodes, the ones in the
    row of each of them are exactly at the node before it and the node after
    it around [S], no row of a node outside [S] has a one at a node of [S],
    and [S] is written as the trace finds it, from its least node towards
    the first neighbour in that node's row. *)
Definition cleanCycle (m : AdjacencyMatrix) (S : list nat) : Prop :=
  let k := length S in
  3 ≤ k
  ∧ NoDup S
  ∧ (∀ x, x ∈ S → x < length m)
  ∧ (∀ t x y, S !! t = Some x → y < length m →
       (isOne m x y
        ↔ S !! ((t + k - 1) `mod` k) = Some y ∨ S !! ((t + 1) `mod` k) = Some y))
  ∧ (∀ x y, x < length m → x ∉ S → y ∈ S → ¬ isOne m x y)
  ∧ (∀ x, x ∈ S → default 0 (head S) ≤ x)
  ∧ head (rowNeighbors m (default 0 (head S))) = S !! 1.

(** Two nodes next to each other only, a triangle, and a node without
    neighbours. *)
Definition pairTriangleIsolated : AdjacencyMatrix :=
  [[0;1;0;0;0;0];[1;0;0;0;0;0];[0;0;0;1;1;0];[0;0;1;0;1;0];[0;0;1;1;0;0];[0;0;0;0;0;0]]%Z.

(** ** Notions used in the further properties *)

(** Every entry is 0 or 1. *)
Definition binaryMatrix (n : nat) (m : AdjacencyMatrix) : Prop :=
  ∀ i j, i < n → j < n →
    SolveSitting.entry m i j = 0%Z ∨ SolveSitting.entry m i j = 1%Z.

(** The matrix passes the four checks that [solveSitting] makes on a result
    matrix: binary entries, symmetry, zero diagonal, rows that sum to 2. *)
Definition assertionsHold (m : AdjacencyMatrix) : Prop :=
  binaryMatrix (length m) m
  ∧ symmetricMatrix (length m) m
  ∧ zeroDiagonal (length m) m
  ∧ degreeTwo (length m) m.

(** Each entry of [S] is adjacent to the next one, the last one to the
    first. *)
Definition closedWalk (m : AdjacencyMatrix) (S : list nat) : Prop :=
  ∀ k x y, S !! k = Some x → S !! ((k + 1) `mod` length S) = Some y → isOne m x y.

(** The invariant of the outer loop of [findSubtours] on a matrix that
    passes the checks, before index [next] is looked at: besides
    [subtoursInv], every marked node is in a cycle, every index below [next]
    is marked, and each cycle is a closed walk of at least three nodes that
    contains every neighbour of its nodes. *)
Definition coverInv (m : AdjacencyMatrix) (next : nat)
    (st : list bool * list (list nat)) : Prop :=
  subtoursInv m st
  ∧ (∀ x, isVisited st.1 x = true → x ∈ mjoin st.2)
  ∧ (∀ x, x < next → x < length m → isVisited st.1 x = true)
  ∧ (∀ S, S ∈ st.2 →
       3 ≤ length S ∧ closedWalk m S ∧ ∀ x y, x ∈ S → edge m x y → y ∈ S).

(** The sum of [g] over the entries of [L]. *)
Definition sumOver (L : list nat) (g : nat → Z) : Z := foldr Z.add 0%Z (g <$> L).

(** The left-hand side of a constraint under a valuation of the variables. *)
Definition constraintValue (x : string → Q) (c : GLPKConstraint) : Q :=
  foldr Qplus 0%Q ((λ v, coef v * x (name v))%Q <$> vars c).

(** What GLPK asks of a valuation [x] of the variables for one constraint,
    for the two kinds of bounds that the models use: [GLP_FX] fixes the
    left-hand side to the bound, [GLP_UP] bounds it from above. *)
Definition satisfied (glpk : GLPKInstance) (x : string → Q) (c : GLPKConstraint) : Prop :=
  if bool_decide (type (bnds c) = GLP_FX glpk) then (constraintValue x c == ub (bnds c))%Q
  else if bool_decide (type (bnds c) = GLP_UP glpk) then (constraintValue x c <= ub (bnds c))%Q
  else True.

(** [x] is a feasible point of the problem: the binaries are 0 or 1 and the
    constraints hold. *)
Definition feasible (glpk : GLPKInstance) (P : GLPKProblem) (x : string → Q) : Prop :=
  (∀ v, v ∈ binaries P → (x v == 0)%Q ∨ (x v == 1)%Q)
  ∧ ∀ c, c ∈ subjectTo P → satisfied glpk x c.

(** The result with which the solver reports the valuation [x] of the
    columns of [P]. *)
Definition answerOf (P : GLPKProblem) (x : string → Q) (s : Z) : GLPKSolveResult :=
  {| status := s; result_vars := (λ v, (v, x v)) <$> binaries P |}.

(** The valuation that spells out a matrix: the variable [x_i_j] has the
    value [m[i][j]]. *)
Definition valuationOf (m : AdjacencyMatrix) (v : string) : Q :=
  let parts := splitOn "_" v in
  match parseInt (parts !! 1), parseInt (parts !! 2) with
  | Some i, Some j => inject_Z (SolveSitting.entry m (Z.to_nat i) (Z.to_nat j))
  | _, _ => 0
  end.

(** The ring on [n] nodes: node [i] next to [i + 1], the last node next to
    node 0. *)
Definition ringNext (n i : nat) : nat := if bool_decide (i + 1 = n) then 0 else i + 1.

Definition ringMatrix (n : nat) : AdjacencyMatrix :=
  (λ i, (λ j, if bool_decide (j = ringNext n i ∨ i = ringNext n j) then 1%Z else 0%Z)
          <$> seq 0 n) <$> seq 0 n.

(** An elimination constraint for a duplicate-free list of between 1 and
    [n - 1] of the nodes. *)
Definition properCut (glpk : GLPKInstance) (n : nat) (c : GLPKConstraint) : Prop :=
  ∃ iter S, c = SolveSitting.eliminationConstraint glpk iter S
    ∧ NoDup S ∧ (∀ x, x ∈ S → x < n) ∧ 0 < length S < n.

(** [`pref_${word}_${a}_${b}`], the form of the keys of the checkboxes. *)
Definition keyOf (word : string) (a b : nat) : string :=
  "pref_" +:+ word +:+ "_" +:+ showNat a +:+ "_" +:+ showNat b.

(** No two people share an id or a name, names are trimmed and not empty,
    and [nextPersonId] is above every id in use. *)
Definition wellFormed (st : AppState) : Prop :=
  NoDup (id <$> people st)
  ∧ NoDup (person_name <$> people st)
  ∧ ∀ p, p ∈ people st →
      id p < nextPersonId st ∧ person_name p ≠ EmptyString
      ∧ trim (person_name p) = person_name p.

(** The handlers of the page as steps of the state. *)
Inductive handlerStep : AppState → AppState → Prop :=
| step_handleAddPerson (value : string) (st : AppState) :
    handlerStep st (handleAddPerson value st)
| step_handleRemovePerson (personIdToRemove : nat) (st : AppState) :
    handlerStep st (handleRemovePerson personIdToRemove st)
| step_handleClearAll (confirmed : bool) (st : AppState) :
    handlerStep st (handleClearAll confirmed st).

(** A number that [triggerSolutionUpdate] writes into the preference
    matrix. *)
Definition preferenceValue (v : option Q) : Prop :=
  v = Some 0%Q ∨ v = Some TriggerSolutionUpdate.PREFERENCE_VALUE_CHECKED
  ∨ v = Some TriggerSolutionUpdate.PREFERENCE_VALUE_DISLIKE.

(** Each list starts with its smallest entry, which is below [next], and the
    lists come in the order of their first entries. *)
Definition headsInv (next : nat) (subtours : list (list nat)) : Prop :=
  (∀ S, S ∈ subtours → ∃ i, head S = Some i ∧ i < next ∧ ∀ x, x ∈ S → i ≤ x)
  ∧ ∀ k1 k2 S1 S2 i1 i2, k1 < k2 → subtours !! k1 = Some S1 → subtours !! k2 = Some S2 →
      head S1 = Some i1 → head S2 = Some i2 → i1 < i2.

(** The lists are the classes of mutual reachability, each strictly
    increasing, in the order of their first entries. *)
Definition componentsList (m : AdjacencyMatrix) (L : list (list nat)) : Prop :=
  (∀ T, T ∈ L →
     StronglySorted lt T ∧ ∃ i, head T = Some i ∧ ∀ x, x ∈ T ↔ rtc (edge m) i x)
  ∧ ∀ k1 k2 T1 T2 i1 i2, k1 < k2 → L !! k1 = Some T1 → L !! k2 = Some T2 →
      head T1 = Some i1 → head T2 = Some i2 → i1 < i2.

(** The text with the given bytes. *)
Definition ofBytes (codes : list nat) : string :=
  foldr (λ k s, String (ascii_of_nat k) s) EmptyString codes.

(** The rational that a binary64 value of the kernel stands for; [None] for
    an infinity and for [NaN]. *)
Definition doubleValue (f : float) : option Q :=
  match Prim2SF f with
  | S754_zero _ => Some 0%Q
  | S754_finite negative m e =>
    let r := (inject_Z (Zpos m) * 2 ^ e)%Q in
    Some (Qred (if negative then - r else r))
  | _ => None
  end.

(** ** States of the page on which the statements are evaluated *)

Definition ann : Person := {| id := 0; person_name := "Ann" |}.
Definition bob : Person := {| id := 1; person_name := "Bob" |}.
Definition cho : Person := {| id := 2; person_name := "Cho" |}.

(** The name of Ann as it may be typed: U+00A0 and a blank in front, U+2028
    behind. *)
Definition annTyped : string :=
  ofBytes [194; 160] +:+ " Ann" +:+ ofBytes [226; 128; 168].

(** Ann and Bob, each with the box "want" towards the other checked. *)
Definition twoFriends : AppState :=
  {| people := [ann; bob]; nextPersonId := 2;
     preferencesState := [("pref_want_0_1", true); ("pref_want_1_0", true)]%string |}.


(** * The embedding on concrete inputs *)

Example findSubtours_triangle :
  findSubtours [[0;1;1];[1;0;1];[1;1;0]]%Z = [[0;1;2]].
Proof. vm_compute. reflexivity. Qed.

Example findSubtours_two_triangles :
  findSubtours [[0;1;1;0;0;0];[1;0;1;0;0;0];[1;1;0;0;0;0];
                [0;0;0;0;1;1];[0;0;0;1;0;1];[0;0;0;1;1;0]]%Z = [[0;1;2];[3;4;5]].
Proof. vm_compute. reflexivity. Qed.

Example findSubtours_pairTriangleIsolated :
  findSubtours pairTriangleIsolated = [[2; 3; 4]].
Proof. vm_compute. reflexivity. Qed.

Example findSubtours_n1 : findSubtours [[0]]%Z = [[0]].
Proof. vm_compute. reflexivity. Qed.

Example findSubtours_n2 : findSubtours [[0;1];[1;0]]%Z = [[0;1]].
Proof. vm_compute. reflexivity. Qed.

Example parseInt_12 : parseInt (Some "12"%string) = Some 12%Z.
Proof. reflexivity. Qed.

Example parseInt_empty : parseInt (Some ""%string) = None.
Proof. reflexivity. Qed.

Example showNat_10 : showNat 10 = "10"%string.
Proof. reflexivity. Qed.

(** [parseInt] skips the white space of Unicode, here U+00A0 and U+2003. *)
Example parseInt_white_space :
  parseInt (Some (ofBytes [194; 160; 226; 128; 131] +:+ "-7px")) = Some (-7)%Z.
Proof. reflexivity. Qed.

(** The literal [0.001] is the double [0x1.0624dd2f1a9fcp-10], a little more
    than a thousandth. *)
Example EPSILON_value :
  SolveSitting.EPSILON = 1152921504606847 # 1152921504606846976
  ∧ (1 # 1000 < SolveSitting.EPSILON)%Q
  ∧ (SolveSitting.EPSILON - (1 # 1000) < 1 # 10000000000000000000)%Q.
Proof. split_and!; vm_compute; reflexivity. Qed.

(** Sums of numbers are rounded: beside a preference of [1e16] the incentive
    is lost, and beside 1, -1 and 0 it is there up to the last place. *)
Example number_add_rounds :
  number_add 10000000000000000 SolveSitting.EPSILON = 10000000000000000%Q
  ∧ number_add 1 SolveSitting.EPSILON = 2254051613498933 # 2251799813685248
  ∧ number_add (-1) SolveSitting.EPSILON = -8998192055486251 # 9007199254740992
  ∧ number_add 0 SolveSitting.EPSILON = SolveSitting.EPSILON.
Proof. split_and!; vm_compute; reflexivity. Qed.

(** [roundToDouble] and [number_add] give what the binary64 arithmetic of
    the kernel gives. *)
Example number_add_binary64 :
  doubleValue 0x1.0624dd2f1a9fcp-10 = Some SolveSitting.EPSILON
  ∧ doubleValue (1 + 0x1.0624dd2f1a9fcp-10) = Some (number_add 1 SolveSitting.EPSILON)
  ∧ doubleValue (-1 + 0x1.0624dd2f1a9fcp-10) = Some (number_add (-1) SolveSitting.EPSILON)
  ∧ doubleValue (10000000000000000 + 0x1.0624dd2f1a9fcp-10)
    = Some (number_add 10000000000000000 SolveSitting.EPSILON)
  ∧ doubleValue (0x1.999999999999ap-4 + 0x1.0624dd2f1a9fcp-10)
    = (λ p, number_add p SolveSitting.EPSILON) <$> doubleValue 0x1.999999999999ap-4
  ∧ doubleValue (0x1.89374bc6a7efap-9 + 0x1.0624dd2f1a9fcp-10)
    = (λ p, number_add p SolveSitting.EPSILON) <$> doubleValue 0x1.89374bc6a7efap-9
  ∧ doubleValue (0x1.fffffffffffffp+1023 + 0x1.0624dd2f1a9fcp-10)
    = (λ p, number_add p SolveSitting.EPSILON) <$> doubleValue 0x1.fffffffffffffp+1023
  ∧ doubleValue (0x0.0000000000001p-1022 + 0x0.0000000000001p-1022)
    = (λ p, number_add p p) <$> doubleValue 0x0.0000000000001p-1022
  ∧ doubleValue (9007199254740992 + 1) = Some (number_add 9007199254740992 1)
  ∧ doubleValue (9007199254740994 + 1) = Some (number_add 9007199254740994 1)
  ∧ number_add 9007199254740992 1 = 9007199254740992%Q
  ∧ number_add 9007199254740994 1 = 9007199254740996%Q.
Proof. split_and!; vm_compute; reflexivity. Qed.

Example Math_round_half : Math_round (1 # 2) = 1%Z ∧ Math_round (-(1 # 2)) = 0%Z
  ∧ Math_round (49 # 100) = 0%Z.
Proof. vm_compute. auto. Qed.

Example extractTableCycle_square :
  extractTableCycle [[0;1;0;1];[1;0;1;0];[0;1;0;1];[1;0;1;0]]%Z = Normal [0;1;2;3].
Proof. vm_compute. reflexivity. Qed.

Example extractTableCycle_two_triangles :
  extractTableCycle [[0;1;1;0;0;0];[1;0;1;0;0;0];[1;1;0;0;0;0];
                     [0;0;0;0;1;1];[0;0;0;1;0;1];[0;0;0;1;1;0]]%Z
  = Abrupt (WrongPath 6 3 6).
Proof. vm_compute. reflexivity. Qed.

Example parseInt_suffix : parseInt (Some " -7px"%string) = Some (-7)%Z.
Proof. reflexivity. Qed.

Example splitOn_name : splitOn "_" "x_10_2" = ["x"; "10"; "2"]%string.
Proof. reflexivity. Qed.

Example showZ_neg : showZ (-3) = "-3"%string.
Proof. reflexivity. Qed.

Example getVarName_3_12 : SolveSitting.getVarName 3 12 = "x_3_12"%string.
Proof. reflexivity. Qed.

Example errorMessage_no_single_cycle :
  errorMessage (NoSingleCycle 2 "Infeasible")
  = ("Solver failed after 2 iterations. Status: Infeasible. "
     +:+ "No single-cycle solution found satisfying all constraints.")%string.
Proof. reflexivity. Qed.

Example errorMessage_failed :
  errorMessage (SolverFailed (SolveSitting.statusText (glpkWith (λ _ _ _, rejection 6)) 6) 6)
  = "Solver failed. Status: Unbounded (6)."%string.
Proof. reflexivity. Qed.

Example errorMessage_unknown_status :
  errorMessage (SolverFailed (SolveSitting.statusText (glpkWith (λ _ _ _, rejection 9)) 9) 9)
  = "Solver failed. Status: Unknown (9) (9)."%string.
Proof. reflexivity. Qed.

Example errorMessage_budget :
  errorMessage (BudgetExhausted 12)
  = "Failed to find a single cycle solution within 12 iterations."%string.
Proof. reflexivity. Qed.

Example eliminationConstraint_triangle :
  SolveSitting.eliminationConstraint (glpkWith (λ _ _ _, rejection 1)) 0 [0; 1; 2]
  = {| constraint_name := "SubtourElim_0_0_1_2";
       vars := [ {| name := "x_0_1"; coef := 1 |}; {| name := "x_0_2"; coef := 1 |};
                 {| name := "x_1_2"; coef := 1 |} ];
       bnds := {| type := 3; ub := inject_Z 3 - 1; lb := 0 |} |}.
Proof. reflexivity. Qed.

Example resultMatrix_rounds :
  SolveSitting.resultMatrix (uniformPref 3 0)
    {| status := 5;
       result_vars := [ ("x_0_1", 999 # 1000); ("x_1_0", 1 # 1); ("x_0_2", 4 # 10);
                        ("x_2_7", 1 # 1); ("y_1_2", 1 # 1); ("x_1", 1 # 1);
                        ("x_2_1_9", 1 # 1) ]%string |}
  = [[0; 1; 0]; [1; 0; 0]; [0; 1; 0]]%Z.
Proof. vm_compute. reflexivity. Qed.

Example findSubtours_isolated :
  findSubtours triangleAndIsolated = [[0; 1; 2]].
Proof. vm_compute. reflexivity. Qed.

Example extractTablesFromMatrix_twoTriangles :
  extractTablesFromMatrix twoTriangles = Normal [[0; 1; 2]; [3; 4; 5]].
Proof. vm_compute. reflexivity. Qed.

Example extractTablesFromMatrix_triangleAndIsolated :
  extractTablesFromMatrix triangleAndIsolated = Normal [[0; 1; 2]; [3]].
Proof. vm_compute. reflexivity. Qed.
(** ** The page script and the one-shot solver on concrete inputs *)

Example trim_ex : trim "  Ann Lee  " = "Ann Lee"%string.
Proof. reflexivity. Qed.

(** [trim] strips the white space of Unicode as well, here U+00A0 and U+3000
    in front and U+2028, a tab and U+FEFF behind; U+200B is no white space. *)
Example trim_unicode :
  trim (ofBytes [194; 160; 227; 128; 128] +:+ "Ann Lee"
        +:+ ofBytes [226; 128; 168; 9; 239; 187; 191])
  = "Ann Lee"%string
  ∧ trim (ofBytes [226; 128; 139] +:+ " ") = ofBytes [226; 128; 139].
Proof. split; reflexivity. Qed.

Example includes_ex :
  includes "_1_" "pref_want_1_2" = true
  ∧ includes "_1_" "pref_want_2_1" = false
  ∧ includes "_1_" "pref_want_11_2" = false.
Proof. split_and!; reflexivity. Qed.

Example handleAddPerson_two :
  handleAddPerson "Bob" (handleAddPerson " Ann " initialState)
  = {| people := [ann; bob]; nextPersonId := 2; preferencesState := [] |}.
Proof. reflexivity. Qed.

Example handleAddPerson_again :
  handleAddPerson "Ann  " twoFriends = twoFriends
  ∧ handleAddPerson "   " twoFriends = twoFriends.
Proof. split; reflexivity. Qed.

(** A name of white space only, here U+00A0 and U+2028, adds nobody. *)
Example handleAddPerson_white_space :
  handleAddPerson (ofBytes [194; 160; 226; 128; 168]) twoFriends = twoFriends.
Proof. reflexivity. Qed.

Example handleRemovePerson_ann :
  handleRemovePerson 0 twoFriends
  = {| people := [bob]; nextPersonId := 2;
       preferencesState := [("pref_want_1_0", true)]%string |}.
Proof. reflexivity. Qed.

Example preferences_twoFriends :
  TriggerSolutionUpdate.preferences twoFriends
  = [[Some 0%Q; Some 1%Q]; [Some 1%Q; Some 0%Q]].
Proof. reflexivity. Qed.

Example preferences_stale_key :
  TriggerSolutionUpdate.preferences (handleRemovePerson 0 twoFriends) = [[Some 0%Q]].
Proof. reflexivity. Qed.

Example displayTable_triangle :
  displayTable [0; 2; 1] [ann; bob; cho] = Some [ann; cho; bob]
  ∧ displayTable [0; 3] [ann; bob; cho] = None
  ∧ displayTable [] [ann; bob; cho] = None.
Proof. split_and!; reflexivity. Qed.

Example docs_solveSitting_two_tables :
  docs_outcome (DocsSolveSitting.solveSitting (glpkWith (λ _ _ _, optimal twoTriangles))
                  (uniformPref 6 0))
  = Normal twoTriangles.
Proof. vm_compute. reflexivity. Qed.

Example docs_solveSitting_failed :
  docsErrorMessage (DocsSolverFailed 3 "No Feasible Solution" 4)
  = "Solver failed for n=3. Status: No Feasible Solution (4). Could not ensure exactly two neighbors per person."%string
  ∧ docs_outcome (DocsSolveSitting.solveSitting (glpkWith (λ _ _ _, rejection 4))
                    (uniformPref 3 0))
    = Abrupt (DocsSolverFailed 3 "No Feasible Solution" 4)
  ∧ docs_outcome (DocsSolveSitting.solveSitting (glpkWith (λ _ _ _, rejection 9))
                    (uniformPref 3 0))
    = Abrupt (DocsSolverFailed 3 "Unknown" 9).
Proof. split_and!; vm_compute; reflexivity. Qed.

(** * Proof steps shared below *)

(** Membership in a list written out: [tac] is run once for each entry. *)
Ltac for_each_member H tac :=
  repeat (apply elem_of_cons in H as [->|H]; [tac|]);
  try (by apply elem_of_nil in H).

(** Nothing is a member of the empty list. *)
Ltac no_member := let H := fresh in intros ? H; by apply elem_of_nil in H.

Create HintDb members discriminated.
#[global] Hint Resolve list_elem_of_here list_elem_of_further : members.
(** Case analysis on the indices below a length that is a numeral. *)
Ltac below_length :=
  repeat match goal with
  | H : S _ < S _ |- _ => apply Nat.succ_lt_mono in H
  | H : _ < 0 |- _ => by apply Nat.nlt_0_r in H
  | H : ?i < S _ |- _ => is_var i; destruct i as [|i]; [clear H|]
  end.

(** * Facts about findSubtours *)

Lemma unvisited_insert (visited : list bool) (k : nat) :
  visited !! k = Some false →
  S (unvisited (<[k := true]> visited)) = unvisited visited.
Proof.
  revert k. induction visited as [|b v IH]; intros k Hk; [done|].
  destruct k as [|k]; simpl in *.
  - injection Hk as ->. reflexivity.
  - unfold unvisited in *. rewrite !filter_cons.
    destruct (decide (b = false)); simpl; rewrite <- (IH k Hk); done.
Qed.

Lemma isVisited_false_lookup (visited : list bool) (k : nat) :
  k < length visited → isVisited visited k = false → visited !! k = Some false.
Proof.
  intros Hk Hv. unfold isVisited in Hv. apply bool_decide_eq_false in Hv.
  destruct (lookup_lt_is_Some_2 visited k Hk) as [[|] Hb]; congruence.
Qed.

Lemma isVisited_insert (visited : list bool) (k x : nat) :
  k < length visited →
  isVisited (<[k := true]> visited) x = isVisited visited x || bool_decide (x = k).
Proof.
  intros Hk. unfold isVisited. destruct (decide (x = k)) as [->|Hne].
  - rewrite list_lookup_insert_eq by done.
    rewrite (bool_decide_eq_true_2 (k = k)) by done.
    rewrite (bool_decide_eq_true_2 (Some true = Some true)) by done.
    by rewrite orb_true_r.
  - rewrite list_lookup_insert_ne by done. rewrite (bool_decide_eq_false_2 (x = k)) by done.
    by rewrite orb_false_r.
Qed.

Section FindSubtoursFacts.
Variable adjMatrix : AdjacencyMatrix.
Local Abbreviation n := (FindSubtours.n adjMatrix).
Local Abbreviation getNeighbors := (FindSubtours.getNeighbors adjMatrix).
Local Abbreviation chooseNext := (FindSubtours.chooseNext adjMatrix).
Local Abbreviation traceCycle := (FindSubtours.traceCycle adjMatrix).

Lemma getNeighbors_sub node x : x ∈ getNeighbors node → x ∈ rowNeighbors adjMatrix node.
Proof.
  unfold FindSubtours.getNeighbors. fold (rowNeighbors adjMatrix node).
  repeat case_bool_decide; intros Hx; try done; by apply elem_of_nil in Hx.
Qed.

Lemma getNeighbors_lt node x : x ∈ getNeighbors node → x < n.
Proof.
  intros H%getNeighbors_sub. apply list_elem_of_filter in H as [_ H].
  apply elem_of_seq in H. lia.
Qed.

Lemma getNeighbors_two node :
  3 ≤ n → length (getNeighbors node) = 2 → length (rowNeighbors adjMatrix node) = 2.
Proof.
  intros Hn. unfold FindSubtours.getNeighbors. fold (rowNeighbors adjMatrix node).
  rewrite bool_decide_eq_true_2 by done.
  case_bool_decide; [done|]. simpl. lia.
Qed.

Lemma chooseNext_elem neighbors prevNode x :
  chooseNext neighbors prevNode = FindSubtours.Next x → x ∈ neighbors.
Proof.
  unfold FindSubtours.chooseNext.
  destruct neighbors as [|a [|b [|c l]]]; simpl;
    repeat case_bool_decide; intros Hx; simplify_eq; try lia;
    eauto with members.
Qed.

Lemma chooseNext_degree neighbors prevNode x :
  3 ≤ n → chooseNext neighbors prevNode = FindSubtours.Next x → length neighbors = 2.
Proof.
  intros Hn. unfold FindSubtours.chooseNext.
  repeat case_bool_decide; intros Hx; simplify_eq; lia.
Qed.

Lemma chooseNext_single neighbors prevNode :
  chooseNext neighbors prevNode = FindSubtours.SingleNode → n = 1.
Proof.
  unfold FindSubtours.chooseNext.
  repeat case_bool_decide; intros Hx; simplify_eq; lia.
Qed.

(** What the inner loop does to the flags and to the cycle under
    construction: it marks a duplicate-free list [new] of nodes that were
    not marked, and leaves either the cycle extended by [new] or the empty
    (invalidated) cycle. *)
Lemma traceCycle_spec fuel i :
  ∀ visited cycle cur prev visited' cycle',
  length visited = n → cur < n →
  traceCycle fuel i visited cycle cur prev = Some (visited', cycle') →
  ∃ new,
    length visited' = n
    ∧ (∀ x, isVisited visited' x = true ↔ isVisited visited x = true ∨ x ∈ new)
    ∧ NoDup new
    ∧ (∀ x, x ∈ new → isVisited visited x = false ∧ x < n)
    ∧ (isVisited visited cur = false → cur ∈ new)
    ∧ (cycle' = cycle ++ new ∨ cycle' = [])
    ∧ (cycle' ≠ [] → 3 ≤ n → ∀ x, x ∈ new → length (rowNeighbors adjMatrix x) = 2).
Proof.
  induction fuel as [|fuel IH]; intros visited cycle cur prev visited' cycle' Hlen Hcur Htrace;
    [done|].
  simpl in Htrace. destruct (isVisited visited cur) eqn:Hv.
  { simplify_eq. exists []. rewrite app_nil_r.
    split_and!; try done; try no_member; auto using NoDup_nil_2.
    - intros x; split; [auto|]. intros [?|?%elem_of_nil]; done.
    - intros _ _ ? ?%elem_of_nil; done. }
  assert (Hone : ∀ x, isVisited (<[cur:=true]> visited) x = true
                      ↔ isVisited visited x = true ∨ x ∈ [cur]).
  { intros x. rewrite isVisited_insert by lia. rewrite orb_true_iff.
    rewrite bool_decide_eq_true, list_elem_of_singleton. done. }
  assert (Hnew : ∀ x, x ∈ [cur] → isVisited visited x = false ∧ x < n).
  { intros x ->%list_elem_of_singleton. done. }
  assert (Hin : cur ∈ [cur]) by apply list_elem_of_here.
  destruct (chooseNext (getNeighbors cur) prev) as [|next|] eqn:Hc.
  - simplify_eq. exists [cur].
    split_and!; auto using NoDup_singleton; [by rewrite length_insert|].
    intros _ Hn. apply chooseNext_single in Hc. lia.
  - assert (Hdeg : 3 ≤ n → ∀ x, x ∈ [cur] → length (rowNeighbors adjMatrix x) = 2).
    { intros Hn x ->%list_elem_of_singleton.
      eauto using getNeighbors_two, chooseNext_degree. }
    destruct (isVisited (<[cur:=true]> visited) next) eqn:Hvn.
    + case_bool_decide; simplify_eq; exists [cur];
        split_and!; auto using NoDup_singleton; by rewrite length_insert.
    + apply IH in Htrace as (new & Hl & Hvis & Hnd & Hfresh & Hcn & Hcyc & Hd);
        [|by rewrite length_insert|eauto using getNeighbors_lt, chooseNext_elem].
      exists (cur :: new). split_and!; [done| | | | | |].
      * intros x. rewrite Hvis, Hone, list_elem_of_singleton, elem_of_cons. tauto.
      * apply list.NoDup_cons. split; [|done]. intros [Hf _]%Hfresh.
        rewrite isVisited_insert in Hf by lia.
        rewrite bool_decide_eq_true_2 in Hf by done. by rewrite orb_true_r in Hf.
      * intros x [->|[Hf ?]%Hfresh]%elem_of_cons; [done|].
        split; [|done]. rewrite isVisited_insert in Hf by lia.
        by apply orb_false_iff in Hf as [? _].
      * intros _. apply list_elem_of_here.
      * destruct Hcyc as [->| ->]; [left|by right]. by rewrite <- app_assoc.
      * intros Hne Hn x [->|?]%elem_of_cons; [|by apply Hd].
        apply Hdeg; [done|apply list_elem_of_here].
  - simplify_eq. exists [cur].
    split_and!; auto using NoDup_singleton; [by rewrite length_insert|done].
Qed.

Lemma unvisited_le (visited : list bool) : unvisited visited ≤ length visited.
Proof. apply length_filter. Qed.

(** The inner loop never runs out of fuel when it is given one more pass
    than there are unmarked nodes. *)
Lemma traceCycle_fuel fuel i :
  ∀ visited cycle cur prev,
  length visited = n → cur < n → unvisited visited < fuel →
  is_Some (traceCycle fuel i visited cycle cur prev).
Proof.
  induction fuel as [|fuel IH]; intros visited cycle cur prev Hlen Hcur Hfuel; [lia|].
  simpl. destruct (isVisited visited cur) eqn:Hv; [done|].
  destruct (chooseNext (getNeighbors cur) prev) as [|next|] eqn:Hc; [done| |done].
  destruct (isVisited (<[cur:=true]> visited) next); [by case_bool_decide|].
  apply IH; [by rewrite length_insert|eauto using getNeighbors_lt, chooseNext_elem|].
  pose proof (unvisited_insert visited cur) as Hins.
  rewrite <- Hins in Hfuel; [lia|]. apply isVisited_false_lookup; [lia|done].
Qed.

Lemma subtoursInv_mark visited subtours i :
  i < n → subtoursInv adjMatrix (visited, subtours) →
  subtoursInv adjMatrix (<[i := true]> visited, subtours).
Proof.
  intros Hi (Hlen & Hnd & Hvis & Hne & Hdeg). simpl in *.
  split_and!; simpl; [by rewrite length_insert|done| |done|done].
  intros x [Hx ?]%Hvis. split; [|done].
  rewrite isVisited_insert by lia. by rewrite Hx.
Qed.

Lemma visitNode_inv fuel st i st' :
  i < n → subtoursInv adjMatrix st →
  FindSubtours.visitNode adjMatrix fuel st i = Some st' → subtoursInv adjMatrix st'.
Proof.
  intros Hi Hinv. destruct st as [visited subtours].
  pose proof Hinv as (Hlen & Hnd & Hvis & Hne & Hdeg). simpl in *.
  unfold FindSubtours.visitNode.
  destruct (isVisited visited i) eqn:Hv; [by intros [= <-]|].
  destruct (traceCycle fuel i visited [] i None) as [[visited' cycle]|] eqn:Htrace;
    simpl; [|done].
  apply traceCycle_spec in Htrace as (new & Hl & Hmark & Hndn & Hfresh & Hin & Hcyc & Hd);
    [|done..].
  assert (Hinv' : subtoursInv adjMatrix (visited', subtours)).
  { split_and!; simpl; [done..| |done|done].
    intros x [Hx ?]%Hvis. split; [|done]. apply Hmark. by left. }
  case_bool_decide as Hc.
  - intros [= <-]. destruct Hcyc as [Hcyc|Hcyc]; [|rewrite Hcyc in Hc; simpl in Hc; lia].
    simpl in Hcyc. subst cycle.
    split_and!; simpl.
    + done.
    + rewrite join_app. simpl. rewrite app_nil_r. apply list.NoDup_app.
      split_and!; [done| |done].
      intros x [Hx _]%Hvis [Hf _]%Hfresh. congruence.
    + intros x. rewrite join_app. simpl. rewrite app_nil_r.
      intros [[Hx ?]%Hvis|Hx]%elem_of_app.
      * split; [|done]. apply Hmark. by left.
      * split; [|by apply Hfresh]. apply Hmark. by right.
    + intros S [?| ->%list_elem_of_singleton]%elem_of_app; [by apply Hne|].
      intros ->. simpl in Hc. lia.
    + intros Hn x. rewrite join_app. simpl. rewrite app_nil_r.
      intros [?|Hx]%elem_of_app; [by apply Hdeg|].
      apply Hd; [|done..]. intros ->. simpl in Hc. lia.
  - destruct (negb (isVisited visited' i) && bool_decide (0 < n)); intros [= <-];
      [by apply subtoursInv_mark|done].
Qed.

Lemma visitNode_fuel st i :
  i < n → subtoursInv adjMatrix st → is_Some (FindSubtours.visitNode adjMatrix (S n) st i).
Proof.
  intros Hi Hinv. destruct st as [visited subtours].
  pose proof Hinv as (Hlen & _). simpl in Hlen.
  unfold FindSubtours.visitNode.
  destruct (isVisited visited i) eqn:Hv; [done|].
  destruct (traceCycle_fuel (S n) i visited [] i None) as [[visited' cycle] ->];
    [done..| |].
  { pose proof (unvisited_le visited). lia. }
  simpl. case_bool_decide; [done|].
  by destruct (negb (isVisited visited' i) && bool_decide (0 < n)).
Qed.

Lemma visitAll_fuel indices :
  ∀ st, (∀ i, i ∈ indices → i < n) → subtoursInv adjMatrix st →
  ∃ st', FindSubtours.visitAll adjMatrix (S n) st indices = Some st' ∧ subtoursInv adjMatrix st'.
Proof.
  induction indices as [|i rest IH]; intros st Hlt Hinv; simpl; [eauto|].
  destruct (visitNode_fuel st i) as [st1 Hst1];
    [apply Hlt, list_elem_of_here|done|].
  rewrite Hst1. simpl. apply IH.
  - intros j Hj. by apply Hlt, list_elem_of_further.
  - eapply visitNode_inv; [|done..]. apply Hlt, list_elem_of_here.
Qed.

Lemma subtoursInv_init : subtoursInv adjMatrix (replicate n false, []).
Proof.
  split_and!; simpl; [by rewrite length_replicate|apply NoDup_nil_2|..];
    try no_member.
  intros _ ? ?%elem_of_nil; done.
Qed.

(** The bound [n + 1] on the inner loop is never reached: [findSubtours]
    is the function with the unbounded [while] loop. *)
Lemma findSubtours_fuel :
  FindSubtours.findSubtoursFuel adjMatrix (S n) = Some (findSubtours adjMatrix).
Proof.
  unfold findSubtours. fold n.
  unfold FindSubtours.findSubtoursFuel. case_bool_decide; [done|].
  destruct (visitAll_fuel (seq 0 n) (replicate n false, [])) as (st' & -> & _);
    [|apply subtoursInv_init|done].
  intros i Hi%elem_of_seq. lia.
Qed.

Lemma findSubtours_inv :
  NoDup (mjoin (findSubtours adjMatrix))
  ∧ (∀ x, x ∈ mjoin (findSubtours adjMatrix) → x < n)
  ∧ (∀ S, S ∈ findSubtours adjMatrix → S ≠ [])
  ∧ (3 ≤ n → ∀ x, x ∈ mjoin (findSubtours adjMatrix) → length (rowNeighbors adjMatrix x) = 2).
Proof.
  unfold findSubtours. fold n.
  unfold FindSubtours.findSubtoursFuel. case_bool_decide.
  { simpl. split_and!; [apply NoDup_nil_2|..]; try no_member.
    intros _ ? ?%elem_of_nil; done. }
  destruct (visitAll_fuel (seq 0 n) (replicate n false, []))
    as ([visited subtours] & -> & (_ & Hnd & Hvis & Hne & Hdeg));
    [|apply subtoursInv_init|].
  { intros i Hi%elem_of_seq. lia. }
  simpl in *. split_and!; [done| |done|done]. intros x Hx. by apply Hvis.
Qed.
End FindSubtoursFacts.
(** * Facts about solveSitting *)

Lemma mjoin_length_elem {A} (l : list (list A)) (S : list A) :
  S ∈ l → length S ≤ length (mjoin l).
Proof.
  induction 1 as [S l|S S' l _ IH]; simpl; rewrite length_app; lia.
Qed.

(** When several non-empty cycles share no node, each of them misses a node. *)
Lemma findSubtours_proper (adjMatrix : AdjacencyMatrix) (S : list nat) :
  1 < length (findSubtours adjMatrix) → S ∈ findSubtours adjMatrix →
  0 < length S ∧ length S < length adjMatrix.
Proof.
  destruct (findSubtours_inv adjMatrix) as (Hnd & Hlt & Hne & _).
  intros Hmany HS. split.
  { specialize (Hne S HS). destruct S; [done|simpl; lia]. }
  assert (Hsum : length (mjoin (findSubtours adjMatrix)) ≤ length adjMatrix).
  { assert (Hsub : mjoin (findSubtours adjMatrix) ⊆+ seq 0 (length adjMatrix)).
    { apply NoDup_submseteq; [done|]. intros x Hx%Hlt. apply elem_of_seq.
      unfold FindSubtours.n in Hx. lia. }
    apply submseteq_length in Hsub. by rewrite length_seq in Hsub. }
  enough (length S < length (mjoin (findSubtours adjMatrix))) by lia.
  revert Hmany HS Hne. generalize (findSubtours adjMatrix) as l. clear.
  intros l Hmany HS Hne. destruct HS as [S l|S S' l HS]; simpl in *.
  - destruct l as [|S2 l]; simpl in *; [lia|].
    assert (S2 ≠ []) by (apply Hne; eauto with members).
    rewrite !length_app. destruct S2; [done|simpl; lia].
  - assert (S' ≠ []) by (apply Hne; eauto with members).
    pose proof (mjoin_length_elem l S HS).
    rewrite length_app. destruct S'; [done|simpl; lia].
Qed.

Section SolveSittingFacts.
Variable glpk : GLPKInstance.
Variable pref : PreferenceMatrix.
Local Abbreviation n := (SolveSitting.n pref).
Local Abbreviation MAX_SUBTOUR_ITERATIONS := (SolveSitting.MAX_SUBTOUR_ITERATIONS pref).
Local Abbreviation iteration := (SolveSitting.iteration glpk pref).
Local Abbreviation iterations := (SolveSitting.iterations glpk pref).
Local Abbreviation lpProblemForIter := (SolveSitting.lpProblemForIter glpk pref).
Local Abbreviation advance := (advance glpk pref).

Lemma iterations_calls_length remaining :
  ∀ iter constraints, length (calls (iterations remaining iter constraints)) ≤ remaining.
Proof.
  induction remaining as [|r IH]; intros iter constraints; simpl; [lia|].
  destruct (iteration iter constraints); simpl; try lia.
  specialize (IH (S iter) currentSubtourConstraints). lia.
Qed.


(** A run that passes through [j] continuing passes is the run of the
    remaining passes, with [j] more solver calls in front. *)
Lemma iterations_advance j :
  ∀ remaining iter constraints constraints',
  advance j iter constraints = Some constraints' → j ≤ remaining →
  outcome (iterations remaining iter constraints)
    = outcome (iterations (remaining - j) (iter + j) constraints')
  ∧ ∃ front, length front = j
      ∧ calls (iterations remaining iter constraints)
        = front ++ calls (iterations (remaining - j) (iter + j) constraints').
Proof.
  induction j as [|j IH]; intros remaining iter constraints constraints' Hadv Hle.
  { simpl in Hadv. simplify_eq. rewrite Nat.sub_0_r, Nat.add_0_r.
    split; [done|]. by exists []. }
  destruct remaining as [|r]; [lia|]. simpl in *.
  destruct (iteration iter constraints) as [| |c1] eqn:Hit; [done..|].
  destruct (IH r (S iter) c1 constraints' Hadv) as (Hout & front & Hlen & Hcalls); [lia|].
  simpl. replace (iter + S j) with (S iter + j) by lia. split; [done|].
  exists (lpProblemForIter constraints :: front). simpl. by rewrite Hlen, Hcalls.
Qed.

(** A run that returns does so from some pass of the loop. *)
Lemma iterations_Normal remaining :
  ∀ iter constraints m,
  outcome (iterations remaining iter constraints) = Normal m →
  ∃ j constraints', j < remaining
    ∧ advance j iter constraints = Some constraints'
    ∧ iteration (iter + j) constraints' = Return m.
Proof.
  induction remaining as [|r IH]; intros iter constraints m; simpl; [done|].
  destruct (iteration iter constraints) as [m'| |c1] eqn:Hit; simpl.
  - intros [= ->]. exists 0, constraints. rewrite Nat.add_0_r. split_and!; [lia|done..].
  - done.
  - intros (j & c' & Hj & Hadv & Hret)%IH. exists (S j), c'.
    simpl. rewrite Hit. replace (iter + S j) with (S iter + j) by lia.
    split_and!; [lia|done..].
Qed.

Lemma iteration_Return iter constraints m :
  iteration iter constraints = Return m →
  ∃ cycle, findSubtours m = [cycle] ∧ length cycle = n.
Proof.
  unfold SolveSitting.iteration.
  destruct (solve glpk _ _ _) as [result|]; [|done].
  case_bool_decide; [by case_bool_decide|].
  destruct (SolveSitting.verifyRows _ _ _); [|done].
  case_bool_decide as Hone; [|repeat case_bool_decide; done]. intros [= <-].
  destruct Hone as [Hlen Hcycle].
  destruct (findSubtours _) as [|cycle [|]]; simpl in *; try lia.
  exists cycle. split; [done|]. by injection Hcycle.
Qed.

Lemma iteration_Return_result iter constraints m :
  iteration iter constraints = Return m →
  ∃ result, m = SolveSitting.resultMatrix pref result.
Proof.
  unfold SolveSitting.iteration.
  destruct (solve glpk _ _ _) as [result|]; [|done].
  case_bool_decide; [by case_bool_decide|].
  destruct (SolveSitting.verifyRows _ _ _); [|done].
  repeat case_bool_decide; try done. intros [= <-]. eauto.
Qed.

Lemma solveSitting_iterations :
  3 ≤ n → solveSitting glpk pref = iterations MAX_SUBTOUR_ITERATIONS 0 [].
Proof.
  intros Hn. unfold solveSitting, SolveSitting.solveSitting.
  repeat case_bool_decide; try lia. done.
Qed.
End SolveSittingFacts.

Section BaseModelFacts.
Variable glpk : GLPKInstance.
Variable pref : PreferenceMatrix.
Local Abbreviation n := (SolveSitting.n pref).
Local Abbreviation base := (SolveSitting.baseLpProblem glpk pref).

Lemma iterations_first_call remaining iter constraints :
  ∃ rest, calls (SolveSitting.iterations glpk pref (S remaining) iter constraints)
          = SolveSitting.lpProblemForIter glpk pref constraints :: rest.
Proof.
  simpl. destruct (SolveSitting.iteration glpk pref iter constraints); simpl; eauto.
Qed.

Lemma elem_of_indices i : i ∈ SolveSitting.indices pref ↔ i < n.
Proof. unfold SolveSitting.indices. rewrite elem_of_seq. lia. Qed.

(** The ordered pairs [(i, j)], [i ≠ j], are what the objective and the list
    of binaries range over. *)
Lemma elem_of_ordered_pairs {A} (f : nat → nat → A) (y : A) :
  y ∈ (SolveSitting.indices pref ≫= λ i,
         (λ j, f i j) <$> filter (λ j, i ≠ j) (SolveSitting.indices pref))
  ↔ ∃ i j, i < n ∧ j < n ∧ i ≠ j ∧ y = f i j.
Proof.
  rewrite list_elem_of_bind. split.
  - intros (i & (j & -> & [Hne Hj%elem_of_indices]%list_elem_of_filter)%list_elem_of_fmap
              & Hi%elem_of_indices).
    eauto 10.
  - intros (i & j & Hi & Hj & Hne & ->). exists i. split; [|by apply elem_of_indices].
    apply list_elem_of_fmap. exists j. split; [done|].
    apply list_elem_of_filter. split; [done|by apply elem_of_indices].
Qed.

Lemma base_rowsum i :
  i < n →
  {| constraint_name := "RowSum_" +:+ showNat i;
     vars := (λ j, {| name := SolveSitting.getVarName i j; coef := 1 |})
               <$> filter (λ j, i ≠ j) (SolveSitting.indices pref);
     bnds := {| type := GLP_FX glpk; ub := 2; lb := 2 |} |} ∈ subjectTo base.
Proof.
  intros Hi. simpl. apply elem_of_app. left.
  apply list_elem_of_fmap. exists i. split; [done|by apply elem_of_indices].
Qed.

Lemma base_symmetry i j :
  i < j → j < n →
  {| constraint_name := "Symm_" +:+ showNat i +:+ "_" +:+ showNat j;
     vars := [ {| name := SolveSitting.getVarName i j; coef := 1 |};
               {| name := SolveSitting.getVarName j i; coef := -1 |} ];
     bnds := {| type := GLP_FX glpk; ub := 0; lb := 0 |} |} ∈ subjectTo base.
Proof.
  intros Hij Hj. simpl. apply elem_of_app. right.
  apply list_elem_of_bind. exists i. split; [|apply elem_of_indices; lia].
  apply list_elem_of_fmap. exists j. split; [done|].
  apply list_elem_of_filter. split; [done|by apply elem_of_indices].
Qed.
End BaseModelFacts.

Section IterationFacts.
Variable glpk : GLPKInstance.
Variable pref : PreferenceMatrix.
Local Abbreviation n := (SolveSitting.n pref).

(** [console.assert] does not throw, so the [try] block that checks the
    result matrix always completes and its [catch] clause never runs. *)
Lemma verifyColumns_Normal m i js :
  ∀ rowSum, ∃ total, SolveSitting.verifyColumns m i js rowSum = Normal total.
Proof.
  induction js as [|j js IH]; intros rowSum; simpl; [eauto|].
  case_bool_decide; simpl; apply IH.
Qed.

Lemma verifyRows_Normal m rows : SolveSitting.verifyRows pref m rows = Normal ().
Proof.
  induction rows as [|i rows IH]; simpl; [done|].
  destruct (verifyColumns_Normal m i (seq 0 n) 0%Z) as [total ->]. simpl. exact IH.
Qed.

Lemma storeVar_length m entry :
  length (SolveSitting.storeVar pref m entry) = length m.
Proof.
  unfold SolveSitting.storeVar. destruct entry as [varName value].
  destruct (String.prefix _ _); [|done].
  destruct (parseInt _); [|done]. destruct (parseInt _); [|done].
  case_bool_decide; [|done]. apply length_alter.
Qed.

Lemma resultMatrix_length result :
  length (SolveSitting.resultMatrix pref result) = n.
Proof.
  unfold SolveSitting.resultMatrix.
  assert (Hfold : ∀ entries m, length (foldl (SolveSitting.storeVar pref) m entries) = length m).
  { induction entries as [|e entries IH]; intros m; simpl; [done|].
    by rewrite IH, storeVar_length. }
  by rewrite Hfold, length_replicate.
Qed.

(** Every row of the result matrix has [n] entries. *)
Lemma storeVar_rows m entry :
  (∀ row, row ∈ m → length row = n) →
  ∀ row, row ∈ SolveSitting.storeVar pref m entry → length row = n.
Proof.
  intros Hrows. unfold SolveSitting.storeVar. destruct entry as [varName value].
  destruct (String.prefix _ _); [|done].
  destruct (parseInt _); [|done]. destruct (parseInt _); [|done].
  case_bool_decide; [|done].
  intros row (k & Hk)%list_elem_of_lookup_1. unfold AdjacencyMatrix in *.
  destruct (decide (k = Z.to_nat z)) as [->|Hne].
  - rewrite list_lookup_alter_eq in Hk.
    destruct (m !! Z.to_nat z) as [row0|] eqn:Hrow0; simplify_eq/=.
    rewrite length_insert. eapply Hrows, list_elem_of_lookup_2, Hrow0.
  - rewrite list_lookup_alter_ne in Hk by done.
    eapply Hrows, list_elem_of_lookup_2, Hk.
Qed.

Lemma resultMatrix_rows result :
  ∀ row, row ∈ SolveSitting.resultMatrix pref result → length row = n.
Proof.
  unfold SolveSitting.resultMatrix.
  assert (Hfold : ∀ entries m, (∀ row, row ∈ m → length row = n) →
            ∀ row, row ∈ foldl (SolveSitting.storeVar pref) m entries → length row = n).
  { induction entries as [|e entries IH]; intros m Hm; simpl; [done|].
    apply IH. by apply storeVar_rows. }
  apply Hfold. intros row [-> _]%elem_of_replicate. apply length_replicate.
Qed.

Lemma resultMatrix_first_row result :
  0 < n → length <$> SolveSitting.resultMatrix pref result !! 0 = Some n.
Proof.
  intros Hn. pose proof (resultMatrix_length result) as Hlen.
  destruct (SolveSitting.resultMatrix pref result) as [|row rows] eqn:Hm;
    [simpl in Hlen; lia|].
  simpl. f_equal. apply (resultMatrix_rows result). rewrite Hm. apply list_elem_of_here.
Qed.


(** The variables of an elimination constraint are the pairs [i < j] of the
    cycle. *)
Lemma bind_pairs_fmap {A} (g : nat → nat → A) (S T : list nat) :
  (S ≫= λ i, (λ j, g i j) <$> filter (λ j, i < j) T)
  = (λ ij, g ij.1 ij.2) <$> (S ≫= λ i, (λ j, (i, j)) <$> filter (λ j, i < j) T).
Proof.
  induction S as [|i S' IH]; [done|].
  rewrite !bind_cons, fmap_app. f_equal; [|apply IH].
  rewrite <- list_fmap_compose. done.
Qed.

Lemma eliminationConstraint_vars iter S :
  vars (SolveSitting.eliminationConstraint glpk iter S)
  = (λ ij, {| name := SolveSitting.getVarName ij.1 ij.2; coef := 1 |})
      <$> (S ≫= λ i, (λ j, (i, j)) <$> filter (λ j, i < j) S).
Proof. simpl. apply (bind_pairs_fmap (λ i j, {| name := SolveSitting.getVarName i j; coef := 1 |})). Qed.

Lemma elem_of_cycle_pairs (S : list nat) i j :
  (i, j) ∈ (S ≫= λ i, (λ j, (i, j)) <$> filter (λ j, i < j) S)
  ↔ i ∈ S ∧ j ∈ S ∧ i < j.
Proof.
  rewrite list_elem_of_bind. split.
  - intros (i' & (j' & [= -> ->] & [? ?]%list_elem_of_filter)%list_elem_of_fmap & ?). done.
  - intros (Hi & Hj & Hlt). exists i. split; [|done].
    apply list_elem_of_fmap. exists j. split; [done|]. by apply list_elem_of_filter.
Qed.
End IterationFacts.

Section RunFacts.
Variable glpk : GLPKInstance.
Variable pref : PreferenceMatrix.
Local Abbreviation n := (SolveSitting.n pref).
Local Abbreviation MAX_SUBTOUR_ITERATIONS := (SolveSitting.MAX_SUBTOUR_ITERATIONS pref).
Local Abbreviation iteration := (SolveSitting.iteration glpk pref).
Local Abbreviation iterations := (SolveSitting.iterations glpk pref).

Lemma iterations_step remaining iter constraints :
  iterations (S remaining) iter constraints
  = match iteration iter constraints with
    | Return varMatrix =>
      {| outcome := Normal varMatrix;
         calls := [SolveSitting.lpProblemForIter glpk pref constraints] |}
    | Throw e =>
      {| outcome := Abrupt e;
         calls := [SolveSitting.lpProblemForIter glpk pref constraints] |}
    | Continue constraints' =>
      {| outcome := outcome (iterations remaining (S iter) constraints');
         calls := SolveSitting.lpProblemForIter glpk pref constraints
                  :: calls (iterations remaining (S iter) constraints') |}
    end.
Proof. reflexivity. Qed.

(** A pass that throws ends the run with that error. *)
Lemma solveSitting_throw k constraints e :
  3 ≤ n → k < MAX_SUBTOUR_ITERATIONS →
  advance glpk pref k 0 [] = Some constraints →
  iteration k constraints = Throw e →
  outcome (solveSitting glpk pref) = Abrupt e
  ∧ length (calls (solveSitting glpk pref)) = k + 1.
Proof.
  intros Hn Hk Hadv Hthrow. rewrite solveSitting_iterations by done.
  destruct (iterations_advance glpk pref k MAX_SUBTOUR_ITERATIONS 0 [] constraints Hadv)
    as (Hout & front & Hlen & Hcalls); [lia|].
  rewrite Hout, Hcalls. simpl.
  destruct (MAX_SUBTOUR_ITERATIONS - k) as [|r] eqn:Hr; [lia|].
  rewrite iterations_step, Hthrow. simpl. split; [done|].
  rewrite length_app. simpl. lia.
Qed.

(** The loop runs out of passes exactly when every pass continues. *)
Lemma iterations_budget remaining :
  ∀ iter constraints,
  is_Some (advance glpk pref remaining iter constraints)
  ↔ ∃ m, outcome (iterations remaining iter constraints) = Abrupt (BudgetExhausted m).
Proof.
  induction remaining as [|r IH]; intros iter constraints.
  { simpl. split; eauto. }
  rewrite iterations_step. simpl.
  destruct (iteration iter constraints) as [m| e |c] eqn:Hit; simpl.
  - split; [by intros [? ?]|by intros [? ?]].
  - split; [by intros [? ?]|]. intros [m [= ->]]. exfalso.
    revert Hit. unfold SolveSitting.iteration.
    destruct (solve glpk _ _ _); [|done].
    rewrite verifyRows_Normal. repeat case_bool_decide; done.
  - apply IH.
Qed.

Lemma solveSitting_budget :
  3 ≤ n →
  is_Some (advance glpk pref MAX_SUBTOUR_ITERATIONS 0 []) →
  outcome (solveSitting glpk pref) = Abrupt (BudgetExhausted MAX_SUBTOUR_ITERATIONS)
  ∧ length (calls (solveSitting glpk pref)) = MAX_SUBTOUR_ITERATIONS.
Proof.
  intros Hn [constraints Hadv]. rewrite solveSitting_iterations by done.
  destruct (iterations_advance glpk pref MAX_SUBTOUR_ITERATIONS MAX_SUBTOUR_ITERATIONS
              0 [] constraints Hadv) as (Hout & front & Hlen & Hcalls); [lia|].
  rewrite Hout, Hcalls, Nat.sub_diag. simpl. by rewrite app_nil_r.
Qed.

(** For [n > 0] a pass that continues has added at least one constraint. *)
Lemma iteration_Continue iter constraints constraints' :
  0 < n → iteration iter constraints = Continue constraints' →
  ∃ added, added ≠ [] ∧ constraints' = constraints ++ added.
Proof.
  intros Hn. unfold SolveSitting.iteration.
  destruct (solve glpk _ _ _) as [result|] eqn:Hsolve; [|done].
  case_bool_decide as Hst; [by case_bool_decide|].
  rewrite verifyRows_Normal.
  case_bool_decide; [done|]. case_bool_decide as Hmany.
  - assert (Hne : SolveSitting.newConstraints glpk pref iter
                    (findSubtours (SolveSitting.resultMatrix pref result)) ≠ []).
    { unfold SolveSitting.newConstraints.
      destruct (findSubtours (SolveSitting.resultMatrix pref result)) as [|S l] eqn:Hsub;
        [simpl in Hmany; lia|].
      destruct (findSubtours_proper (SolveSitting.resultMatrix pref result) S) as [Hpos Hlt].
      { by rewrite Hsub. }
      { rewrite Hsub. apply list_elem_of_here. }
      rewrite resultMatrix_length in Hlt.
      rewrite filter_cons, decide_True by done. done. }
    case_bool_decide as Hnone.
    { destruct Hnone as [Hnone _]. by apply nil_length_inv in Hnone. }
    intros [= <-]. eauto.
  - repeat case_bool_decide; try done. intros _. exfalso.
    destruct (findSubtours _) as [|c [|c' l]]; simpl in *; [lia| |lia].
    destruct (decide (Some (length c) = Some n)); tauto.
Qed.

Lemma advance_constraints j :
  ∀ iter constraints constraints',
  0 < n → 0 < j → advance glpk pref j iter constraints = Some constraints' →
  constraints' ≠ [].
Proof.
  induction j as [|j IH]; intros iter constraints constraints' Hn Hj; [lia|].
  simpl. destruct (iteration iter constraints) as [| |c] eqn:Hit; [done..|].
  apply iteration_Continue in Hit as (added & Hne & ->); [|done].
  destruct j as [|j'].
  - simpl. intros [= <-]. destruct constraints, added; done.
  - apply IH; [done|lia].
Qed.

(** The error of the [catch] clause around the matrix checks is never
    thrown. *)
Lemma iteration_not_InvalidMatrix iter constraints k msg :
  iteration iter constraints ≠ Throw (InvalidMatrix k msg).
Proof.
  unfold SolveSitting.iteration. destruct (solve glpk _ _ _); [|done].
  rewrite verifyRows_Normal. repeat case_bool_decide; done.
Qed.

Lemma iterations_not_InvalidMatrix remaining :
  ∀ iter constraints k msg,
  outcome (iterations remaining iter constraints) ≠ Abrupt (InvalidMatrix k msg).
Proof.
  induction remaining as [|r IH]; intros iter constraints k msg; [done|].
  rewrite iterations_step.
  destruct (iteration iter constraints) as [m|e|c] eqn:Hit; simpl; [done| |apply IH].
  intros [= ->]. by eapply iteration_not_InvalidMatrix.
Qed.

Lemma solveSitting_not_InvalidMatrix k msg :
  outcome (solveSitting glpk pref) ≠ Abrupt (InvalidMatrix k msg).
Proof.
  unfold solveSitting, SolveSitting.solveSitting.
  repeat case_bool_decide; try done. apply iterations_not_InvalidMatrix.
Qed.
End RunFacts.

(** The messages of the errors differ where their fixed texts differ. *)
Lemma message_budget_not_failed m statusText s :
  errorMessage (BudgetExhausted m) ≠ errorMessage (SolverFailed statusText s).
Proof. simpl. discriminate. Qed.

Lemma message_budget_not_no_cycle m k statusText :
  errorMessage (BudgetExhausted m) ≠ errorMessage (NoSingleCycle k statusText).
Proof. simpl. discriminate. Qed.

Lemma message_failed_not_no_cycle statusText s k statusText' :
  errorMessage (SolverFailed statusText s) ≠ errorMessage (NoSingleCycle k statusText').
Proof. simpl. discriminate. Qed.

(** * Facts about extractTableCycle *)

Lemma remove_dups_length_NoDup (l : list nat) :
  length (remove_dups l) = length l → NoDup l.
Proof.
  assert (Hle : ∀ l : list nat, length (remove_dups l) ≤ length l).
  { clear. induction l as [|x l IH]; simpl; [lia|]. case_decide; simpl; lia. }
  induction l as [|x l IH]; simpl; [intros; apply NoDup_nil_2|].
  case_decide as Hx; simpl.
  - specialize (Hle l). lia.
  - intros Hlen. apply NoDup_cons_2; [done|]. apply IH. lia.
Qed.

Lemma NoDup_remove_dups_id (l : list nat) : NoDup l → remove_dups l = l.
Proof.
  induction 1 as [|x l Hx _ IH]; simpl; [done|].
  case_decide; [done|]. by rewrite IH.
Qed.

(** A duplicate-free list of [n] numbers below [n] contains them all. *)
Lemma NoDup_below_all (l : list nat) (n i : nat) :
  NoDup l → length l = n → (∀ x, x ∈ l → x < n) → i < n → i ∈ l.
Proof.
  intros Hnd Hlen Hlt Hi.
  assert (Hsub : l ⊆+ seq 0 n).
  { apply NoDup_submseteq; [done|]. intros x Hx%Hlt. apply elem_of_seq. lia. }
  apply submseteq_length_Permutation in Hsub; [|rewrite length_seq; lia].
  rewrite Hsub. apply elem_of_seq. lia.
Qed.

Section ExtractFacts.
Variable m : AdjacencyMatrix.
Local Abbreviation n := (ExtractTableCycle.n m).
Local Abbreviation neighborsOf := (ExtractTableCycle.neighborsOf m).
Local Abbreviation walk := (ExtractTableCycle.walk m).

Lemma elem_of_neighborsOf x y : y ∈ neighborsOf x ↔ isOne m x y ∧ y < n.
Proof.
  unfold ExtractTableCycle.neighborsOf.
  rewrite list_elem_of_filter, elem_of_seq. intuition lia.
Qed.

Lemma NoDup_neighborsOf x : NoDup (neighborsOf x).
Proof. apply list.NoDup_filter, NoDup_seq. Qed.

Lemma nextOf_neighbor x prev :
  length (neighborsOf x) = 2 → nextOf m x prev ∈ neighborsOf x.
Proof.
  unfold nextOf. destruct (neighborsOf x) as [|a [|b [|? ?]]]; simpl; try done.
  intros _. case_bool_decide; simpl;
    eauto with members.
Qed.

(** What a walk that does not throw has done: it has appended [steps] nodes
    of degree two, each adjacent to the one after it, the last one adjacent
    to the node at which the walk stands in the end. *)
Lemma walk_spec steps :
  ∀ path cur prev path' z,
  walk steps path cur prev = Normal (path', z) →
  cur < n →
  ∃ l, path' = path ++ l
    ∧ length l = steps
    ∧ z < n
    ∧ (∀ x, x ∈ l → x < n ∧ length (neighborsOf x) = 2)
    ∧ (l ++ [z]) !! 0 = Some cur
    ∧ ∀ k x y, (l ++ [z]) !! k = Some x → (l ++ [z]) !! S k = Some y → isOne m x y.
Proof.
  induction steps as [|steps IH]; intros path cur prev path' z; simpl.
  { intros [= <- <-] Hcur. exists []. rewrite app_nil_r.
    split_and!; try done. by intros ? ?%elem_of_nil. }
  case_bool_decide as Hdeg; [done|].
  fold (nextOf m cur prev). intros Hwalk Hcur.
  pose proof (nextOf_neighbor cur prev Hdeg) as [Hone Hlt]%elem_of_neighborsOf.
  apply IH in Hwalk as (l & -> & Hlen & Hz & Hall & Hhead & Hadj); [|done].
  exists (cur :: l). split_and!.
  - by rewrite <- app_assoc.
  - simpl. by rewrite Hlen.
  - done.
  - intros x [->|Hx]%elem_of_cons; [done|by apply Hall].
  - done.
  - intros [|k] x y; simpl.
    + intros [= <-] Hy. rewrite Hhead in Hy. by injection Hy as <-.
    + apply Hadj.
Qed.
End ExtractFacts.

(** A result of [extractTableCycle] on a matrix with three or more rows is a
    seating sequence, and then every node has degree two. *)
Lemma extractTableCycle_Normal (m : AdjacencyMatrix) (path : list nat) :
  3 ≤ length m →
  extractTableCycle m = Normal path →
  seatingSequence m path
  ∧ ∀ i, i < length m → length (ExtractTableCycle.neighborsOf m i) = 2.
Proof.
  intros Hn. unfold extractTableCycle, ExtractTableCycle.extractTableCycle.
  fold (ExtractTableCycle.n m). change (ExtractTableCycle.n m) with (length m).
  do 3 (rewrite bool_decide_eq_false_2 by lia).
  case_bool_decide; [done|].
  destruct (ExtractTableCycle.walk m (length m) [] 0 None) as [[p z]|] eqn:Hwalk;
    simpl; [|done].
  case_bool_decide as Hz; [done|]. subst z.
  case_bool_decide as Hlen; [done|]. intros [= ->].
  apply walk_spec in Hwalk as (l & Hl & Hlenl & _ & Hall & Hhead & Hadj);
    [|unfold ExtractTableCycle.n; lia].
  simpl in Hl. subst l.
  assert (Hnd : NoDup path).
  { apply remove_dups_length_NoDup. lia. }
  assert (Hlt : ∀ x, x ∈ path → x < length m).
  { intros x Hx. by apply Hall. }
  assert (Hfirst : path !! 0 = Some 0).
  { destruct path as [|x path]; [simpl in Hlenl; lia|]. exact Hhead. }
  split.
  - split_and!; [done..|].
    intros k x y Hx Hy. apply (Hadj k x y).
    + by apply lookup_app_l_Some.
    + pose proof (lookup_lt_Some _ _ _ Hx) as Hk.
      destruct (decide (S k = length m)) as [Heq|Hne].
      * replace (k + 1) with (length m) in Hy by lia.
        rewrite Nat.Div0.mod_same in Hy. rewrite Hfirst in Hy. injection Hy as <-.
        rewrite lookup_app_r by lia. by replace (S k - length path) with 0 by lia.
      * rewrite Nat.mod_small in Hy by lia.
        replace (k + 1) with (S k) in Hy by lia. by apply lookup_app_l_Some.
  - intros i Hi. apply Hall. by apply NoDup_below_all with (length m).
Qed.

(** ** Walking around a single cycle *)

Lemma mod_eq_close (a b n : Z) :
  (0 < n)%Z → (a `mod` n = b `mod` n)%Z → (Z.abs (a - b) < n)%Z → a = b.
Proof.
  intros Hn Hmod Hclose.
  assert (Hdiv : (n | a - b)%Z).
  { apply Z.mod_divide; [lia|]. rewrite Zminus_mod, Hmod, Z.sub_diag. done. }
  destruct Hdiv as [q Hq]. assert (q = 0)%Z by nia. lia.
Qed.

Section CyclicFacts.
Variable c : list nat.
Hypothesis c_NoDup : NoDup c.
Hypothesis c_nonempty : 0 < length c.

Lemma cyclicAt_lookup z :
  c !! Z.to_nat (z `mod` Z.of_nat (length c)) = Some (cyclicAt c z).
Proof.
  unfold cyclicAt.
  destruct (lookup_lt_is_Some_2 c (Z.to_nat (z `mod` Z.of_nat (length c)))) as [x ->];
    [|done].
  pose proof (Z.mod_pos_bound z (Z.of_nat (length c))). lia.
Qed.

Lemma cyclicAt_elem z : cyclicAt c z ∈ c.
Proof. eapply list_elem_of_lookup_2, cyclicAt_lookup. Qed.

Lemma cyclicAt_period z k :
  cyclicAt c (z + k * Z.of_nat (length c)) = cyclicAt c z.
Proof. unfold cyclicAt. by rewrite Z_mod_plus_full. Qed.

Lemma cyclicAt_of_nat i x : c !! i = Some x → cyclicAt c (Z.of_nat i) = x.
Proof.
  intros Hi. pose proof (lookup_lt_Some _ _ _ Hi).
  unfold cyclicAt. rewrite Z.mod_small by lia. by rewrite Nat2Z.id, Hi.
Qed.

Lemma cyclicAt_inj z z' :
  cyclicAt c z = cyclicAt c z' →
  (z `mod` Z.of_nat (length c) = z' `mod` Z.of_nat (length c))%Z.
Proof.
  intros Heq. pose proof (cyclicAt_lookup z) as Hz.
  pose proof (cyclicAt_lookup z') as Hz'. rewrite Heq in Hz.
  pose proof (NoDup_lookup _ _ _ _ c_NoDup Hz Hz') as Hpos.
  pose proof (Z.mod_pos_bound z (Z.of_nat (length c))).
  pose proof (Z.mod_pos_bound z' (Z.of_nat (length c))). lia.
Qed.

Lemma cyclicAt_inj_close z z' :
  cyclicAt c z = cyclicAt c z' → (Z.abs (z - z') < Z.of_nat (length c))%Z → z = z'.
Proof. intros Heq%cyclicAt_inj. apply mod_eq_close; [lia|done]. Qed.
End CyclicFacts.

Section ChainFacts.
Variable m : AdjacencyMatrix.
Local Abbreviation n := (ExtractTableCycle.n m).
Local Abbreviation neighborsOf := (ExtractTableCycle.neighborsOf m).
Local Abbreviation walk := (ExtractTableCycle.walk m).

Lemma neighbors_pair (nb : list nat) a d :
  NoDup nb → a ≠ d → (∀ y, y ∈ nb ↔ y = a ∨ y = d) → nb = [a; d] ∨ nb = [d; a].
Proof.
  intros Hnd Hne Hnb.
  assert (Ha : a ∈ nb) by (apply Hnb; auto).
  assert (Hd : d ∈ nb) by (apply Hnb; auto).
  destruct nb as [|x [|y [|w nb]]].
  - by apply elem_of_nil in Ha.
  - apply list_elem_of_singleton in Ha, Hd. congruence.
  - assert (x ≠ y).
    { apply list.NoDup_cons in Hnd as [Hx _]. intros ->. apply Hx, list_elem_of_here. }
    assert (Hx : x = a ∨ x = d) by (apply Hnb, list_elem_of_here).
    assert (Hy : y = a ∨ y = d) by (apply Hnb, list_elem_of_further, list_elem_of_here).
    destruct Hx, Hy; subst; auto; done.
  - exfalso.
    apply list.NoDup_cons in Hnd as [Hx Hnd]. apply list.NoDup_cons in Hnd as [Hy _].
    assert (Hx' : x = a ∨ x = d) by (apply Hnb, list_elem_of_here).
    assert (Hy' : y = a ∨ y = d) by (apply Hnb, list_elem_of_further, list_elem_of_here).
    assert (Hw' : w = a ∨ w = d).
    { apply Hnb. do 2 apply list_elem_of_further. apply list_elem_of_here. }
    apply not_elem_of_cons in Hx as [Hxy Hx]. apply not_elem_of_cons in Hx as [Hxw _].
    apply not_elem_of_cons in Hy as [Hyw _].
    destruct Hx', Hy', Hw'; subst; done.
Qed.

Lemma nextOf_chain a b d :
  a ≠ d → (∀ y, y ∈ neighborsOf b ↔ y = a ∨ y = d) →
  length (neighborsOf b) = 2 ∧ nextOf m b (Some a) = d.
Proof.
  intros Hne Hnb.
  destruct (neighbors_pair (neighborsOf b) a d (NoDup_neighborsOf m b) Hne Hnb)
    as [Heq|Heq]; unfold nextOf; rewrite Heq; simpl; split; try done.
  - by rewrite bool_decide_eq_true_2.
  - rewrite bool_decide_eq_false_2; [done|]. intros [= ?]. done.
Qed.

(** Along a chain the walk takes the entries one after the other. *)
Lemma walk_chain l :
  ∀ path a b z,
  chain m (a :: b :: l ++ [z]) →
  walk (S (length l)) path b (Some a) = Normal (path ++ b :: l, z).
Proof.
  induction l as [|x l IH]; intros path a b z; cbn [chain app].
  - intros [[Hne Hnb] _]. destruct (nextOf_chain a b z Hne Hnb) as [Hdeg Hnext].
    cbn [ExtractTableCycle.walk length]. fold (nextOf m b (Some a)).
    rewrite bool_decide_eq_false_2 by (intros ?; done). by rewrite Hnext.
  - intros [[Hne Hnb] Hchain]. destruct (nextOf_chain a b x Hne Hnb) as [Hdeg Hnext].
    cbn [length].
    change (walk (S (S (length l))) path b (Some a))
      with (if bool_decide (length (neighborsOf b) ≠ 2)
            then Abrupt (DegreeNotTwo b (length (neighborsOf b)) n)
            else walk (S (length l)) (path ++ [b]) (nextOf m b (Some a)) (Some b)).
    rewrite bool_decide_eq_false_2 by (intros ?; done).
    rewrite Hnext, (IH _ _ _ _ Hchain). by rewrite <- app_assoc.
Qed.

(** At the start there is no previous node: the walk leaves by the first
    neighbour, as if it had come from the second. *)
Lemma walk_start steps path b :
  length (neighborsOf b) = 2 →
  walk (S steps) path b None = walk (S steps) path b (neighborsOf b !! 1).
Proof.
  intros Hdeg. cbn [ExtractTableCycle.walk].
  pose proof (NoDup_neighborsOf m b) as Hnd.
  destruct (neighborsOf b) as [|u [|v [|? ?]]]; try done. simpl.
  rewrite (bool_decide_eq_false_2 (Some u = Some v)); [done|].
  intros [= ->]. apply list.NoDup_cons in Hnd as [Hu _].
  apply Hu, list_elem_of_here.
Qed.
End ChainFacts.

Section SingleCycleFacts.
Variable m : AdjacencyMatrix.
Variable c : list nat.
Hypothesis m_size : 3 ≤ length m.
Hypothesis m_cycle : singleCycle m c.
Local Abbreviation neighborsOf := (ExtractTableCycle.neighborsOf m).

Lemma cycle_length : length c = length m.
Proof. by destruct m_cycle. Qed.

Lemma cycle_NoDup : NoDup c.
Proof. by destruct m_cycle as (_ & ? & _). Qed.

Lemma cycle_positive : 0 < length c.
Proof. rewrite cycle_length. lia. Qed.

Lemma cycle_lt z : cyclicAt c z < length m.
Proof.
  destruct m_cycle as (_ & _ & Hlt & _).
  apply Hlt, cyclicAt_elem, cycle_positive.
Qed.

(** Around the cycle, in either direction [d], the neighbours of the node at
    position [z] are the nodes at [z - d] and [z + d], and these differ. *)
Lemma cycle_triple (z d : Z) :
  d = 1%Z ∨ d = (-1)%Z →
  cyclicAt c (z - d) ≠ cyclicAt c (z + d)
  ∧ ∀ y, y ∈ neighborsOf (cyclicAt c z)
         ↔ y = cyclicAt c (z - d) ∨ y = cyclicAt c (z + d).
Proof.
  intros Hd. split.
  - intros Heq. apply cyclicAt_inj_close in Heq;
      [lia|apply cycle_NoDup|apply cycle_positive|].
    rewrite cycle_length. lia.
  - intros y. rewrite elem_of_neighborsOf. unfold ExtractTableCycle.n.
    destruct m_cycle as (_ & _ & _ & Hnb). split.
    + intros [Hone Hy]. apply Hnb in Hone; [|done].
      destruct Hd as [-> | ->]; [tauto|].
      replace (z - -1)%Z with (z + 1)%Z by lia.
      replace (z + -1)%Z with (z - 1)%Z by lia. tauto.
    + intros Hy.
      assert (Hlt : y < length m) by (destruct Hy as [-> | ->]; apply cycle_lt).
      split; [|done]. apply Hnb; [done|].
      destruct Hd as [-> | ->]; [tauto|].
      replace (z - -1)%Z with (z + 1)%Z in Hy by lia.
      replace (z + -1)%Z with (z - 1)%Z in Hy by lia. tauto.
Qed.

(** The nodes at the positions [p + d (t - 1)], [t = t0, t0 + 1, ...], form
    a chain. *)
Lemma cycle_chain (p d : Z) len :
  d = 1%Z ∨ d = (-1)%Z →
  ∀ t0, chain m ((λ t : nat, cyclicAt c (p + d * (Z.of_nat t - 1))) <$> seq t0 len).
Proof.
  intros Hd. induction len as [|len IH]; intros t0; [done|].
  destruct len as [|[|len]]; [done..|].
  specialize (IH (S t0)). revert IH. cbn [seq fmap list_fmap chain]. intros IH.
  split; [|exact IH].
  destruct (cycle_triple (p + d * (Z.of_nat (S t0) - 1)) d Hd) as [Hne Hnb].
  replace (p + d * (Z.of_nat (S t0) - 1) - d)%Z
    with (p + d * (Z.of_nat t0 - 1))%Z in * by lia.
  replace (p + d * (Z.of_nat (S t0) - 1) + d)%Z
    with (p + d * (Z.of_nat (S (S t0)) - 1))%Z in * by lia.
  done.
Qed.

(** On a single cycle the walk of [extractTableCycle] goes once around and
    stands at node 0 again, having met no node twice. *)
Lemma walk_single_cycle :
  ∃ path, ExtractTableCycle.walk m (length m) [] 0 None = Normal (path, 0)
    ∧ length path = length m ∧ NoDup path.
Proof.
  pose proof cycle_length as Hlen. pose proof cycle_NoDup as Hnd.
  pose proof cycle_positive as Hpos.
  assert (H0 : 0 ∈ c).
  { destruct m_cycle as (_ & _ & Hlt & _).
    apply NoDup_below_all with (length m); [done..|lia]. }
  apply list_elem_of_lookup in H0 as [i Hi].
  pose proof (cyclicAt_of_nat c Hpos i 0 Hi) as Hp. set (p := Z.of_nat i) in *.
  destruct (cycle_triple p 1 (or_introl eq_refl)) as [Hne Hnb]. rewrite Hp in Hnb.
  assert (Hdir : ∃ d, (d = 1%Z ∨ d = (-1)%Z)
            ∧ neighborsOf 0 = [cyclicAt c (p + d); cyclicAt c (p - d)]).
  { destruct (neighbors_pair _ _ _ (NoDup_neighborsOf m 0) Hne Hnb) as [Heq|Heq].
    - exists (-1)%Z. split; [by right|]. rewrite Heq. repeat f_equal; lia.
    - exists 1%Z. split; [by left|]. done. }
  destruct Hdir as (d & Hd & Hnb0).
  set (g := λ t : nat, cyclicAt c (p + d * (Z.of_nat t - 1))).
  assert (Hg0 : g 0 = cyclicAt c (p - d)) by (unfold g; f_equal; lia).
  assert (Hg1 : g 1 = 0) by (unfold g; rewrite <- Hp; f_equal; lia).
  assert (Hgn : g (S (length m)) = 0).
  { unfold g. rewrite <- Hp, <- (cyclicAt_period c p d). f_equal. lia. }
  assert (∃ k, length m = S (S k)) as [k Hm].
  { clear -m_size. destruct (length m) as [|[|k]]; [lia..|eauto]. }
  rewrite Hm in Hgn |- *.
  exists (g <$> seq 1 (S (S k))). split_and!.
  - rewrite walk_start by (by rewrite Hnb0). rewrite Hnb0. simpl lookup. rewrite <- Hg0.
    pose proof (cycle_chain p d (S (S (S (S k)))) Hd 0) as Hchain. fold g in Hchain.
    change (seq 0 (S (S (S (S k))))) with (0 :: 1 :: seq 2 (S (S k))) in Hchain.
    rewrite (seq_S (S k) 2) in Hchain.
    rewrite !fmap_cons, fmap_app in Hchain.
    change (g <$> [2 + S k]) with [g (S (S (S k)))] in Hchain.
    rewrite Hg1, Hgn in Hchain.
    apply (walk_chain m _ []) in Hchain. rewrite length_fmap, length_seq in Hchain.
    rewrite Hchain. simpl. by rewrite Hg1.
  - by rewrite length_fmap, length_seq.
  - apply NoDup_fmap_2_strong; [|apply NoDup_seq].
    intros t t' Ht%elem_of_seq Ht'%elem_of_seq Heq. unfold g in Heq.
    apply cyclicAt_inj_close in Heq; [|done..|]; [nia|].
    rewrite Hlen. nia.
Qed.
End SingleCycleFacts.

Lemma extractTableCycle_single_cycle (m : AdjacencyMatrix) (c : list nat) :
  3 ≤ length m → squareMatrix m → singleCycle m c →
  ∃ path, extractTableCycle m = Normal path.
Proof.
  intros Hn Hsq Hc.
  destruct (walk_single_cycle m c Hn Hc) as (path & Hwalk & Hlen & Hnd).
  exists path. unfold extractTableCycle, ExtractTableCycle.extractTableCycle.
  change (ExtractTableCycle.n m) with (length m).
  do 3 (rewrite bool_decide_eq_false_2 by lia).
  rewrite bool_decide_eq_false_2.
  - rewrite Hwalk. simpl. rewrite NoDup_remove_dups_id by done.
    by rewrite bool_decide_eq_false_2 by lia.
  - intros Hdim. apply Hdim. destruct m as [|row m']; [simpl in Hn; lia|].
    simpl. f_equal. apply Hsq, list_elem_of_here.
Qed.

(** The walk throws for one reason only: a node whose degree is not two. *)
Lemma walk_Abrupt (m : AdjacencyMatrix) steps :
  ∀ path cur prev e,
  ExtractTableCycle.walk m steps path cur prev = Abrupt e →
  ∃ node, e = DegreeNotTwo node (length (ExtractTableCycle.neighborsOf m node))
                (length m)
          ∧ length (ExtractTableCycle.neighborsOf m node) ≠ 2.
Proof.
  induction steps as [|steps IH]; intros path cur prev e; simpl; [done|].
  case_bool_decide as Hdeg.
  - intros [= <-]. eauto.
  - apply IH.
Qed.

(** The matrix [square] is the cycle 0 - 1 - 2 - 3. *)
Lemma square_singleCycle : singleCycle square [0; 1; 2; 3].
Proof.
  split_and!; [done| |intros x Hx; for_each_member Hx ltac:(simpl; lia)|].
  { repeat (apply NoDup_cons_2; [rewrite ?elem_of_cons, elem_of_nil; lia|]).
    apply NoDup_nil_2. }
  intros z y Hy. unfold cyclicAt. cbn [length square] in *.
  change (Z.of_nat 4) with 4%Z.
  rewrite <- (Zminus_mod_idemp_l z 1), <- (Zplus_mod_idemp_l z 1).
  pose proof (Z.mod_pos_bound z 4 eq_refl) as Hr. revert Hr.
  generalize (z `mod` 4)%Z as r. intros r Hr.
  assert (Hcases : r = 0%Z ∨ r = 1%Z ∨ r = 2%Z ∨ r = 3%Z) by lia.
  destruct y as [|[|[|[|y]]]]; [| | | |lia];
    destruct Hcases as [-> | [-> | [-> | ->]]]; vm_compute;
    (split; [intros [= ?] || (intros _; auto)|intros [[= ?]|[= ?]] || (intros _; reflexivity)]).
Qed.

(** * From the subtour detector to the cycle extractor *)

Lemma isVisited_replicate k x : isVisited (replicate k false) x = false.
Proof.
  unfold isVisited. apply bool_decide_eq_false_2.
  intros [[=] _]%lookup_replicate.
Qed.

Section DetectorAndExtractor.
Variable m : AdjacencyMatrix.
Hypothesis m_size : 3 ≤ length m.

Lemma getNeighbors_neighborsOf cur :
  length (FindSubtours.getNeighbors m cur) = 2 →
  FindSubtours.getNeighbors m cur = ExtractTableCycle.neighborsOf m cur.
Proof.
  unfold FindSubtours.getNeighbors, ExtractTableCycle.neighborsOf.
  change (ExtractTableCycle.n m) with (FindSubtours.n m).
  rewrite bool_decide_eq_true_2 by done. by case_bool_decide.
Qed.

Lemma chooseNext_nextOf cur prev x :
  FindSubtours.chooseNext m (FindSubtours.getNeighbors m cur) prev = FindSubtours.Next x →
  length (ExtractTableCycle.neighborsOf m cur) = 2 ∧ x = nextOf m cur prev.
Proof.
  intros Hnext.
  pose proof (chooseNext_degree m _ _ _ m_size Hnext) as Hdeg.
  rewrite getNeighbors_neighborsOf in Hnext, Hdeg by done.
  split; [done|]. revert Hnext. unfold FindSubtours.chooseNext, nextOf.
  unfold FindSubtours.n.
  rewrite bool_decide_eq_false_2 by lia. rewrite bool_decide_eq_false_2 by lia.
  rewrite bool_decide_eq_true_2 by done. by intros [= <-].
Qed.

(** A trace of [findSubtours] that ends with a cycle has taken the steps the
    walk of [extractTableCycle] takes, and has come back to its start. *)
Lemma traceCycle_walk fuel i :
  ∀ visited cycle cur prev visited' cycle',
  FindSubtours.traceCycle m fuel i visited cycle cur prev = Some (visited', cycle') →
  cycle' ≠ [] → isVisited visited cur = false →
  ∃ new, cycle' = cycle ++ new
    ∧ ∀ path, ExtractTableCycle.walk m (length new) path cur prev
              = Normal (path ++ new, i).
Proof.
  induction fuel as [|fuel IH]; intros visited cycle cur prev visited' cycle'; [done|].
  simpl. intros Htrace Hne Hcur. rewrite Hcur in Htrace.
  destruct (FindSubtours.chooseNext m (FindSubtours.getNeighbors m cur) prev)
    as [|next|] eqn:Hnext.
  - apply chooseNext_single in Hnext. unfold FindSubtours.n in Hnext. lia.
  - destruct (chooseNext_nextOf cur prev next Hnext) as [Hdeg ->].
    assert (Hstep : ∀ steps path,
      ExtractTableCycle.walk m (S steps) path cur prev
      = ExtractTableCycle.walk m steps (path ++ [cur]) (nextOf m cur prev) (Some cur)).
    { intros steps path. cbn [ExtractTableCycle.walk].
      rewrite bool_decide_eq_false_2 by (intros Hbad; by apply Hbad). done. }
    destruct (isVisited (<[cur:=true]> visited) (nextOf m cur prev)) eqn:Hvisited.
    + case_bool_decide as Hstart; [|by simplify_eq].
      injection Htrace as <- <-. exists [cur]. split; [done|].
      intros path. cbn [length]. by rewrite Hstep, Hstart.
    + apply IH in Htrace as (new & -> & Hwalk); [|done..].
      exists (cur :: new). split; [by rewrite <- app_assoc|].
      intros path. cbn [length]. by rewrite Hstep, Hwalk, <- app_assoc.
  - by simplify_eq.
Qed.

(** Once node 0 is marked, no cycle found later contains it. *)
Lemma visitNode_zero fuel st i st' :
  i < FindSubtours.n m → length st.1 = FindSubtours.n m →
  isVisited st.1 0 = true →
  FindSubtours.visitNode m fuel st i = Some st' →
  length st'.1 = FindSubtours.n m
  ∧ isVisited st'.1 0 = true
  ∧ (0 ∈ mjoin st'.2 → 0 ∈ mjoin st.2).
Proof.
  destruct st as [visited subtours]. simpl. intros Hi Hlen Hzero.
  unfold FindSubtours.visitNode.
  destruct (isVisited visited i) eqn:Hv; [by intros [= <-]|].
  destruct (FindSubtours.traceCycle m fuel i visited [] i None)
    as [[visited' cycle]|] eqn:Htrace; simpl; [|done].
  apply traceCycle_spec in Htrace as (new & Hl & Hmark & _ & Hfresh & _ & Hcyc & _);
    [|done..].
  assert (Hzero' : isVisited visited' 0 = true) by (apply Hmark; by left).
  case_bool_decide as Hc.
  - intros [= <-]. simpl. split_and!; [done..|].
    rewrite join_app. simpl. rewrite app_nil_r.
    intros [?|Hin]%elem_of_app; [done|].
    destruct Hcyc as [-> | ->]; [|by apply elem_of_nil in Hin].
    apply Hfresh in Hin as [Hin _]. congruence.
  - destruct (negb (isVisited visited' i) && bool_decide (0 < FindSubtours.n m));
      intros [= <-]; simpl; [|done].
    split_and!; [by rewrite length_insert| |done].
    rewrite isVisited_insert by lia. by rewrite Hzero'.
Qed.

Lemma visitAll_zero fuel indices :
  ∀ st st',
  (∀ i, i ∈ indices → i < FindSubtours.n m) →
  length st.1 = FindSubtours.n m → isVisited st.1 0 = true →
  FindSubtours.visitAll m fuel st indices = Some st' →
  0 ∈ mjoin st'.2 → 0 ∈ mjoin st.2.
Proof.
  induction indices as [|i rest IH]; intros st st' Hlt Hlen Hzero; simpl.
  { by intros [= <-]. }
  destruct (FindSubtours.visitNode m fuel st i) as [st1|] eqn:Hst1; simpl; [|done].
  apply visitNode_zero in Hst1 as (Hlen1 & Hzero1 & Hin1);
    [|by apply Hlt, list_elem_of_here|done..].
  intros Hall Hin. apply Hin1. eapply IH; [|done..].
  intros j Hj. by apply Hlt, list_elem_of_further.
Qed.

(** The outer loop only appends cycles. *)
Lemma visitAll_grows fuel indices :
  ∀ st st', FindSubtours.visitAll m fuel st indices = Some st' →
  ∃ more, st'.2 = st.2 ++ more.
Proof.
  induction indices as [|i rest IH]; intros st st'; simpl.
  { intros [= <-]. exists []. by rewrite app_nil_r. }
  destruct (FindSubtours.visitNode m fuel st i) as [st1|] eqn:Hst1; simpl; [|done].
  intros [more Hmore]%IH. rewrite Hmore. clear Hmore. revert Hst1.
  destruct st as [visited subtours]. unfold FindSubtours.visitNode.
  destruct (isVisited visited i); [intros [= <-]; eauto|].
  destruct (FindSubtours.traceCycle m fuel i visited [] i None) as [[v c]|]; simpl;
    [|done].
  case_bool_decide.
  - intros [= <-]. simpl. exists ([c] ++ more). by rewrite app_assoc.
  - destruct (negb (isVisited v i) && bool_decide (0 < FindSubtours.n m));
      intros [= <-]; simpl; eauto.
Qed.

(** When [findSubtours] finds one cycle through all the nodes, the walk of
    [extractTableCycle] goes along that cycle. *)
Lemma findSubtours_walk cycle :
  findSubtours m = [cycle] → length cycle = length m →
  ExtractTableCycle.walk m (length m) [] 0 None = Normal (cycle, 0).
Proof.
  intros Hfind Hlen.
  destruct (findSubtours_inv m) as (Hnd & Hlt & _).
  pose proof (findSubtours_fuel m) as Hfuel. rewrite Hfind in Hfuel, Hnd, Hlt.
  simpl in Hnd, Hlt. rewrite app_nil_r in Hnd, Hlt.
  assert (Hzero : 0 ∈ cycle).
  { apply NoDup_below_all with (length m); [done..|lia]. }
  revert Hfuel. unfold FindSubtours.findSubtoursFuel.
  rewrite bool_decide_eq_false_2 by (unfold FindSubtours.n; lia).
  unfold FindSubtours.n.
  assert (Hseq : seq 0 (length m) = 0 :: seq 1 (length m - 1)).
  { clear -m_size. destruct (length m); [lia|]. simpl. by rewrite Nat.sub_0_r. }
  rewrite Hseq. cbn [FindSubtours.visitAll].
  destruct (FindSubtours.visitNode m (S (length m)) (replicate (length m) false, []) 0)
    as [st1|] eqn:Hfirst; simpl; [|done].
  destruct (FindSubtours.visitAll m (S (length m)) st1 (seq 1 (length m - 1)))
    as [st'|] eqn:Hrest; simpl; [|done].
  intros [= Hst'].
  destruct (visitAll_grows _ _ _ _ Hrest) as [more Hmore].
  revert Hfirst. unfold FindSubtours.visitNode.
  rewrite isVisited_replicate.
  destruct (FindSubtours.traceCycle m (S (length m)) 0 (replicate (length m) false)
              [] 0 None) as [[v c]|] eqn:Htrace; simpl; [|done].
  pose proof Htrace as Hspec.
  apply traceCycle_spec in Hspec as (new & Hl & Hmark & _ & _ & Hin & _);
    [|rewrite length_replicate; unfold FindSubtours.n; lia
     |unfold FindSubtours.n; lia].
  assert (Hv0 : isVisited v 0 = true) by (apply Hmark; right; apply Hin, isVisited_replicate).
  case_bool_decide as Hc.
  - intros [= <-]. simpl in Hmore. rewrite Hst' in Hmore. injection Hmore as -> _.
    apply traceCycle_walk in Htrace as (new' & Hnew & Hwalk); [|intros ->; simpl in Hc; lia|apply isVisited_replicate].
    simpl in Hnew. subst new'. rewrite <- Hlen. apply (Hwalk []).
  - intros Hfirst. exfalso.
    assert (Hst1 : ∃ v1, st1 = (v1, []) ∧ length v1 = FindSubtours.n m
                         ∧ isVisited v1 0 = true).
    { revert Hfirst. clear -Hv0 Hl m_size.
      destruct (negb (isVisited v 0) && bool_decide (0 < FindSubtours.n m));
        intros [= <-]; eexists; split_and!; try done.
      - by rewrite length_insert.
      - rewrite isVisited_insert by (unfold FindSubtours.n in *; lia). by rewrite Hv0. }
    destruct Hst1 as (v1 & -> & Hl1 & Hz1).
    apply (visitAll_zero _ _ _ _) in Hrest; [by apply elem_of_nil in Hrest| |done..|].
    + intros i Hi%elem_of_seq. unfold FindSubtours.n. lia.
    + rewrite Hst'. simpl. by rewrite app_nil_r.
Qed.
End DetectorAndExtractor.

(** The matrices [solveSitting] returns for [n >= 3] are accepted by
    [extractTableCycle], which gives the cycle found by [findSubtours] as the
    seating sequence. *)
Lemma solveSitting_result_extractable (glpk : GLPKInstance) (pref : PreferenceMatrix)
    (m : AdjacencyMatrix) :
  3 ≤ length pref →
  outcome (solveSitting glpk pref) = Normal m →
  ∃ path, findSubtours m = [path]
    ∧ extractTableCycle m = Normal path
    ∧ seatingSequence m path.
Proof.
  intros Hn Hout. rewrite solveSitting_iterations in Hout by done.
  apply iterations_Normal in Hout as (j & constraints & _ & _ & Hret).
  destruct (iteration_Return _ _ _ _ _ Hret) as (path & Hfind & Hlen).
  destruct (iteration_Return_result _ _ _ _ _ Hret) as [result Hresult].
  assert (Hm : length m = length pref).
  { rewrite Hresult. apply resultMatrix_length. }
  assert (Hdim : length <$> m !! 0 = Some (length m)).
  { rewrite Hresult, resultMatrix_length. apply resultMatrix_first_row.
    unfold SolveSitting.n. lia. }
  assert (Hwalk : ExtractTableCycle.walk m (length m) [] 0 None = Normal (path, 0)).
  { apply findSubtours_walk; [lia|done|]. unfold SolveSitting.n in Hlen. lia. }
  assert (Hres : extractTableCycle m = Normal path).
  { unfold extractTableCycle, ExtractTableCycle.extractTableCycle.
    change (ExtractTableCycle.n m) with (length m).
    do 3 (rewrite bool_decide_eq_false_2 by lia).
    rewrite bool_decide_eq_false_2 by (intros Hbad; by apply Hbad).
    rewrite Hwalk. simpl.
    destruct (findSubtours_inv m) as (Hnd & _). rewrite Hfind in Hnd. simpl in Hnd.
    rewrite app_nil_r in Hnd. rewrite NoDup_remove_dups_id by done.
    rewrite bool_decide_eq_false_2; [done|]. unfold SolveSitting.n in Hlen. lia. }
  exists path. split_and!; [done..|]. apply extractTableCycle_Normal; [lia|done].
Qed.
(** * Facts about the cycles that findSubtours returns on any matrix *)

Lemma succ_mod (k t : nat) :
  k < t → (k + 1) `mod` t = if decide (k + 1 = t) then 0 else k + 1.
Proof.
  intros Hk. case_decide as Heq.
  - rewrite Heq. apply Nat.Div0.mod_same.
  - apply Nat.mod_small. lia.
Qed.

Section AnyMatrix.
Variable m : AdjacencyMatrix.
Hypothesis m_size : 3 ≤ length m.

(** A cycle that the walk has traced is a closed walk that starts at the
    node from which it was traced. *)
Lemma walk_closedWalk (S : list nat) (i : nat) :
  i < length m → S ≠ [] →
  (∀ path, ExtractTableCycle.walk m (length S) path i None = Normal (path ++ S, i)) →
  head S = Some i ∧ closedWalk m S.
Proof.
  intros Hi Hne Hwalk. pose proof (Hwalk []) as Hw. simpl in Hw.
  apply (walk_spec m) in Hw as (l & Heq & _ & _ & Hall & Hhead & Hadj); [|done].
  simpl in Heq. subst S.
  assert (Hhead' : head l = Some i).
  { destruct l; [done|]. simpl in *. done. }
  split; [done|].
  intros k x y Hx Hy. pose proof (lookup_lt_Some _ _ _ Hx) as Hk.
  rewrite succ_mod in Hy by done. apply (Hadj k); [by apply lookup_app_l_Some|].
  case_decide as Heq.
  - rewrite head_lookup in Hhead'. rewrite Hhead' in Hy. injection Hy as <-.
    rewrite lookup_app_r by lia. by replace (S k - length l) with 0 by lia.
  - replace (k + 1) with (S k) in Hy by lia. by apply lookup_app_l_Some.
Qed.

(** What one pass of the outer loop of [findSubtours] does to the list of
    cycles: nothing, or it appends the cycle of a trace. *)
Lemma visitNode_subtours (fuel : nat) (st st' : list bool * list (list nat)) (i : nat) :
  FindSubtours.visitNode m fuel st i = Some st' →
  st'.2 = st.2
  ∨ ∃ visited' cycle,
      cycle ≠ [] ∧ isVisited st.1 i = false
      ∧ FindSubtours.traceCycle m fuel i st.1 [] i None = Some (visited', cycle)
      ∧ st'.2 = st.2 ++ [cycle].
Proof.
  destruct st as [visited subtours]. unfold FindSubtours.visitNode. cbn [fst snd].
  destruct (isVisited visited i) eqn:Hfresh; [intros [= <-]; by left|].
  destruct (FindSubtours.traceCycle m fuel i visited [] i None)
    as [[visited' cycle]|] eqn:Htrace; [|done]. cbn [mbind option_bind].
  case_bool_decide as Hlen.
  - intros [= <-]. right. exists visited', cycle. split_and!; try done.
    intros ->. simpl in Hlen. lia.
  - destruct (negb (isVisited visited' i) && bool_decide (0 < FindSubtours.n m));
      intros [= <-]; by left.
Qed.

Lemma visitAll_closedWalk (fuel : nat) (indices : list nat) :
  ∀ st st', (∀ i, i ∈ indices → i < length m) →
  (∀ S, S ∈ st.2 → closedWalk m S) →
  FindSubtours.visitAll m fuel st indices = Some st' →
  ∀ S, S ∈ st'.2 → closedWalk m S.
Proof.
  induction indices as [|i rest IH]; intros st st' Hlt Hinv; simpl.
  { by intros [= <-]. }
  destruct (FindSubtours.visitNode m fuel st i) as [st1|] eqn:Hst1; [|done].
  simpl. apply IH; [intros j Hj; by apply Hlt, list_elem_of_further|].
  assert (Hi : i < length m) by apply Hlt, list_elem_of_here.
  apply visitNode_subtours in Hst1 as [->|(visited' & cycle & Hne & Hfresh & Htrace & ->)];
    [done|].
  intros S [HS|HS%list_elem_of_singleton]%elem_of_app; [by apply Hinv|]. subst S.
  apply traceCycle_walk in Htrace as (new & Heq & Hwalk); [|done..].
  simpl in Heq. subst new. by apply (walk_closedWalk cycle i).
Qed.

Lemma findSubtours_closedWalk (S : list nat) : S ∈ findSubtours m → closedWalk m S.
Proof.
  pose proof (findSubtours_fuel m) as Hfuel.
  unfold FindSubtours.findSubtoursFuel in Hfuel.
  rewrite bool_decide_eq_false_2 in Hfuel by (unfold FindSubtours.n; lia).
  destruct (FindSubtours.visitAll m _ _ _) as [[visited subtours]|] eqn:Hall; [|done].
  simpl in Hfuel. injection Hfuel as <-.
  eapply (visitAll_closedWalk _ _ _ _ _ _ Hall).
  Unshelve.
  - intros i Hi%elem_of_seq. unfold FindSubtours.n in Hi. lia.
  - intros S' HS'. by apply elem_of_nil in HS'.
Qed.

End AnyMatrix.

Lemma elem_of_rowNeighbors (m : AdjacencyMatrix) (x y : nat) :
  y ∈ rowNeighbors m x ↔ isOne m x y ∧ y < length m.
Proof.
  unfold rowNeighbors, FindSubtours.n. rewrite list_elem_of_filter, elem_of_seq.
  split; intros [? ?]; split; auto; lia.
Qed.

Lemma visitAll_app (m : AdjacencyMatrix) (fuel : nat) (l1 l2 : list nat) :
  ∀ st, FindSubtours.visitAll m fuel st (l1 ++ l2)
        = FindSubtours.visitAll m fuel st l1 ≫= λ st', FindSubtours.visitAll m fuel st' l2.
Proof.
  induction l1 as [|i l1 IH]; intros st; simpl; [done|].
  destruct (FindSubtours.visitNode m fuel st i) as [st'|]; simpl; [apply IH|done].
Qed.

(** A cycle that has been collected stays in the list. *)
Lemma visitNode_keeps (m : AdjacencyMatrix) (fuel : nat) st i st' (c : list nat) :
  FindSubtours.visitNode m fuel st i = Some st' → c ∈ st.2 → c ∈ st'.2.
Proof.
  destruct st as [visited subtours]. unfold FindSubtours.visitNode.
  destruct (isVisited visited i); [by intros [= <-]|].
  destruct (FindSubtours.traceCycle m fuel i visited [] i None) as [[visited' cycle]|];
    simpl; [|done].
  case_bool_decide.
  - intros [= <-] Hc. simpl in *. apply elem_of_app. by left.
  - destruct (negb (isVisited visited' i) && bool_decide (0 < FindSubtours.n m));
      by intros [= <-].
Qed.

Lemma visitAll_keeps (m : AdjacencyMatrix) (fuel : nat) (indices : list nat) (c : list nat) :
  ∀ st st', FindSubtours.visitAll m fuel st indices = Some st' → c ∈ st.2 → c ∈ st'.2.
Proof.
  induction indices as [|i rest IH]; intros st st'; simpl; [by intros [= <-]|].
  destruct (FindSubtours.visitNode m fuel st i) as [st1|] eqn:Hst1; simpl; [|done].
  intros Hrest Hc. eapply IH; [done|]. by eapply visitNode_keeps.
Qed.

Section CleanCycle.
Variable m : AdjacencyMatrix.
Variable S : list nat.
Hypothesis S_clean : cleanCycle m S.
Local Abbreviation n := (FindSubtours.n m).
Local Abbreviation k := (length S).

Lemma clean_length : k ≤ n.
Proof.
  destruct S_clean as (Hk & Hnd & Hlt & _).
  assert (Hsub : S ⊆+ seq 0 n).
  { apply NoDup_submseteq; [done|]. intros x Hx%Hlt. apply elem_of_seq.
    unfold FindSubtours.n. lia. }
  apply submseteq_length in Hsub. by rewrite length_seq in Hsub.
Qed.

Lemma clean_size : 3 ≤ n.
Proof. pose proof clean_length. destruct S_clean as (Hk & _). lia. Qed.

(** The flags of the nodes of [S] are not touched by a trace that starts
    outside [S]. *)
Lemma traceCycle_outside (fuel i : nat) :
  ∀ visited cycle cur prev visited' cycle',
  cur < n → cur ∉ S →
  FindSubtours.traceCycle m fuel i visited cycle cur prev = Some (visited', cycle') →
  ∀ y, y ∈ S → isVisited visited' y = isVisited visited y.
Proof.
  destruct S_clean as (_ & _ & _ & _ & Hiso & _).
  induction fuel as [|fuel IH]; intros visited cycle cur prev visited' cycle' Hcur Hout Htrace;
    [done|].
  simpl in Htrace. destruct (isVisited visited cur); [by simplify_eq|].
  assert (Hmark : ∀ y, y ∈ S → isVisited (<[cur := true]> visited) y = isVisited visited y).
  { intros y Hy. unfold isVisited. rewrite list_lookup_insert_ne; [done|]. by intros ->. }
  destruct (FindSubtours.chooseNext m (FindSubtours.getNeighbors m cur) prev)
    as [|next|] eqn:Hnext; [by simplify_eq..| |by simplify_eq].
  destruct (isVisited (<[cur := true]> visited) next).
  { case_bool_decide; by simplify_eq. }
  pose proof (chooseNext_elem _ _ _ _ Hnext) as Hin.
  pose proof (getNeighbors_lt _ _ _ Hin) as Hlt.
  apply getNeighbors_sub, elem_of_rowNeighbors in Hin as [Hone _].
  intros y Hy. rewrite <- (Hmark y Hy). eapply IH; [done| |done..].
  intros Hnext_in. by apply (Hiso cur next).
Qed.

Lemma visitNode_outside (fuel : nat) st i st' :
  i < n → i ∉ S → FindSubtours.visitNode m fuel st i = Some st' →
  ∀ y, y ∈ S → isVisited st'.1 y = isVisited st.1 y.
Proof.
  intros Hi Hout. destruct st as [visited subtours]. unfold FindSubtours.visitNode.
  destruct (isVisited visited i); [by intros [= <-]|].
  destruct (FindSubtours.traceCycle m fuel i visited [] i None) as [[visited' cycle]|] eqn:Ht;
    simpl; [|done].
  pose proof (traceCycle_outside _ _ _ _ _ _ _ _ Hi Hout Ht) as Hsame.
  case_bool_decide; [by intros [= <-]|].
  destruct (negb (isVisited visited' i) && bool_decide (0 < n)); intros [= <-]; [|done].
  intros y Hy. simpl. rewrite <- (Hsame y Hy). unfold isVisited.
  rewrite list_lookup_insert_ne; [done|]. by intros ->.
Qed.

Lemma visitAll_outside (fuel : nat) (indices : list nat) :
  ∀ st st', (∀ i, i ∈ indices → i < n ∧ i ∉ S) →
  FindSubtours.visitAll m fuel st indices = Some st' →
  ∀ y, y ∈ S → isVisited st'.1 y = isVisited st.1 y.
Proof.
  induction indices as [|i rest IH]; intros st st' Hout; simpl; [by intros [= <-]|].
  destruct (FindSubtours.visitNode m fuel st i) as [st1|] eqn:Hst1; simpl; [|done].
  intros Hrest y Hy.
  destruct (Hout i) as [Hi Hi']; [apply list_elem_of_here|].
  rewrite <- (visitNode_outside _ _ _ _ Hi Hi' Hst1 y Hy).
  eapply IH; [|done..]. intros j Hj. by apply Hout, list_elem_of_further.
Qed.

(** The two neighbours of the node at place [t] of [S]. *)
Lemma clean_neighbors (t x : nat) :
  S !! t = Some x →
  ∃ p s, S !! ((t + k - 1) `mod` k) = Some p ∧ S !! ((t + 1) `mod` k) = Some s
    ∧ p ≠ s
    ∧ FindSubtours.getNeighbors m x = rowNeighbors m x
    ∧ (rowNeighbors m x = [p; s] ∨ rowNeighbors m x = [s; p]).
Proof.
  intros Hx. pose proof clean_size as Hn.
  destruct S_clean as (Hk & Hnd & Hlt & Hrow & _).
  pose proof (lookup_lt_Some _ _ _ Hx) as Ht.
  destruct (lookup_lt_is_Some_2 S ((t + k - 1) `mod` k)) as [p Hp];
    [apply Nat.mod_upper_bound; lia|].
  destruct (lookup_lt_is_Some_2 S ((t + 1) `mod` k)) as [s Hs];
    [apply Nat.mod_upper_bound; lia|].
  assert (Hps : p ≠ s).
  { intros ->. pose proof (NoDup_lookup _ _ _ _ Hnd Hp Hs) as Heq.
    rewrite succ_mod in Heq by done.
    destruct (decide (t = 0)) as [->|Hne].
    - rewrite Nat.add_0_l, Nat.mod_small in Heq by lia. case_decide; lia.
    - replace (t + k - 1) with (t - 1 + 1 * k) in Heq by lia.
      rewrite Nat.Div0.mod_add, Nat.mod_small in Heq by lia. case_decide; lia. }
  exists p, s. do 3 (split; [done|]).
  assert (Hp_lt : p < length m) by (by eapply Hlt, list_elem_of_lookup_2).
  assert (Hs_lt : s < length m) by (by eapply Hlt, list_elem_of_lookup_2).
  assert (Hmem : ∀ y, y ∈ rowNeighbors m x ↔ y ∈ [p; s]).
  { intros y. rewrite elem_of_rowNeighbors, !elem_of_cons, elem_of_nil. split.
    - intros [Hone Hy]. apply (Hrow t x y Hx Hy) in Hone. 
      destruct Hone as [Hone|Hone]; [left|right; left]; congruence.
    - intros [->|[->|[]]].
      + split; [|done]. apply (Hrow t x p Hx Hp_lt). by left.
      + split; [|done]. apply (Hrow t x s Hx Hs_lt). by right. }
  assert (Hnd_row : NoDup (rowNeighbors m x)) by apply list.NoDup_filter, NoDup_seq.
  assert (Hperm : rowNeighbors m x ≡ₚ [p; s]).
  { apply NoDup_Permutation; [done| |done].
    apply list.NoDup_cons. split; [by intros ?%list_elem_of_singleton|apply NoDup_singleton]. }
  pose proof (Permutation_length Hperm) as Hlen. simpl in Hlen.
  assert (Hget : FindSubtours.getNeighbors m x = rowNeighbors m x).
  { unfold FindSubtours.getNeighbors. fold (rowNeighbors m x).
    rewrite bool_decide_eq_true_2 by done.
    by rewrite bool_decide_eq_true_2 by (by left). }
  split; [done|]. clear Hget. destruct (rowNeighbors m x) as [|a [|b [|? ?]]]; try done.
  pose proof (proj1 (Hmem a) ltac:(apply list_elem_of_here)) as Ha.
  pose proof (proj1 (Hmem b) ltac:(apply list_elem_of_further, list_elem_of_here)) as Hb.
  apply list.NoDup_cons in Hnd_row as [Hab _].
  apply not_elem_of_cons in Hab as [Hab _].
  apply elem_of_cons in Ha as [->|Ha%list_elem_of_singleton];
    apply elem_of_cons in Hb as [->|Hb%list_elem_of_singleton]; subst; auto; done.
Qed.

Lemma clean_next (t x : nat) :
  S !! t = Some x →
  ∃ s, S !! ((t + 1) `mod` k) = Some s
    ∧ FindSubtours.chooseNext m (FindSubtours.getNeighbors m x)
        (match t with 0 => None | Datatypes.S t' => S !! t' end)
      = FindSubtours.Next s.
Proof.
  intros Hx. pose proof clean_size as Hn.
  destruct (clean_neighbors t x Hx) as (p & s & Hp & Hs & Hps & Hget & Hrow).
  exists s. split; [done|]. rewrite Hget.
  unfold FindSubtours.chooseNext.
  assert (Hlen : length (rowNeighbors m x) = 2) by (by destruct Hrow as [-> | ->]).
  rewrite Hlen. rewrite bool_decide_eq_false_2 by lia.
  rewrite bool_decide_eq_false_2 by lia. rewrite bool_decide_eq_true_2 by done.
  f_equal. destruct t as [|t].
  - destruct S_clean as (Hk & _ & _ & _ & _ & _ & Hhead).
    rewrite bool_decide_eq_false_2 by (by destruct (rowNeighbors m x)).
    rewrite Nat.mod_small in Hs by lia.
    assert (Hx0 : default 0 (head S) = x) by (destruct S; simplify_eq/=; done).
    change (0 + 1) with 1 in Hs. rewrite Hx0, Hs in Hhead.
    destruct Hrow as [Hrow|Hrow]; rewrite Hrow in *; simpl in *; congruence.
  - pose proof (lookup_lt_Some _ _ _ Hx) as Ht.
    replace (Datatypes.S t + k - 1) with (t + 1 * k) in Hp by lia.
    rewrite Nat.Div0.mod_add, Nat.mod_small in Hp by lia. rewrite Hp.
    destruct Hrow as [-> | ->]; simpl.
    + by rewrite bool_decide_eq_true_2.
    + rewrite bool_decide_eq_false_2; [done|]. congruence.
Qed.

(** Started at place [t] of [S] with the nodes at the places before [t]
    marked and the other nodes of [S] not, the trace goes round [S] and
    closes. *)
Lemma traceCycle_clean (s0 : nat) :
  S !! 0 = Some s0 →
  ∀ fuel t x visited cycle,
  S !! t = Some x →
  k - t ≤ fuel →
  length visited = n →
  (∀ j y, S !! j = Some y → isVisited visited y = bool_decide (j < t)) →
  ∃ visited',
    FindSubtours.traceCycle m fuel s0 visited cycle x
      (match t with 0 => None | Datatypes.S t' => S !! t' end)
    = Some (visited', cycle ++ drop t S).
Proof.
  intros Hs0. pose proof S_clean as (Hk & Hnd & Hlt & _).
  induction fuel as [|fuel IH]; intros t x visited cycle Hx Hfuel Hlen Hvis.
  { apply lookup_lt_Some in Hx. lia. }
  pose proof (lookup_lt_Some _ _ _ Hx) as Ht.
  assert (Hx_lt : x < length visited).
  { rewrite Hlen. by eapply Hlt, list_elem_of_lookup_2. }
  cbn [FindSubtours.traceCycle]. rewrite (Hvis t x Hx).
  rewrite bool_decide_eq_false_2 by lia.
  destruct (clean_next t x Hx) as (s & Hs & ->).
  rewrite isVisited_insert by done. rewrite (Hvis _ s Hs).
  rewrite succ_mod in * by done.
  assert (Hsx : s ≠ x).
  { intros ->. pose proof (NoDup_lookup _ _ _ _ Hnd Hs Hx). case_decide; lia. }
  rewrite (bool_decide_eq_false_2 (s = x)) by done. rewrite orb_false_r.
  rewrite (drop_S _ _ _ Hx). case_decide as Hlast.
  - rewrite bool_decide_eq_true_2 by lia.
    rewrite bool_decide_eq_true_2 by congruence.
    rewrite drop_ge by lia. eauto.
  - rewrite bool_decide_eq_false_2 by lia.
    destruct (IH (t + 1) s (<[x := true]> visited) (cycle ++ [x])) as [visited' Hrec].
    + done.
    + lia.
    + by rewrite length_insert.
    + intros j y Hy. rewrite isVisited_insert by done. rewrite (Hvis j y Hy).
      destruct (decide (j = t)) as [->|Hjt].
      * assert (y = x) as -> by congruence.
        rewrite (bool_decide_eq_true_2 (x = x)) by done.
        rewrite orb_true_r. by rewrite bool_decide_eq_true_2 by lia.
      * rewrite (bool_decide_eq_false_2 (y = x)).
        2:{ intros ->. by pose proof (NoDup_lookup _ _ _ _ Hnd Hy Hx). }
        rewrite orb_false_r. apply bool_decide_ext. lia.
    + replace (t + 1) with (Datatypes.S t) in Hrec by lia. rewrite Hx in Hrec.
      rewrite Hrec. rewrite <- app_assoc. eauto.
Qed.

(** The search returns [S]. *)
Lemma findSubtours_clean : S ∈ findSubtours m.
Proof.
  pose proof clean_size as Hn. pose proof clean_length as Hkn.
  pose proof S_clean as (Hk & Hnd & Hlt & _ & _ & Hleast & _).
  destruct (lookup_lt_is_Some_2 S 0) as [s0 Hs0]; [lia|].
  rewrite head_lookup, Hs0 in Hleast. simpl in Hleast.
  assert (Hs0_lt : s0 < n) by (by eapply Hlt, list_elem_of_lookup_2).
  pose proof (findSubtours_fuel m) as Hrun.
  unfold FindSubtours.findSubtoursFuel in Hrun. fold n in Hrun.
  rewrite bool_decide_eq_false_2 in Hrun by lia.
  assert (Hseq : seq 0 n = seq 0 s0 ++ s0 :: seq (Datatypes.S s0) (n - s0 - 1)).
  { replace n with (s0 + Datatypes.S (n - s0 - 1)) at 1 by lia. by rewrite seq_app. }
  rewrite Hseq, visitAll_app in Hrun. cbn [FindSubtours.visitAll] in Hrun.
  destruct (visitAll_fuel m (seq 0 s0) (replicate n false, [])) as (st1 & Hst1 & Hinv1).
  { intros i Hi%elem_of_seq. lia. }
  { apply subtoursInv_init. }
  rewrite Hst1 in Hrun. cbn [mbind option_bind] in Hrun.
  assert (Hfresh : ∀ y, y ∈ S → isVisited st1.1 y = false).
  { assert (Hout : ∀ i, i ∈ seq 0 s0 → i < n ∧ i ∉ S).
    { intros i Hi%elem_of_seq. split; [lia|]. intros Hin%Hleast. lia. }
    intros y Hy. rewrite (visitAll_outside _ _ _ _ Hout Hst1 y Hy).
    unfold isVisited. apply bool_decide_eq_false. simpl.
    by intros [? _]%lookup_replicate. }
  destruct st1 as [visited1 subtours1]. destruct Hinv1 as (Hlen1 & _).
  simpl in Hlen1, Hfresh.
  destruct (traceCycle_clean s0 Hs0 (Datatypes.S n) 0 s0 visited1 []) as [visited2 Htrace];
    [done|lia|done| |].
  { intros j y Hy. rewrite Hfresh by (by eapply list_elem_of_lookup_2).
    symmetry. apply bool_decide_eq_false. lia. }
  unfold FindSubtours.visitNode in Hrun. 
  rewrite Hfresh in Hrun by (by eapply list_elem_of_lookup_2).
  rewrite Htrace in Hrun. cbn [mbind option_bind] in Hrun. rewrite drop_0 in Hrun.
  rewrite app_nil_l in Hrun. rewrite bool_decide_eq_true_2 in Hrun by lia.
  cbn [mbind option_bind] in Hrun.
  destruct (FindSubtours.visitAll m (Datatypes.S n) (visited2, subtours1 ++ [S])
              (seq (Datatypes.S s0) (n - s0 - 1))) as [st3|] eqn:Hst3; [|done].
  simpl in Hrun. injection Hrun as <-.
  eapply visitAll_keeps; [exact Hst3|]. simpl. apply elem_of_app. right.
  apply list_elem_of_here.
Qed.

End CleanCycle.

(** * Facts about the meaning of the base model *)


(** * Facts about the rounding of numbers *)







(** * Properties C1 to C10 *)

(** C1. For a preference matrix with [n >= 3] rows, whenever [solveSitting]
    returns a matrix, [findSubtours] applied to that matrix gives exactly one
    cycle, and the cycle has length [n]. *)
Theorem C1_returned_matrix_single_cycle
    (glpk : GLPKInstance) (pref : PreferenceMatrix) (m : AdjacencyMatrix) :
  3 ≤ length pref →
  outcome (solveSitting glpk pref) = Normal m →
  ∃ cycle, findSubtours m = [cycle] ∧ length cycle = length pref.
Proof.
  intros Hn Hout. rewrite solveSitting_iterations in Hout by done.
  apply iterations_Normal in Hout as (j & constraints & _ & _ & Hret).
  by apply iteration_Return in Hret.
Qed.

Lemma C1_returned_matrix_single_cycle_witness :
  ∃ cycle, findSubtours triangle = [cycle] ∧ length cycle = 3.
Proof.
  apply (C1_returned_matrix_single_cycle
           (glpkWith (λ _ _ _, optimal triangle)) (uniformPref 3 0) triangle).
  - vm_compute. lia.
  - vm_compute. reflexivity.
Defined.





(** Counterexample to C4 as stated: six people, the first answer of the solver is two
    disjoint 3-cycles and the second has status "no feasible solution". No
    pass produces a single cycle of length 6, yet the error thrown is the
    "no single-cycle solution" one, not the iteration-budget one. *)
Lemma C4_counterexample :
  3 ≤ length (uniformPref 6 0)
  ∧ (∀ m, outcome (solveSitting (glpkWith (subtoursThen (rejection 4)))
                     (uniformPref 6 0)) ≠ Normal m)
  ∧ (∀ k, outcome (solveSitting (glpkWith (subtoursThen (rejection 4)))
                     (uniformPref 6 0)) ≠ Abrupt (BudgetExhausted k))
  ∧ outcome (solveSitting (glpkWith (subtoursThen (rejection 4))) (uniformPref 6 0))
    = Abrupt (NoSingleCycle 2 "No Feasible Solution").
Proof.
  assert (Hrun : outcome (solveSitting (glpkWith (subtoursThen (rejection 4)))
                            (uniformPref 6 0))
                 = Abrupt (NoSingleCycle 2 "No Feasible Solution")).
  { vm_compute. reflexivity. }
  rewrite Hrun. split_and!; [vm_compute; lia|done..].
Qed.

(** C4, amended. For a preference matrix with [n >= 3] rows, [solveSitting]
    calls the solver at most [2 n] times; it throws the iteration-budget
    error exactly when every one of the [2 n] passes ends by continuing (none
    returns a matrix, none throws), and then the solver has been called
    exactly [2 n] times; the message of the iteration-budget error differs
    from the messages of the two infeasibility errors. *)
Theorem C4_iteration_budget (glpk : GLPKInstance) (pref : PreferenceMatrix) :
  3 ≤ length pref →
  let n := length pref in
  length (calls (solveSitting glpk pref)) ≤ 2 * n
  ∧ (is_Some (advance glpk pref (2 * n) 0 [])
     ↔ ∃ m, outcome (solveSitting glpk pref) = Abrupt (BudgetExhausted m))
  ∧ (is_Some (advance glpk pref (2 * n) 0 []) →
     outcome (solveSitting glpk pref) = Abrupt (BudgetExhausted (2 * n))
     ∧ length (calls (solveSitting glpk pref)) = 2 * n)
  ∧ (∀ m k statusText s,
       errorMessage (BudgetExhausted m) ≠ errorMessage (SolverFailed statusText s)
       ∧ errorMessage (BudgetExhausted m) ≠ errorMessage (NoSingleCycle k statusText)).
Proof.
  intros Hn n. replace (2 * n) with (SolveSitting.MAX_SUBTOUR_ITERATIONS pref)
    by (unfold SolveSitting.MAX_SUBTOUR_ITERATIONS, SolveSitting.n; lia).
  split_and!.
  - rewrite solveSitting_iterations by done. apply iterations_calls_length.
  - rewrite solveSitting_iterations by done. apply iterations_budget.
  - by apply solveSitting_budget.
  - intros m k statusText s.
    split; [apply message_budget_not_failed|apply message_budget_not_no_cycle].
Qed.

Lemma C4_iteration_budget_witness :
  outcome (solveSitting (glpkWith (λ _ _ _, optimal twoTriangles)) (uniformPref 6 0))
    = Abrupt (BudgetExhausted 12)
  ∧ length (calls (solveSitting (glpkWith (λ _ _ _, optimal twoTriangles))
                     (uniformPref 6 0))) = 12.
Proof.
  pose proof (C4_iteration_budget (glpkWith (λ _ _ _, optimal twoTriangles))
                (uniformPref 6 0)) as H.
  destruct H as (_ & _ & H & _); [vm_compute; lia|].
  apply H. vm_compute. eexists. reflexivity.
Defined.

(** Counterexample to C5 as stated: six people, the first answer of the solver is two
    disjoint 3-cycles, so that two elimination constraints are added, and
    the second answer has status "unbounded", which is neither optimal nor
    feasible. The error thrown on this later pass is the generic one, the
    very error a first pass with that status throws. *)
Lemma C5_counterexample :
  length (calls (solveSitting (glpkWith (subtoursThen (rejection 6)))
                   (uniformPref 6 0))) = 2
  ∧ advance (glpkWith (subtoursThen (rejection 6))) (uniformPref 6 0) 1 0 []
    = Some (SolveSitting.eliminationConstraint (glpkWith (subtoursThen (rejection 6))) 0
              <$> [[0; 1; 2]; [3; 4; 5]])
  ∧ outcome (solveSitting (glpkWith (subtoursThen (rejection 6))) (uniformPref 6 0))
    = Abrupt (SolverFailed "Unbounded" 6)
  ∧ outcome (solveSitting (glpkWith (λ _ _ _, rejection 6)) (uniformPref 6 0))
    = Abrupt (SolverFailed "Unbounded" 6).
Proof. split_and!; vm_compute; reflexivity. Qed.

(** C5, amended. Whenever the solver answers pass [k] (counted from 0) with
    a status that is neither optimal nor feasible, [solveSitting] throws
    after that call: on the first pass the generic "Solver failed" error; on
    a later pass, which always comes after elimination constraints have been
    added, the "no single-cycle solution" error when the status is
    infeasible or no-feasible-solution, and the generic error for any other
    status (unbounded, undefined, unknown). The two errors have different
    messages. *)
Theorem C5_solver_rejection (glpk : GLPKInstance) (pref : PreferenceMatrix)
    (k : nat) (constraints : list GLPKConstraint) (result : GLPKSolveResult) :
  3 ≤ length pref → k < 2 * length pref →
  advance glpk pref k 0 [] = Some constraints →
  solve glpk k (SolveSitting.lpProblemForIter glpk pref constraints)
    (SolveSitting.solverOptions glpk) = Resolved result →
  status result ≠ GLP_OPT glpk → status result ≠ GLP_FEAS glpk →
  let s := status result in
  let generic := SolverFailed (SolveSitting.statusText glpk s) s in
  let specific := NoSingleCycle (k + 1) (SolveSitting.statusText glpk s) in
  (k = 0 → outcome (solveSitting glpk pref) = Abrupt generic)
  ∧ (0 < k → s = GLP_INFEAS glpk ∨ s = GLP_NOFEAS glpk →
     outcome (solveSitting glpk pref) = Abrupt specific)
  ∧ (0 < k → s ≠ GLP_INFEAS glpk → s ≠ GLP_NOFEAS glpk →
     outcome (solveSitting glpk pref) = Abrupt generic)
  ∧ (0 < k → constraints ≠ [])
  ∧ length (calls (solveSitting glpk pref)) = k + 1
  ∧ errorMessage generic ≠ errorMessage specific.
Proof.
  intros Hn Hk Hadv Hsolve Hopt Hfeas s generic specific.
  assert (Hit : SolveSitting.iteration glpk pref k constraints
                = Throw (if bool_decide (0 < k ∧ (s = GLP_INFEAS glpk ∨ s = GLP_NOFEAS glpk))
                         then specific else generic)).
  { unfold SolveSitting.iteration. rewrite Hsolve.
    rewrite bool_decide_eq_true_2 by done. fold s. by case_bool_decide. }
  assert (Hmax : k < SolveSitting.MAX_SUBTOUR_ITERATIONS pref).
  { unfold SolveSitting.MAX_SUBTOUR_ITERATIONS, SolveSitting.n. lia. }
  destruct (solveSitting_throw glpk pref k constraints _ Hn Hmax Hadv Hit)
    as [Hout Hcalls].
  split_and!.
  - intros ->. rewrite Hout. rewrite bool_decide_eq_false_2 by lia. done.
  - intros Hpos Hs. rewrite Hout. rewrite bool_decide_eq_true_2 by done. done.
  - intros Hpos Hi Hf. rewrite Hout. rewrite bool_decide_eq_false_2 by tauto. done.
  - intros Hpos. eapply advance_constraints; [|exact Hpos|exact Hadv].
    unfold SolveSitting.n. lia.
  - exact Hcalls.
  - apply message_failed_not_no_cycle.
Qed.

Lemma C5_solver_rejection_witness :
  outcome (solveSitting (glpkWith (subtoursThen (rejection 3))) (uniformPref 6 0))
  = Abrupt (NoSingleCycle 2 "Infeasible").
Proof.
  pose proof (C5_solver_rejection (glpkWith (subtoursThen (rejection 3)))
                (uniformPref 6 0) 1
                (SolveSitting.eliminationConstraint
                   (glpkWith (subtoursThen (rejection 3))) 0
                   <$> [[0; 1; 2]; [3; 4; 5]])
                {| status := 3; result_vars := [] |}) as H.
  destruct H as (_ & H & _);
    [vm_compute; lia|vm_compute; lia|vm_compute; reflexivity|reflexivity
    |vm_compute; discriminate|vm_compute; discriminate|].
  apply H; [lia|left; reflexivity].
Defined.

(** C6 (the code departs from it). The checks of symmetry, zero diagonal and
    row sum 2 on the rounded matrix are [console.assert] calls inside a [try]
    block; they never throw, so [solveSitting] never throws the
    invalid-matrix error of the [catch] clause and goes on with the matrix.
    Three answers of the solver, each breaking one of the three conditions
    only, are returned as the result. *)
Theorem C6_invalid_matrix_returned :
  (∀ glpk pref k msg, outcome (solveSitting glpk pref) ≠ Abrupt (InvalidMatrix k msg))
  ∧ (¬ symmetricMatrix 4 asymmetric4
     ∧ outcome (solveSitting (glpkWith (λ _ _ _, optimal asymmetric4)) (uniformPref 4 0))
       = Normal asymmetric4)
  ∧ (¬ zeroDiagonal 3 diagonal3
     ∧ outcome (solveSitting (glpkWith (λ _ _ _, optimalFull diagonal3)) (uniformPref 3 0))
       = Normal diagonal3)
  ∧ (¬ degreeTwo 4 heavy4
     ∧ outcome (solveSitting (glpkWith (λ _ _ _, optimal heavy4)) (uniformPref 4 0))
       = Normal heavy4).
Proof.
  split; [intros glpk pref k msg; apply solveSitting_not_InvalidMatrix|].
  split_and!; try (vm_compute; reflexivity).
  - intros H. specialize (H 0 1 ltac:(lia) ltac:(lia) ltac:(lia)).
    vm_compute in H. discriminate.
  - intros H. specialize (H 0 ltac:(lia)). vm_compute in H. discriminate.
  - intros H. specialize (H 0 ltac:(lia)). vm_compute in H. discriminate.
Qed.

(** Counterexample to C7 as stated: in this 4 x 4 matrix node 3 has no neighbour, it
    is visited, and [findSubtours] completes normally with the one cycle it
    could trace. *)
Lemma C7_counterexample :
  length (rowNeighbors triangleAndIsolated 3) ≠ 2
  ∧ FindSubtours.findSubtoursFuel triangleAndIsolated 5 = Some [[0; 1; 2]]
  ∧ findSubtours triangleAndIsolated = [[0; 1; 2]].
Proof. split_and!; vm_compute; done. Qed.

(** C7, amended. [findSubtours] never aborts: on every matrix its loops end
    (the inner loop within [n + 1] passes) and it returns a list of cycles,
    for [n >= 3] each of them a closed walk in the matrix. For [n >= 3], a
    node whose degree is not 2 invalidates the trace that reaches it and
    nothing else: every node of every returned cycle has degree 2, no node
    of another degree occurs in the result, and the search goes on with the
    next unvisited node, so that every cycle of the matrix whose nodes have
    no neighbours but the two beside them on the cycle, and which no row of
    a node outside it points into, is returned whatever the other rows are,
    written from its least node towards the first neighbour in that node's
    row. *)
Theorem C7_bad_degree_is_dropped (adjMatrix : AdjacencyMatrix) :
  FindSubtours.findSubtoursFuel adjMatrix (S (length adjMatrix))
    = Some (findSubtours adjMatrix)
  ∧ (3 ≤ length adjMatrix →
     ∀ cycle, cycle ∈ findSubtours adjMatrix → cycle ≠ [] ∧ closedWalk adjMatrix cycle)
  ∧ (3 ≤ length adjMatrix →
     ∀ cycle node, cycle ∈ findSubtours adjMatrix → node ∈ cycle →
       length (rowNeighbors adjMatrix node) = 2)
  ∧ (3 ≤ length adjMatrix →
     ∀ node, length (rowNeighbors adjMatrix node) ≠ 2 →
       ∀ cycle, cycle ∈ findSubtours adjMatrix → node ∉ cycle)
  ∧ (∀ cycle, cleanCycle adjMatrix cycle → cycle ∈ findSubtours adjMatrix).
Proof.
  destruct (findSubtours_inv adjMatrix) as (_ & _ & Hne & Hdeg).
  assert (Hin : 3 ≤ length adjMatrix →
     ∀ cycle node, cycle ∈ findSubtours adjMatrix → node ∈ cycle →
       length (rowNeighbors adjMatrix node) = 2).
  { intros Hn cycle node Hc Hnode. apply Hdeg; [done|].
    apply list_elem_of_join. eauto. }
  split_and!; [apply findSubtours_fuel| |done| |].
  - intros Hn cycle Hc. split; [by apply Hne|by apply findSubtours_closedWalk].
  - intros Hn node Hnode cycle Hc Hin'. apply Hnode. eauto.
  - intros cycle Hclean. by apply findSubtours_clean.
Qed.

Lemma C7_bad_degree_is_dropped_witness :
  (length (rowNeighbors triangleAndIsolated 1) = 2 ∧ 3 ∉ [0; 1; 2])
  ∧ (length (rowNeighbors pairTriangleIsolated 0) ≠ 2
     ∧ [2; 3; 4] ∈ findSubtours pairTriangleIsolated).
Proof.
  split.
  - destruct (C7_bad_degree_is_dropped triangleAndIsolated) as (_ & _ & Hin & Hout & _).
    split.
    + apply (Hin ltac:(vm_compute; lia) [0; 1; 2] 1).
      * change (findSubtours triangleAndIsolated) with [[0; 1; 2]].
        apply list_elem_of_here.
      * apply list_elem_of_further, list_elem_of_here.
    + apply (Hout ltac:(vm_compute; lia) 3 ltac:(vm_compute; lia) [0; 1; 2]).
      change (findSubtours triangleAndIsolated) with [[0; 1; 2]].
      apply list_elem_of_here.
  - split; [vm_compute; lia|].
    destruct (C7_bad_degree_is_dropped pairTriangleIsolated) as (_ & _ & _ & _ & Hclean).
    apply Hclean. split_and!.
    + simpl. lia.
    + by apply (bool_decide_unpack _).
    + intros x Hx. for_each_member Hx ltac:(vm_compute; lia).
    + intros t x y Hx Hy. change (length pairTriangleIsolated) with 6 in Hy.
      destruct t as [|[|[|t]]]; simplify_eq/=; below_length;
        by apply (bool_decide_unpack _).
    + intros x y Hx Hout Hy. change (length pairTriangleIsolated) with 6 in Hx.
      for_each_member Hy ltac:(idtac); below_length;
        first [by apply (bool_decide_unpack _)
              |exfalso; apply Hout; apply (bool_decide_unpack _); done].
    + intros x Hx. for_each_member Hx ltac:(simpl; lia).
    + reflexivity.
Defined.

(** C8. [extractTableCycle] returns the empty sequence for [n = 0], [[0]]
    for [n = 1] and [[0, 1]] for [n = 2]. For an [n x n] matrix, [n >= 3],
    that is a single cycle through all [n] nodes it returns a seating
    sequence: [n] distinct indices, node 0 first, consecutive entries
    adjacent in the matrix and the last entry adjacent to node 0. And it
    throws on every deviation: whatever it returns for [n >= 3] is a seating
    sequence of a matrix all of whose nodes have degree 2; a node of another
    degree met on the walk, a walk that does not stand at node 0 after [n]
    steps, and a walk that meets a node twice each end in the error for that
    case. In particular every matrix that [solveSitting] returns for
    [n >= 3] is turned into a seating sequence. *)
Theorem C8_extractTableCycle (m : AdjacencyMatrix) :
  let n := length m in
  (n = 0 → extractTableCycle m = Normal [])
  ∧ (n = 1 → extractTableCycle m = Normal [0])
  ∧ (n = 2 → extractTableCycle m = Normal [0; 1])
  ∧ (3 ≤ n → squareMatrix m → (∃ c, singleCycle m c) →
     ∃ path, extractTableCycle m = Normal path ∧ seatingSequence m path)
  ∧ (3 ≤ n → ∀ path, extractTableCycle m = Normal path →
     seatingSequence m path
     ∧ ∀ i, i < n → length (ExtractTableCycle.neighborsOf m i) = 2)
  ∧ (3 ≤ n → (∃ i, i < n ∧ length (ExtractTableCycle.neighborsOf m i) ≠ 2) →
     ∃ e, extractTableCycle m = Abrupt e)
  ∧ (3 ≤ n → length <$> m !! 0 = Some n →
     (∀ e, ExtractTableCycle.walk m n [] 0 None = Abrupt e →
        extractTableCycle m = Abrupt e
        ∧ ∃ node, e = DegreeNotTwo node
                        (length (ExtractTableCycle.neighborsOf m node)) n
                  ∧ length (ExtractTableCycle.neighborsOf m node) ≠ 2)
     ∧ (∀ path z, ExtractTableCycle.walk m n [] 0 None = Normal (path, z) →
        z ≠ 0 → extractTableCycle m = Abrupt (NotBackAtStart n z))
     ∧ (∀ path, ExtractTableCycle.walk m n [] 0 None = Normal (path, 0) →
        ¬ NoDup path →
        extractTableCycle m
        = Abrupt (WrongPath (length path) (length (remove_dups path)) n)))
  ∧ (∀ glpk pref, 3 ≤ length pref → outcome (solveSitting glpk pref) = Normal m →
     ∃ path, extractTableCycle m = Normal path ∧ seatingSequence m path).
Proof.
  intros n. subst n.
  unfold extractTableCycle, ExtractTableCycle.extractTableCycle.
  change (ExtractTableCycle.n m) with (length m).
  split_and!.
  - intros ->. done.
  - intros ->. done.
  - intros ->. done.
  - intros Hn Hsq [c Hc].
    destruct (extractTableCycle_single_cycle m c Hn Hsq Hc) as [path Hpath].
    exists path. split; [exact Hpath|].
    by apply extractTableCycle_Normal.
  - intros Hn path Hpath. by apply extractTableCycle_Normal.
  - intros Hn (i & Hi & Hdeg).
    destruct (ExtractTableCycle.extractTableCycle m) as [path|e] eqn:Hres; [|eauto].
    exfalso. apply Hdeg. by apply (extractTableCycle_Normal m path Hn Hres).
  - intros Hn Hdim. do 3 (rewrite bool_decide_eq_false_2 by lia).
    rewrite (bool_decide_eq_false_2 (_ ≠ _)) by (intros Hne; by apply Hne).
    split_and!.
    + intros e Hwalk. rewrite Hwalk. split; [done|]. by eapply walk_Abrupt.
    + intros path z Hwalk Hz. rewrite Hwalk. simpl. by rewrite bool_decide_eq_true_2.
    + intros path Hwalk Hnd. rewrite Hwalk. simpl.
      rewrite bool_decide_eq_true_2; [done|].
      destruct (decide (length path = length m)) as [Hlen|]; [right|by left].
      intros Hdup. apply Hnd, remove_dups_length_NoDup. lia.
  - intros glpk pref Hn Hout.
    destruct (solveSitting_result_extractable glpk pref m Hn Hout)
      as (path & _ & Hpath & Hseating).
    eauto.
Qed.

Lemma C8_extractTableCycle_witness :
  extractTableCycle [] = Normal []
  ∧ ∃ path, extractTableCycle square = Normal path ∧ seatingSequence square path.
Proof.
  split.
  - apply (proj1 (C8_extractTableCycle [])). reflexivity.
  - destruct (C8_extractTableCycle square) as (_ & _ & _ & H & _).
    apply H.
    + vm_compute. lia.
    + intros row Hrow. for_each_member Hrow ltac:(reflexivity).
    + exists [0; 1; 2; 3]. exact square_singleCycle.
Defined.

(** C9. When the preference matrix has 0, 1 or 2 rows, [solveSitting]
    returns the empty matrix, [[[0]]] and [[[0,1],[1,0]]] respectively,
    whatever the preference values are, and the solver is not called. *)
Theorem C9_trivial_sizes (glpk : GLPKInstance) (pref : PreferenceMatrix) :
  (length pref = 0 →
     solveSitting glpk pref = {| outcome := Normal []; calls := [] |})
  ∧ (length pref = 1 →
     solveSitting glpk pref = {| outcome := Normal [[0%Z]]; calls := [] |})
  ∧ (length pref = 2 →
     solveSitting glpk pref = {| outcome := Normal [[0; 1]; [1; 0]]%Z; calls := [] |}).
Proof.
  unfold solveSitting, SolveSitting.solveSitting, SolveSitting.n.
  split_and!; intros ->; reflexivity.
Qed.

Lemma C9_trivial_sizes_witness :
  solveSitting (glpkWith (λ _ _ _, rejection 1)) []
    = {| outcome := Normal []; calls := [] |}
  ∧ solveSitting (glpkWith (λ _ _ _, rejection 1)) [[Some (7 # 1)]]
    = {| outcome := Normal [[0%Z]]; calls := [] |}
  ∧ solveSitting (glpkWith (λ _ _ _, rejection 1)) [[None; Some (-3 # 1)]; []]
    = {| outcome := Normal [[0; 1]; [1; 0]]%Z; calls := [] |}.
Proof.
  split; [|split].
  - apply (proj1 (C9_trivial_sizes (glpkWith (λ _ _ _, rejection 1)) [])).
    reflexivity.
  - apply (proj1 (proj2 (C9_trivial_sizes (glpkWith (λ _ _ _, rejection 1))
                           [[Some (7 # 1)]]))).
    reflexivity.
  - apply (proj2 (proj2 (C9_trivial_sizes (glpkWith (λ _ _ _, rejection 1))
                           [[None; Some (-3 # 1)]; []]))).
    reflexivity.
Defined.

(** Counterexample to C10 as stated: three people and a 3 x 3 preference
    matrix in which [pref[0][1]] is not a number. [solveSitting] calls the
    solver and returns its answer. The same happens with a matrix whose row 1
    has two entries only. *)
Lemma C10_counterexample :
  (length holedPref = 3
   ∧ holedPref !! 0 ≫= (λ row, row !! 1) = Some None
   ∧ length (calls (solveSitting (glpkWith (λ _ _ _, optimal triangle)) holedPref)) = 1
   ∧ outcome (solveSitting (glpkWith (λ _ _ _, optimal triangle)) holedPref)
     = Normal triangle)
  ∧ (length raggedPref = 3
     ∧ raggedPref !! 1 ≫= (λ row, row !! 2) = None
     ∧ length (calls (solveSitting (glpkWith (λ _ _ _, optimal triangle)) raggedPref)) = 1
     ∧ outcome (solveSitting (glpkWith (λ _ _ _, optimal triangle)) raggedPref)
       = Normal triangle).
Proof. split_and!; vm_compute; reflexivity. Qed.

(** C10, amended. For [n >= 3] a square preference matrix that lacks numeric
    entries is not rejected: the solver is called, first with the base model,
    and in the objective of that model every variable [x_i_j] whose entry
    [pref[i][j]] is not a number has the coefficient 0.001 alone. *)
Theorem C10_missing_entries_accepted (glpk : GLPKInstance) (pref : PreferenceMatrix) :
  3 ≤ length pref → squarePref pref →
  let n := length pref in
  ∃ P rest,
    calls (solveSitting glpk pref) = P :: rest
    ∧ P = SolveSitting.lpProblemForIter glpk pref []
    ∧ ∀ i j, i < n → j < n → i ≠ j →
        pref !! i ≫= (λ row, row !! j) = Some None →
        {| name := SolveSitting.getVarName i j; coef := SolveSitting.EPSILON |}
          ∈ objective_vars (objective P).
Proof.
  intros Hn _ n. rewrite solveSitting_iterations by done.
  unfold SolveSitting.MAX_SUBTOUR_ITERATIONS, SolveSitting.n.
  destruct (length pref * 2) as [|r] eqn:Hr; [lia|].
  destruct (iterations_first_call glpk pref r 0 []) as [rest ->].
  eexists _, rest. split_and!; [done..|].
  intros i j Hi Hj Hne Hmissing. simpl. apply elem_of_ordered_pairs.
  exists i, j. split_and!; [done..|].
  unfold SolveSitting.objectiveCoef. by rewrite Hmissing.
Qed.

Lemma C10_missing_entries_accepted_witness :
  ∃ P rest,
    calls (solveSitting (glpkWith (λ _ _ _, optimal triangle)) holedPref) = P :: rest
    ∧ {| name := "x_0_1"; coef := SolveSitting.EPSILON |} ∈ objective_vars (objective P).
Proof.
  destruct (C10_missing_entries_accepted (glpkWith (λ _ _ _, optimal triangle)) holedPref)
    as (P & rest & Hcalls & _ & Hcoef).
  - vm_compute. lia.
  - intros row Hrow. for_each_member Hrow ltac:(reflexivity).
  - exists P, rest. split; [exact Hcalls|].
    apply (Hcoef 0 1); [vm_compute; lia|vm_compute; lia|lia|reflexivity].
Defined.
(** * Facts about the texts of numbers and the variable names *)

Lemma append_cons (c : ascii) (s t : string) : String c s +:+ t = String c (s +:+ t).
Proof. reflexivity. Qed.

Lemma append_nil (t : string) : EmptyString +:+ t = t.
Proof. reflexivity. Qed.

Lemma string_app_assoc (a b c : string) : (a +:+ b) +:+ c = a +:+ (b +:+ c).
Proof. induction a as [|x a IH]; [done|]. rewrite !append_cons. by rewrite IH. Qed.

(** [skipWhiteSpace] takes one white-space character away at a time. *)
Lemma skipWhiteSpace_step (s : string) :
  skipWhiteSpace s
  = match afterWhiteSpace s with Some rest => skipWhiteSpace rest | None => s end.
Proof.
  destruct s as [|c1 [|c2 [|c3 rest]]]; cbn [skipWhiteSpace afterWhiteSpace]; try done;
    destruct (isWhiteSpace c1); try done;
    destruct (isWhiteSpace2 c1 c2); try done;
    destruct (isWhiteSpace3 c1 c2 c3); done.
Qed.

Lemma afterWhiteSpace_length (s rest : string) :
  afterWhiteSpace s = Some rest → String.length rest < String.length s.
Proof.
  destruct s as [|c1 [|c2 [|c3 s]]]; cbn [afterWhiteSpace]; try done;
    destruct (isWhiteSpace c1); try (intros [= <-]; simpl; lia);
    destruct (isWhiteSpace2 c1 c2); try (intros [= <-]; simpl; lia);
    destruct (isWhiteSpace3 c1 c2 c3); try (intros [= <-]; simpl; lia); done.
Qed.

Lemma afterWhiteSpace_app (s rest t : string) :
  afterWhiteSpace s = Some rest → afterWhiteSpace (s +:+ t) = Some (rest +:+ t).
Proof.
  destruct s as [|c1 [|c2 [|c3 s]]]; rewrite ?append_cons, ?append_nil;
    cbn [afterWhiteSpace]; try done.
  - destruct (isWhiteSpace c1); [|done]. intros [= <-]. by rewrite append_nil.
  - destruct (isWhiteSpace c1); [intros [= <-]; by rewrite append_cons, append_nil|].
    destruct (isWhiteSpace2 c1 c2); [|done]. intros [= <-]. by rewrite append_nil.
  - destruct (isWhiteSpace c1); [intros [= <-]; by rewrite !append_cons|].
    destruct (isWhiteSpace2 c1 c2); [intros [= <-]; by rewrite !append_cons|].
    destruct (isWhiteSpace3 c1 c2 c3); [by intros [= <-]|done].
Qed.

(** No white-space character starts with a digit. *)
Lemma afterWhiteSpace_digit (c : ascii) (s : string) :
  is_Some (digitValue c) → afterWhiteSpace (String c s) = None.
Proof.
  intros [v Hv]. unfold digitValue in Hv. case_bool_decide as Hd; [|done].
  assert (Hws : isWhiteSpace c = false).
  { unfold isWhiteSpace. apply bool_decide_eq_false. lia. }
  assert (Hws2 : ∀ c2, isWhiteSpace2 c c2 = false).
  { intros c2. unfold isWhiteSpace2. apply bool_decide_eq_false. lia. }
  assert (Hws3 : ∀ c2 c3, isWhiteSpace3 c c2 c3 = false).
  { intros c2 c3. unfold isWhiteSpace3. apply bool_decide_eq_false. lia. }
  destruct s as [|c2 [|c3 s]]; cbn [afterWhiteSpace]; by rewrite ?Hws, ?Hws2, ?Hws3.
Qed.

Lemma string_length_ind (P : string → Prop) :
  (∀ s, (∀ t, String.length t < String.length s → P t) → P s) → ∀ s, P s.
Proof.
  intros Hstep s. remember (String.length s) as k eqn:Hk.
  revert s Hk. induction (lt_wf k) as [k _ IH]. intros s ->.
  apply Hstep. intros t Ht. by apply (IH _ Ht).
Qed.

Lemma allDigits_uint (d : Decimal.uint) : allDigits (NilEmpty.string_of_uint d).
Proof. induction d; simpl; (split; [by eexists|done]) || done. Qed.

Lemma allDigits_lacks (s : string) (c : ascii) :
  digitValue c = None → allDigits s → lacks c s.
Proof.
  intros Hc. induction s as [|x s IH]; simpl; [done|].
  intros [[v Hv] Hs]. split; [|by apply IH]. intros ->. congruence.
Qed.

Lemma leadingDigits_uint (d : Decimal.uint) (rest : string) :
  ∀ a : nat,
  leadingDigits (Some (Z.of_nat a)) (NilEmpty.string_of_uint d +:+ rest)
  = leadingDigits (Some (Z.of_nat (Nat.of_uint_acc d a))) rest.
Proof.
  induction d; intros a; simpl; rewrite ?append_cons, ?append_nil; [done|..]; simpl;
    (rewrite <- IHd; f_equal; f_equal; rewrite Nat.tail_mul_spec; vm_compute digitValue; simpl; lia).
Qed.

Lemma to_uint_nonnil (k : nat) : Nat.to_uint k ≠ Decimal.Nil.
Proof.
  intros Hnil. pose proof (DecimalNat.Unsigned.of_to k) as Hk.
  rewrite Hnil in Hk. simpl in Hk. subst k. discriminate.
Qed.

Lemma leadingDigits_stop (v : option Z) (s : string) :
  noDigitAhead s → leadingDigits v s = v.
Proof. destruct s as [|c s]; simpl; [done|]. by intros ->. Qed.

Lemma leadingDigits_showNat (k : nat) (rest : string) :
  noDigitAhead rest → leadingDigits None (showNat k +:+ rest) = Some (Z.of_nat k).
Proof.
  intros Hrest. unfold showNat.
  pose proof (DecimalNat.Unsigned.of_to k) as Hk. unfold Nat.of_uint in Hk.
  pose proof (to_uint_nonnil k) as Hnil.
  destruct (Nat.to_uint k) as [|d|d|d|d|d|d|d|d|d|d]; [done|..]; simpl in *;
    change (0 * 10)%Z with 0%Z; rewrite Z.add_0_l, leadingDigits_uint;
    rewrite Nat.tail_mul_spec in Hk; simpl in Hk; rewrite Hk;
    by apply leadingDigits_stop.
Qed.

Lemma showNat_allDigits (k : nat) : allDigits (showNat k).
Proof. apply allDigits_uint. Qed.

Lemma showNat_lacks (k : nat) (c : ascii) : digitValue c = None → lacks c (showNat k).
Proof. intros Hc. by apply allDigits_lacks, showNat_allDigits. Qed.

Lemma showNat_cons (k : nat) : ∃ c s, showNat k = String c s ∧ is_Some (digitValue c).
Proof.
  unfold showNat. pose proof (to_uint_nonnil k) as Hnil.
  destruct (Nat.to_uint k); [done|..]; simpl; eexists _, _; (split; [done|by eexists]).
Qed.

Lemma showNat_inj (a b : nat) : showNat a = showNat b → a = b.
Proof.
  intros Heq. assert (Ha := leadingDigits_showNat a EmptyString I).
  assert (Hb := leadingDigits_showNat b EmptyString I).
  rewrite Heq in Ha. rewrite Ha in Hb. simplify_eq. lia.
Qed.

(** [parseInt] reads back what the template literal wrote. *)
Lemma parseInt_showNat (k : nat) : parseInt (Some (showNat k)) = Some (Z.of_nat k).
Proof.
  pose proof (leadingDigits_showNat k EmptyString I) as Hk.
  assert (Hr : ∀ s, s +:+ EmptyString = s).
  { induction s as [|c s IH]; [done|]. by rewrite append_cons, IH. }
  rewrite Hr in Hk.
  destruct (showNat_cons k) as (c & s & Hs & [v Hv]). rewrite Hs in *.
  unfold parseInt.
  rewrite skipWhiteSpace_step, afterWhiteSpace_digit by eauto.
  assert (c ≠ "-"%char ∧ c ≠ "+"%char) as [Hm Hp].
  { split; intros ->; vm_compute in Hv; done. }
  destruct c as [[] [] [] [] [] [] [] []]; try done.
Qed.

Lemma splitOn_lacks (sep : ascii) (s : string) : lacks sep s → splitOn sep s = [s].
Proof.
  induction s as [|c s IH]; simpl; [done|]. intros [Hc Hs].
  rewrite bool_decide_eq_false_2 by done. by rewrite IH.
Qed.

Lemma splitOn_app (sep : ascii) (s t : string) :
  lacks sep s → splitOn sep (s +:+ String sep t) = s :: splitOn sep t.
Proof.
  induction s as [|c s IH]; intros Hs.
  { rewrite append_nil. simpl. by rewrite bool_decide_eq_true_2. }
  destruct Hs as [Hc Hs]. rewrite append_cons. simpl.
  rewrite bool_decide_eq_false_2 by done. by rewrite IH.
Qed.

Lemma splitOn_getVarName (i j : nat) :
  splitOn "_" (SolveSitting.getVarName i j) = ["x"; showNat i; showNat j]%string.
Proof.
  unfold SolveSitting.getVarName.
  change ("x_" +:+ showNat i +:+ "_" +:+ showNat j)
    with ("x" +:+ String "_" (showNat i +:+ String "_" (showNat j))).
  rewrite splitOn_app by (simpl; split; done).
  rewrite splitOn_app by (by apply showNat_lacks).
  by rewrite splitOn_lacks by (by apply showNat_lacks).
Qed.

Lemma prefix_getVarName (i j : nat) :
  String.prefix "x_" (SolveSitting.getVarName i j) = true.
Proof.
  unfold SolveSitting.getVarName. destruct (showNat_cons i) as (c & s & -> & _).
  reflexivity.
Qed.

Lemma Math_round_inject_Z (z : Z) : Math_round (inject_Z z) = z.
Proof.
  unfold Math_round. unfold Qfloor, Qplus, inject_Z. simpl.
  symmetry. apply Z.div_unique with (r := 1%Z); lia.
Qed.

Section StoreVar.
Variable pref : PreferenceMatrix.
Local Abbreviation n := (length pref).

Lemma storeVar_getVarName (varMatrix : AdjacencyMatrix) (i j : nat) (value : Q) :
  SolveSitting.storeVar pref varMatrix (SolveSitting.getVarName i j, value)
  = if bool_decide (i < n ∧ j < n)
    then alter (λ row, <[j := Math_round value]> row) i varMatrix
    else varMatrix.
Proof.
  unfold SolveSitting.storeVar. rewrite prefix_getVarName, splitOn_getVarName.
  change ((["x"; showNat i; showNat j]%string : list string) !! 1) with (Some (showNat i)).
  change ((["x"; showNat i; showNat j]%string : list string) !! 2) with (Some (showNat j)).
  rewrite !parseInt_showNat. unfold SolveSitting.n.
  case_bool_decide as Hz; case_bool_decide as Hn; try lia; [|done].
  by rewrite !Nat2Z.id.
Qed.

(** The cell that a stored variable changes, and the cells it leaves. *)
Lemma storeVar_cell (varMatrix : AdjacencyMatrix) (i j a b : nat) (value : Q) :
  length varMatrix = n → (∀ row, row ∈ varMatrix → length row = n) →
  a < n → b < n →
  cell (SolveSitting.storeVar pref varMatrix (SolveSitting.getVarName i j, value)) a b
  = if bool_decide (i = a ∧ j = b) then Some (Math_round value) else cell varMatrix a b.
Proof.
  intros Hlen Hrows Ha Hb. rewrite storeVar_getVarName. unfold cell, AdjacencyMatrix in *.
  destruct (lookup_lt_is_Some_2 varMatrix a) as [row Hrow]; [lia|].
  assert (Hrowlen : length row = n).
  { apply Hrows. by eapply list_elem_of_lookup_2. }
  case_bool_decide as Hin.
  - destruct (decide (i = a)) as [->|Hia].
    + rewrite list_lookup_alter_eq, Hrow. simpl.
      destruct (decide (j = b)) as [->|Hjb].
      * rewrite bool_decide_eq_true_2 by done.
        apply list_lookup_insert_eq. lia.
      * rewrite bool_decide_eq_false_2 by tauto.
        by rewrite list_lookup_insert_ne.
    + rewrite list_lookup_alter_ne by done.
      by rewrite bool_decide_eq_false_2 by tauto.
  - rewrite bool_decide_eq_false_2 by lia. done.
Qed.

Lemma foldl_storeVar_cell (pairs : list (nat * nat)) (value : nat → nat → Q) :
  ∀ (varMatrix : AdjacencyMatrix) (a b : nat),
  length varMatrix = n → (∀ row, row ∈ varMatrix → length row = n) →
  a < n → b < n →
  cell (foldl (SolveSitting.storeVar pref) varMatrix
          ((λ ij, (SolveSitting.getVarName ij.1 ij.2, value ij.1 ij.2)) <$> pairs)) a b
  = if bool_decide ((a, b) ∈ pairs) then Some (Math_round (value a b))
    else cell varMatrix a b.
Proof.
  induction pairs as [|[i j] pairs IH]; intros varMatrix a b Hlen Hrows Ha Hb.
  { by rewrite bool_decide_eq_false_2 by apply not_elem_of_nil. }
  rewrite fmap_cons. cbn [foldl]. rewrite IH; [|by rewrite storeVar_length|by apply storeVar_rows|done..].
  cbn [fst snd]. rewrite storeVar_cell by done.
  repeat case_bool_decide; try done;
    repeat match goal with
    | H : _ ∧ _ |- _ => destruct H as [-> ->]
    | H : _ ∉ _ :: _ |- _ => apply not_elem_of_cons in H as [? ?]
    | H : _ ∈ _ :: _ |- _ => apply elem_of_cons in H as [[= -> ->]|?]
    end; try done; tauto.
Qed.

End StoreVar.

Lemma matrix_eq (m1 m2 : AdjacencyMatrix) (k : nat) :
  length m1 = k → length m2 = k →
  (∀ row, row ∈ m1 → length row = k) → (∀ row, row ∈ m2 → length row = k) →
  (∀ a b, a < k → b < k → cell m1 a b = cell m2 a b) → m1 = m2.
Proof.
  intros Hl1 Hl2 Hr1 Hr2 Hcell. unfold AdjacencyMatrix in *.
  apply list_eq_same_length with k; [done..|].
  intros a r1 r2 Ha H1 H2.
  assert (length r1 = k) by (apply Hr1; by eapply list_elem_of_lookup_2).
  assert (length r2 = k) by (apply Hr2; by eapply list_elem_of_lookup_2).
  apply list_eq_same_length with k; [done..|].
  intros b x y Hb Hx Hy. specialize (Hcell a b Ha Hb). unfold cell, AdjacencyMatrix in Hcell.
  rewrite H1, H2 in Hcell. simpl in Hcell. congruence.
Qed.

Lemma bind_all_pairs_fmap {A} (g : nat → nat → A) (S T : list nat) :
  (S ≫= λ i, (λ j, g i j) <$> T)
  = (λ ij, g ij.1 ij.2) <$> (S ≫= λ i, (λ j, (i, j)) <$> T).
Proof.
  induction S as [|i S' IH]; [done|].
  rewrite !bind_cons, fmap_app. f_equal; [|apply IH].
  by rewrite <- list_fmap_compose.
Qed.

Lemma fullAssignment_pairs (m : AdjacencyMatrix) :
  fullAssignment m
  = (λ ij, (SolveSitting.getVarName ij.1 ij.2, inject_Z (default 0%Z (cell m ij.1 ij.2))))
      <$> (seq 0 (length m) ≫= λ i, (λ j, (i, j)) <$> seq 0 (length m)).
Proof.
  unfold fullAssignment.
  apply (bind_all_pairs_fmap
           (λ i j, (SolveSitting.getVarName i j, inject_Z (default 0%Z (cell m i j))))).
Qed.

Lemma elem_of_all_pairs (k a b : nat) :
  (a, b) ∈ (seq 0 k ≫= λ i, (λ j, (i, j)) <$> seq 0 k) ↔ a < k ∧ b < k.
Proof.
  rewrite list_elem_of_bind. split.
  - intros (i & (j & [= -> ->] & Hj%elem_of_seq)%list_elem_of_fmap & Hi%elem_of_seq). lia.
  - intros [Ha Hb]. exists a. split; [|apply elem_of_seq; lia].
    apply list_elem_of_fmap. exists b. split; [done|apply elem_of_seq; lia].
Qed.

(** * Facts about extractTablesFromMatrix *)

Section TablesFacts.
Variable m : AdjacencyMatrix.
Local Abbreviation n := (ExtractTablesFromMatrix.n m).
Local Abbreviation scanNeighbor := (ExtractTablesFromMatrix.scanNeighbor m).
Local Abbreviation bfs := (ExtractTablesFromMatrix.bfs m).

(** What the neighbour scan of [cur] does over the indices [l]: it appends
    to the queue, and marks, the unmarked neighbours of [cur] among [l]. *)
Lemma scan_spec (cur : nat) (l : list nat) :
  ∀ visited queue, NoDup l → (∀ x, x ∈ l → x < n) → length visited = n →
  ∃ visited' new,
    foldl (scanNeighbor cur) (visited, queue) l = (visited', queue ++ new)
    ∧ length visited' = n
    ∧ NoDup new
    ∧ (∀ x, x ∈ new ↔ x ∈ l ∧ edge m cur x ∧ isVisited visited x = false)
    ∧ (∀ x, isVisited visited' x = true ↔ isVisited visited x = true ∨ x ∈ new)
    ∧ unvisited visited' + length new = unvisited visited.
Proof.
  induction l as [|v l IH]; intros visited queue Hnd Hlt Hlen.
  { exists visited, []. simpl. rewrite app_nil_r. split_and!; try done.
    - intros x. split; [by intros ?%elem_of_nil|by intros [?%elem_of_nil _]].
    - intros x. split; [auto|]. by intros [?|?%elem_of_nil]. }
  apply list.NoDup_cons in Hnd as [Hv Hnd].
  assert (Hvn : v < n) by (apply Hlt, list_elem_of_here).
  assert (Hlt' : ∀ x, x ∈ l → x < n) by (intros x Hx; by apply Hlt, list_elem_of_further).
  cbn [foldl]. unfold ExtractTablesFromMatrix.scanNeighbor at 2.
  case_bool_decide as Hedge.
  - destruct (isVisited visited v) eqn:Hvis; cbn [negb].
    + destruct (IH visited queue Hnd Hlt' Hlen)
        as (visited' & new & Hfold & Hlen' & Hnew & Hin & Hvis' & Hcount).
      exists visited', new. split_and!; try done.
      intros x. rewrite Hin, elem_of_cons. split; [tauto|].
      intros [[->|Hx] [He Hf]]; [congruence|done].
    + destruct (IH (<[v := true]> visited) (queue ++ [v]) Hnd Hlt')
        as (visited' & new & Hfold & Hlen' & Hnew & Hin & Hvis' & Hcount).
      { by rewrite length_insert. }
      exists visited', (v :: new). rewrite Hfold, <- app_assoc. split_and!; try done.
      * apply NoDup_cons_2; [|done]. rewrite Hin. tauto.
      * intros x. rewrite !elem_of_cons, Hin.
        rewrite isVisited_insert by lia. destruct Hedge as [Hne Hone].
        split.
        -- intros [->|(Hx & He & Hf)].
           ++ split_and!; [by left| |done]. split_and!; [done| |done].
              unfold ExtractTablesFromMatrix.n in Hvn. lia.
           ++ apply orb_false_iff in Hf as [Hf _]. tauto.
        -- intros ([->|Hx] & He & Hf); [by left|]. right. split_and!; try done.
           apply orb_false_iff. split; [done|]. apply bool_decide_eq_false. by intros ->.
      * intros x. rewrite Hvis', elem_of_cons, isVisited_insert by lia.
        rewrite orb_true_iff, bool_decide_eq_true. tauto.
      * simpl. rewrite <- (unvisited_insert visited v); [lia|].
        apply isVisited_false_lookup; [lia|done].
  - destruct (IH visited queue Hnd Hlt' Hlen)
      as (visited' & new & Hfold & Hlen' & Hnew & Hin & Hvis' & Hcount).
    exists visited', new. split_and!; try done.
    intros x. rewrite Hin, elem_of_cons. split; [tauto|].
    intros [[->|Hx] [He Hf]]; [|done]. exfalso. apply Hedge.
    destruct He as (? & ? & ?). done.
Qed.

Lemma bfs_step (visited0 : list bool) (i cur : nat) (visited : list bool)
    (queue table : list nat) :
  bfsInv m visited0 i visited (cur :: queue) table →
  ∃ visited' new,
    foldl (scanNeighbor cur) (visited, queue) (seq 0 n) = (visited', queue ++ new)
    ∧ bfsInv m visited0 i visited' (queue ++ new) (table ++ [cur])
    ∧ unvisited visited' + length new = unvisited visited.
Proof.
  intros (Hlen & Hnd & Hvis & Hnew & Hclosed).
  destruct (scan_spec cur (seq 0 n) visited queue)
    as (visited' & new & Hfold & Hlen' & Hndnew & Hin & Hvis' & Hcount);
    [apply NoDup_seq|intros x ?%elem_of_seq; lia|done|].
  exists visited', new. split; [done|]. split; [|done].
  assert (Hcur : cur ∈ table ++ cur :: queue).
  { apply elem_of_app. right. apply list_elem_of_here. }
  assert (Hsame : ∀ x, x ∈ (table ++ [cur]) ++ queue ++ new
                       ↔ x ∈ table ++ cur :: queue ∨ x ∈ new).
  { intros x. rewrite !elem_of_app, !elem_of_cons, elem_of_nil. tauto. }
  split_and!.
  - done.
  - replace ((table ++ [cur]) ++ queue ++ new) with ((table ++ cur :: queue) ++ new)
      by (by rewrite <- !app_assoc).
    apply list.NoDup_app. split_and!; [done| |done].
    intros x Hx Hxnew. apply Hin in Hxnew as (_ & _ & Hf).
    assert (isVisited visited x = true) by (apply Hvis; by right). congruence.
  - intros x. rewrite Hvis', Hvis, Hsame. tauto.
  - intros x [Hx|Hx]%Hsame; [by apply Hnew|].
    apply Hin in Hx as (_ & Hedge & Hf). split_and!.
    + by destruct Hedge as (_ & ? & _).
    + destruct (isVisited visited0 x) eqn:H0; [|done].
      assert (isVisited visited x = true) by (apply Hvis; by left). congruence.
    + eapply rtc_r; [|exact Hedge]. by apply Hnew.
  - intros u v [Hu|Hu]%elem_of_app Hedge.
    + apply Hvis'. left. by eapply Hclosed.
    + apply list_elem_of_singleton in Hu as ->. apply Hvis'.
      destruct (isVisited visited v) eqn:Hv; [by left|right].
      apply Hin. split_and!; [|done..]. apply elem_of_seq.
      destruct Hedge as (_ & ? & _). unfold ExtractTablesFromMatrix.n. lia.
Qed.

Lemma bfs_spec (visited0 : list bool) (i : nat) (fuel : nat) :
  ∀ visited queue table visited' table',
  bfsInv m visited0 i visited queue table →
  bfs fuel visited queue table = Some (visited', table') →
  bfsInv m visited0 i visited' [] table'
  ∧ ∀ x, x ∈ table ++ queue → x ∈ table'.
Proof.
  induction fuel as [|fuel IH]; intros visited queue table visited' table' Hinv; [done|].
  simpl. destruct queue as [|cur queue].
  { intros [= <- <-]. split; [done|]. intros x. by rewrite app_nil_r. }
  destruct (bfs_step _ _ _ _ _ _ Hinv) as (visited1 & new & -> & Hinv1 & _).
  intros Hbfs. destruct (IH _ _ _ _ _ Hinv1 Hbfs) as [Hfinal Hsub]. split; [done|].
  intros x Hx. apply Hsub. revert Hx.
  rewrite !elem_of_app, !elem_of_cons, elem_of_nil. tauto.
Qed.

Lemma bfs_fuel (visited0 : list bool) (i : nat) (fuel : nat) :
  ∀ visited queue table,
  bfsInv m visited0 i visited queue table →
  length queue + unvisited visited < fuel →
  is_Some (bfs fuel visited queue table).
Proof.
  induction fuel as [|fuel IH]; intros visited queue table Hinv Hfuel; [lia|].
  simpl. destruct queue as [|cur queue]; [by eexists|].
  destruct (bfs_step _ _ _ _ _ _ Hinv) as (visited1 & new & -> & Hinv1 & Hcount).
  apply (IH _ _ _ Hinv1). rewrite length_app. simpl in Hfuel. lia.
Qed.

Lemma head_sorted (T : list nat) (i : nat) :
  StronglySorted le T → i ∈ T → (∀ x, x ∈ T → i ≤ x) → head T = Some i.
Proof.
  intros Hsorted Hi Hmin. destruct T as [|h T]; [by apply elem_of_nil in Hi|].
  simpl. f_equal. apply StronglySorted_inv in Hsorted as [_ Hall].
  assert (i ≤ h) by (apply Hmin, list_elem_of_here).
  apply elem_of_cons in Hi as [->|Hi]; [done|].
  rewrite Forall_forall in Hall. specialize (Hall i Hi). lia.
Qed.

Lemma bfsInv_init (visited : list bool) (i : nat) :
  length visited = length m → i < length m → isVisited visited i = false →
  bfsInv m visited i (<[i := true]> visited) [i] [].
Proof.
  intros Hlen Hi Hfresh. split_and!.
  - by rewrite length_insert.
  - apply NoDup_singleton.
  - intros x. rewrite isVisited_insert by lia.
    rewrite orb_true_iff, bool_decide_eq_true. simpl. by rewrite list_elem_of_singleton.
  - intros x ->%list_elem_of_singleton. done.
  - intros u v Hu. by apply elem_of_nil in Hu.
Qed.

Lemma visitTable_fuel (st : list bool * list (list nat)) (i : nat) :
  length st.1 = length m → i < length m →
  is_Some (ExtractTablesFromMatrix.visitTable m (S (length m)) st i).
Proof.
  destruct st as [visited tables]. cbn [fst]. intros Hlen Hi.
  unfold ExtractTablesFromMatrix.visitTable.
  destruct (isVisited visited i) eqn:Hvis; [by eexists|].
  destruct (bfs_fuel visited i (S (length m)) (<[i := true]> visited) [i] [])
    as [[visited' table'] Hbfs].
  { by apply bfsInv_init. }
  { pose proof (unvisited_insert visited i) as Hcount.
    pose proof (unvisited_le visited). simpl.
    rewrite <- Hcount in *; [lia|]. apply isVisited_false_lookup; [lia|done]. }
  rewrite Hbfs. cbn [mbind option_bind]. case_bool_decide; by eexists.
Qed.

Lemma visitTable_inv (fuel : nat) (st st' : list bool * list (list nat)) (i : nat) :
  i < length m → tablesInv m i st →
  ExtractTablesFromMatrix.visitTable m fuel st i = Some st' →
  tablesInv m (S i) st'.
Proof.
  destruct st as [visited tables]. intros Hi (Hlen & Hnd & Hvis & Hbelow & Htab & Hord & Hclosed).
  cbn [fst snd] in *. unfold ExtractTablesFromMatrix.visitTable.
  destruct (isVisited visited i) eqn:Hfresh.
  { intros [= <-]. unfold tablesInv. cbn [fst snd]. split_and!; try done.
    - intros x Hx Hxn. destruct (decide (x = i)) as [->|]; [done|]. apply Hbelow; lia.
    - intros T HT. destruct (Htab T HT) as (h & ? & ?). exists h. split; [lia|done]. }
  destruct (bfs _ _ _ _) as [[visited' table']|] eqn:Hbfs; [|done]. cbn [mbind option_bind].
  apply bfs_spec with (visited0 := visited) (i := i) in Hbfs as [Hfinal Hsub];
    [|by apply bfsInv_init].
  destruct Hfinal as (Hlen' & Hnd' & Hvis' & Hnew & Hcl').
  rewrite app_nil_r in *.
  assert (Hin : i ∈ table') by (apply Hsub; simpl; apply list_elem_of_here).
  rewrite bool_decide_eq_true_2 by (destruct table'; [by apply elem_of_nil in Hin|simpl; lia]).
  intros [= <-]. unfold tablesInv. cbn [fst snd].
  pose proof (merge_sort_Permutation le table') as Hperm.
  assert (Hsorted : StronglySorted le (merge_sort le table')).
  { apply StronglySorted_merge_sort; apply _. }
  assert (Hmem : ∀ x, x ∈ merge_sort le table' ↔ x ∈ table').
  { intros x. by rewrite Hperm. }
  assert (Hhead : head (merge_sort le table') = Some i).
  { apply head_sorted; [done|by apply Hmem|].
    intros x Hx%Hmem. destruct (Hnew x Hx) as (Hxn & Hx0 & _).
    destruct (decide (i ≤ x)); [done|]. rewrite Hbelow in Hx0; [done|lia|done]. }
  assert (Hjoin : mjoin (tables ++ [merge_sort le table']) ≡ₚ mjoin tables ++ table').
  { rewrite join_app. simpl. by rewrite app_nil_r, Hperm. }
  split_and!.
  - done.
  - rewrite Hjoin. apply list.NoDup_app. split_and!; [done| |done].
    intros x Hx Hx'. apply Hvis in Hx. destruct (Hnew x Hx') as (_ & ? & _). congruence.
  - intros x. rewrite Hjoin, elem_of_app, Hvis', Hvis. done.
  - intros x Hx Hxn. apply Hvis'. destruct (decide (x = i)) as [->|]; [by right|].
    left. apply Hbelow; lia.
  - intros T [HT|HT%list_elem_of_singleton]%elem_of_app.
    + destruct (Htab T HT) as (h & ? & ?). exists h. split; [lia|done].
    + subst T. exists i. split_and!; [lia|done..|]. intros x Hx%Hmem.
      destruct (Hnew x Hx) as (? & _ & ?). done.
  - intros k1 k2 T1 T2 i1 i2 Hk H1 H2 Hh1 Hh2.
    apply lookup_app_Some in H2 as [H2|[Hk2 H2]].
    + rewrite lookup_app_l in H1 by (apply lookup_lt_Some in H2; lia). eauto.
    + apply list_lookup_singleton_Some in H2 as [Hz <-].
      rewrite lookup_app_l in H1 by lia.
      destruct (Htab T1) as (h & Hh & Hhd & _); [by eapply list_elem_of_lookup_2|].
      rewrite Hhead in Hh2. simplify_eq. done.
  - intros k T u v HT Hu Hedge.
    apply lookup_app_Some in HT as [HT|[Hk HT]].
    + destruct (Hclosed k T u v HT Hu Hedge) as (k' & T' & Hk' & HT' & Hv).
      exists k', T'. split_and!; [done| |done]. by apply lookup_app_l_Some.
    + apply list_lookup_singleton_Some in HT as [Hz <-].
      apply Hmem in Hu. pose proof (Hcl' u v Hu Hedge) as Hv.
      apply Hvis' in Hv as [Hv|Hv].
      * apply Hvis in Hv. apply list_elem_of_join in Hv as (T' & Hv & HT').
        apply list_elem_of_lookup_1 in HT' as (k' & HT').
        exists k', T'. split_and!; [|by apply lookup_app_l_Some|done].
        apply lookup_lt_Some in HT'. lia.
      * exists k, (merge_sort le table'). split_and!; [done| |by apply Hmem].
        rewrite lookup_app_r by lia. replace (k - length tables) with 0 by lia. done.
Qed.

Lemma visitTables_inv (k : nat) :
  ∀ a st, a + k = length m → tablesInv m a st →
  ∃ st', ExtractTablesFromMatrix.visitTables m (S (length m)) st (seq a k) = Some st'
         ∧ tablesInv m (a + k) st'.
Proof.
  induction k as [|k IH]; intros a st Hak Hinv.
  { exists st. rewrite Nat.add_0_r. done. }
  cbn [seq ExtractTablesFromMatrix.visitTables].
  destruct (visitTable_fuel st a) as [st1 Hst1]; [by destruct Hinv|lia|].
  rewrite Hst1. cbn [mbind option_bind].
  apply visitTable_inv in Hst1 as Hinv1; [|lia|done].
  destruct (IH (S a) st1) as (st' & Hst' & Hinv'); [lia|done|].
  exists st'. split; [done|]. by replace (a + S k) with (S a + k) by lia.
Qed.

Lemma tablesInv_init : tablesInv m 0 (replicate (length m) false, []).
Proof.
  split_and!; cbn [fst snd].
  - apply length_replicate.
  - apply NoDup_nil_2.
  - intros x. rewrite isVisited_replicate. split; [done|]. by intros ?%elem_of_nil.
  - intros x Hx. lia.
  - intros T HT. by apply elem_of_nil in HT.
  - intros k1 k2 T1 T2 i1 i2 _ H1. done.
  - intros k T u v HT. done.
Qed.

(** The loops end within the bound, and what the function returns. *)
Lemma extractTablesFromMatrix_fuel :
  ExtractTablesFromMatrix.extractTablesFromMatrixFuel m (S (length m))
  = Some (extractTablesFromMatrix m).
Proof.
  unfold extractTablesFromMatrix, ExtractTablesFromMatrix.extractTablesFromMatrixFuel.
  case_bool_decide; [done|]. case_bool_decide; [done|].
  destruct (visitTables_inv (length m) 0 _ eq_refl tablesInv_init) as (st' & Hst' & _).
  unfold ExtractTablesFromMatrix.n. by rewrite Hst'.
Qed.

Lemma extractTablesFromMatrix_Normal (tables : list (list nat)) :
  extractTablesFromMatrix m = Normal tables →
  ∃ visited, tablesInv m (length m) (visited, tables).
Proof.
  unfold extractTablesFromMatrix, ExtractTablesFromMatrix.extractTablesFromMatrixFuel.
  unfold ExtractTablesFromMatrix.n.
  case_bool_decide as Hn.
  { intros [= <-]. exists []. pose proof tablesInv_init as Hinit.
    rewrite Hn in *. exact Hinit. }
  case_bool_decide; [done|].
  destruct (visitTables_inv (length m) 0 _ eq_refl tablesInv_init)
    as ([visited tables'] & Hst' & Hinv).
  rewrite Hst'. simpl. intros [= <-]. by exists visited.
Qed.

Lemma extractTablesFromMatrix_Abrupt (e : ExtractError) :
  extractTablesFromMatrix m = Abrupt e ↔
  e = InvalidDimensions (length m) ∧ 0 < length m ∧ length <$> m !! 0 ≠ Some (length m).
Proof.
  unfold extractTablesFromMatrix, ExtractTablesFromMatrix.extractTablesFromMatrixFuel.
  unfold ExtractTablesFromMatrix.n.
  case_bool_decide as Hn; [split; [done|lia]|].
  case_bool_decide as Hrow.
  { simpl. split; [intros [= <-]; split_and!; [done|lia|done]|by intros [-> _]]. }
  destruct (visitTables_inv (length m) 0 _ eq_refl tablesInv_init) as (st' & Hst' & _).
  rewrite Hst'. simpl. split; [done|tauto].
Qed.

End TablesFacts.

Lemma join_unique {A} (tables : list (list A)) (k1 k2 : nat) (T1 T2 : list A) (u : A) :
  NoDup (mjoin tables) → tables !! k1 = Some T1 → tables !! k2 = Some T2 →
  u ∈ T1 → u ∈ T2 → k1 = k2.
Proof.
  revert k1 k2. induction tables as [|T tables IH]; intros k1 k2 Hnd H1 H2 Hu1 Hu2; [done|].
  simpl in Hnd. apply list.NoDup_app in Hnd as (_ & Hdisj & Hnd).
  assert (Hrest : ∀ k T', tables !! k = Some T' → u ∈ T' → u ∈ mjoin tables).
  { intros k T' HT' Hu. apply list_elem_of_join. exists T'. split; [done|].
    by eapply list_elem_of_lookup_2. }
  destruct k1 as [|k1], k2 as [|k2]; simpl in *; simplify_eq.
  - done.
  - exfalso. eapply Hdisj; [exact Hu1|]. by eapply Hrest.
  - exfalso. eapply Hdisj; [exact Hu2|]. by eapply Hrest.
  - f_equal. by eapply IH.
Qed.

Lemma StronglySorted_le_lt (T : list nat) :
  StronglySorted le T → NoDup T → StronglySorted lt T.
Proof.
  induction 1 as [|x T Hsorted IH Hall]; intros Hnd; [constructor|].
  apply list.NoDup_cons in Hnd as [Hx Hnd]. constructor; [by apply IH|].
  rewrite Forall_forall in *. intros y Hy. specialize (Hall y Hy).
  destruct (decide (x = y)) as [->|]; [done|lia].
Qed.

Lemma NoDup_join_elem {A} (tables : list (list A)) (T : list A) :
  NoDup (mjoin tables) → T ∈ tables → NoDup T.
Proof.
  induction tables as [|T' tables IH]; [by intros _ ?%elem_of_nil|].
  simpl. intros (? & _ & ?)%list.NoDup_app [->|?]%elem_of_cons; [done|by apply IH].
Qed.

Lemma isOne_lt (m : AdjacencyMatrix) (x y : nat) : isOne m x y → x < length m.
Proof.
  unfold isOne, cell. intros Hone. unfold AdjacencyMatrix in *.
  destruct (m !! x) eqn:Hx; [|done]. by apply lookup_lt_Some in Hx.
Qed.

Lemma rtc_edge_lt (m : AdjacencyMatrix) (x y : nat) :
  x < length m → rtc (edge m) x y → y < length m.
Proof. intros Hx Hrtc. induction Hrtc as [|x y z (_ & Hy & _) _ IH]; [done|by apply IH]. Qed.

Lemma rtc_edge_sym (m : AdjacencyMatrix) (x y : nat) :
  symmetricEdges m → rtc (edge m) x y → rtc (edge m) y x.
Proof.
  intros Hsym Hrtc. induction Hrtc as [|x y z Hxy _ IH]; [done|].
  eapply rtc_r; [exact IH|by apply Hsym].
Qed.

Lemma StronglySorted_seq (a k : nat) : StronglySorted le (seq a k).
Proof.
  revert a. induction k as [|k IH]; intros a; simpl; constructor; [apply IH|].
  apply Forall_forall. intros x Hx%elem_of_seq. lia.
Qed.

Section TablesResults.
Variable m : AdjacencyMatrix.
Variable tables : list (list nat).
Hypothesis Hresult : extractTablesFromMatrix m = Normal tables.

Lemma tables_Permutation : mjoin tables ≡ₚ seq 0 (length m).
Proof.
  destruct (extractTablesFromMatrix_Normal m tables Hresult)
    as (visited & Hlen & Hnd & Hvis & Hbelow & Htab & _).
  cbn [fst snd] in *. apply NoDup_Permutation; [done|apply NoDup_seq|].
  intros x. rewrite elem_of_seq. split.
  - intros (T & Hx & HT)%list_elem_of_join.
    destruct (Htab T HT) as (i & _ & _ & _ & Hmem). destruct (Hmem x Hx). lia.
  - intros [_ Hx]. apply Hvis, Hbelow; lia.
Qed.

(** The table of node 0 is the first one, and it holds every node that can
    be reached from node 0. *)
Lemma tables_first (x : nat) :
  0 < length m → rtc (edge m) 0 x → ∃ T, tables !! 0 = Some T ∧ 0 ∈ T ∧ x ∈ T.
Proof.
  intros Hn Hreach.
  destruct (extractTablesFromMatrix_Normal m tables Hresult)
    as (visited & Hlen & Hnd & Hvis & Hbelow & Htab & Hord & Hclosed).
  cbn [fst snd] in *.
  assert (H0 : 0 ∈ mjoin tables) by (apply Hvis, Hbelow; lia).
  apply list_elem_of_join in H0 as (T & H0 & HT).
  apply list_elem_of_lookup_1 in HT as (k & HT).
  assert (Hk : k = 0).
  { destruct (decide (k = 0)) as [|Hne]; [done|exfalso].
    destruct (lookup_lt_is_Some_2 tables 0) as [T0 HT0];
      [apply lookup_lt_Some in HT; lia|].
    destruct (Htab T0) as (i0 & _ & Hi0 & _); [by eapply list_elem_of_lookup_2|].
    destruct (Htab T) as (i & _ & Hi & Hsorted & _); [by eapply list_elem_of_lookup_2|].
    assert (i = 0).
    { destruct T as [|h T]; [done|]. simpl in Hi. simplify_eq.
      apply elem_of_cons in H0 as [->|H0]; [done|].
      apply StronglySorted_inv in Hsorted as [_ Hall].
      rewrite Forall_forall in Hall. specialize (Hall 0 H0). lia. }
    subst i. specialize (Hord 0 k T0 T i0 0 ltac:(lia) HT0 HT Hi0 Hi). lia. }
  subst k. exists T. split; [done|]. split; [done|].
  revert x Hreach. apply (rtc_ind_r (λ x, x ∈ T)); [done|].
  intros y z Hreach Hyz IH.
  destruct (Hclosed 0 T y z HT IH Hyz) as (k' & T' & Hk' & HT' & Hz).
  replace k' with 0 in HT' by lia. by simplify_eq.
Qed.

End TablesResults.

Lemma tables_one (m : AdjacencyMatrix) :
  0 < length m → length <$> m !! 0 = Some (length m) →
  (extractTablesFromMatrix m = Normal [seq 0 (length m)]
   ↔ ∀ x, x < length m → rtc (edge m) 0 x).
Proof.
  intros Hn Hrow. split.
  - intros Hres x Hx.
    destruct (extractTablesFromMatrix_Normal m _ Hres)
      as (visited & _ & _ & _ & _ & Htab & _).
    cbn [fst snd] in *. destruct (Htab (seq 0 (length m))) as (i & _ & Hi & _ & Hmem).
    { apply list_elem_of_here. }
    destruct (length m) as [|k] eqn:Hk; [lia|]. simpl in Hi. simplify_eq.
    apply Hmem. apply (elem_of_seq 0 (S k)). lia.
  - intros Hreach.
    destruct (extractTablesFromMatrix m) as [tables|e] eqn:Hres.
    2:{ apply extractTablesFromMatrix_Abrupt in Hres as (_ & _ & ?). done. }
    f_equal. pose proof (tables_Permutation m tables Hres) as Hperm.
    destruct (extractTablesFromMatrix_Normal m tables Hres)
      as (visited & Hlen & Hnd & Hvis & Hbelow & Htab & Hord & Hclosed).
    cbn [fst snd] in *.
    destruct (tables_first m tables Hres 0 Hn) as (T & HT & _); [done|].
    assert (Hall : ∀ x, x < length m → x ∈ T).
    { intros x Hx. destruct (tables_first m tables Hres x Hn (Hreach x Hx))
        as (T' & HT' & _ & HxT'). by simplify_eq. }
    destruct tables as [|T0 rest]; [done|]. simpl in HT. simplify_eq.
    destruct rest as [|T1 rest].
    + simpl in Hperm. rewrite app_nil_r in Hperm. f_equal.
      destruct (Htab T) as (i & _ & _ & Hsorted & _); [apply list_elem_of_here|].
      apply (StronglySorted_unique le); [done| |done].
      apply StronglySorted_seq.
    + exfalso. destruct (Htab T1) as (i & _ & Hi & _ & Hmem).
      { apply list_elem_of_further, list_elem_of_here. }
      destruct T1 as [|h T1]; [done|]. simpl in Hi. simplify_eq.
      destruct (Hmem i) as [Hlt _]; [apply list_elem_of_here|].
      simpl in Hnd. apply list.NoDup_app in Hnd as (_ & Hdisj & _).
      apply (Hdisj i); [by apply Hall|]. apply list_elem_of_here.
Qed.

(** Every node of a seating sequence can be reached from node 0. *)
Lemma seatingSequence_reach (m : AdjacencyMatrix) (path : list nat) :
  seatingSequence m path → path ≡ₚ seq 0 (length m) ∧ ∀ x, x < length m → rtc (edge m) 0 x.
Proof.
  intros (Hlen & Hnd & Hhead & Hmem & Hadj).
  assert (Hperm : path ≡ₚ seq 0 (length m)).
  { apply submseteq_length_Permutation; [|by rewrite length_seq, Hlen].
    apply NoDup_submseteq; [done|]. intros x Hx%Hmem. apply elem_of_seq. lia. }
  split; [done|].
  assert (Hk : ∀ k x, path !! k = Some x → rtc (edge m) 0 x).
  { induction k as [|k IH]; intros x Hx; [by simplify_eq|].
    destruct (lookup_lt_is_Some_2 path k) as [y Hy]; [apply lookup_lt_Some in Hx; lia|].
    eapply rtc_r; [by apply IH|]. split_and!.
    - intros ->. pose proof (NoDup_lookup path k (S k) x Hnd Hy Hx). lia.
    - apply Hmem. by eapply list_elem_of_lookup_2.
    - apply (Hadj k); [done|]. replace (k + 1) with (S k) by lia.
      pose proof (lookup_lt_Some _ _ _ Hx). rewrite Nat.mod_small by lia. done. }
  intros x Hx. assert (Hin : x ∈ path) by (rewrite Hperm; apply elem_of_seq; lia).
  apply list_elem_of_lookup_1 in Hin as (k & Hin). by eapply Hk.
Qed.

(** * Facts about the errors of solveSitting *)

Section RunFacts2.
Variable glpk : GLPKInstance.
Variable pref : PreferenceMatrix.
Local Abbreviation n := (SolveSitting.n pref).
Local Abbreviation MAX_SUBTOUR_ITERATIONS := (SolveSitting.MAX_SUBTOUR_ITERATIONS pref).
Local Abbreviation iteration := (SolveSitting.iteration glpk pref).
Local Abbreviation iterations := (SolveSitting.iterations glpk pref).
Local Abbreviation lpProblemForIter := (SolveSitting.lpProblemForIter glpk pref).

(** A run that throws has thrown in one of its passes, or after the last
    one. *)
Lemma iterations_Abrupt remaining :
  ∀ iter constraints e,
  outcome (iterations remaining iter constraints) = Abrupt e →
  e = BudgetExhausted MAX_SUBTOUR_ITERATIONS
  ∨ ∃ j constraints', j < remaining
      ∧ advance glpk pref j iter constraints = Some constraints'
      ∧ iteration (iter + j) constraints' = Throw e.
Proof.
  induction remaining as [|r IH]; intros iter constraints e.
  { simpl. intros [= <-]. by left. }
  rewrite iterations_step.
  destruct (iteration iter constraints) as [m|e'|c] eqn:Hit; simpl; [done| |].
  - intros [= ->]. right. exists 0, constraints. rewrite Nat.add_0_r.
    split_and!; [lia|done..].
  - intros [->|(j & c' & Hj & Hadv & Hthrow)]%IH; [by left|right].
    exists (S j), c'. split_and!; [lia| |].
    + simpl. by rewrite Hit.
    + by replace (iter + S j) with (S iter + j) by lia.
Qed.

(** The cases in which a pass throws. *)
Lemma iteration_Throw iter constraints e :
  iteration iter constraints = Throw e →
  match e with
  | SolverThrew k msg =>
    k = iter + 1
    ∧ solve glpk iter (lpProblemForIter constraints) (SolveSitting.solverOptions glpk)
      = Rejected msg
  | NoSingleCycle k text =>
    k = iter + 1 ∧ 0 < iter
    ∧ ∃ result,
        solve glpk iter (lpProblemForIter constraints) (SolveSitting.solverOptions glpk)
        = Resolved result
        ∧ text = SolveSitting.statusText glpk (status result)
        ∧ (status result = GLP_INFEAS glpk ∨ status result = GLP_NOFEAS glpk)
        ∧ status result ≠ GLP_OPT glpk ∧ status result ≠ GLP_FEAS glpk
  | SolverFailed text s =>
    ∃ result,
      solve glpk iter (lpProblemForIter constraints) (SolveSitting.solverOptions glpk)
      = Resolved result
      ∧ s = status result ∧ text = SolveSitting.statusText glpk s
      ∧ s ≠ GLP_OPT glpk ∧ s ≠ GLP_FEAS glpk
      ∧ (iter = 0 ∨ (s ≠ GLP_INFEAS glpk ∧ s ≠ GLP_NOFEAS glpk))
  | NoCycles k =>
    k = n
    ∧ ∃ result,
        solve glpk iter (lpProblemForIter constraints) (SolveSitting.solverOptions glpk)
        = Resolved result
        ∧ (status result = GLP_OPT glpk ∨ status result = GLP_FEAS glpk)
        ∧ findSubtours (SolveSitting.resultMatrix pref result) = []
  | WrongCycleLength found k =>
    k = n ∧ found ≠ n
    ∧ ∃ result cycle,
        solve glpk iter (lpProblemForIter constraints) (SolveSitting.solverOptions glpk)
        = Resolved result
        ∧ (status result = GLP_OPT glpk ∨ status result = GLP_FEAS glpk)
        ∧ findSubtours (SolveSitting.resultMatrix pref result) = [cycle]
        ∧ length cycle = found
  | InvalidMatrix _ _ | NoProgress | BudgetExhausted _ => False
  end.
Proof.
  unfold SolveSitting.iteration.
  destruct (solve glpk _ _ _) as [result|msg] eqn:Hsolve.
  2:{ intros [= <-]. done. }
  case_bool_decide as Hst.
  { case_bool_decide as Hlater; intros [= <-].
    - split_and!; [done|tauto|]. exists result. split_and!; try done; tauto.
    - exists result. split_and!; try done; try tauto.
      destruct (decide (iter = 0)); [by left|right].
      split; intros ?; apply Hlater; (split; [lia|tauto]). }
  assert (Hok : status result = GLP_OPT glpk ∨ status result = GLP_FEAS glpk).
  { destruct (decide (status result = GLP_OPT glpk)); [by left|].
    destruct (decide (status result = GLP_FEAS glpk)); [by right|]. tauto. }
  rewrite verifyRows_Normal.
  case_bool_decide as Hone; [done|].
  case_bool_decide as Hmany.
  { case_bool_decide as Hnone; [|done]. exfalso.
    destruct Hnone as [Hnone _]. unfold SolveSitting.newConstraints in Hnone.
    rewrite length_fmap in Hnone.
    destruct (findSubtours (SolveSitting.resultMatrix pref result)) as [|S l] eqn:Hsub;
      [simpl in Hmany; lia|].
    destruct (findSubtours_proper (SolveSitting.resultMatrix pref result) S) as [Hpos Hlt].
    { by rewrite Hsub. }
    { rewrite Hsub. apply list_elem_of_here. }
    rewrite resultMatrix_length in Hlt.
    rewrite filter_cons, decide_True in Hnone by done. simpl in Hnone. lia. }
  case_bool_decide as Hzero.
  { intros [= <-]. split; [done|]. exists result. split_and!; [done..|].
    destruct Hzero as [Hzero _]. by apply nil_length_inv. }
  case_bool_decide as Hwrong; [|done].
  intros [= <-]. destruct Hwrong as [Hlen Hwrong].
  destruct (findSubtours (SolveSitting.resultMatrix pref result)) as [|cycle [|? ?]] eqn:Hsub;
    try done. simpl in *. split_and!; [done| |].
  - intros Heq. apply Hwrong. by rewrite Heq.
  - by exists result, cycle.
Qed.

End RunFacts2.

Section RunFacts3.
Variable glpk : GLPKInstance.
Variable pref : PreferenceMatrix.
Local Abbreviation n := (SolveSitting.n pref).
Local Abbreviation lpProblemForIter := (SolveSitting.lpProblemForIter glpk pref).

Lemma solveSitting_Abrupt e :
  outcome (solveSitting glpk pref) = Abrupt e →
  3 ≤ n
  ∧ (e = BudgetExhausted (SolveSitting.MAX_SUBTOUR_ITERATIONS pref)
     ∨ ∃ k constraints, k < SolveSitting.MAX_SUBTOUR_ITERATIONS pref
         ∧ advance glpk pref k 0 [] = Some constraints
         ∧ SolveSitting.iteration glpk pref k constraints = Throw e).
Proof.
  unfold solveSitting, SolveSitting.solveSitting.
  repeat case_bool_decide; try done. intros Hout.
  split; [unfold SolveSitting.n in *; lia|].
  by apply iterations_Abrupt in Hout.
Qed.

(** From one call of the solver to the next the model gains constraints and
    keeps everything else. *)
Lemma iterations_calls_grow remaining :
  ∀ iter constraints k P Q,
  0 < n →
  calls (SolveSitting.iterations glpk pref remaining iter constraints) !! k = Some P →
  calls (SolveSitting.iterations glpk pref remaining iter constraints) !! S k = Some Q →
  ∃ added, added ≠ []
    ∧ subjectTo Q = subjectTo P ++ added
    ∧ problem_name Q = problem_name P
    ∧ objective Q = objective P
    ∧ binaries Q = binaries P.
Proof.
  induction remaining as [|r IH]; intros iter constraints k P Q Hn; [done|].
  rewrite iterations_step.
  destruct (SolveSitting.iteration glpk pref iter constraints) as [m|e|c] eqn:Hit;
    simpl; [by destruct k..|].
  destruct k as [|k]; simpl; [|by apply IH].
  intros [= <-] HQ.
  apply iteration_Continue in Hit as (added & Hne & ->); [|done].
  destruct r as [|r]; [done|].
  destruct (iterations_first_call glpk pref r (S iter) (constraints ++ added))
    as [rest Hrest].
  rewrite Hrest in HQ. simpl in HQ. injection HQ as <-.
  exists added. split; [done|]. simpl. by rewrite app_assoc.
Qed.

End RunFacts3.

(** * Facts about findSubtours on matrices that pass the checks *)

Lemma entry_isOne (m : AdjacencyMatrix) (i j : nat) :
  SolveSitting.entry m i j = 1%Z ↔ isOne m i j.
Proof.
  unfold SolveSitting.entry, isOne. destruct (cell m i j) as [v|]; simpl; [|done].
  split; [by intros ->|by intros [= ->]].
Qed.

Lemma sum_indicator (f : nat → Z) (L : list nat) :
  (∀ j, j ∈ L → f j = 0%Z ∨ f j = 1%Z) →
  foldr Z.add 0%Z (f <$> L) = Z.of_nat (length (filter (λ j, f j = 1%Z) L)).
Proof.
  induction L as [|j L IH]; intros Hbin; [done|].
  rewrite fmap_cons, filter_cons. cbn [foldr].
  rewrite IH by (intros j' Hj'; by apply Hbin, list_elem_of_further).
  destruct (Hbin j (list_elem_of_here _ _)) as [Hj|Hj]; rewrite Hj.
  - by rewrite decide_False by done.
  - rewrite decide_True by done. simpl length. lia.
Qed.

Section ValidMatrix.
Variable m : AdjacencyMatrix.
Hypothesis m_valid : assertionsHold m.

Lemma valid_loop_free x : ¬ isOne m x x.
Proof.
  destruct m_valid as (_ & _ & Hdiag & _). intros Hone.
  pose proof (isOne_lt _ _ _ Hone) as Hx. apply entry_isOne in Hone.
  rewrite Hdiag in Hone by done. done.
Qed.

Lemma valid_symmetric : symmetricEdges m.
Proof.
  destruct m_valid as (_ & Hsym & _). intros x y (Hne & Hy & Hone).
  pose proof (isOne_lt _ _ _ Hone) as Hx. split_and!; [done..|].
  apply entry_isOne. rewrite <- Hsym by done. by apply entry_isOne.
Qed.

Lemma valid_degree x :
  x < length m → length (ExtractTableCycle.neighborsOf m x) = 2.
Proof.
  intros Hx. destruct m_valid as (Hbin & _ & _ & Hdeg).
  specialize (Hdeg x Hx). unfold rowSum in Hdeg.
  rewrite sum_indicator in Hdeg.
  2:{ intros j [_ Hj%elem_of_seq]%list_elem_of_filter. apply Hbin; lia. }
  rewrite list_filter_filter in Hdeg.
  unfold ExtractTableCycle.neighborsOf, ExtractTableCycle.n.
  rewrite (list_filter_iff _ (λ j, SolveSitting.entry m x j = 1%Z ∧ x ≠ j)); [lia|].
  intros j. rewrite entry_isOne. split; [|tauto].
  intros Hone. split; [done|]. intros ->. by apply valid_loop_free in Hone.
Qed.

Lemma valid_size : length m = 0 ∨ 3 ≤ length m.
Proof.
  destruct (decide (length m = 0)) as [|Hne]; [by left|right].
  pose proof (valid_degree 0 ltac:(lia)) as Hdeg.
  assert (Hsub : ExtractTableCycle.neighborsOf m 0 ⊆+ seq 1 (length m - 1)).
  { apply NoDup_submseteq; [apply NoDup_neighborsOf|].
    intros y [Hone Hy]%elem_of_neighborsOf. apply elem_of_seq.
    unfold ExtractTableCycle.n in Hy.
    destruct (decide (y = 0)) as [->|]; [by apply valid_loop_free in Hone|lia]. }
  apply submseteq_length in Hsub. rewrite length_seq in Hsub. lia.
Qed.

End ValidMatrix.

Section ValidTrace.
Variable m : AdjacencyMatrix.
Hypothesis m_size : 3 ≤ length m.
Hypothesis m_degree : ∀ x, x < length m → length (ExtractTableCycle.neighborsOf m x) = 2.
Hypothesis m_symmetric : symmetricEdges m.
Hypothesis m_loop_free : ∀ x, ¬ isOne m x x.
Local Abbreviation n := (FindSubtours.n m).
Local Abbreviation neighborsOf := (ExtractTableCycle.neighborsOf m).

Lemma edge_neighborsOf x y : edge m x y ↔ y ∈ neighborsOf x.
Proof.
  rewrite elem_of_neighborsOf. unfold edge, ExtractTableCycle.n. split.
  - tauto.
  - intros [Hone Hy]. split_and!; [|done..]. intros ->. by apply m_loop_free in Hone.
Qed.

Lemma edge_lt_l x y : edge m x y → x < length m.
Proof. intros (_ & _ & Hone). by eapply isOne_lt. Qed.

Lemma nextOf_edge x prev : x < length m → edge m x (nextOf m x prev).
Proof. intros Hx. apply edge_neighborsOf, nextOf_neighbor. by apply m_degree. Qed.

(** The walk does not turn back. *)
Lemma nextOf_other x p : edge m p x → nextOf m x (Some p) ≠ p.
Proof.
  intros Hpx. pose proof (m_symmetric _ _ Hpx) as Hxp.
  pose proof (edge_lt_l _ _ Hxp) as Hx. apply edge_neighborsOf in Hxp.
  pose proof (m_degree x Hx) as Hdeg. pose proof (NoDup_neighborsOf m x) as Hnd.
  unfold nextOf. destruct (neighborsOf x) as [|u [|v [|? ?]]]; try done. simpl.
  apply list.NoDup_cons in Hnd as [Huv _]. apply not_elem_of_cons in Huv as [Huv _].
  case_bool_decide as Hu; simplify_eq; simpl; [done|].
  intros ->. done.
Qed.

(** A node has no neighbour besides two different ones. *)
Lemma two_neighbors x a b y :
  a ≠ b → edge m x a → edge m x b → edge m x y → y = a ∨ y = b.
Proof.
  intros Hab Ha Hb Hy. pose proof (edge_lt_l _ _ Ha) as Hx.
  apply edge_neighborsOf in Ha, Hb, Hy.
  pose proof (m_degree x Hx) as Hdeg. pose proof (NoDup_neighborsOf m x) as Hnd.
  destruct (neighborsOf x) as [|u [|v [|? ?]]]; try done.
  apply elem_of_cons in Ha as [->|Ha%list_elem_of_singleton];
    apply elem_of_cons in Hb as [->|Hb%list_elem_of_singleton];
    apply elem_of_cons in Hy as [->|Hy%list_elem_of_singleton]; subst; auto; done.
Qed.

Lemma getNeighbors_valid x : x < length m → FindSubtours.getNeighbors m x = neighborsOf x.
Proof.
  intros Hx. apply getNeighbors_neighborsOf; [done|].
  unfold FindSubtours.getNeighbors. change (FindSubtours.n m) with (ExtractTableCycle.n m).
  fold (neighborsOf x). unfold ExtractTableCycle.n.
  rewrite bool_decide_eq_true_2 by done.
  rewrite bool_decide_eq_true_2 by (left; by apply m_degree). by apply m_degree.
Qed.

Lemma chooseNext_valid x prev :
  x < length m →
  FindSubtours.chooseNext m (FindSubtours.getNeighbors m x) prev
  = FindSubtours.Next (nextOf m x prev).
Proof.
  intros Hx. rewrite getNeighbors_valid by done.
  unfold FindSubtours.chooseNext, nextOf, FindSubtours.n.
  rewrite bool_decide_eq_false_2 by lia. rewrite bool_decide_eq_false_2 by lia.
  by rewrite bool_decide_eq_true_2 by (by apply m_degree).
Qed.

(** Under these conditions no trace is dropped: started from flags that are
    closed under adjacency, the inner loop of [findSubtours] ends with a
    cycle. *)
Lemma traceCycle_valid (visited0 : list bool) (i : nat) (fuel : nat) :
  (∀ x y, isVisited visited0 x = true → edge m x y → isVisited visited0 y = true) →
  ∀ visited cycle cur prev visited' cycle',
  FindSubtours.traceCycle m fuel i visited cycle cur prev = Some (visited', cycle') →
  length visited = length m → cur < length m → isVisited visited cur = false →
  (∀ x, isVisited visited x = true ↔ isVisited visited0 x = true ∨ x ∈ cycle) →
  NoDup cycle →
  head (cycle ++ [cur]) = Some i →
  prev = last cycle →
  (∀ k x y, (cycle ++ [cur]) !! k = Some x → (cycle ++ [cur]) !! S k = Some y →
     edge m x y) →
  cycle' ≠ [].
Proof.
  intros Hclosed. induction fuel as [|fuel IH];
    intros visited cycle cur prev visited' cycle' Htrace Hlen Hcur Hfresh Hvis Hnd
      Hhead Hprev Hadj; [done|].
  cbn [FindSubtours.traceCycle] in Htrace. rewrite Hfresh in Htrace.
  rewrite chooseNext_valid in Htrace by done.
  pose proof (nextOf_edge cur prev Hcur) as Hnext.
  remember (nextOf m cur prev) as next eqn:Hnextdef.
  assert (Hcurout : cur ∉ cycle).
  { intros Hin. assert (isVisited visited cur = true) by (apply Hvis; by right).
    congruence. }
  assert (Hnd1 : NoDup (cycle ++ [cur])).
  { apply list.NoDup_app. split_and!; [done| |apply NoDup_singleton].
    intros x Hx ->%list_elem_of_singleton. done. }
  destruct (isVisited (<[cur:=true]> visited) next) eqn:Hvnext.
  - case_bool_decide as Hstart.
    { injection Htrace as _ <-. by destruct cycle. }
    exfalso. rewrite isVisited_insert in Hvnext by lia.
    apply orb_true_iff in Hvnext as [Hvnext|Heq%bool_decide_eq_true].
    2:{ destruct Hnext as (Hne & _). done. }
    apply Hvis in Hvnext as [Hold|Hin].
    { assert (isVisited visited cur = true); [|congruence].
      apply Hvis. left. eapply Hclosed; [exact Hold|]. by apply m_symmetric. }
    apply list_elem_of_lookup_1 in Hin as (j & Hj).
    pose proof (lookup_lt_Some _ _ _ Hj) as Hjlt.
    destruct j as [|j].
    { apply Hstart. rewrite (head_lookup (cycle ++ [cur])) in Hhead.
      rewrite lookup_app_l in Hhead by lia. congruence. }
    destruct (lookup_lt_is_Some_2 cycle j) as [a Ha]; [lia|].
    destruct (lookup_lt_is_Some_2 (cycle ++ [cur]) (S (S j))) as [b Hb].
    { rewrite length_app. simpl. lia. }
    assert (Hanext : edge m a next).
    { apply (Hadj j); by apply lookup_app_l_Some. }
    assert (Hnextb : edge m next b).
    { apply (Hadj (S j)); [by apply lookup_app_l_Some|done]. }
    assert (Hab : a ≠ b).
    { intros ->. assert (j = S (S j)); [|lia].
      eapply (NoDup_lookup (cycle ++ [cur])); [done| |done]. by apply lookup_app_l_Some. }
    destruct (two_neighbors next a b cur Hab) as [->| ->];
      [by apply m_symmetric|done|by apply m_symmetric| |].
    + apply Hcurout. by eapply list_elem_of_lookup_2.
    + assert (Hpos : S (S j) = length cycle).
      { eapply (NoDup_lookup (cycle ++ [b])); [done|done|].
        rewrite lookup_app_r by lia. by rewrite Nat.sub_diag. }
      assert (Hlast : last cycle = Some next).
      { rewrite last_lookup. replace (pred (length cycle)) with (S j) by lia. done. }
      rewrite Hprev, Hlast in Hnextdef.
      eapply (nextOf_other b next); [by apply m_symmetric|done].
  - eapply (IH _ _ _ _ _ _ Htrace).
    + by rewrite length_insert.
    + by destruct Hnext as (_ & ? & _).
    + done.
    + intros x. rewrite isVisited_insert by lia.
      rewrite orb_true_iff, bool_decide_eq_true, Hvis, elem_of_app, list_elem_of_singleton.
      tauto.
    + done.
    + destruct cycle; simpl in *; done.
    + by rewrite last_snoc.
    + intros k x y Hx Hy.
      pose proof (lookup_lt_Some _ _ _ Hy) as Hk. rewrite !length_app in Hk. simpl in Hk.
      destruct (decide (S k = length cycle + 1)) as [Heq|Hne].
      * rewrite lookup_app_r in Hy by (rewrite length_app; simpl; lia).
        rewrite length_app in Hy. simpl in Hy.
        replace (S k - (length cycle + 1)) with 0 in Hy by lia. simpl in Hy.
        rewrite lookup_app_l in Hx by (rewrite length_app; simpl; lia).
        rewrite lookup_app_r in Hx by lia.
        replace (k - length cycle) with 0 in Hx by lia. simpl in Hx.
        by simplify_eq.
      * apply (Hadj k).
        -- by rewrite lookup_app_l in Hx by (rewrite length_app; simpl; lia).
        -- by rewrite lookup_app_l in Hy by (rewrite length_app; simpl; lia).
Qed.

(** A cycle that the walk has traced is closed under adjacency and has at
    least three nodes. *)
Lemma walk_closed (S : list nat) (i : nat) :
  i < length m → NoDup S → S ≠ [] →
  (∀ path, ExtractTableCycle.walk m (length S) path i None = Normal (path ++ S, i)) →
  3 ≤ length S
  ∧ head S = Some i
  ∧ closedWalk m S
  ∧ ∀ x y, x ∈ S → edge m x y → y ∈ S.
Proof.
  intros Hi Hnd Hne Hwalk.
  pose proof (Hwalk []) as Hw. simpl in Hw.
  apply walk_spec in Hw as (l & Heq & _ & _ & Hall & Hhead & Hadj); [|done].
  simpl in Heq. subst S.
  assert (Hhead' : head l = Some i).
  { destruct l; [done|]. simpl in *. done. }
  assert (Hcw : closedWalk m l).
  { intros k x y Hx Hy. pose proof (lookup_lt_Some _ _ _ Hx) as Hk.
    rewrite succ_mod in Hy by done. apply (Hadj k); [by apply lookup_app_l_Some|].
    case_decide as Heq.
    - rewrite head_lookup in Hhead'. rewrite Hhead' in Hy. injection Hy as <-.
      rewrite lookup_app_r by lia. by replace (S k - length l) with 0 by lia.
    - replace (k + 1) with (S k) in Hy by lia. by apply lookup_app_l_Some. }
  assert (Hedge : ∀ k x y, l !! k = Some x → l !! ((k + 1) `mod` length l) = Some y →
                           edge m x y).
  { intros k x y Hx Hy. apply edge_neighborsOf, elem_of_neighborsOf.
    split; [by eapply Hcw|]. apply Hall. by eapply list_elem_of_lookup_2. }
  assert (Hlen : 3 ≤ length l).
  { destruct l as [|a [|b [|c l']]]; [done| | |simpl; lia].
    - exfalso. apply (m_loop_free a). by apply (Hcw 0 a a).
    - exfalso. simplify_eq. specialize (Hwalk []). cbn [length] in Hwalk.
      cbn [ExtractTableCycle.walk] in Hwalk. fold (nextOf m i None) in Hwalk.
      rewrite bool_decide_eq_false_2 in Hwalk by (rewrite m_degree by done; lia).
      pose proof (nextOf_edge i None Hi) as Hnext.
      fold (nextOf m (nextOf m i None) (Some i)) in Hwalk.
      rewrite bool_decide_eq_false_2 in Hwalk.
      2:{ rewrite m_degree; [lia|]. by destruct Hnext as (_ & ? & _). }
      injection Hwalk as _ Hback. by eapply nextOf_other. }
  split_and!; [done..|].
  intros x y [k Hx]%list_elem_of_lookup_1 Hxy.
  pose proof (lookup_lt_Some _ _ _ Hx) as Hk.
  set (pk := if decide (k = 0) then length l - 1 else k - 1).
  set (sk := if decide (k + 1 = length l) then 0 else k + 1).
  destruct (lookup_lt_is_Some_2 l pk) as [a Ha]; [unfold pk; case_decide; lia|].
  destruct (lookup_lt_is_Some_2 l sk) as [b Hb]; [unfold sk; case_decide; lia|].
  assert (Hax : edge m a x).
  { apply (Hedge pk); [done|]. rewrite succ_mod by (unfold pk; case_decide; lia).
    unfold pk. repeat case_decide; try lia; [by subst k|].
    by replace (k - 1 + 1) with k by lia. }
  assert (Hxb : edge m x b).
  { apply (Hedge k); [done|]. by rewrite succ_mod by done. }
  assert (Hab : a ≠ b).
  { intros ->. assert (pk = sk) by (by eapply NoDup_lookup).
    unfold pk, sk in *. repeat case_decide; lia. }
  destruct (two_neighbors x a b y Hab) as [-> | ->];
    [by apply m_symmetric|done..|by eapply list_elem_of_lookup_2
     |by eapply list_elem_of_lookup_2].
Qed.

End ValidTrace.

Section ValidCover.
Variable m : AdjacencyMatrix.
Hypothesis m_size : 3 ≤ length m.
Hypothesis m_degree : ∀ x, x < length m → length (ExtractTableCycle.neighborsOf m x) = 2.
Hypothesis m_symmetric : symmetricEdges m.
Hypothesis m_loop_free : ∀ x, ¬ isOne m x x.

Lemma visitNode_cover (fuel : nat) (st st' : list bool * list (list nat)) (i : nat) :
  i < length m → coverInv m i st →
  FindSubtours.visitNode m fuel st i = Some st' → coverInv m (S i) st'.
Proof.
  intros Hi (Hinv & Hin & Hbelow & Hcycles) Hvisit.
  pose proof (visitNode_inv m fuel st i st' Hi Hinv Hvisit) as Hinv'.
  destruct st as [visited subtours]. cbn [fst snd] in *.
  destruct Hinv as (Hlen & Hnd & Hmem & _). cbn [fst snd] in *.
  revert Hvisit Hinv'. unfold FindSubtours.visitNode.
  destruct (isVisited visited i) eqn:Hfresh.
  { intros [= <-] Hinv'. split_and!; try done. cbn [fst].
    intros x Hx Hxn. destruct (decide (x = i)) as [->|]; [done|]. apply Hbelow; lia. }
  destruct (FindSubtours.traceCycle m fuel i visited [] i None)
    as [[visited' cycle]|] eqn:Htrace; [|done]. cbn [mbind option_bind].
  assert (Hclosed : ∀ x y, isVisited visited x = true → edge m x y →
                           isVisited visited y = true).
  { intros x y Hx Hxy. apply Hin in Hx. apply list_elem_of_join in Hx as (S & Hx & HS).
    destruct (Hcycles S HS) as (_ & _ & Hcl). apply Hmem.
    apply list_elem_of_join. exists S. split; [|done]. by eapply Hcl. }
  assert (Hcycle : cycle ≠ []).
  { eapply (traceCycle_valid m m_size m_degree m_symmetric m_loop_free visited i fuel
              Hclosed _ _ _ _ _ _ Htrace); try done.
    - intros x. rewrite elem_of_nil. tauto.
    - apply NoDup_nil_2. }
  pose proof Htrace as Hspec.
  apply traceCycle_spec in Hspec as (new & Hl & Hmark & Hndnew & Hnew & Hinew & Hcyc & _);
    [|done..].
  destruct Hcyc as [Hcyc|Hcyc]; [|done]. simpl in Hcyc. subst new.
  apply traceCycle_walk in Htrace as (new & Heq & Hwalk); [|done..].
  simpl in Heq. subst new.
  destruct (walk_closed m m_size m_degree m_symmetric m_loop_free cycle i Hi Hndnew
              Hcycle Hwalk)
    as (Hlen3 & _ & Hcw & Hcl).
  rewrite bool_decide_eq_true_2 by lia. intros [= <-] Hinv'.
  split_and!; cbn [fst snd]; [done| | |].
  - intros x [Hx|Hx]%Hmark; rewrite join_app, elem_of_app; [left; by apply Hin|right].
    simpl. by rewrite app_nil_r.
  - intros x Hx Hxn. apply Hmark. destruct (decide (x = i)) as [->|].
    + right. by apply Hinew.
    + left. apply Hbelow; lia.
  - intros S [HS|HS%list_elem_of_singleton]%elem_of_app; [by apply Hcycles|by subst S].
Qed.

Lemma visitAll_cover (fuel : nat) (k : nat) :
  ∀ a st st', a + k = length m → coverInv m a st →
  FindSubtours.visitAll m fuel st (seq a k) = Some st' → coverInv m (a + k) st'.
Proof.
  induction k as [|k IH]; intros a st st' Hak Hinv.
  { simpl. intros [= <-]. by rewrite Nat.add_0_r. }
  cbn [seq FindSubtours.visitAll].
  destruct (FindSubtours.visitNode m fuel st a) as [st1|] eqn:Hst1; [|done].
  cbn [mbind option_bind]. intros Hrest.
  apply visitNode_cover in Hst1; [|lia|done].
  replace (a + S k) with (S a + k) by lia. eapply IH; [lia|done..].
Qed.

Lemma findSubtours_cover :
  mjoin (findSubtours m) ≡ₚ seq 0 (length m)
  ∧ ∀ S, S ∈ findSubtours m →
      3 ≤ length S ∧ closedWalk m S ∧ ∀ x y, x ∈ S → edge m x y → y ∈ S.
Proof.
  pose proof (findSubtours_fuel m) as Hfuel.
  unfold FindSubtours.findSubtoursFuel in Hfuel.
  rewrite bool_decide_eq_false_2 in Hfuel by (unfold FindSubtours.n; lia).
  destruct (FindSubtours.visitAll m _ _ _) as [[visited subtours]|] eqn:Hall; [|done].
  simpl in Hfuel. injection Hfuel as <-.
  apply (visitAll_cover _ (length m) 0) in Hall as (Hinv & Hin & Hbelow & Hcycles);
    [|done|].
  2:{ split_and!; cbn [fst snd].
      - apply subtoursInv_init.
      - intros x. by rewrite isVisited_replicate.
      - intros x Hx. lia.
      - intros S HS. by apply elem_of_nil in HS. }
  cbn [fst snd] in *. split; [|done].
  destruct Hinv as (_ & Hnd & Hmem & _). cbn [fst snd] in *.
  apply NoDup_Permutation; [done|apply NoDup_seq|].
  intros x. rewrite elem_of_seq. split.
  - intros Hx%Hmem. unfold FindSubtours.n in Hx. lia.
  - intros [_ Hx]. apply Hin, Hbelow; lia.
Qed.

End ValidCover.

(** On a matrix that passes the checks the cycles of [findSubtours] are the
    connected components. *)
Lemma findSubtours_valid (m : AdjacencyMatrix) :
  assertionsHold m →
  mjoin (findSubtours m) ≡ₚ seq 0 (length m)
  ∧ ∀ S, S ∈ findSubtours m →
      3 ≤ length S ∧ closedWalk m S ∧ ∀ x y, x ∈ S → edge m x y → y ∈ S.
Proof.
  intros Hvalid. destruct (valid_size m Hvalid) as [Hzero|Hsize].
  - assert (Hnone : findSubtours m = []).
    { unfold findSubtours, FindSubtours.findSubtoursFuel, FindSubtours.n.
      by rewrite bool_decide_eq_true_2. }
    rewrite Hnone, Hzero. split; [done|]. intros S HS. by apply elem_of_nil in HS.
  - apply findSubtours_cover; [done| | |].
    + intros x Hx. by apply valid_degree.
    + by apply valid_symmetric.
    + intros x. by apply valid_loop_free.
Qed.

(** * Facts about the elimination constraints *)

Lemma sumOver_cons (i : nat) (L : list nat) (g : nat → Z) :
  sumOver (i :: L) g = (g i + sumOver L g)%Z.
Proof. done. Qed.

Lemma sumOver_ext (L : list nat) (g g' : nat → Z) :
  (∀ j, j ∈ L → g j = g' j) → sumOver L g = sumOver L g'.
Proof.
  induction L as [|j L IH]; intros Hext; [done|].
  rewrite !sumOver_cons, IH, (Hext j); [done|apply list_elem_of_here|].
  intros j' Hj'. by apply Hext, list_elem_of_further.
Qed.

Lemma sumOver_add (L : list nat) (g g' : nat → Z) :
  sumOver L (λ j, g j + g' j)%Z = (sumOver L g + sumOver L g')%Z.
Proof. induction L as [|j L IH]; [done|]. rewrite !sumOver_cons, IH. lia. Qed.

Lemma sumOver_zero (L : list nat) : sumOver L (λ _, 0%Z) = 0%Z.
Proof. induction L as [|j L IH]; [done|]. by rewrite sumOver_cons, IH. Qed.

Lemma sumOver_const (L : list nat) (v : Z) :
  sumOver L (λ _, v) = (Z.of_nat (length L) * v)%Z.
Proof. induction L as [|j L IH]; [done|]. rewrite sumOver_cons, IH. simpl length. lia. Qed.

Lemma sumOver_filter (P : nat → Prop) `{∀ j, Decision (P j)} (L : list nat) (g : nat → Z) :
  sumOver (filter P L) g = sumOver L (λ j, if decide (P j) then g j else 0%Z).
Proof.
  induction L as [|j L IH]; [done|]. rewrite filter_cons, sumOver_cons.
  case_decide; [by rewrite sumOver_cons, IH|by rewrite IH].
Qed.

Lemma sumOver_swap (S T : list nat) (h : nat → nat → Z) :
  sumOver S (λ i, sumOver T (λ j, h i j)) = sumOver T (λ j, sumOver S (λ i, h i j)).
Proof.
  induction S as [|i S IH].
  { simpl. by rewrite sumOver_zero. }
  rewrite sumOver_cons, IH, <- sumOver_add. apply sumOver_ext. intros j _.
  by rewrite sumOver_cons.
Qed.

Lemma sumOver_indicator (L : list nat) (P : nat → Prop) `{∀ j, Decision (P j)} :
  sumOver L (λ j, if decide (P j) then 1%Z else 0%Z) = Z.of_nat (length (filter P L)).
Proof.
  induction L as [|j L IH]; [done|]. rewrite sumOver_cons, filter_cons, IH.
  case_decide; simpl length; lia.
Qed.

(** The sum over the pairs [i < j] of a list is half the sum over its
    ordered pairs, for a symmetric weight. *)
Lemma sumOver_pairs (S : list nat) (e : nat → nat → Z) :
  (∀ i j, i ∈ S → j ∈ S → e i j = e j i) →
  Z.mul 2 (sumOver S (λ i, sumOver (filter (λ j, i < j) S) (λ j, e i j)))
  = sumOver S (λ i, sumOver (filter (λ j, i ≠ j) S) (λ j, e i j)).
Proof.
  intros Hsym.
  set (A := sumOver S (λ i, sumOver (filter (λ j, i < j) S) (λ j, e i j))).
  assert (HA : A = sumOver S (λ i, sumOver S (λ j, if decide (i < j) then e i j else 0%Z))).
  { apply sumOver_ext. intros i _. apply sumOver_filter. }
  assert (HB : A = sumOver S (λ i, sumOver S (λ j, if decide (j < i) then e i j else 0%Z))).
  { rewrite HA, sumOver_swap. apply sumOver_ext. intros i Hi.
    apply sumOver_ext. intros j Hj. case_decide; [by apply Hsym|done]. }
  replace (2 * A)%Z with (A + A)%Z by lia. rewrite HA at 1. rewrite HB.
  rewrite <- sumOver_add. apply sumOver_ext. intros i _.
  rewrite sumOver_filter, <- sumOver_add. apply sumOver_ext. intros j _.
  repeat case_decide; lia.
Qed.

Lemma foldr_add_acc (L : list nat) (g : nat → Z) (acc : Z) :
  foldr Z.add acc (g <$> L) = (sumOver L g + acc)%Z.
Proof.
  induction L as [|j L IH]; [done|]. rewrite fmap_cons, sumOver_cons. cbn [foldr].
  rewrite IH. lia.
Qed.

Lemma sum_bind_pairs (S : list nat) (T : nat → list nat) (f : nat * nat → Z) :
  foldr Z.add 0%Z (f <$> (S ≫= λ i, (λ j, (i, j)) <$> T i))
  = sumOver S (λ i, sumOver (T i) (λ j, f (i, j))).
Proof.
  induction S as [|i S IH]; [done|].
  rewrite bind_cons, fmap_app, foldr_app, sumOver_cons, IH.
  rewrite <- list_fmap_compose. apply foldr_add_acc.
Qed.

Lemma constraintValue_pairs (x : string → Q) (e : nat → nat → Z)
    (pairs : list (nat * nat)) (c : GLPKConstraint) :
  vars c = (λ ij, {| name := SolveSitting.getVarName ij.1 ij.2; coef := 1 |}) <$> pairs →
  (∀ ij, ij ∈ pairs → x (SolveSitting.getVarName ij.1 ij.2) == inject_Z (e ij.1 ij.2)) →
  constraintValue x c == inject_Z (foldr Z.add 0%Z ((λ ij, e ij.1 ij.2) <$> pairs)).
Proof.
  intros Hvars. unfold constraintValue. rewrite Hvars. clear Hvars.
  induction pairs as [|ij pairs IH]; intros Hx; [done|].
  rewrite !fmap_cons. cbn [foldr name coef].
  rewrite IH by (intros ij' Hij'; by apply Hx, list_elem_of_further).
  rewrite (Hx ij) by apply list_elem_of_here.
  rewrite inject_Z_plus. ring.
Qed.

Section Cut.
Variable m : AdjacencyMatrix.
Hypothesis m_valid : assertionsHold m.
Variable S : list nat.
Hypothesis S_NoDup : NoDup S.
Hypothesis S_lt : ∀ x, x ∈ S → x < length m.
Hypothesis S_closed : ∀ x y, x ∈ S → edge m x y → y ∈ S.

Lemma closed_row_sum (i : nat) :
  i ∈ S → sumOver (filter (λ j, i ≠ j) S) (λ j, SolveSitting.entry m i j) = 2%Z.
Proof.
  intros Hi. destruct m_valid as (Hbin & _).
  unfold sumOver. rewrite sum_indicator.
  2:{ intros j [_ Hj]%list_elem_of_filter. apply Hbin; by apply S_lt. }
  rewrite list_filter_filter.
  assert (Hperm : filter (λ j, SolveSitting.entry m i j = 1%Z ∧ i ≠ j) S
                  ≡ₚ ExtractTableCycle.neighborsOf m i).
  { apply NoDup_Permutation; [by apply list.NoDup_filter|apply NoDup_neighborsOf|].
    intros j. rewrite list_elem_of_filter, elem_of_neighborsOf, entry_isOne.
    unfold ExtractTableCycle.n. split.
    - intros [[Hone _] Hj]. split; [done|by apply S_lt].
    - intros [Hone Hj].
      assert (Hne : i ≠ j) by (intros ->; by eapply valid_loop_free).
      split_and!; [done..|]. apply (S_closed i); [done|]. by split_and!. }
  rewrite Hperm, (valid_degree m m_valid) by (by apply S_lt). done.
Qed.

Lemma closed_pair_sum :
  sumOver S (λ i, sumOver (filter (λ j, i < j) S) (λ j, SolveSitting.entry m i j))
  = Z.of_nat (length S).
Proof.
  destruct m_valid as (_ & Hsym & _).
  pose proof (sumOver_pairs S (SolveSitting.entry m)) as Hdouble.
  assert (Hrows : sumOver S (λ i, sumOver (filter (λ j, i ≠ j) S)
                                    (λ j, SolveSitting.entry m i j))
                  = (Z.of_nat (length S) * 2)%Z).
  { rewrite <- sumOver_const. apply sumOver_ext. intros i Hi. by apply closed_row_sum. }
  assert (Hsym' : ∀ i j, i ∈ S → j ∈ S → SolveSitting.entry m i j = SolveSitting.entry m j i).
  { intros i j Hi Hj. destruct (decide (i = j)) as [->|]; [done|].
    apply Hsym; [by apply S_lt..|done]. }
  specialize (Hdouble Hsym'). rewrite Hrows in Hdouble. lia.
Qed.

End Cut.

Lemma eliminationConstraint_value (glpk : GLPKInstance) (iter : nat)
    (m : AdjacencyMatrix) (S : list nat) (x : string → Q) :
  (∀ i, i ∈ S → i < length m) →
  (∀ i j, i < length m → j < length m →
     x (SolveSitting.getVarName i j) == inject_Z (SolveSitting.entry m i j)) →
  constraintValue x (SolveSitting.eliminationConstraint glpk iter S)
  == inject_Z (sumOver S (λ i, sumOver (filter (λ j, i < j) S)
                                 (λ j, SolveSitting.entry m i j))).
Proof.
  intros Hlt Hx.
  rewrite (constraintValue_pairs x (SolveSitting.entry m)
             (S ≫= λ i, (λ j, (i, j)) <$> filter (λ j, i < j) S)).
  - by rewrite (sum_bind_pairs S (λ i, filter (λ j, i < j) S)
                  (λ ij, SolveSitting.entry m ij.1 ij.2)).
  - apply eliminationConstraint_vars.
  - intros [i j] (Hi & Hj & _)%elem_of_cycle_pairs. apply Hx; by apply Hlt.
Qed.

Lemma sumOver_bound (S : list nat) (g : nat → Z) (i0 : nat) :
  (∀ i, i ∈ S → (g i ≤ 2)%Z) → i0 ∈ S → (g i0 ≤ 1)%Z →
  (sumOver S g ≤ 2 * Z.of_nat (length S) - 1)%Z.
Proof.
  intros Hall Hi0 Hone.
  assert (Hle : ∀ L, (∀ i, i ∈ L → (g i ≤ 2)%Z) → (sumOver L g ≤ 2 * Z.of_nat (length L))%Z).
  { clear. induction L as [|i L IH]; intros Hall; [done|].
    rewrite sumOver_cons. simpl length.
    pose proof (Hall i (list_elem_of_here _ _)).
    specialize (IH (λ j Hj, Hall j (list_elem_of_further _ _ _ Hj))). lia. }
  induction S as [|i S IH]; [by apply elem_of_nil in Hi0|].
  rewrite sumOver_cons. simpl length.
  assert (HallS : ∀ j, j ∈ S → (g j ≤ 2)%Z).
  { intros j Hj. by apply Hall, list_elem_of_further. }
  apply elem_of_cons in Hi0 as [->|Hi0].
  - specialize (Hle S HallS). lia.
  - specialize (IH HallS Hi0). pose proof (Hall i (list_elem_of_here _ _)). lia.
Qed.

Section KeepsCycle.
Variable h : AdjacencyMatrix.
Hypothesis h_valid : assertionsHold h.
Variable cycle : list nat.
Hypothesis h_single : findSubtours h = [cycle].
Variable part : list nat.
Hypothesis part_NoDup : NoDup part.
Hypothesis part_lt : ∀ x, x ∈ part → x < length h.
Hypothesis part_proper : 0 < length part < length h.

Lemma inside_sub (i : nat) : i ∈ part → (filter (λ j, SolveSitting.entry h i j = 1%Z ∧ i ≠ j) part) ⊆+ ExtractTableCycle.neighborsOf h i.
Proof.
  intros Hi. apply NoDup_submseteq; [by apply list.NoDup_filter|].
  intros j [[Hone _] Hj]%list_elem_of_filter. apply elem_of_neighborsOf.
  split; [by apply entry_isOne|by apply part_lt].
Qed.

Lemma inside_sum (i : nat) :
  i ∈ part →
  sumOver (filter (λ j, i ≠ j) part) (λ j, SolveSitting.entry h i j)
  = Z.of_nat (length ((filter (λ j, SolveSitting.entry h i j = 1%Z ∧ i ≠ j) part))).
Proof.
  intros Hi. destruct h_valid as (Hbin & _). unfold sumOver. rewrite sum_indicator.
  - by rewrite list_filter_filter.
  - intros j [_ Hj]%list_elem_of_filter. apply Hbin; by apply part_lt.
Qed.

Lemma inside_le (i : nat) : i ∈ part → length ((filter (λ j, SolveSitting.entry h i j = 1%Z ∧ i ≠ j) part)) ≤ 2.
Proof.
  intros Hi. rewrite <- (valid_degree h h_valid i) by (by apply part_lt).
  by apply submseteq_length, inside_sub.
Qed.

(** A proper part of the nodes of a single cycle has a node with a neighbour
    outside. *)
Lemma proper_part_open : ∃ i0, i0 ∈ part ∧ length ((filter (λ j, SolveSitting.entry h i0 j = 1%Z ∧ i0 ≠ j) part)) ≤ 1.
Proof.
  destruct (decide (Forall (λ i, 2 ≤ length ((filter (λ j, SolveSitting.entry h i j = 1%Z ∧ i ≠ j) part))) part)) as [Hall|Hsome].
  2:{ apply not_Forall_Exists in Hsome; [|apply _].
      apply Exists_exists in Hsome as (i0 & Hi0 & Hlt). exists i0. simpl in Hlt.
      split; [done|]. lia. }
  exfalso. rewrite Forall_forall in Hall.
  assert (Hclosed : ∀ x y, x ∈ part → edge h x y → y ∈ part).
  { intros x y Hx (Hne & Hy & Hone).
    pose proof (inside_sub x Hx) as Hsub.
    apply submseteq_length_Permutation in Hsub.
    2:{ rewrite (valid_degree h h_valid x) by (by apply part_lt). by apply Hall. }
    assert (Hin : y ∈ (filter (λ j, SolveSitting.entry h x j = 1%Z ∧ x ≠ j) part)).
    { rewrite Hsub. apply elem_of_neighborsOf. done. }
    by apply list_elem_of_filter in Hin as [_ ?]. }
  destruct (findSubtours_valid h h_valid) as [Hperm Hcycles].
  rewrite h_single in Hperm, Hcycles. simpl in Hperm. rewrite app_nil_r in Hperm.
  destruct (Hcycles cycle (list_elem_of_here _ _)) as (_ & Hcw & _).
  assert (Hlen : length cycle = length h) by (by rewrite Hperm, length_seq).
  destruct part as [|s rest] eqn:HS; [simpl in part_proper; lia|]. rewrite <- HS in *.
  assert (Hs : s ∈ part) by (rewrite HS; apply list_elem_of_here).
  assert (Hsc : s ∈ cycle) by (rewrite Hperm; apply elem_of_seq; specialize (part_lt s Hs); lia).
  apply list_elem_of_lookup_1 in Hsc as (k & Hk).
  assert (Hround : ∀ d x, cycle !! ((k + d) `mod` length cycle) = Some x → x ∈ part).
  { induction d as [|d IH]; intros x Hx.
    - rewrite Nat.add_0_r, Nat.mod_small in Hx by (by eapply lookup_lt_Some).
      by simplify_eq.
    - destruct (lookup_lt_is_Some_2 cycle ((k + d) `mod` length cycle)) as [w Hw].
      { apply Nat.mod_upper_bound. lia. }
      apply (Hclosed w); [by apply IH|].
      assert (Hone : isOne h w x).
      { apply (Hcw _ _ _ Hw). rewrite Nat.Div0.add_mod_idemp_l.
        by replace (k + d + 1) with (k + S d) by lia. }
      assert (Hxlt : x ∈ seq 0 (length h)).
      { rewrite <- Hperm. by eapply list_elem_of_lookup_2. }
      apply elem_of_seq in Hxlt. split_and!; [|lia|done].
      intros ->. by eapply valid_loop_free. }
  assert (Hsub : cycle ⊆+ part).
  { apply NoDup_submseteq; [rewrite Hperm; apply NoDup_seq|].
    intros x [p Hp]%list_elem_of_lookup_1. pose proof (lookup_lt_Some _ _ _ Hp) as Hplt.
    pose proof (lookup_lt_Some _ _ _ Hk) as Hklt.
    apply (Hround (p + length cycle - k)).
    replace (k + (p + length cycle - k)) with (p + 1 * length cycle) by lia.
    rewrite Nat.Div0.mod_add, Nat.mod_small by lia. done. }
  apply submseteq_length in Hsub. lia.
Qed.

Lemma proper_pair_sum :
  Z.le (sumOver part (λ i, sumOver (filter (λ j, i < j) part)
                             (λ j, SolveSitting.entry h i j)))
       (Z.of_nat (length part) - 1).
Proof.
  destruct h_valid as (_ & Hsym & _).
  pose proof (sumOver_pairs part (SolveSitting.entry h)) as Hdouble.
  assert (Hsym' : ∀ i j, i ∈ part → j ∈ part → SolveSitting.entry h i j = SolveSitting.entry h j i).
  { intros i j Hi Hj. destruct (decide (i = j)) as [->|]; [done|].
    apply Hsym; [by apply part_lt..|done]. }
  specialize (Hdouble Hsym').
  destruct proper_part_open as (i0 & Hi0 & Hopen).
  pose proof (sumOver_bound part
    (λ i, sumOver (filter (λ j, i ≠ j) part) (λ j, SolveSitting.entry h i j)) i0) as Hbound.
  cbn beta in Hbound.
  assert (Hle : ∀ i, i ∈ part →
    (sumOver (filter (λ j, i ≠ j) part) (λ j, SolveSitting.entry h i j) ≤ 2)%Z).
  { intros i Hi. rewrite inside_sum by done. pose proof (inside_le i Hi). lia. }
  specialize (Hbound Hle Hi0). rewrite (inside_sum i0 Hi0) in Hbound.
  specialize (Hbound ltac:(lia)). lia.
Qed.

End KeepsCycle.

Lemma eliminationConstraint_keeps (glpk : GLPKInstance) (iter : nat)
    (h : AdjacencyMatrix) (cycle S : list nat) (x : string → Q) :
  assertionsHold h → findSubtours h = [cycle] →
  NoDup S → (∀ i, i ∈ S → i < length h) → 0 < length S < length h →
  (∀ i j, i < length h → j < length h →
     x (SolveSitting.getVarName i j) == inject_Z (SolveSitting.entry h i j)) →
  let c := SolveSitting.eliminationConstraint glpk iter S in
  (constraintValue x c <= ub (bnds c))%Q.
Proof.
  intros Hvalid Hsingle Hnd Hlt Hproper Hx c. unfold c.
  rewrite (eliminationConstraint_value glpk iter h S x Hlt Hx).
  cbn [SolveSitting.eliminationConstraint bnds ub].
  pose proof (proper_pair_sum h Hvalid cycle Hsingle S Hnd Hlt Hproper) as Hsum.
  unfold Qminus. change (- (1))%Q with (inject_Z (-1)). rewrite <- inject_Z_plus.
  rewrite <- Zle_Qle. lia.
Qed.

(** * Facts about the page script *)

Lemma findIndex_Some (k : nat) (l : list Person) (i : nat) :
  findIndex k l = Some i →
  ∃ p, l !! i = Some p ∧ id p = k ∧ ∀ j q, j < i → l !! j = Some q → id q ≠ k.
Proof.
  revert i. induction l as [|p l IH]; intros i; simpl; [done|].
  case_bool_decide as Hp.
  - intros [= <-]. exists p. split_and!; [done..|]. intros j q Hj. lia.
  - destruct (findIndex k l) as [i'|]; simpl; [|done]. intros [= <-].
    destruct (IH i' eq_refl) as (q & Hq & Hid & Hbefore). exists q. split_and!; [done..|].
    intros [|j] q' Hj; simpl; [by intros [= <-]|]. apply Hbefore. lia.
Qed.

Lemma findIndex_None (k : nat) (l : list Person) :
  findIndex k l = None ↔ ∀ p, p ∈ l → id p ≠ k.
Proof.
  induction l as [|p l IH]; simpl.
  { split; [by intros _ p ?%elem_of_nil|done]. }
  case_bool_decide as Hp.
  - split; [done|]. intros Hall. exfalso. apply (Hall p); [apply list_elem_of_here|done].
  - destruct (findIndex k l) as [i|]; simpl.
    + split; [done|]. intros Hall. assert (Hnone : Some i = None); [|done].
      apply IH. intros q Hq. by apply Hall, list_elem_of_further.
    + split; [|done]. intros _ q [->|Hq]%elem_of_cons; [done|]. by apply IH.
Qed.

Lemma delete_sublist {A} (i : nat) (l : list A) : delete i l `sublist_of` l.
Proof.
  revert i. induction l as [|x l IH]; intros [|i]; simpl; try done.
  - by apply sublist_cons.
  - by apply sublist_skip.
Qed.

Lemma filter_all {A} (P : A → Prop) `{∀ x, Decision (P x)} (l : list A) :
  (∀ x, x ∈ l → P x) → filter P l = l.
Proof.
  induction l as [|x l IH]; intros Hall; [done|].
  rewrite filter_cons, decide_True by apply Hall, list_elem_of_here.
  f_equal. apply IH. intros y Hy. by apply Hall, list_elem_of_further.
Qed.

Lemma skipWhiteSpace_done (s : string) : afterWhiteSpace (skipWhiteSpace s) = None.
Proof.
  induction s as [s IH] using string_length_ind.
  rewrite skipWhiteSpace_step. destruct (afterWhiteSpace s) as [rest|] eqn:Hs; [|done].
  by apply IH, afterWhiteSpace_length.
Qed.

Lemma skipWhiteSpace_app (s t : string) :
  skipWhiteSpace s = EmptyString → skipWhiteSpace (s +:+ t) = skipWhiteSpace t.
Proof.
  induction s as [s IH] using string_length_ind. intros Hs.
  rewrite skipWhiteSpace_step in Hs.
  destruct (afterWhiteSpace s) as [rest|] eqn:Hrest; [|by subst s].
  rewrite (skipWhiteSpace_step (s +:+ t)), (afterWhiteSpace_app _ _ _ Hrest).
  apply IH; [by apply afterWhiteSpace_length|done].
Qed.

(** What [trimEnd] takes away is white space. *)
Lemma trimEnd_split (s : string) :
  ∃ t, s = trimEnd s +:+ t ∧ skipWhiteSpace t = EmptyString.
Proof.
  induction s as [|c s (t & Hs & Ht)]; [by exists EmptyString|].
  cbn [trimEnd]. case_bool_decide as Hall.
  - by exists (String c s).
  - exists t. split; [|done]. by rewrite append_cons, <- Hs.
Qed.

(** Trimming a trimmed text changes nothing. *)
Lemma trimEnd_idemp (s : string) : trimEnd (trimEnd s) = trimEnd s.
Proof.
  induction s as [|c s IH]; [done|]. cbn [trimEnd].
  case_bool_decide as Hall; [done|]. cbn [trimEnd].
  rewrite bool_decide_eq_false_2; [by rewrite IH|].
  intros Hkept. apply Hall. destruct (trimEnd_split s) as (t & Hs & Ht).
  rewrite Hs, <- append_cons. by rewrite skipWhiteSpace_app.
Qed.

Lemma trim_idemp (s : string) : trim (trim s) = trim s.
Proof.
  unfold trim. pose proof (skipWhiteSpace_done s) as Hdone.
  destruct (trimEnd_split (skipWhiteSpace s)) as (t & Hs & _).
  assert (Hkept : afterWhiteSpace (trimEnd (skipWhiteSpace s)) = None).
  { destruct (afterWhiteSpace (trimEnd (skipWhiteSpace s))) as [rest|] eqn:Hrest; [|done].
    apply (afterWhiteSpace_app _ _ t) in Hrest. rewrite <- Hs in Hrest. congruence. }
  rewrite (skipWhiteSpace_step (trimEnd _)), Hkept. apply trimEnd_idemp.
Qed.

Lemma wellFormed_initial : wellFormed initialState.
Proof. split_and!; simpl; [apply NoDup_nil_2..|]. intros p Hp. by apply elem_of_nil in Hp. Qed.

Lemma handleAddPerson_wellFormed (value : string) (st : AppState) :
  wellFormed st → wellFormed (handleAddPerson value st).
Proof.
  intros (Hids & Hnames & Hall). unfold handleAddPerson.
  case_bool_decide as Hempty; [done|]. case_bool_decide as Hdup; [done|].
  rewrite Exists_exists in Hdup. split_and!; simpl.
  - rewrite fmap_app. simpl. apply list.NoDup_app. split_and!; [done| |apply NoDup_singleton].
    intros k (p & Heq & Hp)%list_elem_of_fmap Hk%list_elem_of_singleton.
    destruct (Hall p Hp) as (? & _). lia.
  - rewrite fmap_app. simpl. apply list.NoDup_app. split_and!; [done| |apply NoDup_singleton].
    intros k (p & Heq & Hp)%list_elem_of_fmap Hk%list_elem_of_singleton.
    apply Hdup. exists p. split; [done|]. congruence.
  - intros p [Hp|Hp%list_elem_of_singleton]%elem_of_app.
    + destruct (Hall p Hp) as (? & ? & ?). split_and!; [lia|done..].
    + subst p. simpl. split_and!; [lia|done|apply trim_idemp].
Qed.

Lemma handleRemovePerson_wellFormed (k : nat) (st : AppState) :
  wellFormed st → wellFormed (handleRemovePerson k st).
Proof.
  intros (Hids & Hnames & Hall). unfold handleRemovePerson.
  destruct (findIndex k (people st)) as [i|]; [|done].
  pose proof (delete_sublist i (people st)) as Hsub. split_and!; simpl.
  - eapply sublist_NoDup; [done|]. by apply fmap_sublist.
  - eapply sublist_NoDup; [done|]. by apply fmap_sublist.
  - intros p Hp. apply Hall. by eapply elem_of_sublist.
Qed.

Lemma delete_findIndex (k : nat) (l : list Person) (i : nat) :
  NoDup (id <$> l) → findIndex k l = Some i → delete i l = filter (λ p, id p ≠ k) l.
Proof.
  revert i. induction l as [|p l IH]; intros i Hnd; simpl; [done|].
  rewrite fmap_cons in Hnd. apply list.NoDup_cons in Hnd as [Hout Hnd].
  rewrite filter_cons. case_bool_decide as Hp.
  - intros [= <-]. rewrite decide_False by (intros ?; done). simpl.
    symmetry. apply filter_all.
    intros q Hq Heq. subst k. apply Hout. apply list_elem_of_fmap. by exists q.
  - destruct (findIndex k l) as [i'|]; simpl; [|done]. intros [= <-].
    rewrite decide_True by done. simpl. f_equal. by apply IH.
Qed.

Lemma handleRemovePerson_people (k : nat) (st : AppState) :
  NoDup (id <$> people st) →
  people (handleRemovePerson k st) = filter (λ p, id p ≠ k) (people st).
Proof.
  unfold handleRemovePerson. intros Hnd.
  destruct (findIndex k (people st)) as [i|] eqn:Hfind; simpl.
  - by apply delete_findIndex.
  - pose proof (proj1 (findIndex_None _ _) Hfind) as Hall. symmetry. by apply filter_all.
Qed.

(** *** Keys *)

Lemma splitOn_nonempty (sep : ascii) (s : string) : splitOn sep s ≠ [].
Proof.
  destruct s as [|c s]; simpl; [done|]. case_bool_decide; [done|].
  by destruct (splitOn sep s).
Qed.

(** Splitting distributes over a separator. *)
Lemma splitOn_sep (sep : ascii) (s t : string) :
  splitOn sep (s +:+ String sep t) = splitOn sep s ++ splitOn sep t.
Proof.
  induction s as [|c s IH].
  { rewrite append_nil. simpl. by rewrite bool_decide_eq_true_2. }
  rewrite append_cons. simpl. case_bool_decide; [by rewrite IH|].
  rewrite IH. pose proof (splitOn_nonempty sep s).
  by destruct (splitOn sep s).
Qed.

Lemma prefix_app (a post : string) : String.prefix a (a +:+ post) = true.
Proof.
  induction a as [|c a IH]; [by destruct post|].
  rewrite append_cons. simpl. by destruct (ascii_dec c c).
Qed.

Lemma prefix_inv (a s : string) :
  String.prefix a s = true → ∃ post, s = a +:+ post.
Proof.
  revert s. induction a as [|c a IH]; intros s; [by exists s|].
  destruct s as [|c' s]; simpl; [done|]. destruct (ascii_dec c c') as [<-|]; [|done].
  intros [post ->]%IH. by exists post.
Qed.

Lemma includes_prefix (searchString s : string) :
  String.prefix searchString s = true → includes searchString s = true.
Proof. intros Hp. destruct s; cbn [includes]; by rewrite Hp. Qed.

Lemma includes_app (searchString pre post : string) :
  includes searchString (pre +:+ searchString +:+ post) = true.
Proof.
  induction pre as [|c pre IH].
  - rewrite append_nil. apply includes_prefix, prefix_app.
  - rewrite append_cons. simpl. rewrite IH. apply orb_true_r.
Qed.

Lemma includes_inv (searchString s : string) :
  includes searchString s = true → ∃ pre post, s = pre +:+ searchString +:+ post.
Proof.
  induction s as [|c s IH]; cbn [includes].
  - rewrite orb_false_r. intros [post Hpost]%prefix_inv. by exists EmptyString, post.
  - intros [[post Hpost]%prefix_inv|(pre & post & ->)%IH]%orb_true_iff.
    + by exists EmptyString, post.
    + by exists (String c pre), post.
Qed.

Lemma showNat_not_word (k : nat) (c : ascii) (s : string) :
  digitValue c = None → showNat k ≠ String c s.
Proof.
  intros Hc Heq. destruct (showNat_cons k) as (c' & s' & Hk & [v Hv]).
  rewrite Hk in Heq. simplify_eq.
Qed.

Section Keys.
Variable word : string.
Hypothesis word_plain : lacks "_" word.
Hypothesis word_letter : ∃ c s, word = String c s ∧ digitValue c = None.

Lemma splitOn_keyOf (a b : nat) :
  splitOn "_" (keyOf word a b) = ["pref"%string; word; showNat a; showNat b].
Proof.
  unfold keyOf.
  change ("pref_" +:+ word +:+ "_" +:+ showNat a +:+ "_" +:+ showNat b)
    with ("pref" +:+ String "_" (word +:+ String "_" (showNat a +:+ String "_" (showNat b)))).
  rewrite splitOn_app by (simpl; split_and!; done).
  rewrite splitOn_app by done.
  rewrite splitOn_app by (by apply showNat_lacks).
  by rewrite splitOn_lacks by (by apply showNat_lacks).
Qed.

Lemma includes_keyOf (k a b : nat) :
  includes ("_" +:+ showNat k +:+ "_") (keyOf word a b) = true ↔ a = k.
Proof.
  split.
  - intros (pre & post & Heq)%includes_inv.
    pose proof (splitOn_keyOf a b) as Hsplit. rewrite Heq in Hsplit.
    rewrite !string_app_assoc in Hsplit.
    change (pre +:+ "_" +:+ showNat k +:+ "_" +:+ post)
      with (pre +:+ String "_" (showNat k +:+ String "_" post)) in Hsplit.
    rewrite splitOn_sep, splitOn_app in Hsplit by (by apply showNat_lacks).
    pose proof (splitOn_nonempty "_" pre) as Hpre.
    pose proof (splitOn_nonempty "_" post) as Hpost.
    pose proof (f_equal length Hsplit) as Hlen. rewrite length_app in Hlen.
    destruct (splitOn "_" pre) as [|p0 [|p1 [|p2 ?]]]; try done;
      destruct (splitOn "_" post) as [|q0 [|q1 [|q2 ?]]]; try done;
      simpl in Hlen, Hsplit; try lia; simplify_eq.
    + destruct word_letter as (c & s & Hw & Hc). exfalso.
      eapply showNat_not_word; [exact Hc|]. by rewrite <- Hw.
    + by apply showNat_inj.
  - intros ->.
    replace (keyOf word k b)
      with (("pref_" +:+ word) +:+ ("_" +:+ showNat k +:+ "_") +:+ showNat b);
      [apply includes_app|].
    unfold keyOf. by rewrite !string_app_assoc.
Qed.

End Keys.

Lemma wantKey_keyOf (a b : Person) : wantKey a b = keyOf "want" (id a) (id b).
Proof. reflexivity. Qed.

Lemma dislikeKey_keyOf (a b : Person) : dislikeKey a b = keyOf "dislike" (id a) (id b).
Proof. reflexivity. Qed.

Lemma includes_wantKey (k : nat) (a b : Person) :
  includes ("_" +:+ showNat k +:+ "_") (wantKey a b) = true ↔ id a = k.
Proof.
  rewrite wantKey_keyOf. apply includes_keyOf; [by vm_compute|].
  eexists _, _. split; [reflexivity|]. by vm_compute.
Qed.

Lemma includes_dislikeKey (k : nat) (a b : Person) :
  includes ("_" +:+ showNat k +:+ "_") (dislikeKey a b) = true ↔ id a = k.
Proof.
  rewrite dislikeKey_keyOf. apply includes_keyOf; [by vm_compute|].
  eexists _, _. split; [reflexivity|]. by vm_compute.
Qed.

Section Preferences.
Variable st : AppState.
Hypothesis ids_NoDup : NoDup (id <$> people st).
Local Abbreviation n := (length (people st)).

Lemma lastIndex_spec (k : nat) (l : list Person) :
  NoDup (id <$> l) →
  ∀ i, foldl (λ found entry, if bool_decide (id entry.2 = k) then Some entry.1 else found)
         None (imap (λ index p, (index, p)) l) = Some i
       ↔ ∃ p, l !! i = Some p ∧ id p = k.
Proof.
  induction l as [|q l IH] using rev_ind; intros Hnd i.
  { simpl. split; [done|]. by intros (p & ? & _). }
  rewrite fmap_app in Hnd. apply list.NoDup_app in Hnd as (Hnd & Hdisj & _).
  rewrite imap_app, foldl_app. simpl. rewrite Nat.add_0_r.
  case_bool_decide as Hq.
  - split.
    + intros [= <-]. exists q. split; [|done]. by rewrite lookup_app_r, Nat.sub_diag.
    + intros (p & Hp & Hk). f_equal.
      apply lookup_app_Some in Hp as [Hp|[Hle Hp]].
      * exfalso. apply (Hdisj k).
        -- apply list_elem_of_fmap. exists p. split; [done|]. by eapply list_elem_of_lookup_2.
        -- simpl. rewrite Hq. apply list_elem_of_here.
      * apply list_lookup_singleton_Some in Hp as [Hz _]. lia.
  - rewrite (IH Hnd). split.
    + intros (p & Hp & Hk). exists p. split; [by apply lookup_app_l_Some|done].
    + intros (p & Hp & Hk). exists p. split; [|done].
      apply lookup_app_Some in Hp as [Hp|[Hle Hp]]; [done|].
      apply list_lookup_singleton_Some in Hp as [_ <-]. done.
Qed.

Lemma personIdToIndex_Some (key : option Z) (i : nat) :
  TriggerSolutionUpdate.personIdToIndex st key = Some i
  ↔ ∃ p, people st !! i = Some p ∧ key = Some (Z.of_nat (id p)).
Proof.
  unfold TriggerSolutionUpdate.personIdToIndex. destruct key as [z|].
  2:{ split; [done|]. by intros (p & _ & ?). }
  case_bool_decide as Hz.
  - rewrite (lastIndex_spec (Z.to_nat z) _ ids_NoDup). split.
    + intros (p & Hp & Hk). exists p. split; [done|]. f_equal. lia.
    + intros (p & Hp & [= ->]). exists p. split; [done|]. lia.
  - split; [done|]. intros (p & _ & [= ->]). lia.
Qed.

Lemma storePreference_shape (preferences : PreferenceMatrix) (entry : string * bool) :
  length preferences = n → (∀ row, row ∈ preferences → length row = n) →
  length (TriggerSolutionUpdate.storePreference st preferences entry) = n
  ∧ ∀ row, row ∈ TriggerSolutionUpdate.storePreference st preferences entry →
           length row = n.
Proof.
  intros Hlen Hrows. unfold TriggerSolutionUpdate.storePreference.
  destruct entry as [key checked]. unfold PreferenceMatrix in *.
  assert (Halter : ∀ a b v,
    length (alter (λ row : list (option Q), <[b := v]> row) a preferences) = n
    ∧ ∀ row, row ∈ alter (λ row : list (option Q), <[b := v]> row) a preferences →
             length row = n).
  { intros a b v. split; [by rewrite length_alter|].
    intros row (k & Hk)%list_elem_of_lookup_1.
    destruct (decide (k = a)) as [->|Hne].
    - rewrite list_lookup_alter_eq in Hk.
      destruct (preferences !! a) as [r|] eqn:Hr; [|done]. simpl in Hk. simplify_eq.
      rewrite length_insert. apply Hrows. by eapply list_elem_of_lookup_2.
    - rewrite list_lookup_alter_ne in Hk by done. apply Hrows.
      by eapply list_elem_of_lookup_2. }
  repeat (case_bool_decide || case_match); try done; apply Halter.
Qed.

Lemma preferences_shape :
  length (TriggerSolutionUpdate.preferences st) = n
  ∧ ∀ row, row ∈ TriggerSolutionUpdate.preferences st → length row = n.
Proof.
  unfold TriggerSolutionUpdate.preferences, TriggerSolutionUpdate.n.
  assert (Hfold : ∀ entries M,
    length M = n → (∀ row, row ∈ M → length row = n) →
    length (foldl (TriggerSolutionUpdate.storePreference st) M entries) = n
    ∧ ∀ row, row ∈ foldl (TriggerSolutionUpdate.storePreference st) M entries →
             length row = n).
  { induction entries as [|e entries IH]; intros M Hlen Hrows; [done|].
    simpl. destruct (storePreference_shape M e Hlen Hrows). by apply IH. }
  apply Hfold; [apply length_replicate|].
  intros row [-> _]%elem_of_replicate. apply length_replicate.
Qed.

End Preferences.

Lemma keyOf_inj (word word' : string) (a b a' b' : nat) :
  lacks "_" word → lacks "_" word' →
  keyOf word a b = keyOf word' a' b' → word = word' ∧ a = a' ∧ b = b'.
Proof.
  intros Hw Hw' Heq. pose proof (splitOn_keyOf word Hw a b) as Hs.
  rewrite Heq, (splitOn_keyOf word' Hw') in Hs. simplify_eq.
  split_and!; [done|by apply showNat_inj..].
Qed.

Section PreferenceCells.
Variable st : AppState.
Hypothesis ids_NoDup : NoDup (id <$> people st).
Variables (i j : nat) (pa pb : Person).
Hypothesis i_person : people st !! i = Some pa.
Hypothesis j_person : people st !! j = Some pb.
Local Abbreviation n := (length (people st)).
Local Abbreviation at_ij M := (M !! i ≫= λ row : list (option Q), row !! j).

Lemma index_of_id (k : nat) (p : Person) :
  people st !! k = Some p → id p = id pa → k = i.
Proof.
  intros Hk Heq. eapply (NoDup_lookup (id <$> people st)); [done|..].
  - by rewrite list_lookup_fmap, Hk.
  - rewrite list_lookup_fmap, i_person. simpl. by rewrite Heq.
Qed.

Lemma index_of_id' (k : nat) (p : Person) :
  people st !! k = Some p → id p = id pb → k = j.
Proof.
  intros Hk Heq. eapply (NoDup_lookup (id <$> people st)); [done|..].
  - by rewrite list_lookup_fmap, Hk.
  - rewrite list_lookup_fmap, j_person. simpl. by rewrite Heq.
Qed.

Lemma alter_at (M : list (list (option Q))) (a b : nat) (v : option Q) :
  length M = n → (∀ row, row ∈ M → length row = n) → a < n → b < n →
  at_ij (alter (λ row : list (option Q), <[b := v]> row) a M)
  = if bool_decide (a = i ∧ b = j) then Some v else at_ij M.
Proof.
  intros Hlen Hrows Ha Hb.
  destruct (decide (a = i)) as [->|Hai].
  - rewrite list_lookup_alter_eq.
    destruct (lookup_lt_is_Some_2 M i) as [row Hrow]; [lia|]. rewrite Hrow. simpl.
    assert (length row = n) by (apply Hrows; by eapply list_elem_of_lookup_2).
    destruct (decide (b = j)) as [->|Hbj].
    + rewrite bool_decide_eq_true_2 by done. apply list_lookup_insert_eq. lia.
    + rewrite bool_decide_eq_false_2 by tauto. by apply list_lookup_insert_ne.
  - rewrite list_lookup_alter_ne by done. by rewrite bool_decide_eq_false_2 by tauto.
Qed.

(** What a checkbox key does to the cell of [pa] towards [pb]. *)
Lemma storePreference_key (word : string) (M : PreferenceMatrix) (a b : nat)
    (checked : bool) :
  lacks "_" word →
  length M = n → (∀ row, row ∈ M → length row = n) →
  at_ij (TriggerSolutionUpdate.storePreference st M (keyOf word a b, checked))
  = if bool_decide (checked = true ∧ a = id pa ∧ b = id pb)
    then (if bool_decide (word = "want"%string)
          then Some (Some TriggerSolutionUpdate.PREFERENCE_VALUE_CHECKED)
          else if bool_decide (word = "dislike"%string)
               then Some (Some TriggerSolutionUpdate.PREFERENCE_VALUE_DISLIKE)
               else at_ij M)
    else at_ij M.
Proof.
  intros Hword Hlen Hrows. unfold TriggerSolutionUpdate.storePreference.
  rewrite (splitOn_keyOf word Hword a b). unfold PreferenceMatrix in *.
  rewrite bool_decide_eq_true_2 by done.
  change (([ "pref"%string; word; showNat a; showNat b] : list string) !! 2)
    with (Some (showNat a)).
  change (([ "pref"%string; word; showNat a; showNat b] : list string) !! 3)
    with (Some (showNat b)).
  change (([ "pref"%string; word; showNat a; showNat b] : list string) !! 1)
    with (Some word).
  rewrite !parseInt_showNat.
  destruct (TriggerSolutionUpdate.personIdToIndex st (Some (Z.of_nat a))) as [ia|] eqn:Hia.
  2:{ case_bool_decide as Hc; [|done]. exfalso. destruct Hc as (_ & -> & _).
      assert (Hsome : TriggerSolutionUpdate.personIdToIndex st (Some (Z.of_nat (id pa)))
                      = Some i) by (apply personIdToIndex_Some; eauto).
      congruence. }
  destruct (TriggerSolutionUpdate.personIdToIndex st (Some (Z.of_nat b))) as [ib|] eqn:Hib.
  2:{ case_bool_decide as Hc; [|done]. exfalso. destruct Hc as (_ & _ & ->).
      assert (Hsome : TriggerSolutionUpdate.personIdToIndex st (Some (Z.of_nat (id pb)))
                      = Some j) by (apply personIdToIndex_Some; eauto).
      congruence. }
  apply personIdToIndex_Some in Hia as (p & Hp & [= Ha]); [|done].
  apply personIdToIndex_Some in Hib as (q & Hq & [= Hb]); [|done].
  apply Nat2Z.inj in Ha, Hb. subst a b.
  pose proof (lookup_lt_Some _ _ _ Hp). pose proof (lookup_lt_Some _ _ _ Hq).
  assert (Hsame : (ia = i ∧ ib = j) ↔ (id p = id pa ∧ id q = id pb)).
  { split.
    - intros [-> ->]. by simplify_eq.
    - intros [Hpa Hqb]. split; [by eapply index_of_id|by eapply index_of_id']. }
  destruct checked.
  2:{ by rewrite bool_decide_eq_false_2 by (by intros [? _]). }
  case_bool_decide as Hwant.
  { rewrite alter_at by done. injection Hwant as ->.
    repeat case_bool_decide; try done; tauto. }
  case_bool_decide as Hdislike.
  { rewrite alter_at by done. injection Hdislike as ->.
    repeat case_bool_decide; try done; tauto. }
  repeat case_bool_decide; try done; exfalso; simplify_eq; tauto.
Qed.

End PreferenceCells.

Section PreferenceFold.
Variable st : AppState.
Hypothesis ids_NoDup : NoDup (id <$> people st).
Variables (i j : nat) (pa pb : Person).
Hypothesis i_person : people st !! i = Some pa.
Hypothesis j_person : people st !! j = Some pb.
Local Abbreviation n := (length (people st)).

Lemma fold_preferences (entries : list (string * bool)) :
  (∀ key checked, (key, checked) ∈ entries →
     ∃ a b : Person, key = wantKey a b ∨ key = dislikeKey a b) →
  ¬ ((wantKey pa pb, true) ∈ entries ∧ (dislikeKey pa pb, true) ∈ entries) →
  ∀ M : PreferenceMatrix, length M = n → (∀ row, row ∈ M → length row = n) →
  foldl (TriggerSolutionUpdate.storePreference st) M entries !! i
    ≫= (λ row : list (option Q), row !! j)
  = if bool_decide ((wantKey pa pb, true) ∈ entries) then Some (Some 1%Q)
    else if bool_decide ((dislikeKey pa pb, true) ∈ entries) then Some (Some (-1)%Q)
    else M !! i ≫= (λ row : list (option Q), row !! j).
Proof.
  induction entries as [|[key checked] entries IH]; intros Hkeys Hexcl M Hlen Hrows.
  { cbn [foldl]. rewrite !bool_decide_eq_false_2; [done|apply not_elem_of_nil..]. }
  cbn [foldl].
  destruct (storePreference_shape st M (key, checked) Hlen Hrows) as [Hlen' Hrows'].
  rewrite IH; [|intros k c Hk; by apply (Hkeys k c), list_elem_of_further| |done..].
  2:{ intros [? ?]. apply Hexcl. split; by apply list_elem_of_further. }
  destruct (Hkeys key checked (list_elem_of_here _ _)) as (a & b & [-> | ->]).
  - pose proof (storePreference_key st ids_NoDup i j pa pb i_person j_person
                  "want" M (id a) (id b) checked ltac:(by repeat split)
                  Hlen Hrows) as Hcell.
    rewrite <- wantKey_keyOf in Hcell. rewrite Hcell. clear Hcell.
    rewrite (bool_decide_eq_true_2 ("want"%string = "want"%string)) by done.
    assert (Hhere : (wantKey pa pb, true) = (wantKey a b, checked)
                    ↔ checked = true ∧ id a = id pa ∧ id b = id pb).
    { split.
      - intros Heq. apply pair_equal_spec in Heq as [Hk <-]. rewrite !wantKey_keyOf in Hk.
        apply keyOf_inj in Hk as (_ & ? & ?); done.
      - intros (-> & Ha & Hb). by rewrite !wantKey_keyOf, Ha, Hb. }
    assert (Hother : (dislikeKey pa pb, true) ≠ (wantKey a b, checked)).
    { intros Heq. apply pair_equal_spec in Heq as [Hk _].
      rewrite wantKey_keyOf, dislikeKey_keyOf in Hk.
      apply keyOf_inj in Hk as (? & _); done. }
    repeat case_bool_decide; try done;
      repeat match goal with
      | H : _ ∈ _ :: _ |- _ => apply elem_of_cons in H as [H|H]
      | H : _ ∉ _ :: _ |- _ => apply not_elem_of_cons in H as [? ?]
      end; try done; try tauto.
    all: exfalso; apply Hexcl; rewrite !elem_of_cons; tauto.
  - pose proof (storePreference_key st ids_NoDup i j pa pb i_person j_person
                  "dislike" M (id a) (id b) checked ltac:(by repeat split)
                  Hlen Hrows) as Hcell.
    rewrite <- dislikeKey_keyOf in Hcell. rewrite Hcell. clear Hcell.
    rewrite (bool_decide_eq_false_2 ("dislike"%string = "want"%string)) by done.
    rewrite (bool_decide_eq_true_2 ("dislike"%string = "dislike"%string)) by done.
    assert (Hhere : (dislikeKey pa pb, true) = (dislikeKey a b, checked)
                    ↔ checked = true ∧ id a = id pa ∧ id b = id pb).
    { split.
      - intros Heq. apply pair_equal_spec in Heq as [Hk <-]. rewrite !dislikeKey_keyOf in Hk.
        apply keyOf_inj in Hk as (_ & ? & ?); done.
      - intros (-> & Ha & Hb). by rewrite !dislikeKey_keyOf, Ha, Hb. }
    assert (Hother : (wantKey pa pb, true) ≠ (dislikeKey a b, checked)).
    { intros Heq. apply pair_equal_spec in Heq as [Hk _].
      rewrite wantKey_keyOf, dislikeKey_keyOf in Hk.
      apply keyOf_inj in Hk as (? & _); done. }
    repeat case_bool_decide; try done;
      repeat match goal with
      | H : _ ∈ _ :: _ |- _ => apply elem_of_cons in H as [H|H]
      | H : _ ∉ _ :: _ |- _ => apply not_elem_of_cons in H as [? ?]
      end; try done; try tauto.
    all: exfalso; apply Hexcl; rewrite !elem_of_cons; tauto.
Qed.

End PreferenceFold.



Lemma solveSitting_result_length (glpk : GLPKInstance) (pref : PreferenceMatrix)
    (m : AdjacencyMatrix) :
  outcome (solveSitting glpk pref) = Normal m → length m = length pref.
Proof.
  destruct (decide (3 ≤ length pref)) as [Hbig|Hsmall].
  - intros Hout. rewrite solveSitting_iterations in Hout by done.
    apply iterations_Normal in Hout as (j & constraints & _ & _ & Hret).
    destruct (iteration_Return_result _ _ _ _ _ Hret) as [result ->].
    apply resultMatrix_length.
  - unfold solveSitting, SolveSitting.solveSitting, SolveSitting.n.
    repeat case_bool_decide; try lia; simpl; intros [= <-]; simpl; lia.
Qed.

Lemma storePreference_values (st : AppState) (preferences : PreferenceMatrix)
    (entry : string * bool) :
  Forall (Forall preferenceValue) preferences →
  Forall (Forall preferenceValue) (TriggerSolutionUpdate.storePreference st preferences entry).
Proof.
  intros Hall. unfold TriggerSolutionUpdate.storePreference.
  destruct entry as [key checked]. unfold PreferenceMatrix in *.
  assert (Halter : ∀ a b v, preferenceValue (Some v) →
    Forall (Forall preferenceValue)
      (alter (λ row : list (option Q), <[b := Some v]> row) a preferences)).
  { intros a b v Hv. unfold alter. apply Forall_alter; [done|].
    intros row Hrow Hok. apply Forall_insert; [|done].
    rewrite Forall_lookup in Hall. by eapply Hall. }
  case_bool_decide; [|done].
  destruct (TriggerSolutionUpdate.personIdToIndex st _) as [indexA|]; [|done].
  destruct (TriggerSolutionUpdate.personIdToIndex st _) as [indexB|]; [|done].
  destruct checked; [|done].
  case_bool_decide; [apply Halter; unfold preferenceValue; tauto|].
  case_bool_decide; [apply Halter; unfold preferenceValue; tauto|done].
Qed.

(** * Facts about the feasible points of the models *)

Lemma Math_round_0 (q : Q) : (q == 0)%Q → Math_round q = 0%Z.
Proof. intros Hq. unfold Math_round. by rewrite Hq. Qed.

Lemma Math_round_1 (q : Q) : (q == 1)%Q → Math_round q = 1%Z.
Proof. intros Hq. unfold Math_round. by rewrite Hq. Qed.

Lemma binary_round (q : Q) :
  (q == 0)%Q ∨ (q == 1)%Q → (q == inject_Z (Math_round q))%Q.
Proof. intros [Hq|Hq]; [rewrite (Math_round_0 q Hq)|rewrite (Math_round_1 q Hq)]; by rewrite Hq. Qed.

Section Model.
Variable glpk : GLPKInstance.
Variable pref : PreferenceMatrix.
Local Abbreviation n := (length pref).
Local Abbreviation base := (SolveSitting.baseLpProblem glpk pref).

Lemma binaries_pairs :
  binaries base
  = (λ ij, SolveSitting.getVarName ij.1 ij.2)
      <$> (seq 0 n ≫= λ i, (λ j, (i, j)) <$> filter (λ j, i ≠ j) (seq 0 n)).
Proof.
  simpl. unfold SolveSitting.indices, SolveSitting.n.
  assert (Hgen : ∀ L T : list nat,
    (L ≫= λ i, (λ j, SolveSitting.getVarName i j) <$> filter (λ j, i ≠ j) T)
    = (λ ij, SolveSitting.getVarName ij.1 ij.2)
        <$> (L ≫= λ i, (λ j, (i, j)) <$> filter (λ j, i ≠ j) T)).
  { intros L T. induction L as [|i L IH]; [done|].
    rewrite !bind_cons, fmap_app. f_equal; [|apply IH].
    by rewrite <- list_fmap_compose. }
  apply Hgen.
Qed.

Lemma elem_of_off_diagonal (a b : nat) :
  (a, b) ∈ (seq 0 n ≫= λ i, (λ j, (i, j)) <$> filter (λ j, i ≠ j) (seq 0 n))
  ↔ a < n ∧ b < n ∧ a ≠ b.
Proof.
  rewrite list_elem_of_bind. split.
  - intros (i & (j & [= -> ->] & [Hne Hj%elem_of_seq]%list_elem_of_filter)%list_elem_of_fmap
              & Hi%elem_of_seq). lia.
  - intros (Ha & Hb & Hne). exists a. split; [|apply elem_of_seq; lia].
    apply list_elem_of_fmap. exists b. split; [done|].
    apply list_elem_of_filter. split; [done|apply elem_of_seq; lia].
Qed.

(** The matrix read from the answer that reports [x]: the rounded value of
    [x_a_b] off the diagonal and 0 on it. *)
Lemma answer_entry (x : string → Q) (s : Z) (a b : nat) :
  a < n → b < n →
  SolveSitting.entry (SolveSitting.resultMatrix pref (answerOf base x s)) a b
  = if bool_decide (a ≠ b) then Math_round (x (SolveSitting.getVarName a b)) else 0%Z.
Proof.
  intros Ha Hb. unfold SolveSitting.entry, SolveSitting.resultMatrix, answerOf.
  cbn [result_vars]. rewrite binaries_pairs, <- list_fmap_compose.
  rewrite (foldl_storeVar_cell pref _ (λ i j, x (SolveSitting.getVarName i j)));
    [|apply length_replicate|by intros row [-> _]%elem_of_replicate; apply length_replicate
     |done..].
  case_bool_decide as Hin; apply elem_of_off_diagonal in Hin || rewrite elem_of_off_diagonal in Hin.
  - rewrite bool_decide_eq_true_2 by lia. done.
  - rewrite bool_decide_eq_false_2 by lia. unfold cell, SolveSitting.n, AdjacencyMatrix.
    rewrite lookup_replicate_2 by done. simpl. by rewrite lookup_replicate_2.
Qed.

Lemma satisfied_FX (x : string → Q) (c : GLPKConstraint) :
  type (bnds c) = GLP_FX glpk → satisfied glpk x c → (constraintValue x c == ub (bnds c))%Q.
Proof. intros Htype. unfold satisfied. by rewrite bool_decide_eq_true_2. Qed.

Section Feasible.
Variable constraints : list GLPKConstraint.
Variable x : string → Q.
Hypothesis x_feasible : feasible glpk (SolveSitting.lpProblemForIter glpk pref constraints) x.

Lemma feasible_binary (i j : nat) :
  i < n → j < n → i ≠ j →
  (x (SolveSitting.getVarName i j) == 0)%Q ∨ (x (SolveSitting.getVarName i j) == 1)%Q.
Proof.
  intros Hi Hj Hne. apply x_feasible. simpl.
  apply (elem_of_ordered_pairs pref (λ i j, SolveSitting.getVarName i j)).
  exists i, j. unfold SolveSitting.n. done.
Qed.

Lemma feasible_symmetric (i j : nat) :
  i < j → j < n →
  (x (SolveSitting.getVarName i j) == x (SolveSitting.getVarName j i))%Q.
Proof.
  intros Hij Hj. destruct x_feasible as [_ Hcons].
  pose proof (Hcons _ ltac:(apply elem_of_app; left; by apply (base_symmetry glpk pref i j)))
    as Hsat.
  apply satisfied_FX in Hsat; [|done]. unfold constraintValue in Hsat. simpl in Hsat.
  set (a := x (SolveSitting.getVarName i j)) in *.
  set (b := x (SolveSitting.getVarName j i)) in *.
  transitivity (b + (1 * a + (-1 * b + 0)))%Q; [ring|rewrite Hsat; ring].
Qed.

Lemma feasible_rowsum (i : nat) :
  i < n →
  foldr Z.add 0%Z ((λ j, Math_round (x (SolveSitting.getVarName i j)))
                     <$> filter (λ j, i ≠ j) (seq 0 n)) = 2%Z.
Proof.
  intros Hi. destruct x_feasible as [_ Hcons].
  pose proof (Hcons _ ltac:(apply elem_of_app; left; by apply (base_rowsum glpk pref i)))
    as Hsat.
  apply satisfied_FX in Hsat; [|done].
  rewrite (constraintValue_pairs x (λ i j, Math_round (x (SolveSitting.getVarName i j)))
             ((λ j, (i, j)) <$> filter (λ j, i ≠ j) (seq 0 n))) in Hsat.
  - rewrite <- list_fmap_compose in Hsat. simpl in Hsat.
    apply (inject_Z_injective _ 2). exact Hsat.
  - simpl. by rewrite <- list_fmap_compose.
  - intros [a b] (j & Heq & [Hne Hj%elem_of_seq]%list_elem_of_filter)%list_elem_of_fmap.
    injection Heq as -> ->. cbn [fst snd]. apply binary_round, feasible_binary; lia.
Qed.

End Feasible.
End Model.

Lemma feasible_answer_valid (glpk : GLPKInstance) (pref : PreferenceMatrix)
    (constraints : list GLPKConstraint) (x : string → Q) (s : Z) :
  let P := SolveSitting.lpProblemForIter glpk pref constraints in
  feasible glpk P x →
  assertionsHold (SolveSitting.resultMatrix pref (answerOf P x s)).
Proof.
  intros P Hfeas. subst P.
  change (answerOf (SolveSitting.lpProblemForIter glpk pref constraints) x s)
    with (answerOf (SolveSitting.baseLpProblem glpk pref) x s).
  unfold assertionsHold. rewrite resultMatrix_length. unfold SolveSitting.n.
  split_and!.
  - intros i j Hi Hj. rewrite answer_entry by done. case_bool_decide; [|by left].
    destruct (feasible_binary glpk pref constraints x Hfeas i j) as [Hx|Hx]; try done.
    + left. by apply Math_round_0.
    + right. by apply Math_round_1.
  - intros i j Hi Hj Hne. rewrite !answer_entry by done.
    rewrite !bool_decide_eq_true_2 by done. unfold Math_round.
    destruct (decide (i < j)).
    + by rewrite (feasible_symmetric glpk pref constraints x Hfeas i j) by lia.
    + by rewrite (feasible_symmetric glpk pref constraints x Hfeas j i) by lia.
  - intros i Hi. rewrite answer_entry by done. by rewrite bool_decide_eq_false_2 by tauto.
  - intros i Hi. unfold rowSum.
    rewrite <- (feasible_rowsum glpk pref constraints x Hfeas i Hi). f_equal.
    apply list_fmap_ext. intros k j [Hne Hj%elem_of_seq]%list_elem_of_lookup_2%list_elem_of_filter.
    rewrite answer_entry by lia. by rewrite bool_decide_eq_true_2.
Qed.

Lemma valuationOf_getVarName (m : AdjacencyMatrix) (i j : nat) :
  valuationOf m (SolveSitting.getVarName i j) = inject_Z (SolveSitting.entry m i j).
Proof.
  unfold valuationOf. rewrite splitOn_getVarName.
  change ((["x"; showNat i; showNat j]%string : list string) !! 1) with (Some (showNat i)).
  change ((["x"; showNat i; showNat j]%string : list string) !! 2) with (Some (showNat j)).
  by rewrite !parseInt_showNat, !Nat2Z.id.
Qed.

Lemma closed_reach (m : AdjacencyMatrix) (S : list nat) (y z : nat) :
  (∀ u v, u ∈ S → edge m u v → v ∈ S) → y ∈ S → rtc (edge m) y z → z ∈ S.
Proof.
  intros Hclosed Hy Hreach. revert z Hreach.
  apply (rtc_ind_r (λ z, z ∈ S)); [done|].
  intros u v _ Huv Hu. by eapply Hclosed.
Qed.

(** On a matrix that passes the checks [findSubtours] finds one cycle when
    every node can be reached from node 0. *)
Lemma connected_single_cycle (h : AdjacencyMatrix) :
  assertionsHold h → 0 < length h →
  (∀ x, x < length h → rtc (edge h) 0 x) →
  ∃ cycle, findSubtours h = [cycle] ∧ cycle ≡ₚ seq 0 (length h).
Proof.
  intros Hvalid Hn Hreach.
  destruct (findSubtours_valid h Hvalid) as [Hperm Hcycles].
  destruct (findSubtours_inv h) as (Hnd & _).
  pose proof (valid_symmetric h Hvalid) as Hsym.
  assert (Hzero : ∀ S, S ∈ findSubtours h → 0 ∈ S).
  { intros S HS. destruct (Hcycles S HS) as (Hlen & _ & Hclosed).
    destruct S as [|y S']; [simpl in Hlen; lia|].
    assert (Hy : y < length h).
    { assert (Hin : y ∈ seq 0 (length h)).
      { rewrite <- Hperm. apply list_elem_of_join. exists (y :: S'). split; [left|done]. }
      apply elem_of_seq in Hin. lia. }
    apply (closed_reach h (y :: S') y 0 Hclosed); [left|].
    by apply rtc_edge_sym, Hreach. }
  destruct (findSubtours h) as [|S [|S' l]] eqn:Hsub.
  - simpl in Hperm. apply Permutation_length in Hperm. rewrite length_seq in Hperm.
    simpl in Hperm. lia.
  - exists S. split; [done|]. simpl in Hperm. by rewrite app_nil_r in Hperm.
  - exfalso.
    assert (0 = 1); [|done].
    apply (join_unique (S :: S' :: l) 0 1 S S' 0 Hnd); [done..| |].
    + apply Hzero. left.
    + apply Hzero. right. left.
Qed.

Section Ring.
Variable n : nat.
Hypothesis n_size : 3 ≤ n.

Lemma ring_length : length (ringMatrix n) = n.
Proof. unfold ringMatrix. by rewrite length_fmap, length_seq. Qed.

Lemma ring_entry (i j : nat) :
  i < n → j < n →
  SolveSitting.entry (ringMatrix n) i j
  = if bool_decide (j = ringNext n i ∨ i = ringNext n j) then 1%Z else 0%Z.
Proof.
  intros Hi Hj. unfold SolveSitting.entry, cell, ringMatrix, AdjacencyMatrix.
  rewrite list_lookup_fmap, lookup_seq_lt by done. simpl.
  rewrite list_lookup_fmap, lookup_seq_lt by done. done.
Qed.

Lemma ring_neighbours (i : nat) :
  i < n →
  filter (λ j, SolveSitting.entry (ringMatrix n) i j = 1%Z) (filter (λ j, i ≠ j) (seq 0 n))
  ≡ₚ [ringNext n i; if bool_decide (i = 0) then n - 1 else i - 1].
Proof.
  intros Hi. apply NoDup_Permutation.
  - apply NoDup_filter, NoDup_filter, NoDup_seq.
  - apply NoDup_cons. split; [|apply NoDup_singleton].
    rewrite list_elem_of_singleton. unfold ringNext. repeat case_bool_decide; lia.
  - intros j. rewrite !list_elem_of_filter, elem_of_seq, elem_of_cons, list_elem_of_singleton.
    split.
    + intros (Hone & Hne & Hj). rewrite ring_entry in Hone by lia.
      case_bool_decide as Hadj; [|done]. revert Hadj. unfold ringNext.
      repeat case_bool_decide; lia.
    + intros Hj.
      assert (Hlt : j < n) by (revert Hj; unfold ringNext; repeat case_bool_decide; lia).
      rewrite ring_entry by lia. split_and!; [|revert Hj; unfold ringNext..|lia|lia].
      * rewrite bool_decide_eq_true_2; [done|]. revert Hj. unfold ringNext.
        repeat case_bool_decide; lia.
      * repeat case_bool_decide; lia.
Qed.

Lemma ring_valid : assertionsHold (ringMatrix n).
Proof.
  unfold assertionsHold. rewrite ring_length. split_and!.
  - intros i j Hi Hj. rewrite ring_entry by done. case_bool_decide; tauto.
  - intros i j Hi Hj Hne. rewrite !ring_entry by done.
    repeat case_bool_decide; try done; tauto.
  - intros i Hi. rewrite ring_entry by done. rewrite bool_decide_eq_false_2; [done|].
    unfold ringNext. case_bool_decide; lia.
  - intros i Hi. unfold rowSum. rewrite sum_indicator.
    + by rewrite ring_neighbours.
    + intros j [_ Hj%elem_of_seq]%list_elem_of_filter. rewrite ring_entry by lia.
      case_bool_decide; tauto.
Qed.

Lemma ring_connected (x : nat) : x < n → rtc (edge (ringMatrix n)) 0 x.
Proof.
  induction x as [|x IH]; intros Hx; [done|].
  eapply rtc_r; [apply IH; lia|]. unfold edge. rewrite ring_length.
  split_and!; [lia..|]. apply entry_isOne. rewrite ring_entry by lia.
  rewrite bool_decide_eq_true_2; [done|]. left. unfold ringNext.
  rewrite bool_decide_eq_false_2 by lia. lia.
Qed.

Lemma ring_single_cycle :
  ∃ cycle, findSubtours (ringMatrix n) = [cycle] ∧ cycle ≡ₚ seq 0 n.
Proof.
  destruct (connected_single_cycle (ringMatrix n) ring_valid) as (cycle & Hsub & Hperm).
  - rewrite ring_length. lia.
  - intros x Hx. rewrite ring_length in Hx. by apply ring_connected.
  - rewrite ring_length in Hperm. eauto.
Qed.

End Ring.

Section Hamiltonian.
Variable glpk : GLPKInstance.
Variable pref : PreferenceMatrix.
Local Abbreviation n := (length pref).
Local Abbreviation base := (SolveSitting.baseLpProblem glpk pref).
Variable h : AdjacencyMatrix.
Hypothesis h_valid : assertionsHold h.
Hypothesis h_length : length h = n.

Lemma valid_binaries (v : string) :
  v ∈ binaries base → (valuationOf h v == 0)%Q ∨ (valuationOf h v == 1)%Q.
Proof.
  simpl. intros (i & j & Hi & Hj & Hne & ->)%elem_of_ordered_pairs.
  rewrite valuationOf_getVarName. destruct h_valid as (Hbin & _).
  unfold SolveSitting.n in *.
  destruct (Hbin i j) as [->| ->]; [lia..|by left|by right].
Qed.

Lemma valid_satisfies_base (c : GLPKConstraint) :
  c ∈ subjectTo base → satisfied glpk (valuationOf h) c.
Proof.
  destruct h_valid as (Hbin & Hsym & _ & Hdeg).
  simpl. intros [Hc|Hc]%elem_of_app.
  - apply list_elem_of_fmap in Hc as (i & -> & Hi%elem_of_indices).
    unfold satisfied. cbn [bnds type ub]. rewrite bool_decide_eq_true_2 by done.
    rewrite (constraintValue_pairs (valuationOf h) (SolveSitting.entry h)
               ((λ j, (i, j)) <$> filter (λ j, i ≠ j) (SolveSitting.indices pref))).
    + rewrite <- list_fmap_compose.
      change (foldr Z.add 0%Z (_ <$> _)) with (rowSum (SolveSitting.n pref) h i).
      unfold SolveSitting.n in *. rewrite <- h_length, Hdeg by lia. done.
    + simpl. by rewrite <- list_fmap_compose.
    + intros [a b] _. by rewrite valuationOf_getVarName.
  - apply list_elem_of_bind in Hc as (i & Hc & Hi%elem_of_indices).
    apply list_elem_of_fmap in Hc as (j & -> & [Hij Hj%elem_of_indices]%list_elem_of_filter).
    unfold satisfied. cbn [bnds type ub]. rewrite bool_decide_eq_true_2 by done.
    unfold constraintValue. cbn [vars fmap list_fmap foldr name coef].
    rewrite !valuationOf_getVarName. unfold SolveSitting.n in *.
    rewrite (Hsym i j) by lia. ring.
Qed.

Variable cycle : list nat.
Hypothesis h_single : findSubtours h = [cycle].
Hypothesis bounds_differ : GLP_FX glpk ≠ GLP_UP glpk.

Lemma valid_satisfies_cut (c : GLPKConstraint) :
  properCut glpk n c → satisfied glpk (valuationOf h) c.
Proof.
  intros (iter & S & -> & Hnd & Hlt & Hlen). unfold satisfied.
  cbn [SolveSitting.eliminationConstraint bnds type].
  rewrite bool_decide_eq_false_2 by done. rewrite bool_decide_eq_true_2 by done.
  apply (eliminationConstraint_keeps glpk iter h cycle S); try done.
  - by rewrite h_length.
  - by rewrite h_length.
  - intros i j _ _. by rewrite valuationOf_getVarName.
Qed.

Lemma valid_feasible (constraints : list GLPKConstraint) :
  (∀ c, c ∈ constraints → properCut glpk n c) →
  feasible glpk (SolveSitting.lpProblemForIter glpk pref constraints) (valuationOf h).
Proof.
  intros Hcuts. split.
  - apply valid_binaries.
  - intros c [Hc|Hc]%elem_of_app; [by apply valid_satisfies_base|].
    by apply valid_satisfies_cut, Hcuts.
Qed.

End Hamiltonian.

Section Cuts.
Variable glpk : GLPKInstance.
Variable pref : PreferenceMatrix.
Local Abbreviation n := (length pref).

Lemma newConstraints_proper (iter : nat) (m : AdjacencyMatrix) (c : GLPKConstraint) :
  length m = n →
  c ∈ SolveSitting.newConstraints glpk pref iter (findSubtours m) → properCut glpk n c.
Proof.
  intros Hm (S & -> & [[Hlt Hpos] HS]%list_elem_of_filter)%list_elem_of_fmap.
  destruct (findSubtours_inv m) as (Hnd & Hrange & _).
  exists iter, S. split_and!; [done| | |done|done].
  - by eapply NoDup_join_elem.
  - intros x Hx. unfold FindSubtours.n in Hrange. rewrite <- Hm.
    apply Hrange, list_elem_of_join. eauto.
Qed.

Lemma iteration_Continue_proper (iter : nat) (constraints constraints' : list GLPKConstraint) :
  SolveSitting.iteration glpk pref iter constraints = Continue constraints' →
  (∀ c, c ∈ constraints → properCut glpk n c) →
  ∀ c, c ∈ constraints' → properCut glpk n c.
Proof.
  unfold SolveSitting.iteration.
  destruct (solve glpk _ _ _) as [result|] eqn:Hsolve; [|done].
  case_bool_decide as Hst; [by case_bool_decide|].
  rewrite verifyRows_Normal.
  assert (Hadd : ∀ c, (∀ c, c ∈ constraints → properCut glpk n c) →
    c ∈ constraints ++ SolveSitting.newConstraints glpk pref iter
                         (findSubtours (SolveSitting.resultMatrix pref result)) →
    properCut glpk n c).
  { intros c Hold [Hc|Hc]%elem_of_app; [by apply Hold|].
    eapply newConstraints_proper; [|done]. apply resultMatrix_length. }
  repeat case_bool_decide; try done; intros [= <-] Hold c Hc; by eauto.
Qed.

Lemma advance_proper (j : nat) :
  ∀ iter constraints constraints',
  advance glpk pref j iter constraints = Some constraints' →
  (∀ c, c ∈ constraints → properCut glpk n c) →
  ∀ c, c ∈ constraints' → properCut glpk n c.
Proof.
  induction j as [|j IH]; intros iter constraints constraints'; simpl.
  { by intros [= <-]. }
  destruct (SolveSitting.iteration glpk pref iter constraints) as [| |c1] eqn:Hit; [done..|].
  intros Hadv Hold. eapply IH; [done|]. by eapply iteration_Continue_proper.
Qed.

(** The call with which a pass of the loop is reached. *)
Lemma advance_call (k : nat) (constraints : list GLPKConstraint) :
  3 ≤ n → k < SolveSitting.MAX_SUBTOUR_ITERATIONS pref →
  advance glpk pref k 0 [] = Some constraints →
  calls (solveSitting glpk pref) !! k
  = Some (SolveSitting.lpProblemForIter glpk pref constraints).
Proof.
  intros Hn Hk Hadv. rewrite solveSitting_iterations by done.
  destruct (iterations_advance glpk pref k (SolveSitting.MAX_SUBTOUR_ITERATIONS pref)
              0 [] constraints Hadv) as (_ & front & Hlen & Hcalls); [lia|].
  rewrite Hcalls.
  destruct (SolveSitting.MAX_SUBTOUR_ITERATIONS pref - k) as [|r] eqn:Hr; [lia|].
  destruct (iterations_first_call glpk pref r (0 + k) constraints) as [rest Hrest].
  rewrite Hrest, lookup_app_r by lia. by rewrite Hlen, Nat.sub_diag.
Qed.

End Cuts.

Lemma iteration_Return_solve (glpk : GLPKInstance) (pref : PreferenceMatrix)
    (iter : nat) (constraints : list GLPKConstraint) (m : AdjacencyMatrix) :
  SolveSitting.iteration glpk pref iter constraints = Return m →
  ∃ result,
    solve glpk iter (SolveSitting.lpProblemForIter glpk pref constraints)
      (SolveSitting.solverOptions glpk) = Resolved result
    ∧ m = SolveSitting.resultMatrix pref result.
Proof.
  unfold SolveSitting.iteration.
  destruct (solve glpk _ _ _) as [result|]; [|done].
  case_bool_decide; [by case_bool_decide|].
  destruct (SolveSitting.verifyRows _ _ _); [|done].
  repeat case_bool_decide; try done. intros [= <-]. eauto.
Qed.

(** * Facts about the one-shot solver *)

Lemma docs_varMatrix (pref : PreferenceMatrix) (result : GLPKSolveResult) :
  DocsSolveSitting.varMatrix pref result = SolveSitting.resultMatrix pref result.
Proof. reflexivity. Qed.

Lemma docs_binaries (glpk : GLPKInstance) (pref : PreferenceMatrix) :
  binaries (DocsSolveSitting.lpProblem glpk pref)
  = binaries (SolveSitting.baseLpProblem glpk pref).
Proof. reflexivity. Qed.

Lemma constraintValue_ext (x : string → Q) (L : list nat) (f g : nat → string)
    (c1 c2 : GLPKConstraint) :
  vars c1 = (λ i, {| name := f i; coef := 1 |}) <$> L →
  vars c2 = (λ i, {| name := g i; coef := 1 |}) <$> L →
  (∀ i, i ∈ L → (x (f i) == x (g i))%Q) →
  (constraintValue x c1 == constraintValue x c2)%Q.
Proof.
  unfold constraintValue. intros -> ->. induction L as [|i L IH]; intros Hx; [done|].
  rewrite !fmap_cons. cbn [foldr name coef].
  rewrite IH by (intros i' Hi'; by apply Hx, list_elem_of_further).
  by rewrite (Hx i) by apply list_elem_of_here.
Qed.

Section DocsModel.
Variable glpk : GLPKInstance.
Variable pref : PreferenceMatrix.
Local Abbreviation n := (length pref).
Local Abbreviation base := (SolveSitting.baseLpProblem glpk pref).
Local Abbreviation docs := (DocsSolveSitting.lpProblem glpk pref).

Lemma base_in_docs (c : GLPKConstraint) : c ∈ subjectTo base → c ∈ subjectTo docs.
Proof.
  simpl. rewrite !elem_of_app. intros [Hc|Hc]; [by left|right; by right].
Qed.

Lemma docs_cases (c : GLPKConstraint) :
  c ∈ subjectTo docs →
  c ∈ subjectTo base
  ∨ ∃ j, j < n
      ∧ c = {| constraint_name := "ColSum_" +:+ showNat j;
               vars := (λ i, {| name := SolveSitting.getVarName i j; coef := 1 |})
                         <$> filter (λ i, i ≠ j) (seq 0 n);
               bnds := {| type := GLP_FX glpk; ub := 2; lb := 2 |} |}.
Proof.
  simpl. rewrite !elem_of_app. intros [Hc|[Hc|Hc]]; [left; by left| |left; by right].
  right. apply list_elem_of_fmap in Hc as (j & -> & Hj%elem_of_seq).
  exists j. split; [unfold DocsSolveSitting.n in Hj; lia|done].
Qed.

Lemma base_satisfies_colsum (x : string → Q) (j : nat) :
  j < n → (∀ c, c ∈ subjectTo base → satisfied glpk x c) →
  satisfied glpk x
    {| constraint_name := "ColSum_" +:+ showNat j;
       vars := (λ i, {| name := SolveSitting.getVarName i j; coef := 1 |})
                 <$> filter (λ i, i ≠ j) (seq 0 n);
       bnds := {| type := GLP_FX glpk; ub := 2; lb := 2 |} |}.
Proof.
  intros Hj Hbase.
  pose proof (Hbase _ (base_rowsum glpk pref j Hj)) as Hrow.
  apply satisfied_FX in Hrow; [|done].
  unfold satisfied. cbn [bnds type ub] in *. rewrite bool_decide_eq_true_2 by done.
  etransitivity; [|exact Hrow].
  apply constraintValue_ext with (L := filter (λ i, i ≠ j) (seq 0 n))
         (f := λ i, SolveSitting.getVarName i j) (g := λ i, SolveSitting.getVarName j i).
  - done.
  - simpl. f_equal. apply list_filter_iff. intros i. split; intros ? ?; by subst.
  - intros i [Hne Hi%elem_of_seq]%list_elem_of_filter.
    assert (Hsym : ∀ a b, a < b → b < n →
              (x (SolveSitting.getVarName a b) == x (SolveSitting.getVarName b a))%Q).
    { intros a b Hab Hb.
      pose proof (Hbase _ (base_symmetry glpk pref a b Hab Hb)) as Hsat.
      apply satisfied_FX in Hsat; [|done]. unfold constraintValue in Hsat. simpl in Hsat.
      set (u := x (SolveSitting.getVarName a b)) in *.
      set (v := x (SolveSitting.getVarName b a)) in *.
      transitivity (v + (1 * u + (-1 * v + 0)))%Q; [ring|rewrite Hsat; ring]. }
    destruct (decide (i < j)); [apply Hsym; lia|symmetry; apply Hsym; lia].
Qed.

End DocsModel.

Lemma docs_model_same (glpk : GLPKInstance) (pref : PreferenceMatrix)
    (x : string → Q) :
  binaries (DocsSolveSitting.lpProblem glpk pref)
    = binaries (SolveSitting.baseLpProblem glpk pref)
  ∧ objective (DocsSolveSitting.lpProblem glpk pref)
    = objective (SolveSitting.baseLpProblem glpk pref)
  ∧ (feasible glpk (DocsSolveSitting.lpProblem glpk pref) x
     ↔ feasible glpk (SolveSitting.baseLpProblem glpk pref) x).
Proof.
  split; [done|]. split; [done|]. unfold feasible. rewrite docs_binaries. split.
  - intros [Hbin Hcons]. split; [done|]. intros c Hc. by apply Hcons, base_in_docs.
  - intros [Hbin Hcons]. split; [done|]. intros c Hc.
    apply docs_cases in Hc as [Hc|(j & Hj & ->)]; [by apply Hcons|].
    by apply base_satisfies_colsum.
Qed.

(** With symmetric adjacency nobody has a neighbour at another table. *)
Lemma tables_closed (m : AdjacencyMatrix) (tables : list (list nat)) (T : list nat)
    (u v : nat) :
  symmetricEdges m → extractTablesFromMatrix m = Normal tables →
  T ∈ tables → u ∈ T → edge m u v → v ∈ T.
Proof.
  intros Hsym Hres HT Hu Huv.
  destruct (extractTablesFromMatrix_Normal m tables Hres)
    as (visited & Hlen & Hnd & Hvis & Hbelow & Htab & Hord & Hclosed).
  cbn [fst snd] in *. apply list_elem_of_lookup_1 in HT as (k & HT).
  destruct (Hclosed k T u v HT Hu Huv) as (k' & T' & Hk' & HT' & Hv).
  destruct (Hclosed k' T' v u HT' Hv (Hsym _ _ Huv)) as (k'' & T'' & Hk'' & HT'' & Hu').
  assert (k'' = k) by (by eapply (join_unique tables k'' k T'' T u)).
  assert (k' = k) by lia. by simplify_eq.
Qed.

(** On a matrix that passes the checks every table has at least three
    people. *)
Lemma valid_tables (m : AdjacencyMatrix) (tables : list (list nat)) (T : list nat) :
  assertionsHold m → extractTablesFromMatrix m = Normal tables → T ∈ tables →
  3 ≤ length T.
Proof.
  intros Hvalid Hres HT.
  pose proof (valid_symmetric m Hvalid) as Hsym.
  destruct (extractTablesFromMatrix_Normal m tables Hres)
    as (visited & Hlen & Hnd & Hvis & Hbelow & Htab & Hord & Hclosed).
  cbn [fst snd] in *. destruct (Htab T HT) as (i & Hi & Hhead & _ & Hmem).
  assert (HiT : i ∈ T) by (destruct T; simplify_eq/=; left).
  assert (Hlt : i < length m) by (by destruct (Hmem i HiT)).
  pose proof (valid_degree m Hvalid i Hlt) as Hdeg.
  assert (Hnd' : NoDup (ExtractTableCycle.neighborsOf m i)).
  { apply NoDup_filter, NoDup_seq. }
  assert (Hnb : ∀ a, a ∈ ExtractTableCycle.neighborsOf m i → a ≠ i ∧ a ∈ T).
  { intros a [Hone Ha%elem_of_seq]%list_elem_of_filter.
    assert (a ≠ i) by (intros ->; by eapply valid_loop_free).
    split; [done|]. apply (tables_closed m tables T i a); try done.
    unfold edge. unfold ExtractTableCycle.n in Ha. split_and!; [done|lia|done]. }
  destruct (ExtractTableCycle.neighborsOf m i) as [|a [|b [|c rest]]]; simpl in Hdeg; try lia.
  assert (Hsub : [i; a; b] ⊆+ T).
  { apply NoDup_submseteq.
    - apply NoDup_cons. split; [|done].
      intros Hin. apply elem_of_cons in Hin as [Heq|Hin%list_elem_of_singleton].
      + destruct (Hnb a); [left|]. congruence.
      + destruct (Hnb b); [right; left|]. congruence.
    - intros y Hy. apply elem_of_cons in Hy as [->|Hy]; [done|].
      by destruct (Hnb y Hy). }
  apply submseteq_length in Hsub. simpl in Hsub. lia.
Qed.

Lemma docs_tables_shape (glpk : GLPKInstance) (pref : PreferenceMatrix)
    (m : AdjacencyMatrix) :
  docs_outcome (DocsSolveSitting.solveSitting glpk pref) = Normal m →
  length m = length pref
  ∧ squareMatrix m
  ∧ ∃ tables, extractTablesFromMatrix m = Normal tables
      ∧ mjoin tables ≡ₚ seq 0 (length pref).
Proof.
  intros Hout.
  assert (Hshape : length m = length pref ∧ squareMatrix m).
  { revert Hout. unfold DocsSolveSitting.solveSitting, DocsSolveSitting.n.
    repeat case_bool_decide; simpl; try (intros [= <-]; split; [simpl; lia|]).
    - by intros row ?%elem_of_nil.
    - intros row ->%list_elem_of_singleton. done.
    - intros row [->|Hrow]%elem_of_cons; [done|].
      by apply list_elem_of_singleton in Hrow as ->.
    - destruct (solve glpk _ _ _) as [result|]; [|done].
      case_bool_decide; [done|]. intros [= <-]. rewrite docs_varMatrix. split.
      + apply resultMatrix_length.
      + intros row Hrow. rewrite resultMatrix_length. by eapply resultMatrix_rows. }
  destruct Hshape as [Hlen Hsq]. split; [done|]. split; [done|].
  destruct (extractTablesFromMatrix m) as [tables|e] eqn:Hres.
  - exists tables. split; [done|]. rewrite <- Hlen. by apply tables_Permutation.
  - exfalso. apply extractTablesFromMatrix_Abrupt in Hres as (_ & Hn & Hrow).
    apply Hrow. destruct m as [|row rows]; [simpl in Hn; lia|]. simpl. f_equal.
    apply Hsq. left.
Qed.

(** * Facts about the agreement of findSubtours and extractTablesFromMatrix *)

Section ValidHeads.
Variable m : AdjacencyMatrix.
Hypothesis m_size : 3 ≤ length m.
Hypothesis m_degree : ∀ x, x < length m → length (ExtractTableCycle.neighborsOf m x) = 2.
Hypothesis m_symmetric : symmetricEdges m.
Hypothesis m_loop_free : ∀ x, ¬ isOne m x x.

Lemma visitNode_heads (fuel : nat) (st st' : list bool * list (list nat)) (i : nat) :
  i < length m → coverInv m i st → headsInv i st.2 →
  FindSubtours.visitNode m fuel st i = Some st' → headsInv (S i) st'.2.
Proof.
  intros Hi Hcover [Hmin Hord] Hvisit.
  pose proof (visitNode_cover m m_size m_degree m_symmetric m_loop_free fuel st st' i Hi
                Hcover Hvisit) as Hcover'.
  assert (Hweak : headsInv (S i) st.2).
  { split; [|done]. intros S HS. destruct (Hmin S HS) as (j & ? & ? & ?).
    exists j. split_and!; [done|lia|done]. }
  destruct st as [visited subtours], st' as [visited2 subtours2]. cbn [fst snd] in *.
  apply (visitNode_subtours m m_size) in Hvisit
    as [Heq|(visited' & cycle & Hne & Hfresh & Htrace & Heq)]; cbn [fst snd] in Heq;
    subst subtours2; [done|].
  destruct Hcover as (Hinv & Hin & Hbelow & _).
  destruct Hcover' as ((_ & Hnd & _) & _). cbn [fst snd] in *.
  apply traceCycle_walk in Htrace as (new & Heq & Hwalk); [|done..].
  simpl in Heq. subst new.
  destruct (walk_closedWalk m m_size cycle i Hi Hne Hwalk) as [Hhead _].
  assert (Hlow : ∀ x, x ∈ cycle → i ≤ x).
  { intros x Hx. destruct (decide (i ≤ x)) as [|Hlt]; [done|]. exfalso.
    assert (Hold : x ∈ mjoin subtours) by (apply Hin, Hbelow; lia).
    rewrite join_app in Hnd. simpl in Hnd. rewrite app_nil_r in Hnd.
    apply list.NoDup_app in Hnd as (_ & Hdisj & _). by apply (Hdisj x). }
  split.
  - intros S [HS|HS%list_elem_of_singleton]%elem_of_app.
    + destruct (Hmin S HS) as (j & ? & ? & ?). exists j. split_and!; [done|lia|done].
    + subst S. exists i. split_and!; [done|lia|done].
  - intros k1 k2 S1 S2 i1 i2 Hk H1 H2 Hh1 Hh2.
    apply lookup_app_Some in H2 as [H2|[Hlen H2]].
    + apply (Hord k1 k2 S1 S2 i1 i2 Hk); [|done..].
      apply lookup_app_Some in H1 as [H1|[Hlen1 _]]; [done|].
      apply lookup_lt_Some in H2. lia.
    + apply list_lookup_singleton_Some in H2 as [Hz2 <-].
      rewrite Hhead in Hh2. injection Hh2 as <-.
      apply lookup_app_Some in H1 as [H1|[Hlen1 H1]].
      * destruct (Hmin S1) as (j & Hj & Hlt & _); [by eapply list_elem_of_lookup_2|].
        rewrite Hh1 in Hj. injection Hj as <-. done.
      * apply list_lookup_singleton_Some in H1 as [Hz _]. lia.
Qed.

Lemma visitAll_heads (fuel : nat) (k : nat) :
  ∀ a st st', a + k = length m → coverInv m a st → headsInv a st.2 →
  FindSubtours.visitAll m fuel st (seq a k) = Some st' → headsInv (a + k) st'.2.
Proof.
  induction k as [|k IH]; intros a st st' Hak Hcover Hheads.
  { simpl. intros [= <-]. by rewrite Nat.add_0_r. }
  cbn [seq FindSubtours.visitAll].
  destruct (FindSubtours.visitNode m fuel st a) as [st1|] eqn:Hst1; [|done].
  cbn [mbind option_bind]. intros Hrest.
  replace (a + S k) with (S a + k) by lia. eapply (IH (S a) st1); [lia| | |done].
  - eapply visitNode_cover; eauto. lia.
  - eapply visitNode_heads; eauto. lia.
Qed.

Lemma findSubtours_heads : headsInv (length m) (findSubtours m).
Proof.
  pose proof (findSubtours_fuel m) as Hfuel.
  unfold FindSubtours.findSubtoursFuel in Hfuel.
  rewrite bool_decide_eq_false_2 in Hfuel by (unfold FindSubtours.n; lia).
  destruct (FindSubtours.visitAll m _ _ _) as [[visited subtours]|] eqn:Hall; [|done].
  simpl in Hfuel. injection Hfuel as <-.
  apply (visitAll_heads _ (length m) 0) in Hall; [done|done| |].
  - split_and!; cbn [fst snd].
    + apply subtoursInv_init.
    + intros x. by rewrite isVisited_replicate.
    + intros x Hx. lia.
    + intros S HS. by apply elem_of_nil in HS.
  - split; cbn [snd]; [intros S HS; by apply elem_of_nil in HS|].
    intros k1 k2 S1 S2 i1 i2 _ H1. done.
Qed.

End ValidHeads.

(** Along a closed walk every entry can be reached from the first one. *)
Lemma closedWalk_reach (m : AdjacencyMatrix) (S : list nat) (i : nat) :
  closedWalk m S → (∀ x, ¬ isOne m x x) → (∀ x, x ∈ S → x < length m) →
  head S = Some i → ∀ x, x ∈ S → rtc (edge m) i x.
Proof.
  intros Hwalk Hloop Hlt Hhead x Hx. apply list_elem_of_lookup_1 in Hx as [k Hk].
  revert x Hk. induction k as [|k IH]; intros x Hk.
  { rewrite head_lookup in Hhead. rewrite Hhead in Hk. by injection Hk as <-. }
  destruct (lookup_lt_is_Some_2 S k) as [y Hy]; [apply lookup_lt_Some in Hk; lia|].
  eapply rtc_r; [by apply IH|].
  assert (Hone : isOne m y x).
  { apply (Hwalk k y x Hy). rewrite Nat.mod_small; [|apply lookup_lt_Some in Hk; lia].
    by rewrite Nat.add_1_r. }
  split_and!; [|apply Hlt; by eapply list_elem_of_lookup_2|done].
  intros ->. by eapply Hloop.
Qed.

Lemma StronglySorted_lt_NoDup (T : list nat) : StronglySorted lt T → NoDup T.
Proof.
  induction 1 as [|x T Hsorted IH Hall]; [apply NoDup_nil_2|].
  apply NoDup_cons_2; [|done]. intros Hx. rewrite Forall_forall in Hall.
  specialize (Hall x Hx). lia.
Qed.

Lemma StronglySorted_lt_le (T : list nat) : StronglySorted lt T → StronglySorted le T.
Proof.
  induction 1 as [|x T Hsorted IH Hall]; [constructor|].
  constructor; [done|]. eapply Forall_impl; [done|]. intros y Hy. simpl in Hy. lia.
Qed.

(** A strictly increasing list is determined by its members. *)
Lemma StronglySorted_lt_ext (T1 T2 : list nat) :
  StronglySorted lt T1 → StronglySorted lt T2 → (∀ x, x ∈ T1 ↔ x ∈ T2) → T1 = T2.
Proof.
  intros H1 H2 Hext. apply (StronglySorted_unique le).
  - by apply StronglySorted_lt_le.
  - by apply StronglySorted_lt_le.
  - apply NoDup_Permutation; [by apply StronglySorted_lt_NoDup..|done].
Qed.

Lemma head_least (T : list nat) (i x : nat) :
  StronglySorted lt T → head T = Some i → x ∈ T → i ≤ x.
Proof.
  intros Hsorted Hhead Hx. destruct T as [|h T]; [done|]. injection Hhead as ->.
  apply StronglySorted_inv in Hsorted as [_ Hall]. rewrite Forall_forall in Hall.
  apply elem_of_cons in Hx as [->|Hx]; [done|]. specialize (Hall x Hx). lia.
Qed.

Lemma componentsList_tail (m : AdjacencyMatrix) (T : list nat) (L : list (list nat)) :
  componentsList m (T :: L) → componentsList m L.
Proof.
  intros [Hall Hord]. split.
  - intros T' HT'. apply Hall. by right.
  - intros k1 k2 T1 T2 i1 i2 Hk H1 H2. apply (Hord (S k1) (S k2)); [lia|done..].
Qed.

(** The least first entry is the first entry of the first list. *)
Lemma componentsList_first (m : AdjacencyMatrix) (T : list nat) (L : list (list nat))
    (i x : nat) :
  componentsList m (T :: L) → head T = Some i → x ∈ mjoin (T :: L) → i ≤ x.
Proof.
  intros [Hall Hord] Hhead (T' & Hx & HT')%list_elem_of_join.
  apply list_elem_of_lookup_1 in HT' as [k Hk].
  destruct (Hall T') as (Hsorted & j & Hj & _); [by eapply list_elem_of_lookup_2|].
  pose proof (head_least T' j x Hsorted Hj Hx).
  destruct k as [|k].
  - simpl in Hk. injection Hk as <-. rewrite Hhead in Hj. injection Hj as <-. done.
  - pose proof (Hord 0 (S k) T T' i j ltac:(lia) eq_refl Hk Hhead Hj). lia.
Qed.

(** In such a list no entry occurs in two of the lists. *)
Lemma componentsList_disjoint (m : AdjacencyMatrix) (T : list nat) (L : list (list nat))
    (x : nat) :
  symmetricEdges m → componentsList m (T :: L) → x ∈ T → x ∉ mjoin L.
Proof.
  intros Hsym Hcomp HxT (T' & Hx & HT')%list_elem_of_join.
  pose proof Hcomp as [Hall Hord].
  destruct (Hall T) as (HsT & i & Hi & HT); [left|].
  destruct (Hall T') as (HsT' & j & Hj & HTj); [by right|].
  apply list_elem_of_lookup_1 in HT' as [k Hk].
  pose proof (Hord 0 (S k) T T' i j ltac:(lia) eq_refl Hk Hi Hj) as Hlt.
  assert (Hij : i ∈ T').
  { apply HTj. etrans; [by apply HTj|]. apply rtc_edge_sym; [done|]. by apply HT. }
  pose proof (head_least T' j i HsT' Hj Hij). lia.
Qed.

Lemma componentsList_unique (m : AdjacencyMatrix) (L1 : list (list nat)) :
  symmetricEdges m →
  ∀ L2, componentsList m L1 → componentsList m L2 →
  (∀ x, x ∈ mjoin L1 ↔ x ∈ mjoin L2) → L1 = L2.
Proof.
  intros Hsym. induction L1 as [|T1 L1 IH]; intros L2 H1 H2 Hext.
  { destruct L2 as [|T2 L2]; [done|]. exfalso.
    destruct (proj1 H2 T2) as (_ & i & Hi & _); [left|].
    assert (Hin : i ∈ mjoin (T2 :: L2)).
    { simpl. apply elem_of_app. left. destruct T2; [done|]. injection Hi as ->. left. }
    apply Hext in Hin. by apply elem_of_nil in Hin. }
  destruct L2 as [|T2 L2].
  { exfalso. destruct (proj1 H1 T1) as (_ & i & Hi & _); [left|].
    assert (Hin : i ∈ mjoin (T1 :: L1)).
    { simpl. apply elem_of_app. left. destruct T1; [done|]. injection Hi as ->. left. }
    apply Hext in Hin. by apply elem_of_nil in Hin. }
  destruct (proj1 H1 T1) as (Hs1 & i1 & Hi1 & HT1); [left|].
  destruct (proj1 H2 T2) as (Hs2 & i2 & Hi2 & HT2); [left|].
  assert (Hin1 : i1 ∈ T1) by (destruct T1; [done|]; injection Hi1 as ->; left).
  assert (Hin2 : i2 ∈ T2) by (destruct T2; [done|]; injection Hi2 as ->; left).
  assert (i1 = i2).
  { assert (i2 ≤ i1).
    { apply (componentsList_first m T2 L2 i2 i1 H2 Hi2), Hext.
      simpl. apply elem_of_app. by left. }
    assert (i1 ≤ i2).
    { apply (componentsList_first m T1 L1 i1 i2 H1 Hi1), Hext.
      simpl. apply elem_of_app. by left. }
    lia. }
  subst i2.
  assert (T1 = T2).
  { apply StronglySorted_lt_ext; [done..|]. intros x. by rewrite HT1, HT2. }
  subst T2. f_equal. apply IH.
  - by eapply componentsList_tail.
  - by eapply componentsList_tail.
  - intros x. split; intros Hx.
    + assert (Hall : x ∈ mjoin (T1 :: L2)).
      { apply Hext. simpl. apply elem_of_app. by right. }
      simpl in Hall. apply elem_of_app in Hall as [HxT|]; [|done].
      exfalso. by apply (componentsList_disjoint m T1 L1 x Hsym H1 HxT).
    + assert (Hall : x ∈ mjoin (T1 :: L1)).
      { apply Hext. simpl. apply elem_of_app. by right. }
      simpl in Hall. apply elem_of_app in Hall as [HxT|]; [|done].
      exfalso. by apply (componentsList_disjoint m T1 L2 x Hsym H2 HxT).
Qed.

Lemma tables_componentsList (m : AdjacencyMatrix) (tables : list (list nat)) :
  symmetricEdges m → extractTablesFromMatrix m = Normal tables →
  componentsList m tables.
Proof.
  intros Hsym Hres.
  destruct (extractTablesFromMatrix_Normal m tables Hres)
    as (visited & Hlen & Hnd & Hvis & Hbelow & Htab & Hord & Hclosed).
  cbn [fst snd] in *. split; [|done].
  intros T HT. destruct (Htab T HT) as (i & Hi & Hhead & Hsorted & Hmem). split.
  - apply StronglySorted_le_lt; [done|]. by eapply NoDup_join_elem.
  - exists i. split; [done|]. intros x. split; [by apply Hmem|].
    assert (HiT : i ∈ T) by (destruct T; [done|]; injection Hhead as ->; left).
    apply closed_reach; [|done]. intros u v. by apply (tables_closed m tables).
Qed.

Lemma subtours_componentsList (m : AdjacencyMatrix) :
  assertionsHold m → componentsList m (merge_sort le <$> findSubtours m).
Proof.
  intros Hvalid. destruct (valid_size m Hvalid) as [Hzero|Hsize].
  { assert (Hnone : findSubtours m = []).
    { unfold findSubtours, FindSubtours.findSubtoursFuel, FindSubtours.n.
      by rewrite bool_decide_eq_true_2. }
    rewrite Hnone. split; [intros T HT; by apply elem_of_nil in HT|].
    intros k1 k2 T1 T2 i1 i2 _ H1. done. }
  destruct (findSubtours_valid m Hvalid) as [Hperm Hcycles].
  destruct (findSubtours_inv m) as (Hnd & Hlt & _).
  destruct (findSubtours_heads m Hsize (valid_degree m Hvalid) (valid_symmetric m Hvalid)
              (valid_loop_free m Hvalid)) as [Hmin Hord].
  assert (Hhead : ∀ S i, S ∈ findSubtours m → head S = Some i →
            head (merge_sort le S) = Some i).
  { intros S i HS Hi. destruct (Hmin S HS) as (j & Hj & _ & Hleast).
    rewrite Hi in Hj. injection Hj as <-.
    apply head_sorted; [apply (StronglySorted_merge_sort le)| |].
    - rewrite merge_sort_Permutation. destruct S; [done|]. injection Hi as ->. left.
    - intros x Hx. rewrite merge_sort_Permutation in Hx. by apply Hleast. }
  split.
  - intros T (S & -> & HS)%list_elem_of_fmap.
    destruct (Hcycles S HS) as (_ & Hwalk & Hclosed).
    destruct (Hmin S HS) as (i & Hi & _ & _).
    assert (HndS : NoDup S) by (by eapply NoDup_join_elem).
    split.
    + apply StronglySorted_le_lt; [apply (StronglySorted_merge_sort le)|].
      by rewrite merge_sort_Permutation.
    + exists i. split; [by apply Hhead|]. intros x. rewrite merge_sort_Permutation.
      assert (HiS : i ∈ S) by (destruct S; [done|]; injection Hi as ->; left).
      split.
      * apply closedWalk_reach; [done|by apply valid_loop_free| |done].
        intros y Hy. unfold FindSubtours.n in Hlt. apply Hlt, list_elem_of_join. eauto.
      * by apply closed_reach.
  - intros k1 k2 T1 T2 i1 i2 Hk H1 H2 Hh1 Hh2.
    rewrite list_lookup_fmap in H1, H2.
    destruct (findSubtours m !! k1) as [S1|] eqn:HS1; [|done].
    destruct (findSubtours m !! k2) as [S2|] eqn:HS2; [|done].
    simpl in H1, H2. injection H1 as <-. injection H2 as <-.
    destruct (Hmin S1) as (j1 & Hj1 & _); [by eapply list_elem_of_lookup_2|].
    destruct (Hmin S2) as (j2 & Hj2 & _); [by eapply list_elem_of_lookup_2|].
    rewrite (Hhead S1 j1) in Hh1 by (done || by eapply list_elem_of_lookup_2).
    rewrite (Hhead S2 j2) in Hh2 by (done || by eapply list_elem_of_lookup_2).
    injection Hh1 as <-. injection Hh2 as <-.
    by apply (Hord k1 k2 S1 S2).
Qed.

(** * Facts about the concrete inputs *)

Lemma triangle_valid : assertionsHold triangle.
Proof.
  unfold assertionsHold, binaryMatrix, symmetricMatrix, zeroDiagonal, degreeTwo.
  split_and!; intros; simpl in *; below_length; vm_compute; first [done|by left|by right].
Qed.

Lemma square_valid : assertionsHold square.
Proof.
  unfold assertionsHold, binaryMatrix, symmetricMatrix, zeroDiagonal, degreeTwo.
  split_and!; intros; simpl in *; below_length; vm_compute; first [done|by left|by right].
Qed.

Lemma twoTriangles_valid : assertionsHold twoTriangles.
Proof.
  unfold assertionsHold, binaryMatrix, symmetricMatrix, zeroDiagonal, degreeTwo.
  split_and!; intros; simpl in *; below_length; vm_compute; first [done|by left|by right].
Qed.

(** The triangle is a feasible point of the base model for three people. *)
Lemma triangle_feasible :
  feasible (glpkWith (λ _ _ _, optimal triangle))
    (SolveSitting.lpProblemForIter (glpkWith (λ _ _ _, optimal triangle)) (uniformPref 3 0) [])
    (valuationOf triangle).
Proof.
  apply (valid_feasible _ (uniformPref 3 0) triangle triangle_valid eq_refl [0; 1; 2]);
    [reflexivity|discriminate|].
  intros c Hc. by apply elem_of_nil in Hc.
Qed.

Lemma twoFriends_ids : NoDup (id <$> people twoFriends).
Proof.
  apply NoDup_cons_2; [|apply NoDup_singleton].
  intros Hin. apply list_elem_of_singleton in Hin. discriminate Hin.
Qed.

(** * Further properties, X1 to X26 *)

(** ** The result matrix of solveSitting ([src/solve_sitting.ts]) *)

(** X1. When the variables of the solver's answer carry the names [x_i_j] that
    [solveSitting] generates, for the pairs [(i, j)] of a list, the result
    matrix is [n] by [n], and for [a, b < n] its cell [(a, b)] is
    [Math.round] of the value reported for [x_a_b] when [(a, b)] is in the
    list and 0 when it is not. Pairs with an index outside [0 .. n-1] change
    no cell. *)
Theorem resultMatrix_reads_variables_by_name (pref : PreferenceMatrix)
    (pairs : list (nat * nat)) (value : nat → nat → Q) (s : Z) :
  let n := length pref in
  let result :=
    {| status := s;
       result_vars :=
         (λ ij, (SolveSitting.getVarName ij.1 ij.2, value ij.1 ij.2)) <$> pairs |} in
  length (SolveSitting.resultMatrix pref result) = n
  ∧ (∀ row, row ∈ SolveSitting.resultMatrix pref result → length row = n)
  ∧ ∀ a b, a < n → b < n →
      cell (SolveSitting.resultMatrix pref result) a b
      = Some (if bool_decide ((a, b) ∈ pairs) then Math_round (value a b) else 0%Z).
Proof.
  intros n result. split; [apply resultMatrix_length|].
  split; [apply resultMatrix_rows|].
  intros a b Ha Hb. unfold SolveSitting.resultMatrix, result. cbn [result_vars].
  rewrite foldl_storeVar_cell; [..|done|done].
  - case_bool_decide; [done|]. unfold cell, SolveSitting.n, AdjacencyMatrix.
    rewrite lookup_replicate_2 by done. simpl. by rewrite lookup_replicate_2.
  - apply length_replicate.
  - intros row [-> _]%elem_of_replicate. apply length_replicate.
Qed.

(** X2. Round trip between a matrix and the solver's variables: when the
    answer reports every cell of a square matrix [m] with [n] rows, the
    diagonal included, as the variable [x_i_j], the result matrix that
    [solveSitting] builds is [m]. *)
Theorem resultMatrix_fullAssignment (pref : PreferenceMatrix) (m : AdjacencyMatrix)
    (s : Z) :
  length m = length pref → squareMatrix m →
  SolveSitting.resultMatrix pref {| status := s; result_vars := fullAssignment m |} = m.
Proof.
  intros Hlen Hsq. apply matrix_eq with (length pref).
  - apply resultMatrix_length.
  - done.
  - apply resultMatrix_rows.
  - intros row Hrow. rewrite <- Hlen. by apply Hsq.
  - intros a b Ha Hb. unfold SolveSitting.resultMatrix. cbn [result_vars].
    rewrite fullAssignment_pairs.
    rewrite (foldl_storeVar_cell pref _ (λ i j, inject_Z (default 0%Z (cell m i j))));
      [|apply length_replicate|by intros row [-> _]%elem_of_replicate; apply length_replicate
       |done..].
    rewrite bool_decide_eq_true_2 by (apply elem_of_all_pairs; lia). cbn beta.
    rewrite Math_round_inject_Z. unfold cell, AdjacencyMatrix in *.
    destruct (lookup_lt_is_Some_2 m a) as [row Hrow]; [lia|]. rewrite Hrow. simpl.
    assert (length row = length m) by (apply Hsq; by eapply list_elem_of_lookup_2).
    destruct (lookup_lt_is_Some_2 row b) as [x Hx]; [lia|]. by rewrite Hx.
Qed.

Lemma resultMatrix_fullAssignment_witness :
  SolveSitting.resultMatrix (uniformPref 4 0) {| status := 5; result_vars := fullAssignment asymmetric4 |}
  = asymmetric4.
Proof.
  apply (resultMatrix_fullAssignment (uniformPref 4 0) asymmetric4 5); [reflexivity|].
  intros row Hrow. repeat (apply elem_of_cons in Hrow as [->|Hrow]; [reflexivity|]).
  by apply elem_of_nil in Hrow.
Defined.

(** X3. Every matrix that [solveSitting] returns, for any number of people
    and any solver, has [n] rows of [n] entries each. *)
Theorem solveSitting_result_square (glpk : GLPKInstance) (pref : PreferenceMatrix)
    (m : AdjacencyMatrix) :
  outcome (solveSitting glpk pref) = Normal m →
  length m = length pref ∧ squareMatrix m.
Proof.
  intros Hout. split; [by eapply solveSitting_result_length|].
  destruct (decide (3 ≤ length pref)) as [Hbig|Hsmall].
  - rewrite solveSitting_iterations in Hout by done.
    apply iterations_Normal in Hout as (j & constraints & _ & _ & Hret).
    destruct (iteration_Return_result _ _ _ _ _ Hret) as [result ->].
    intros row Hrow. rewrite resultMatrix_length. by eapply resultMatrix_rows.
  - revert Hout. unfold solveSitting, SolveSitting.solveSitting, SolveSitting.n.
    repeat case_bool_decide; try lia; simpl; intros [= <-] row Hrow;
      for_each_member Hrow ltac:(reflexivity).
Qed.

Lemma solveSitting_result_square_witness :
  length triangle = length (uniformPref 3 0) ∧ squareMatrix triangle.
Proof.
  apply (solveSitting_result_square (glpkWith (λ _ _ _, optimal triangle))
           (uniformPref 3 0) triangle).
  vm_compute. reflexivity.
Defined.

(** ** findSubtours ([src/solve_sitting.ts]) *)

(** X4. For every matrix with [n >= 3] rows, valid or not, each cycle that
    [findSubtours] returns is non-empty, repeats no node, has indices below
    [n] only and is a closed walk: each of its nodes has a 1 in its row at
    the next node of the cycle, and the last node has one at the first. *)
Theorem findSubtours_closed_walks (m : AdjacencyMatrix) (S : list nat) :
  3 ≤ length m → S ∈ findSubtours m →
  S ≠ [] ∧ NoDup S ∧ (∀ x, x ∈ S → x < length m) ∧ closedWalk m S.
Proof.
  intros Hn HS. destruct (findSubtours_inv m) as (Hnd & Hlt & Hne & _).
  split_and!.
  - by apply Hne.
  - by eapply NoDup_join_elem.
  - intros x Hx. apply Hlt, list_elem_of_join. eauto.
  - by apply findSubtours_closedWalk.
Qed.

Lemma findSubtours_closed_walks_witness :
  [0; 1; 2; 3] ≠ [] ∧ NoDup [0; 1; 2; 3]
  ∧ (∀ x, x ∈ [0; 1; 2; 3] → x < length asymmetric4)
  ∧ closedWalk asymmetric4 [0; 1; 2; 3].
Proof.
  apply (findSubtours_closed_walks asymmetric4 [0; 1; 2; 3]); [vm_compute; lia|].
  change (findSubtours asymmetric4) with [[0; 1; 2; 3]]. left.
Defined.

(** X5. On a matrix that passes the checks which [solveSitting] asserts on a
    result matrix (entries 0 or 1, symmetric, zero diagonal, every row sum
    2), [findSubtours] drops no trace: its cycles together contain each of
    the indices [0 .. n-1] exactly once, and each cycle has at least three
    nodes, is a closed walk and contains the neighbours of its nodes. *)
Theorem findSubtours_components (m : AdjacencyMatrix) :
  assertionsHold m →
  mjoin (findSubtours m) ≡ₚ seq 0 (length m)
  ∧ ∀ S, S ∈ findSubtours m →
      3 ≤ length S ∧ closedWalk m S ∧ ∀ x y, x ∈ S → edge m x y → y ∈ S.
Proof. apply findSubtours_valid. Qed.

Lemma findSubtours_components_witness :
  mjoin (findSubtours twoTriangles) ≡ₚ seq 0 (length twoTriangles)
  ∧ ∀ S, S ∈ findSubtours twoTriangles →
      3 ≤ length S ∧ closedWalk twoTriangles S
      ∧ ∀ x y, x ∈ S → edge twoTriangles x y → y ∈ S.
Proof. apply (findSubtours_components twoTriangles), twoTriangles_valid. Defined.

(** ** The errors and the models of solveSitting ([src/solve_sitting.ts]) *)



(** X7. When [glpk.solve] rejects with the message [msg] in pass [k] of the
    loop (counted from 0, [k < 2n], reached through [k] passes that
    continue), [solveSitting] throws "GLPK solver encountered an error during
    iteration [k+1]: [msg]", and the solver has been called [k+1] times. *)
Theorem solveSitting_solver_throws (glpk : GLPKInstance) (pref : PreferenceMatrix)
    (k : nat) (constraints : list GLPKConstraint) (msg : string) :
  3 ≤ length pref → k < 2 * length pref →
  advance glpk pref k 0 [] = Some constraints →
  solve glpk k (SolveSitting.lpProblemForIter glpk pref constraints)
    (SolveSitting.solverOptions glpk) = Rejected msg →
  outcome (solveSitting glpk pref) = Abrupt (SolverThrew (k + 1) msg)
  ∧ length (calls (solveSitting glpk pref)) = k + 1
  ∧ errorMessage (SolverThrew (k + 1) msg)
    = "GLPK solver encountered an error during iteration " +:+ showNat (k + 1)
        +:+ ": " +:+ msg.
Proof.
  intros Hn Hk Hadv Hsolve.
  assert (Hit : SolveSitting.iteration glpk pref k constraints
                = Throw (SolverThrew (k + 1) msg)).
  { unfold SolveSitting.iteration. by rewrite Hsolve. }
  assert (Hmax : k < SolveSitting.MAX_SUBTOUR_ITERATIONS pref).
  { unfold SolveSitting.MAX_SUBTOUR_ITERATIONS, SolveSitting.n. lia. }
  destruct (solveSitting_throw glpk pref k constraints _ Hn Hmax Hadv Hit) as [Hout Hcalls].
  done.
Qed.

Lemma solveSitting_solver_throws_witness :
  outcome (solveSitting (glpkWith (λ _ _ _, Rejected "out of memory")) (uniformPref 3 0))
  = Abrupt (SolverThrew 1 "out of memory").
Proof.
  apply (solveSitting_solver_throws (glpkWith (λ _ _ _, Rejected "out of memory"))
           (uniformPref 3 0) 0 [] "out of memory");
    [vm_compute; lia|vm_compute; lia|reflexivity|reflexivity].
Defined.

(** X8. Two problems handed to the solver one after the other in a run differ
    in their constraints only: the later one has the constraints of the
    earlier one, in the same order, followed by at least one new constraint;
    name, objective and binaries are the same. *)
Theorem solveSitting_model_grows (glpk : GLPKInstance) (pref : PreferenceMatrix)
    (k : nat) (P Q : GLPKProblem) :
  calls (solveSitting glpk pref) !! k = Some P →
  calls (solveSitting glpk pref) !! S k = Some Q →
  ∃ added, added ≠ []
    ∧ subjectTo Q = subjectTo P ++ added
    ∧ problem_name Q = problem_name P
    ∧ objective Q = objective P
    ∧ binaries Q = binaries P.
Proof.
  unfold solveSitting, SolveSitting.solveSitting.
  repeat case_bool_decide; try done.
  apply iterations_calls_grow. unfold SolveSitting.n in *. lia.
Qed.

Lemma solveSitting_model_grows_witness :
  ∃ added, added ≠ []
    ∧ subjectTo (SolveSitting.lpProblemForIter (glpkWith (subtoursThen (rejection 3)))
                   (uniformPref 6 0)
                   (SolveSitting.eliminationConstraint
                      (glpkWith (subtoursThen (rejection 3))) 0
                      <$> [[0; 1; 2]; [3; 4; 5]]))
      = subjectTo (SolveSitting.lpProblemForIter (glpkWith (subtoursThen (rejection 3)))
                     (uniformPref 6 0) []) ++ added.
Proof.
  destruct (solveSitting_model_grows (glpkWith (subtoursThen (rejection 3)))
              (uniformPref 6 0) 0
              (SolveSitting.lpProblemForIter (glpkWith (subtoursThen (rejection 3)))
                 (uniformPref 6 0) [])
              (SolveSitting.lpProblemForIter (glpkWith (subtoursThen (rejection 3)))
                 (uniformPref 6 0)
                 (SolveSitting.eliminationConstraint
                    (glpkWith (subtoursThen (rejection 3))) 0
                    <$> [[0; 1; 2]; [3; 4; 5]])))
    as (added & Hne & Hsub & _); [vm_compute; reflexivity..|].
  exists added. split; [exact Hne|exact Hsub].
Defined.

(** X9. The elimination constraint excludes the answer it is built from. For
    a matrix [m] that passes the checks and a cycle [S] of [findSubtours m],
    under a valuation that gives [x_i_j] the value [m[i][j]] the left-hand
    side of the constraint built for [S] is [|S|], which is above its upper
    bound [|S| - 1]. *)
Theorem elimination_constraint_cuts_subtour (glpk : GLPKInstance) (iter : nat)
    (m : AdjacencyMatrix) (S : list nat) (x : string → Q) :
  assertionsHold m → S ∈ findSubtours m →
  (∀ i j, i < length m → j < length m →
     x (SolveSitting.getVarName i j) == inject_Z (SolveSitting.entry m i j)) →
  let c := SolveSitting.eliminationConstraint glpk iter S in
  constraintValue x c == inject_Z (Z.of_nat (length S))
  ∧ (ub (bnds c) < constraintValue x c)%Q.
Proof.
  intros Hvalid HS Hx c.
  destruct (findSubtours_valid m Hvalid) as [_ Hcycles].
  destruct (Hcycles S HS) as (_ & _ & Hclosed).
  destruct (findSubtours_inv m) as (Hnd & Hlt & _).
  assert (HltS : ∀ i, i ∈ S → i < length m).
  { intros i Hi. apply Hlt, list_elem_of_join. eauto. }
  assert (Hvalue : constraintValue x c == inject_Z (Z.of_nat (length S))).
  { unfold c. rewrite (eliminationConstraint_value glpk iter m S x HltS Hx).
    rewrite (closed_pair_sum m Hvalid S); [done| |done..].
    by eapply NoDup_join_elem. }
  split; [done|]. rewrite Hvalue. unfold c. cbn [SolveSitting.eliminationConstraint bnds ub].
  unfold Qminus. rewrite <- (Qplus_0_r (inject_Z (Z.of_nat (length S)))) at 2.
  apply Qplus_lt_r. done.
Qed.

Lemma elimination_constraint_cuts_subtour_witness :
  Qlt (ub (bnds (SolveSitting.eliminationConstraint
                    (glpkWith (λ _ _ _, optimal twoTriangles)) 0 [0; 1; 2])))
      (constraintValue (valuationOf twoTriangles)
         (SolveSitting.eliminationConstraint
            (glpkWith (λ _ _ _, optimal twoTriangles)) 0 [0; 1; 2])).
Proof.
  apply (elimination_constraint_cuts_subtour (glpkWith (λ _ _ _, optimal twoTriangles)) 0
           twoTriangles [0; 1; 2] (valuationOf twoTriangles)).
  - exact twoTriangles_valid.
  - change (findSubtours twoTriangles) with [[0; 1; 2]; [3; 4; 5]]. left.
  - intros i j _ _. rewrite valuationOf_getVarName. reflexivity.
Defined.

(** X10. No elimination constraint excludes a seating around one table. If
    [h] passes the checks and [findSubtours h] is a single cycle, then for
    every duplicate-free list [S] of at least one and fewer than [n] nodes,
    the valuation that gives [x_i_j] the value [h[i][j]] satisfies the
    constraint built for [S]: its left-hand side is at most [|S| - 1]. *)
Theorem elimination_constraint_keeps_single_cycle (glpk : GLPKInstance) (iter : nat)
    (h : AdjacencyMatrix) (cycle S : list nat) (x : string → Q) :
  assertionsHold h → findSubtours h = [cycle] →
  NoDup S → (∀ i, i ∈ S → i < length h) → 0 < length S < length h →
  (∀ i j, i < length h → j < length h →
     x (SolveSitting.getVarName i j) == inject_Z (SolveSitting.entry h i j)) →
  let c := SolveSitting.eliminationConstraint glpk iter S in
  (constraintValue x c <= ub (bnds c))%Q.
Proof. apply eliminationConstraint_keeps. Qed.

Lemma elimination_constraint_keeps_single_cycle_witness :
  Qle (constraintValue (valuationOf square)
         (SolveSitting.eliminationConstraint (glpkWith (λ _ _ _, optimal square)) 0 [0; 1]))
      (ub (bnds (SolveSitting.eliminationConstraint (glpkWith (λ _ _ _, optimal square))
                   0 [0; 1]))).
Proof.
  apply (elimination_constraint_keeps_single_cycle (glpkWith (λ _ _ _, optimal square)) 0
           square [0; 1; 2; 3] [0; 1] (valuationOf square)).
  - exact square_valid.
  - reflexivity.
  - apply NoDup_cons_2; [|apply NoDup_singleton].
    intros Hin. apply list_elem_of_singleton in Hin. discriminate Hin.
  - intros i Hi. for_each_member Hi ltac:(vm_compute; lia).
  - vm_compute. lia.
  - intros i j _ _. rewrite valuationOf_getVarName. reflexivity.
Defined.

(** X11. The constraints of the model imply the checks on the result. If the
    answer reports, for the binaries of the problem of a pass, values that
    are 0 or 1 and satisfy its constraints (the row sums fixed to 2 and the
    symmetry constraints fixed to 0, besides any elimination constraints),
    then the result matrix has entries 0 or 1, is symmetric, has a zero
    diagonal, and each of its rows sums to 2. *)
Theorem feasible_answer_passes_checks (glpk : GLPKInstance) (pref : PreferenceMatrix)
    (constraints : list GLPKConstraint) (x : string → Q) (s : Z) :
  let P := SolveSitting.lpProblemForIter glpk pref constraints in
  feasible glpk P x →
  assertionsHold (SolveSitting.resultMatrix pref (answerOf P x s)).
Proof. apply feasible_answer_valid. Qed.

Lemma feasible_answer_passes_checks_witness :
  assertionsHold
    (SolveSitting.resultMatrix (uniformPref 3 0)
       (answerOf (SolveSitting.lpProblemForIter (glpkWith (λ _ _ _, optimal triangle))
                    (uniformPref 3 0) [])
          (valuationOf triangle) 5)).
Proof.
  apply (feasible_answer_passes_checks (glpkWith (λ _ _ _, optimal triangle))
           (uniformPref 3 0) [] (valuationOf triangle) 5).
  exact triangle_feasible.
Defined.

(** X12. With an exact solver only the budget can fail. Let [n >= 3], let
    [GLP_FX] and [GLP_UP] be different constants, and let the solver answer
    every feasible problem that the run hands to it with a feasible point of
    that problem and status optimal or feasible. Then [solveSitting] returns
    a matrix that passes the checks and is one cycle through all [n] people,
    or it throws the iteration-budget error; no other error occurs. (Every
    problem of the run is feasible: a ring through all people satisfies the
    base model and each elimination constraint.) *)
Theorem solveSitting_exact_solver (glpk : GLPKInstance) (pref : PreferenceMatrix) :
  let n := length pref in
  3 ≤ n →
  GLP_FX glpk ≠ GLP_UP glpk →
  (∀ k P, calls (solveSitting glpk pref) !! k = Some P →
     (∃ x, feasible glpk P x) →
     ∃ x s, feasible glpk P x ∧ (s = GLP_OPT glpk ∨ s = GLP_FEAS glpk)
       ∧ solve glpk k P (SolveSitting.solverOptions glpk) = Resolved (answerOf P x s)) →
  (∃ m cycle, outcome (solveSitting glpk pref) = Normal m
     ∧ assertionsHold m ∧ findSubtours m = [cycle] ∧ cycle ≡ₚ seq 0 n)
  ∨ outcome (solveSitting glpk pref) = Abrupt (BudgetExhausted (2 * n)).
Proof.
  intros n Hn Hbounds Hexact.
  assert (Hmax : SolveSitting.MAX_SUBTOUR_ITERATIONS pref = 2 * n).
  { unfold SolveSitting.MAX_SUBTOUR_ITERATIONS, SolveSitting.n. lia. }
  destruct (ring_single_cycle n Hn) as (ringCycle & Hring & _).
  assert (Hanswer : ∀ k constraints,
    k < SolveSitting.MAX_SUBTOUR_ITERATIONS pref →
    advance glpk pref k 0 [] = Some constraints →
    ∃ x s, feasible glpk (SolveSitting.lpProblemForIter glpk pref constraints) x
      ∧ (s = GLP_OPT glpk ∨ s = GLP_FEAS glpk)
      ∧ solve glpk k (SolveSitting.lpProblemForIter glpk pref constraints)
          (SolveSitting.solverOptions glpk)
        = Resolved (answerOf (SolveSitting.lpProblemForIter glpk pref constraints) x s)).
  { intros k constraints Hk Hadv. apply Hexact.
    - by apply advance_call.
    - exists (valuationOf (ringMatrix n)).
      apply (valid_feasible glpk pref (ringMatrix n) (ring_valid n Hn) (ring_length n)
               ringCycle Hring Hbounds).
      eapply advance_proper; [done|]. intros c Hc. by apply elem_of_nil in Hc. }
  destruct (outcome (solveSitting glpk pref)) as [m|e] eqn:Hout.
  - left. rewrite solveSitting_iterations in Hout by done.
    apply iterations_Normal in Hout as (j & constraints & Hj & Hadv & Hret).
    destruct (iteration_Return _ _ _ _ _ Hret) as (cycle & Hsub & Hlen).
    apply iteration_Return_solve in Hret as (result & Hsolve & ->).
    destruct (Hanswer j constraints Hj Hadv) as (x & s & Hfeas & _ & Hsolve').
    simpl in Hsolve. rewrite Hsolve' in Hsolve. injection Hsolve as <-.
    pose proof (feasible_answer_valid glpk pref constraints x s Hfeas) as Hvalid.
    exists (SolveSitting.resultMatrix pref
              (answerOf (SolveSitting.lpProblemForIter glpk pref constraints) x s)), cycle.
    split_and!; [done..|].
    destruct (findSubtours_valid _ Hvalid) as [Hperm _].
    rewrite Hsub, resultMatrix_length in Hperm. simpl in Hperm.
    by rewrite app_nil_r in Hperm.
  - right. apply solveSitting_Abrupt in Hout as [_ Hcases].
    destruct Hcases as [->|(k & constraints & Hk & Hadv & Hthrow)]; [by rewrite Hmax|].
    exfalso. destruct (Hanswer k constraints Hk Hadv) as (x & s & Hfeas & Hs & Hsolve).
    pose proof (feasible_answer_valid glpk pref constraints x s Hfeas) as Hvalid.
    destruct (findSubtours_valid _ Hvalid) as [Hperm _].
    rewrite resultMatrix_length in Hperm. apply Permutation_length in Hperm.
    rewrite length_seq in Hperm. unfold SolveSitting.n in Hperm.
    apply iteration_Throw in Hthrow. destruct e; try done.
    + destruct Hthrow as [_ Hrej]. congruence.
    + destruct Hthrow as (_ & _ & result & Hres & _ & _ & ? & ?).
      rewrite Hsolve in Hres. injection Hres as <-. simpl in *. tauto.
    + destruct Hthrow as (result & Hres & -> & _ & ? & ? & _).
      rewrite Hsolve in Hres. injection Hres as <-. simpl in *. tauto.
    + destruct Hthrow as (_ & result & Hres & _ & Hnone).
      rewrite Hsolve in Hres. injection Hres as <-.
      rewrite Hnone in Hperm. simpl in Hperm. lia.
    + destruct Hthrow as (_ & Hne & result & cycle & Hres & _ & Hone & Hlen).
      rewrite Hsolve in Hres. injection Hres as <-.
      rewrite Hone in Hperm. simpl in Hperm. rewrite app_nil_r in Hperm.
      unfold SolveSitting.n in Hne. lia.
Qed.

Lemma solveSitting_exact_solver_witness :
  (∃ m cycle,
     outcome (solveSitting (glpkWith (λ _ _ _, optimal triangle)) (uniformPref 3 0))
       = Normal m
     ∧ assertionsHold m ∧ findSubtours m = [cycle]
     ∧ cycle ≡ₚ seq 0 (length (uniformPref 3 0)))
  ∨ outcome (solveSitting (glpkWith (λ _ _ _, optimal triangle)) (uniformPref 3 0))
    = Abrupt (BudgetExhausted (2 * length (uniformPref 3 0))).
Proof.
  apply (solveSitting_exact_solver (glpkWith (λ _ _ _, optimal triangle)) (uniformPref 3 0)).
  - vm_compute. lia.
  - discriminate.
  - intros k P Hcall _.
    change (calls (solveSitting (glpkWith (λ _ _ _, optimal triangle)) (uniformPref 3 0)))
      with [SolveSitting.lpProblemForIter (glpkWith (λ _ _ _, optimal triangle))
              (uniformPref 3 0) []] in Hcall.
    destruct k as [|k]; [|destruct k; discriminate Hcall].
    injection Hcall as <-. exists (valuationOf triangle), 5%Z.
    split; [exact triangle_feasible|]. split; [left; reflexivity|].
    vm_compute. reflexivity.
Defined.

(** ** extractTablesFromMatrix ([docs/matrix_to_table.mjs]) *)

(** X13. [extractTablesFromMatrix] terminates on every matrix: with [n + 1]
    rounds for its loops the run is complete. It returns no table for the
    empty matrix, throws the dimension error when [n > 0] and the first row
    is not an array of length [n], and returns tables in every other case;
    rows after the first may have any length. *)
Theorem extractTablesFromMatrix_completion (m : AdjacencyMatrix) :
  ExtractTablesFromMatrix.extractTablesFromMatrixFuel m (S (length m))
    = Some (extractTablesFromMatrix m)
  ∧ (length m = 0 → extractTablesFromMatrix m = Normal [])
  ∧ (0 < length m → length <$> m !! 0 ≠ Some (length m) →
     extractTablesFromMatrix m = Abrupt (InvalidDimensions (length m)))
  ∧ (0 < length m → length <$> m !! 0 = Some (length m) →
     ∃ tables, extractTablesFromMatrix m = Normal tables).
Proof.
  split; [apply extractTablesFromMatrix_fuel|]. split_and!.
  - intros Hn. unfold extractTablesFromMatrix,
      ExtractTablesFromMatrix.extractTablesFromMatrixFuel, ExtractTablesFromMatrix.n.
    by rewrite bool_decide_eq_true_2.
  - intros Hn Hrow. by apply extractTablesFromMatrix_Abrupt.
  - intros Hn Hrow. destruct (extractTablesFromMatrix m) as [tables|e] eqn:Hres; [eauto|].
    apply extractTablesFromMatrix_Abrupt in Hres as (_ & _ & ?). done.
Qed.

(** X14. The tables that [extractTablesFromMatrix] returns contain each of the
    indices [0 .. n-1] exactly once; each table is non-empty and strictly
    increasing, and the tables come in the order of their smallest
    members. *)
Theorem extractTablesFromMatrix_partition (m : AdjacencyMatrix)
    (tables : list (list nat)) :
  extractTablesFromMatrix m = Normal tables →
  mjoin tables ≡ₚ seq 0 (length m)
  ∧ (∀ T, T ∈ tables → T ≠ [] ∧ StronglySorted lt T)
  ∧ (∀ k1 k2 T1 T2 i1 i2, k1 < k2 → tables !! k1 = Some T1 → tables !! k2 = Some T2 →
       head T1 = Some i1 → head T2 = Some i2 → i1 < i2).
Proof.
  intros Hres. split; [by apply tables_Permutation|].
  destruct (extractTablesFromMatrix_Normal m tables Hres)
    as (visited & Hlen & Hnd & Hvis & Hbelow & Htab & Hord & Hclosed).
  cbn [fst snd] in *. split; [|done].
  intros T HT. destruct (Htab T HT) as (i & _ & Hi & Hsorted & _). split.
  - by intros ->.
  - apply StronglySorted_le_lt; [done|]. by eapply NoDup_join_elem.
Qed.

Lemma extractTablesFromMatrix_partition_witness :
  mjoin [[0; 1; 2]; [3; 4; 5]] ≡ₚ seq 0 (length twoTriangles).
Proof.
  apply (extractTablesFromMatrix_partition twoTriangles [[0; 1; 2]; [3; 4; 5]]).
  reflexivity.
Defined.

(** X15. The tables are the connected components. Every member of a table can
    be reached from the first member of the table along entries that are 1
    off the diagonal; a neighbour of a member is at the same table or at an
    earlier one; and when adjacency is symmetric, two people are at one
    table exactly when one of them can be reached from the other. *)
Theorem extractTablesFromMatrix_components (m : AdjacencyMatrix)
    (tables : list (list nat)) :
  extractTablesFromMatrix m = Normal tables →
  (∀ T i x, T ∈ tables → head T = Some i → x ∈ T → rtc (edge m) i x)
  ∧ (∀ k T u v, tables !! k = Some T → u ∈ T → edge m u v →
       ∃ k' T', k' ≤ k ∧ tables !! k' = Some T' ∧ v ∈ T')
  ∧ (symmetricEdges m →
     ∀ x y, x < length m →
       ((∃ T, T ∈ tables ∧ x ∈ T ∧ y ∈ T) ↔ rtc (edge m) x y)).
Proof.
  intros Hres. pose proof (tables_Permutation m tables Hres) as Hperm.
  destruct (extractTablesFromMatrix_Normal m tables Hres)
    as (visited & Hlen & Hnd & Hvis & Hbelow & Htab & Hord & Hclosed).
  cbn [fst snd] in *. split_and!.
  - intros T i x HT Hi Hx. destruct (Htab T HT) as (i' & _ & Hi' & _ & Hmem).
    rewrite Hi in Hi'. simplify_eq. by apply Hmem.
  - done.
  - intros Hsym x y Hx. split.
    + intros (T & HT & HxT & HyT). destruct (Htab T HT) as (i & _ & _ & _ & Hmem).
      etrans; [apply rtc_edge_sym; [done|]; by apply Hmem|by apply Hmem].
    + intros Hreach.
      assert (HxT : x ∈ mjoin tables) by (rewrite Hperm; apply elem_of_seq; lia).
      apply list_elem_of_join in HxT as (T & HxT & HT). exists T. split; [done|].
      split; [done|]. apply list_elem_of_lookup_1 in HT as (k & HT).
      revert y Hreach. apply (rtc_ind_r (λ y, y ∈ T)); [done|].
      intros u v _ Huv Hu.
      destruct (Hclosed k T u v HT Hu Huv) as (k' & T' & Hk' & HT' & Hv).
      destruct (Hclosed k' T' v u HT' Hv (Hsym _ _ Huv)) as (k'' & T'' & Hk'' & HT'' & Hu').
      assert (k'' = k) by (by eapply (join_unique tables k'' k T'' T u)).
      assert (k' = k) by lia. by simplify_eq.
Qed.

Lemma extractTablesFromMatrix_components_witness : rtc (edge twoTriangles) 3 5.
Proof.
  destruct (extractTablesFromMatrix_components twoTriangles [[0; 1; 2]; [3; 4; 5]])
    as [Hreach _]; [reflexivity|].
  apply (Hreach [3; 4; 5] 3 5); [right; left|reflexivity|right; right; left].
Defined.

(** X16. For [n > 0] and a first row of length [n], the result is the one
    table [[0, ..., n-1]] exactly when every index can be reached from
    index 0. *)
Theorem extractTablesFromMatrix_one_table (m : AdjacencyMatrix) :
  0 < length m → length <$> m !! 0 = Some (length m) →
  (extractTablesFromMatrix m = Normal [seq 0 (length m)]
   ↔ ∀ x, x < length m → rtc (edge m) 0 x).
Proof. apply tables_one. Qed.

Lemma extractTablesFromMatrix_one_table_witness :
  extractTablesFromMatrix square = Normal [seq 0 (length square)]
  ↔ ∀ x, x < length square → rtc (edge square) 0 x.
Proof.
  apply (extractTablesFromMatrix_one_table square); [vm_compute; lia|reflexivity].
Defined.

(** X17. The two extractors agree. For [n >= 3], when [extractTableCycle]
    returns a seating order for a matrix, [extractTablesFromMatrix] returns
    the one table [[0, ..., n-1]] for it, and the seating order is a
    permutation of that table. *)
Theorem extractTableCycle_extractTablesFromMatrix (m : AdjacencyMatrix)
    (path : list nat) :
  3 ≤ length m → extractTableCycle m = Normal path →
  extractTablesFromMatrix m = Normal [seq 0 (length m)]
  ∧ path ≡ₚ seq 0 (length m).
Proof.
  intros Hn Hpath.
  assert (Hrow : length <$> m !! 0 = Some (length m)).
  { revert Hpath. unfold extractTableCycle, ExtractTableCycle.extractTableCycle.
    change (ExtractTableCycle.n m) with (length m).
    do 3 (rewrite bool_decide_eq_false_2 by lia).
    case_bool_decide as Hrow; [done|]. intros _.
    by destruct (decide (length <$> m !! 0 = Some (length m))). }
  apply extractTableCycle_Normal in Hpath as [Hseat _]; [|done].
  apply seatingSequence_reach in Hseat as [Hperm Hreach]. split; [|done].
  apply tables_one; [lia|done..].
Qed.

Lemma extractTableCycle_extractTablesFromMatrix_witness :
  extractTablesFromMatrix square = Normal [seq 0 (length square)]
  ∧ [0; 1; 2; 3] ≡ₚ seq 0 (length square).
Proof.
  apply (extractTableCycle_extractTablesFromMatrix square [0; 1; 2; 3]);
    [vm_compute; lia|reflexivity].
Defined.

(** X18. The two searches for components agree. On a matrix that passes the
    checks, whenever [extractTablesFromMatrix] returns, its tables are the
    cycles of [findSubtours], each sorted, in the same order. *)
Theorem tables_are_sorted_subtours (m : AdjacencyMatrix) (tables : list (list nat)) :
  assertionsHold m → extractTablesFromMatrix m = Normal tables →
  tables = merge_sort le <$> findSubtours m.
Proof.
  intros Hvalid Hres. pose proof (valid_symmetric m Hvalid) as Hsym.
  apply (componentsList_unique m); [done|by apply tables_componentsList
                                    |by apply subtours_componentsList|].
  intros x. rewrite (tables_Permutation m tables Hres).
  destruct (findSubtours_valid m Hvalid) as [Hperm _]. rewrite <- Hperm.
  rewrite !list_elem_of_join. split.
  - intros (S & Hx & HS). exists (merge_sort le S). split.
    + by rewrite merge_sort_Permutation.
    + apply list_elem_of_fmap. eauto.
  - intros (T & Hx & (S & -> & HS)%list_elem_of_fmap). exists S.
    split; [|done]. by rewrite merge_sort_Permutation in Hx.
Qed.

Lemma tables_are_sorted_subtours_witness :
  [[0; 1; 2]; [3; 4; 5]] = merge_sort le <$> findSubtours twoTriangles.
Proof.
  apply (tables_are_sorted_subtours twoTriangles [[0; 1; 2]; [3; 4; 5]]);
    [exact twoTriangles_valid|reflexivity].
Defined.

(** ** The one-shot solver and its tables ([docs/solve_sitting.mjs], [docs/main.mjs]) *)

(** X19. The model of [docs/solve_sitting.mjs] has the objective and the
    binaries of the base model of [src/solve_sitting.ts], and the same
    feasible points: a valuation that satisfies the row-sum and symmetry
    constraints satisfies the additional column-sum constraints. *)
Theorem docs_model_same_feasible_points (glpk : GLPKInstance) (pref : PreferenceMatrix)
    (x : string → Q) :
  binaries (DocsSolveSitting.lpProblem glpk pref)
    = binaries (SolveSitting.baseLpProblem glpk pref)
  ∧ objective (DocsSolveSitting.lpProblem glpk pref)
    = objective (SolveSitting.baseLpProblem glpk pref)
  ∧ (feasible glpk (DocsSolveSitting.lpProblem glpk pref) x
     ↔ feasible glpk (SolveSitting.baseLpProblem glpk pref) x).
Proof. apply docs_model_same. Qed.

(** X20. Every matrix that [solveSitting] of [docs/solve_sitting.mjs] returns
    has [n] rows of [n] entries, so [extractTablesFromMatrix], which
    [docs/main.mjs] calls on it, does not throw, and its tables contain each
    of the [n] people exactly once. *)
Theorem docs_tables_of_every_result (glpk : GLPKInstance) (pref : PreferenceMatrix)
    (m : AdjacencyMatrix) :
  docs_outcome (DocsSolveSitting.solveSitting glpk pref) = Normal m →
  length m = length pref
  ∧ squareMatrix m
  ∧ ∃ tables, extractTablesFromMatrix m = Normal tables
      ∧ mjoin tables ≡ₚ seq 0 (length pref).
Proof. apply docs_tables_shape. Qed.

Lemma docs_tables_of_every_result_witness :
  length twoTriangles = length (uniformPref 6 0)
  ∧ squareMatrix twoTriangles
  ∧ ∃ tables, extractTablesFromMatrix twoTriangles = Normal tables
      ∧ mjoin tables ≡ₚ seq 0 (length (uniformPref 6 0)).
Proof.
  apply (docs_tables_of_every_result (glpkWith (λ _ _ _, optimal twoTriangles))
           (uniformPref 6 0) twoTriangles).
  vm_compute. reflexivity.
Defined.

(** X21. For [n >= 3], when the solver answers the one call with a feasible
    point of the model and status optimal or feasible, [solveSitting] of
    [docs/solve_sitting.mjs] returns a matrix that passes the checks, and
    [extractTablesFromMatrix] seats everybody, at tables of at least three
    people, each person at the table of both neighbours. *)
Theorem docs_tables_exact_solver (glpk : GLPKInstance) (pref : PreferenceMatrix)
    (x : string → Q) (s : Z) :
  let P := DocsSolveSitting.lpProblem glpk pref in
  3 ≤ length pref →
  feasible glpk P x → s = GLP_OPT glpk ∨ s = GLP_FEAS glpk →
  solve glpk 0 P (DocsSolveSitting.options glpk) = Resolved (answerOf P x s) →
  ∃ m tables,
    docs_outcome (DocsSolveSitting.solveSitting glpk pref) = Normal m
    ∧ assertionsHold m
    ∧ extractTablesFromMatrix m = Normal tables
    ∧ mjoin tables ≡ₚ seq 0 (length pref)
    ∧ ∀ T, T ∈ tables →
        3 ≤ length T ∧ ∀ u v, u ∈ T → edge m u v → v ∈ T.
Proof.
  intros P Hn Hfeas Hs Hsolve.
  assert (Hout : docs_outcome (DocsSolveSitting.solveSitting glpk pref)
                 = Normal (SolveSitting.resultMatrix pref (answerOf P x s))).
  { unfold DocsSolveSitting.solveSitting, DocsSolveSitting.n.
    repeat case_bool_decide; try lia. cbn [docs_outcome]. fold P. rewrite Hsolve.
    cbn [status answerOf]. rewrite bool_decide_eq_false_2 by (intros [? ?]; tauto). done. }
  assert (Hvalid : assertionsHold (SolveSitting.resultMatrix pref (answerOf P x s))).
  { apply (feasible_answer_valid glpk pref [] x s). 
    apply (docs_model_same glpk pref x) in Hfeas. destruct Hfeas as [Hbin Hcons].
    split; [done|]. intros c Hc. apply Hcons. simpl in Hc. by rewrite app_nil_r in Hc. }
  destruct (docs_tables_shape glpk pref _ Hout) as (_ & _ & tables & Hres & Hperm).
  exists (SolveSitting.resultMatrix pref (answerOf P x s)), tables.
  split_and!; try done.
  intros T HT. split; [by eapply valid_tables|].
  intros u v. apply (tables_closed _ tables); try done. by apply valid_symmetric.
Qed.

Lemma docs_tables_exact_solver_witness :
  ∃ m tables,
    docs_outcome (DocsSolveSitting.solveSitting (glpkWith (λ _ _ _, optimal twoTriangles))
                    (uniformPref 6 0)) = Normal m
    ∧ assertionsHold m
    ∧ extractTablesFromMatrix m = Normal tables
    ∧ mjoin tables ≡ₚ seq 0 (length (uniformPref 6 0))
    ∧ ∀ T, T ∈ tables → 3 ≤ length T ∧ ∀ u v, u ∈ T → edge m u v → v ∈ T.
Proof.
  apply (docs_tables_exact_solver (glpkWith (λ _ _ _, optimal twoTriangles))
           (uniformPref 6 0) (valuationOf twoTriangles) 5).
  - vm_compute. lia.
  - apply (docs_model_same _ (uniformPref 6 0) (valuationOf twoTriangles)). split.
    + apply valid_binaries; [exact twoTriangles_valid|reflexivity].
    + apply valid_satisfies_base; [exact twoTriangles_valid|reflexivity].
  - left. reflexivity.
  - vm_compute. reflexivity.
Defined.

(** ** The page script ([src/main.ts]) *)

(** X22. In every state that calls of [handleAddPerson], [handleRemovePerson]
    and [handleClearAll] lead to from the initial state, no two people have
    the same id, no two have the same name, every name is not empty and is
    trimmed ([trim], which strips the white space and the line terminators
    of Unicode at both ends, leaves it as it is), and [nextPersonId] is
    above every id in use. *)
Theorem handlers_keep_people_distinct (st : AppState) :
  rtc handlerStep initialState st →
  NoDup (id <$> people st)
  ∧ NoDup (person_name <$> people st)
  ∧ ∀ p, p ∈ people st →
      id p < nextPersonId st ∧ person_name p ≠ ""%string
      ∧ trim (person_name p) = person_name p.
Proof.
  intros Hreach. change (wellFormed st). revert st Hreach.
  apply (rtc_ind_r (λ st, wellFormed st)); [apply wellFormed_initial|].
  intros st st' _ Hstep IH. destruct Hstep as [value st|k st|confirmed st].
  - by apply handleAddPerson_wellFormed.
  - by apply handleRemovePerson_wellFormed.
  - destruct confirmed; [apply wellFormed_initial|done].
Qed.

Lemma handlers_keep_people_distinct_witness :
  people (handleAddPerson "Bob" (handleAddPerson annTyped initialState)) = [ann; bob]
  ∧ NoDup (id <$> people (handleAddPerson "Bob" (handleAddPerson annTyped initialState)))
  ∧ NoDup (person_name
             <$> people (handleAddPerson "Bob" (handleAddPerson annTyped initialState)))
  ∧ ∀ p, p ∈ people (handleAddPerson "Bob" (handleAddPerson annTyped initialState)) →
      id p < nextPersonId (handleAddPerson "Bob" (handleAddPerson annTyped initialState))
      ∧ person_name p ≠ ""%string
      ∧ trim (person_name p) = person_name p.
Proof.
  split; [reflexivity|].
  apply (handlers_keep_people_distinct
           (handleAddPerson "Bob" (handleAddPerson annTyped initialState))).
  apply (rtc_l _ _ (handleAddPerson annTyped initialState)); [apply step_handleAddPerson|].
  apply rtc_once, step_handleAddPerson.
Defined.

(** X23. With distinct ids, [handleRemovePerson] with an id that nobody has
    changes nothing. With the id [k] of a person it removes that person and
    nobody else, keeps [nextPersonId], and keeps the key [pref_want_a_b] or
    [pref_dislike_a_b] exactly when [a] is not [k]: the keys of the other
    people towards the removed person stay in [preferencesState]. *)
Theorem handleRemovePerson_cleans (k : nat) (st : AppState) :
  NoDup (id <$> people st) →
  let st' := handleRemovePerson k st in
  ((∀ p, p ∈ people st → id p ≠ k) → st' = st)
  ∧ ((∃ p, p ∈ people st ∧ id p = k) →
     people st' = filter (λ p, id p ≠ k) (people st)
     ∧ nextPersonId st' = nextPersonId st
     ∧ ∀ a b checked,
         ((wantKey a b, checked) ∈ preferencesState st'
          ↔ (wantKey a b, checked) ∈ preferencesState st ∧ id a ≠ k)
         ∧ ((dislikeKey a b, checked) ∈ preferencesState st'
            ↔ (dislikeKey a b, checked) ∈ preferencesState st ∧ id a ≠ k)).
Proof.
  intros Hnd st'. split.
  - intros Hnone. unfold st', handleRemovePerson.
    by rewrite (proj2 (findIndex_None k (people st)) Hnone).
  - intros (p & Hp & Hk). split; [by apply handleRemovePerson_people|].
    unfold st', handleRemovePerson.
    destruct (findIndex k (people st)) as [i|] eqn:Hfind.
    2:{ exfalso. by eapply (proj1 (findIndex_None _ _) Hfind). }
    cbn [people nextPersonId preferencesState]. split; [done|]. intros a b checked.
    rewrite !list_elem_of_filter. cbn [fst].
    pose proof (includes_wantKey k a b) as Hw.
    pose proof (includes_dislikeKey k a b) as Hd.
    split; split.
    + intros [Hinc Hin]. split; [done|]. intros Heq. apply Hw in Heq. congruence.
    + intros [Hin Hne]. split; [|done].
      destruct (includes _ (wantKey a b)) eqn:Hinc; [|done]. exfalso. by apply Hne, Hw.
    + intros [Hinc Hin]. split; [done|]. intros Heq. apply Hd in Heq. congruence.
    + intros [Hin Hne]. split; [|done].
      destruct (includes _ (dislikeKey a b)) eqn:Hinc; [|done]. exfalso. by apply Hne, Hd.
Qed.

Lemma handleRemovePerson_cleans_witness :
  people (handleRemovePerson 0 twoFriends) = filter (λ p, id p ≠ 0) (people twoFriends)
  ∧ (wantKey bob ann, true) ∈ preferencesState (handleRemovePerson 0 twoFriends)
  ∧ (wantKey ann bob, true) ∉ preferencesState (handleRemovePerson 0 twoFriends).
Proof.
  destruct (handleRemovePerson_cleans 0 twoFriends twoFriends_ids) as [_ Hknown].
  destruct Hknown as (Hpeople & _ & Hkeys).
  { exists ann. split; [left|reflexivity]. }
  split; [exact Hpeople|]. split.
  - apply (proj1 (Hkeys bob ann true)). split; [|discriminate]. right. left.
  - intros Hin. apply (proj1 (Hkeys ann bob true)) in Hin as [_ Hne]. by apply Hne.
Defined.

(** X24. In every state the preference matrix that [triggerSolutionUpdate]
    builds has one row for each person, each row has one entry for each
    person, and every entry is the number 0, 1 or -1. *)
Theorem preferences_matrix_shape (st : AppState) :
  let n := length (people st) in
  length (TriggerSolutionUpdate.preferences st) = n
  ∧ ∀ row, row ∈ TriggerSolutionUpdate.preferences st →
      length row = n
      ∧ ∀ v, v ∈ row → v = Some 0%Q ∨ v = Some 1%Q ∨ v = Some (-1)%Q.
Proof.
  intros n. destruct (preferences_shape st) as [Hlen Hrows]. split; [done|].
  intros row Hrow. split; [by apply Hrows|].
  assert (Hall : Forall (Forall preferenceValue) (TriggerSolutionUpdate.preferences st)).
  { unfold TriggerSolutionUpdate.preferences.
    generalize (preferencesState st) as entries.
    assert (Hinit : Forall (Forall preferenceValue)
              (replicate (TriggerSolutionUpdate.n st)
                 (replicate (TriggerSolutionUpdate.n st) (Some 0%Q)))).
    { apply Forall_replicate, Forall_replicate. by left. }
    revert Hinit. generalize (replicate (TriggerSolutionUpdate.n st)
                 (replicate (TriggerSolutionUpdate.n st) (Some 0%Q))) as M.
    intros M HM entries. revert M HM.
    induction entries as [|e entries IH]; intros M HM; [done|].
    simpl. by apply IH, storePreference_values. }
  rewrite Forall_forall in Hall. specialize (Hall row Hrow).
  rewrite Forall_forall in Hall. intros v Hv. apply (Hall v Hv).
Qed.

(** X25. With distinct ids and a [preferencesState] that holds checkbox keys
    only (also of people who were removed): when the boxes "want" and
    "dislike" of the person at index [i] towards the person at index [j] are
    not both checked, entry [(i, j)] of the preference matrix is 1 if the
    "want" box is checked, -1 if the "dislike" box is checked, and 0
    otherwise. *)
Theorem preference_matrix_of_checkboxes (st : AppState) (i j : nat) (pa pb : Person) :
  NoDup (id <$> people st) →
  people st !! i = Some pa → people st !! j = Some pb →
  (∀ key checked, (key, checked) ∈ preferencesState st →
     ∃ a b : Person, key = wantKey a b ∨ key = dislikeKey a b) →
  ¬ ((wantKey pa pb, true) ∈ preferencesState st
     ∧ (dislikeKey pa pb, true) ∈ preferencesState st) →
  TriggerSolutionUpdate.preferences st !! i ≫= (λ row : list (option Q), row !! j)
  = Some (Some (if bool_decide ((wantKey pa pb, true) ∈ preferencesState st) then 1%Q
                else if bool_decide ((dislikeKey pa pb, true) ∈ preferencesState st)
                     then (-1)%Q else 0%Q)).
Proof.
  intros Hids Hi Hj Hkeys Hexcl. unfold TriggerSolutionUpdate.preferences.
  rewrite (fold_preferences st Hids i j pa pb Hi Hj _ Hkeys Hexcl).
  - repeat case_bool_decide; try done.
    unfold TriggerSolutionUpdate.n, PreferenceMatrix in *.
    rewrite lookup_replicate_2 by (by eapply lookup_lt_Some). simpl.
    by rewrite lookup_replicate_2 by (by eapply lookup_lt_Some).
  - apply length_replicate.
  - intros row [-> _]%elem_of_replicate. apply length_replicate.
Qed.

Lemma preference_matrix_of_checkboxes_witness :
  TriggerSolutionUpdate.preferences twoFriends !! 0 ≫= (λ row : list (option Q), row !! 1)
  = Some (Some (if bool_decide ((wantKey ann bob, true) ∈ preferencesState twoFriends)
                then 1%Q
                else if bool_decide ((dislikeKey ann bob, true) ∈ preferencesState twoFriends)
                     then (-1)%Q else 0%Q)).
Proof.
  apply (preference_matrix_of_checkboxes twoFriends 0 1 ann bob twoFriends_ids);
    [reflexivity|reflexivity| |].
  - intros key checked Hin. apply elem_of_cons in Hin as [Heq|Hin].
    { injection Heq as -> _. exists ann, bob. left. reflexivity. }
    apply list_elem_of_singleton in Hin. injection Hin as -> _.
    exists bob, ann. left. reflexivity.
  - intros [_ Hin]. apply elem_of_cons in Hin as [Heq|Hin]; [discriminate Heq|].
    apply list_elem_of_singleton in Hin. discriminate Hin.
Defined.


